(** * GraphQL response shaper of dgraph: query/outputnode_graphql.go

    A shallow embedding of the encoder that joins the physical result tree
    (fastJson nodes) with a GraphQL selection set and writes the JSON
    response, together with the properties the specification states about
    it. *)

From Stdlib Require Import Strings.String Strings.Ascii Lists.List.
From Stdlib Require Import ZArith.ZArith NArith.NArith Arith.Arith Bool.Bool Lia.
Import ListNotations.

Set Warnings "-register-all".
Local Open Scope string_scope.

(* ================================================================== *)
(** ** Byte strings and bytes.Buffer *)
(* ================================================================== *)

(** Go's [string] and [[]byte] are sequences of 8-bit bytes: [string]. *)

Fixpoint take (n : nat) (s : string) : string :=
  match n, s with
  | S n', String c s' => String c (take n' s')
  | _, _ => EmptyString
  end.

Fixpoint drop (n : nat) (s : string) : string :=
  match n, s with
  | S n', String c s' => drop n' s'
  | _, _ => s
  end.

(** The double quote and the backslash, by their codes. *)
Definition dquote : ascii := "034"%char.
Definition backslash : ascii := "092"%char.

(** [quoted s] is [s] between double quotes. *)
Definition quoted (s : string) : string := String dquote (s ++ String dquote EmptyString).
Arguments quoted : simpl never.

Fixpoint lastByte (s : string) : option ascii :=
  match s with
  | EmptyString => None
  | String c EmptyString => Some c
  | String _ s' => lastByte s'
  end.

(** How a call can end: it returns, the process stops (a failed [x.Check]
    is fatal, a Go runtime error panics), or the model ran out of fuel. *)
Inductive abort : Type := FatalCheck | RuntimePanic.

Inductive outcome (A : Type) : Type :=
| Ret (a : A)
| Abort (why : abort)
| OutOfFuel.
Arguments Ret {A} a.
Arguments Abort {A} why.
Arguments OutOfFuel {A}.

Definition bind {A B : Type} (m : outcome A) (k : A -> outcome B) : outcome B :=
  match m with
  | Ret a => k a
  | Abort w => Abort w
  | OutOfFuel => OutOfFuel
  end.

Notation "x <- m ;; k" := (bind m (fun x => k))
  (at level 61, m at next level, right associativity).

Module Buffer.
(** The contents of a [bytes.Buffer] that is only written to. *)
Definition t := string.

Definition Len (out : t) : Z := Z.of_nat (String.length out).

(** [Truncate] panics when [n] is negative or beyond the length. *)
Definition Truncate (out : t) (n : Z) : outcome t :=
  if ((n <? 0) || (Len out <? n))%Z then Abort RuntimePanic
  else Ret (take (Z.to_nat n) out).

Definition WriteString (out : t) (s : string) : t := out ++ s.
Definition WriteRune (out : t) (c : ascii) : t := out ++ String c EmptyString.
End Buffer.

(* ================================================================== *)
(** ** The GraphQL schema layer (package gqlSchema) *)
(* ================================================================== *)

Module gqlSchema.

(** The interface [gqlSchema.Type], as far as the encoder observes it. *)
Inductive Type_ : Type := mkType {
  TypeString : string;          (* its [%s] rendering in error messages *)
  Nullable : bool;
  ListType : option Type_;      (* [None] is Go's nil *)
  IsGeo : bool
}.

(** The interface [gqlSchema.Field]: one selection of a selection set.
    [dgraphTypes] is a slice of strings. *)
Inductive Field : Type := mkField {
  Name : string;
  ResponseName : string;
  DgraphAlias : string;
  TypeOf : Type_;               (* the method [Type()] *)
  SelectionSet : list Field;
  Skip : bool;
  Include : bool;
  IncludeInterfaceField : list string -> bool;
  TypeName : list string -> string
}.

(** Modelled from the spec: the constants of package gqlSchema that the
    encoder names (the field names of the geo types, the geo type names
    and the error templates). *)
Definition Typename := "__typename".
Definition Coordinates := "coordinates".
Definition Longitude := "longitude".
Definition Latitude := "latitude".
Definition Points := "points".
Definition Polygons := "polygons".
Definition Point := "Point".
Definition Polygon := "Polygon".
Definition MultiPolygon := "MultiPolygon".
Definition ErrExpectedScalar := "Expected a scalar value, but got an object.".
Definition ErrExpectedNonNull :=
  "Non-nullable field '%s' (type %s) was not present in result from Dgraph.".
Definition ErrExpectedSingleItem :=
  "A list was returned, but GraphQL was expecting just one item.".
Definition ErrExpectedList :=
  "A single item was returned, but GraphQL was expecting a list.".

End gqlSchema.
Import gqlSchema.

Definition isListType (t : Type_) : bool :=
  match ListType t with Some _ => true | None => false end.

(* ================================================================== *)
(** ** encoding/json: the scanner behind [json.Valid] and [checkValid] *)
(* ================================================================== *)

(** The byte-at-a-time state machine of encoding/json (scanner.go): the
    current step function and the stack of enclosing composites, whose top
    is the head of the list.  The [endTop] flag of the Go scanner is the
    step [stateEndTop] here, and the nesting-depth limit is left out. *)

Inductive parseState : Type := parseObjectKey | parseObjectValue | parseArrayValue.

Inductive scanStep : Type :=
| stateBeginValue | stateBeginValueOrEmpty | stateBeginStringOrEmpty
| stateBeginString | stateEndValue | stateEndTop
| stateInString | stateInStringEsc
| stateInStringEscU | stateInStringEscU1 | stateInStringEscU12 | stateInStringEscU123
| stateNeg | state1 | state0 | stateDot | stateDot0 | stateE | stateESign | stateE0
| stateT | stateTr | stateTru
| stateF | stateFa | stateFal | stateFals
| stateN | stateNu | stateNul
| stateError.

Definition scanner : Type := (scanStep * list parseState)%type.

Definition isSpace (c : ascii) : bool :=
  (c =? " ")%char || (c =? "009")%char || (c =? "013")%char || (c =? "010")%char.

Definition isDigit (c : ascii) : bool :=
  let n := nat_of_ascii c in (48 <=? n)%nat && (n <=? 57)%nat.

Definition isDigit19 (c : ascii) : bool :=
  let n := nat_of_ascii c in (49 <=? n)%nat && (n <=? 57)%nat.

Definition isHex (c : ascii) : bool :=
  let n := nat_of_ascii c in
  ((48 <=? n) && (n <=? 57) || (97 <=? n) && (n <=? 102) || (65 <=? n) && (n <=? 70))%nat.

Definition scanError : scanner := (stateError, []).

Definition popParseState (ps : list parseState) : scanner :=
  match ps with
  | [] => scanError
  | _ :: [] => (stateEndTop, [])
  | _ :: rest => (stateEndValue, rest)
  end.

Definition stepEndTop (ps : list parseState) (c : ascii) : scanner :=
  if isSpace c then (stateEndTop, ps) else scanError.

Definition stepEndValue (ps : list parseState) (c : ascii) : scanner :=
  match ps with
  | [] => stepEndTop [] c
  | top :: rest =>
      if isSpace c then (stateEndValue, ps)
      else match top with
           | parseObjectKey =>
               if (c =? ":")%char then (stateBeginValue, parseObjectValue :: rest)
               else scanError
           | parseObjectValue =>
               if (c =? ",")%char then (stateBeginString, parseObjectKey :: rest)
               else if (c =? "}")%char then popParseState ps
               else scanError
           | parseArrayValue =>
               if (c =? ",")%char then (stateBeginValue, ps)
               else if (c =? "]")%char then popParseState ps
               else scanError
           end
  end.

Definition stepBeginValue (ps : list parseState) (c : ascii) : scanner :=
  if isSpace c then (stateBeginValue, ps)
  else if (c =? "{")%char then (stateBeginStringOrEmpty, parseObjectKey :: ps)
  else if (c =? "[")%char then (stateBeginValueOrEmpty, parseArrayValue :: ps)
  else if (c =? dquote)%char then (stateInString, ps)
  else if (c =? "-")%char then (stateNeg, ps)
  else if (c =? "0")%char then (state0, ps)
  else if (c =? "t")%char then (stateT, ps)
  else if (c =? "f")%char then (stateF, ps)
  else if (c =? "n")%char then (stateN, ps)
  else if isDigit19 c then (state1, ps)
  else scanError.

Definition stepBeginString (ps : list parseState) (c : ascii) : scanner :=
  if isSpace c then (stateBeginString, ps)
  else if (c =? dquote)%char then (stateInString, ps)
  else scanError.

Definition step0 (ps : list parseState) (c : ascii) : scanner :=
  if (c =? ".")%char then (stateDot, ps)
  else if (c =? "e")%char || (c =? "E")%char then (stateE, ps)
  else stepEndValue ps c.

Definition stepESign (ps : list parseState) (c : ascii) : scanner :=
  if isDigit c then (stateE0, ps) else scanError.

Definition expect (ch c : ascii) (next : scanner) : scanner :=
  if (c =? ch)%char then next else scanError.

(** One byte through the scanner: [s.step(s, c)]. *)
Definition scanByte (s : scanner) (c : ascii) : scanner :=
  let '(st, ps) := s in
  match st with
  | stateBeginValue => stepBeginValue ps c
  | stateBeginValueOrEmpty =>
      if isSpace c then (stateBeginValueOrEmpty, ps)
      else if (c =? "]")%char then stepEndValue ps c
      else stepBeginValue ps c
  | stateBeginStringOrEmpty =>
      if isSpace c then (stateBeginStringOrEmpty, ps)
      else if (c =? "}")%char then
        match ps with
        | _ :: rest => stepEndValue (parseObjectValue :: rest) c
        | [] => scanError
        end
      else stepBeginString ps c
  | stateBeginString => stepBeginString ps c
  | stateEndValue => stepEndValue ps c
  | stateEndTop => stepEndTop ps c
  | stateInString =>
      if (c =? dquote)%char then (stateEndValue, ps)
      else if (c =? backslash)%char then (stateInStringEsc, ps)
      else if (nat_of_ascii c <? 32)%nat then scanError
      else (stateInString, ps)
  | stateInStringEsc =>
      if (c =? "b")%char || (c =? "f")%char || (c =? "n")%char || (c =? "r")%char
         || (c =? "t")%char || (c =? backslash)%char || (c =? "/")%char || (c =? dquote)%char
      then (stateInString, ps)
      else if (c =? "u")%char then (stateInStringEscU, ps)
      else scanError
  | stateInStringEscU => if isHex c then (stateInStringEscU1, ps) else scanError
  | stateInStringEscU1 => if isHex c then (stateInStringEscU12, ps) else scanError
  | stateInStringEscU12 => if isHex c then (stateInStringEscU123, ps) else scanError
  | stateInStringEscU123 => if isHex c then (stateInString, ps) else scanError
  | stateNeg =>
      if (c =? "0")%char then (state0, ps)
      else if isDigit19 c then (state1, ps)
      else scanError
  | state1 => if isDigit c then (state1, ps) else step0 ps c
  | state0 => step0 ps c
  | stateDot => if isDigit c then (stateDot0, ps) else scanError
  | stateDot0 =>
      if isDigit c then (stateDot0, ps)
      else if (c =? "e")%char || (c =? "E")%char then (stateE, ps)
      else stepEndValue ps c
  | stateE =>
      if (c =? "+")%char || (c =? "-")%char then (stateESign, ps)
      else stepESign ps c
  | stateESign => stepESign ps c
  | stateE0 => if isDigit c then (stateE0, ps) else stepEndValue ps c
  | stateT => expect "r" c (stateTr, ps)
  | stateTr => expect "u" c (stateTru, ps)
  | stateTru => expect "e" c (stateEndValue, ps)
  | stateF => expect "a" c (stateFa, ps)
  | stateFa => expect "l" c (stateFal, ps)
  | stateFal => expect "s" c (stateFals, ps)
  | stateFals => expect "e" c (stateEndValue, ps)
  | stateN => expect "u" c (stateNu, ps)
  | stateNu => expect "l" c (stateNul, ps)
  | stateNul => expect "l" c (stateEndValue, ps)
  | stateError => scanError
  end.

Fixpoint scan (s : scanner) (data : string) : scanner :=
  match data with
  | EmptyString => s
  | String c rest => scan (scanByte s c) rest
  end.

(** [scanner.eof]: a last space lets a number in progress end. *)
Definition eof (s : scanner) : bool :=
  match scanByte s " "%char with
  | (stateEndTop, _) => true
  | _ => false
  end.

(** [json.Valid]: the whole text is one JSON value. *)
Definition json_Valid (data : string) : bool :=
  eof (scan (stateBeginValue, []) data).

(* ================================================================== *)
(** ** Go values behind [interface{}], decoding and [%v] *)
(* ================================================================== *)

(** Go's float64 with the two library functions the encoder reaches:
    [strconv.ParseFloat(lit, 64)] on a number literal ([None] is a range
    error) and the [%v] rendering of a float64.  Floating point is not
    computed here: the operations are a parameter of the development. *)
Record Float64Ops : Type := {
  float64 : Type;
  ParseFloat : string -> option float64;
  FormatFloat : float64 -> string
}.

Section Encoder.

Context (F : Float64Ops).

(** What [json.Unmarshal] stores in an [interface{}]. *)
Inductive value : Type :=
| VNil
| VBool (b : bool)
| VFloat (f : float64 F)
| VString (s : string)
| VSlice (l : list value)
| VMap (m : list (string * value)).

(** [map[string]interface{}]: at most one binding per key. *)
Definition gomap : Type := list (string * value).

Fixpoint mapIndex (m : gomap) (k : string) : value :=
  match m with
  | [] => VNil
  | (k', v) :: rest => if (k' =? k)%string then v else mapIndex rest k
  end.

Fixpoint mapDelete (m : gomap) (k : string) : gomap :=
  match m with
  | [] => []
  | (k', v) :: rest => if (k' =? k)%string then mapDelete rest k else (k', v) :: mapDelete rest k
  end.

Definition mapAssign (m : gomap) (k : string) (v : value) : gomap :=
  (mapDelete m k ++ [(k, v)])%list.

(** *** Decoding a text that the scanner accepted *)

Fixpoint skipSpace (s : string) : string :=
  match s with
  | String c rest => if isSpace c then skipSpace rest else s
  | EmptyString => s
  end.

Definition hexVal (c : ascii) : N :=
  let n := N_of_ascii c in
  (if n <? 58 then n - 48 else if n <? 71 then n - 55 else n - 87)%N.

Definition byteOf (n : N) : ascii := ascii_of_N (n mod 256).

(** UTF-8 of a code point below 0x110000. *)
Definition utf8 (r : N) : string :=
  (if r <? 128 then String (byteOf r) EmptyString
   else if r <? 2048 then
     String (byteOf (192 + r / 64)) (String (byteOf (128 + r mod 64)) EmptyString)
   else if r <? 65536 then
     String (byteOf (224 + r / 4096))
       (String (byteOf (128 + (r / 64) mod 64))
          (String (byteOf (128 + r mod 64)) EmptyString))
   else
     String (byteOf (240 + r / 262144))
       (String (byteOf (128 + (r / 4096) mod 64))
          (String (byteOf (128 + (r / 64) mod 64))
             (String (byteOf (128 + r mod 64)) EmptyString))))%N.

Definition hex4 (a b c d : ascii) : N :=
  (((hexVal a * 16 + hexVal b) * 16 + hexVal c) * 16 + hexVal d)%N.

Definition isSurrogate (r : N) : bool := ((55296 <=? r) && (r <? 57344))%N.

(** The body of a string literal after its opening quote: the decoded
    bytes and the text after the closing quote.  Escapes are decoded as
    [unquote] of encoding/json does; bytes that are not UTF-8 are kept as
    they are (Go replaces them by U+FFFD). *)
Fixpoint unquoteBody (fuel : nat) (s : string) : option (string * string) :=
  match fuel with
  | O => None
  | S fuel' =>
    match s with
    | EmptyString => None
    | String c rest =>
      if (c =? dquote)%char then Some (EmptyString, rest)
      else if (c =? backslash)%char then
        match rest with
        | String e rest' =>
          if (e =? "u")%char then
            match rest' with
            | String h1 (String h2 (String h3 (String h4 rest2))) =>
              let r := hex4 h1 h2 h3 h4 in
              let low :=
                match rest2 with
                | String b (String u (String l1 (String l2 (String l3 (String l4 rest3))))) =>
                    if (b =? backslash)%char && (u =? "u")%char
                    then Some (hex4 l1 l2 l3 l4, rest3) else None
                | _ => None
                end in
              let '(bytes, after) :=
                if isSurrogate r then
                  match low with
                  | Some (r2, rest3) =>
                      if ((r <? 56320) && (56320 <=? r2) && (r2 <? 57344))%N
                      then (utf8 (65536 + (r - 55296) * 1024 + (r2 - 56320))%N, rest3)
                      else (utf8 65533%N, rest2)
                  | None => (utf8 65533%N, rest2)
                  end
                else (utf8 r, rest2) in
              match unquoteBody fuel' after with
              | Some (t, r') => Some (bytes ++ t, r')
              | None => None
              end
            | _ => None
            end
          else
            let d :=
              if (e =? "b")%char then "008"%char
              else if (e =? "f")%char then "012"%char
              else if (e =? "n")%char then "010"%char
              else if (e =? "r")%char then "013"%char
              else if (e =? "t")%char then "009"%char
              else e in
            match unquoteBody fuel' rest' with
            | Some (t, r') => Some (String d t, r')
            | None => None
            end
        | EmptyString => None
        end
      else
        match unquoteBody fuel' rest with
        | Some (t, r') => Some (String c t, r')
        | None => None
        end
    end
  end.

Definition isNumberByte (c : ascii) : bool :=
  isDigit c || (c =? "-")%char || (c =? "+")%char || (c =? ".")%char
  || (c =? "e")%char || (c =? "E")%char.

(** The longest run of number bytes and what follows it. *)
Fixpoint spanNumber (s : string) : string * string :=
  match s with
  | String c rest =>
      if isNumberByte c then let '(lit, r) := spanNumber rest in (String c lit, r)
      else (EmptyString, s)
  | EmptyString => (EmptyString, EmptyString)
  end.

Section DecodeComposite.
Variable decodeValue : string -> option (value * string).

(** The elements of an array after the first, up to the closing bracket. *)
Fixpoint decodeElements (fuel : nat) (acc : list value) (s : string)
  : option (value * string) :=
  match fuel with
  | O => None
  | S fuel' =>
    match skipSpace s with
    | String c rest =>
      if (c =? "]")%char then Some (VSlice acc, rest)
      else if (c =? ",")%char then
        match decodeValue (skipSpace rest) with
        | Some (v, r) => decodeElements fuel' (acc ++ [v])%list r
        | None => None
        end
      else None
    | EmptyString => None
    end
  end.

Definition decodeMember (s : string) : option (string * value * string) :=
  match skipSpace s with
  | String c rest =>
    if (c =? dquote)%char then
      match unquoteBody (S (String.length rest)) rest with
      | Some (k, r) =>
        match skipSpace r with
        | String c' r' =>
          if (c' =? ":")%char then
            match decodeValue (skipSpace r') with
            | Some (v, r2) => Some (k, v, r2)
            | None => None
            end
          else None
        | EmptyString => None
        end
      | None => None
      end
    else None
  | EmptyString => None
  end.

(** The members of an object after the first, up to the closing brace. *)
Fixpoint decodeMembers (fuel : nat) (acc : gomap) (s : string)
  : option (value * string) :=
  match fuel with
  | O => None
  | S fuel' =>
    match skipSpace s with
    | String c rest =>
      if (c =? "}")%char then Some (VMap acc, rest)
      else if (c =? ",")%char then
        match decodeMember rest with
        | Some (k, v, r) => decodeMembers fuel' (mapAssign acc k v) r
        | None => None
        end
      else None
    | EmptyString => None
    end
  end.
End DecodeComposite.

(** One value at the head of [s] (white space already skipped). *)
Fixpoint decodeValue (fuel : nat) (s : string) : option (value * string) :=
  match fuel with
  | O => None
  | S fuel' =>
    match s with
    | EmptyString => None
    | String c rest =>
      if (c =? "{")%char then
        match skipSpace rest with
        | String c' r' =>
          if (c' =? "}")%char then Some (VMap [], r')
          else
            match decodeMember (decodeValue fuel') rest with
            | Some (k, v, r) =>
                decodeMembers (decodeValue fuel') fuel' (mapAssign [] k v) r
            | None => None
            end
        | EmptyString => None
        end
      else if (c =? "[")%char then
        match skipSpace rest with
        | String c' r' =>
          if (c' =? "]")%char then Some (VSlice [], r')
          else
            match decodeValue fuel' (skipSpace rest) with
            | Some (v, r) => decodeElements (decodeValue fuel') fuel' [v] r
            | None => None
            end
        | EmptyString => None
        end
      else if (c =? dquote)%char then
        match unquoteBody (S (String.length rest)) rest with
        | Some (t, r) => Some (VString t, r)
        | None => None
        end
      else if (c =? "t")%char then Some (VBool true, drop 3 rest)
      else if (c =? "f")%char then Some (VBool false, drop 4 rest)
      else if (c =? "n")%char then Some (VNil, drop 3 rest)
      else
        let '(lit, r) := spanNumber s in
        match ParseFloat F lit with
        | Some f => Some (VFloat f, r)
        | None => None
        end
    end
  end.

(** [json.Unmarshal(data, &m)] for a nil [m] of type
    [map[string]interface{}]: [None] is an error; [Some None] leaves [m]
    nil (the text is null); [Some (Some m)] is the decoded object.  As in
    encoding/json the text is first checked by the scanner. *)
Definition json_Unmarshal (data : string) : option (option gomap) :=
  if json_Valid data then
    match decodeValue (S (String.length data)) (skipSpace data) with
    | Some (VMap m, _) => Some (Some m)
    | Some (VNil, _) => Some None
    | _ => None
    end
  else None.

(** *** [fmt.Sprintf("%v", x)] on such a value *)

Fixpoint joinWith (sep : string) (l : list string) : string :=
  match l with
  | [] => EmptyString
  | [x] => x
  | x :: rest => x ++ sep ++ joinWith sep rest
  end.

Fixpoint insertByKey (kv : string * string) (l : list (string * string))
  : list (string * string) :=
  match l with
  | [] => [kv]
  | kv' :: rest =>
      if String.leb (fst kv) (fst kv') then kv :: l else kv' :: insertByKey kv rest
  end.

Definition sortByKey (l : list (string * string)) : list (string * string) :=
  fold_right insertByKey [] l.

(** Maps print with their keys in sorted order, slices with spaces. *)
Fixpoint fmtV (v : value) : string :=
  match v with
  | VNil => "<nil>"
  | VBool b => if b then "true" else "false"
  | VFloat f => FormatFloat F f
  | VString s => s
  | VSlice l => "[" ++ joinWith " " (map fmtV l) ++ "]"
  | VMap m =>
      "map["
      ++ joinWith " "
           (map (fun kv => fst kv ++ ":" ++ snd kv)
              (sortByKey (map (fun kv => (fst kv, fmtV (snd kv))) m)))
      ++ "]"
  end.

(** The type assertion [v.([]interface{})] with the comma-ok form:
    [None] is the nil slice. *)
Definition asSlice (v : value) : option (list value) :=
  match v with VSlice l => Some l | _ => None end.

Definition asString (v : value) : string :=
  match v with VString s => s | _ => EmptyString end.

Definition sliceOrNil (o : option (list value)) : list value :=
  match o with Some l => l | None => [] end.

(** [coordinate[i]]: out of range is a runtime panic. *)
Definition index (coordinate : list value) (i : nat) : outcome value :=
  match nth_error coordinate i with
  | Some v => Ret v
  | None => Abort RuntimePanic
  end.

(* ================================================================== *)
(** ** The physical result tree and the encoder's view of it *)
(* ================================================================== *)

(** What [enc.getScalarVal] returns: an error, or the bytes, which may be
    nil. *)
Inductive scalarVal : Type :=
| ScalarErr (err : string)
| ScalarVal (val : option string).

(** A fastJson node.  The encoder's accessors [enc.getAttr], [enc.getList],
    [enc.getScalarVal] and [enc.children] read it; the chain of [next]
    pointers that starts at the first child is the list [children], so a
    cursor into it is a list whose head is the current node and whose tail
    is [next], and nil is the empty list. *)
Inductive fastJsonNode : Type := mkNode {
  getAttr : N;
  getList : bool;
  getScalarVal : scalarVal;
  children : list fastJsonNode
}.

(** Modelled from the spec: the attribute interner of the encoder
    (section 4.1), a table between attribute names and 16-bit ids that is
    read-only during shaping. *)
Record encoder : Type := {
  idForAttr : string -> N;
  attrForID : N -> string
}.

(** *** Errors *)

Inductive PathElem : Type :=
| PathName (s : string)
| PathIndex (i : Z).

Inductive ErrArg : Type :=
| ArgString (s : string)
| ArgType (t : Type_)
| ArgMap (m : option gomap).

(** A [*x.GqlError]: the message is kept as its format and arguments, the
    field gives the locations. *)
Record GqlError : Type := {
  ErrField : option Field;
  ErrPath : list PathElem;
  ErrFormat : string;
  ErrArgs : list ErrArg
}.

(** [field.GqlErrorf(path, format, args...)] *)
Definition GqlErrorf (f : Field) (path : list PathElem) (format : string)
  (args : list ErrArg) : GqlError :=
  {| ErrField := Some f; ErrPath := path; ErrFormat := format; ErrArgs := args |}.

(** [x.GqlErrorf(msg).WithPath(path)] *)
Definition x_GqlErrorf_WithPath (msg : string) (path : list PathElem) : GqlError :=
  {| ErrField := None; ErrPath := path; ErrFormat := msg; ErrArgs := [] |}.

(* ================================================================== *)
(** ** The functions of outputnode_graphql.go *)
(* ================================================================== *)

Definition writeKeyGraphQL (field : Field) (out : Buffer.t) : Buffer.t :=
  let out := Buffer.WriteRune out dquote in
  let out := Buffer.WriteString out (ResponseName field) in
  Buffer.WriteString out (String dquote ":").

Definition skipField (f : Field) (dgraphTypes : list string) : bool :=
  if Skip f || negb (Include f) then true
  else if (0 <? List.length dgraphTypes)%nat && negb (IncludeInterfaceField f dgraphTypes)
  then true
  else false.

Definition checkAndStripComma (buf : Buffer.t) : Buffer.t :=
  match lastByte buf with
  | Some c => if (c =? ",")%char then take (String.length buf - 1) buf else buf
  | None => buf
  end.

(** Returns whether a value was written, and the buffer. *)
Definition writeGraphQLNull (f : Field) (out : Buffer.t) (keyEndPos : Z)
  : outcome (bool * Buffer.t) :=
  out <- Buffer.Truncate out keyEndPos ;;
  if isListType (TypeOf f) then Ret (true, Buffer.WriteString out "[]")
  else if Nullable (TypeOf f) then Ret (true, Buffer.WriteString out "null")
  else Ret (false, out).

(** *** Geo completion *)

Fixpoint completePoint_fields (fs : list Field) (coordinate : list value)
  (comma : string) (buf : Buffer.t) : outcome Buffer.t :=
  match fs with
  | [] => Ret buf
  | f :: rest =>
      let buf := Buffer.WriteString buf comma in
      let buf := writeKeyGraphQL f buf in
      buf <- (if (Name f =? Longitude)%string then
                v <- index coordinate 0 ;; Ret (Buffer.WriteString buf (fmtV v))
              else if (Name f =? Latitude)%string then
                v <- index coordinate 1 ;; Ret (Buffer.WriteString buf (fmtV v))
              else if (Name f =? Typename)%string then
                Ret (Buffer.WriteString buf (quoted "Point"))
              else Ret buf) ;;
      completePoint_fields rest coordinate "," buf
  end.

Definition completePoint (field : Field) (coordinate : list value) (buf : Buffer.t)
  : outcome Buffer.t :=
  let buf := Buffer.WriteRune buf "{" in
  buf <- completePoint_fields (SelectionSet field) coordinate EmptyString buf ;;
  Ret (Buffer.WriteRune buf "}").

(** [for _, point := range r] of completePolygon *)
Fixpoint completePolygon_points (f2 : Field) (r : list value) (comma4 : string)
  (buf : Buffer.t) : outcome Buffer.t :=
  match r with
  | [] => Ret buf
  | point :: rest =>
      let buf := Buffer.WriteString buf comma4 in
      buf <- completePoint f2 (sliceOrNil (asSlice point)) buf ;;
      completePolygon_points f2 rest "," buf
  end.

(** [for _, f2 := range f1.SelectionSet()] *)
Fixpoint completePolygon_ringFields (fs2 : list Field) (ring : value)
  (comma3 : string) (buf : Buffer.t) : outcome Buffer.t :=
  match fs2 with
  | [] => Ret buf
  | f2 :: rest =>
      let buf := Buffer.WriteString buf comma3 in
      let buf := writeKeyGraphQL f2 buf in
      buf <- (if (Name f2 =? Points)%string then
                let buf := Buffer.WriteRune buf "[" in
                buf <- completePolygon_points f2 (sliceOrNil (asSlice ring))
                         EmptyString buf ;;
                Ret (Buffer.WriteRune buf "]")
              else if (Name f2 =? Typename)%string then
                Ret (Buffer.WriteString buf (quoted "PointList"))
              else Ret buf) ;;
      completePolygon_ringFields rest ring "," buf
  end.

(** [for _, ring := range polygon] *)
Fixpoint completePolygon_rings (f1 : Field) (polygon : list value) (comma2 : string)
  (buf : Buffer.t) : outcome Buffer.t :=
  match polygon with
  | [] => Ret buf
  | ring :: rest =>
      let buf := Buffer.WriteString buf comma2 in
      let buf := Buffer.WriteRune buf "{" in
      buf <- completePolygon_ringFields (SelectionSet f1) ring EmptyString buf ;;
      let buf := Buffer.WriteRune buf "}" in
      completePolygon_rings f1 rest "," buf
  end.

(** [for _, f1 := range field.SelectionSet()] *)
Fixpoint completePolygon_fields (fs1 : list Field) (polygon : list value)
  (comma1 : string) (buf : Buffer.t) : outcome Buffer.t :=
  match fs1 with
  | [] => Ret buf
  | f1 :: rest =>
      let buf := Buffer.WriteString buf comma1 in
      let buf := writeKeyGraphQL f1 buf in
      buf <- (if (Name f1 =? Coordinates)%string then
                let buf := Buffer.WriteRune buf "[" in
                buf <- completePolygon_rings f1 polygon EmptyString buf ;;
                Ret (Buffer.WriteRune buf "]")
              else if (Name f1 =? Typename)%string then
                Ret (Buffer.WriteString buf (quoted "Polygon"))
              else Ret buf) ;;
      completePolygon_fields rest polygon "," buf
  end.

Definition completePolygon (field : Field) (polygon : list value) (buf : Buffer.t)
  : outcome Buffer.t :=
  let buf := Buffer.WriteRune buf "{" in
  buf <- completePolygon_fields (SelectionSet field) polygon EmptyString buf ;;
  Ret (Buffer.WriteRune buf "}").

(** [for _, polygon := range multiPolygon] *)
Fixpoint completeMultiPolygon_polygons (f : Field) (multiPolygon : list value)
  (comma2 : string) (buf : Buffer.t) : outcome Buffer.t :=
  match multiPolygon with
  | [] => Ret buf
  | polygon :: rest =>
      let buf := Buffer.WriteString buf comma2 in
      buf <- completePolygon f (sliceOrNil (asSlice polygon)) buf ;;
      completeMultiPolygon_polygons f rest "," buf
  end.

Fixpoint completeMultiPolygon_fields (fs : list Field) (multiPolygon : list value)
  (comma1 : string) (buf : Buffer.t) : outcome Buffer.t :=
  match fs with
  | [] => Ret buf
  | f :: rest =>
      let buf := Buffer.WriteString buf comma1 in
      let buf := writeKeyGraphQL f buf in
      buf <- (if (Name f =? Polygons)%string then
                let buf := Buffer.WriteRune buf "[" in
                buf <- completeMultiPolygon_polygons f multiPolygon EmptyString buf ;;
                Ret (Buffer.WriteRune buf "]")
              else if (Name f =? Typename)%string then
                Ret (Buffer.WriteString buf (quoted "MultiPolygon"))
              else Ret buf) ;;
      completeMultiPolygon_fields rest multiPolygon "," buf
  end.

Definition completeMultiPolygon (field : Field) (multiPolygon : list value)
  (buf : Buffer.t) : outcome Buffer.t :=
  let buf := Buffer.WriteRune buf "{" in
  buf <- completeMultiPolygon_fields (SelectionSet field) multiPolygon EmptyString buf ;;
  Ret (Buffer.WriteRune buf "}").

(** [val[k]] on a map that may be nil. *)
Definition mapIndexNil (val : option gomap) (k : string) : value :=
  match val with Some m => mapIndex m k | None => VNil end.

(** Returns the buffer and the error, [None] being nil. *)
Definition completeGeoObject (path : list PathElem) (field : Field)
  (val : option gomap) (buf : Buffer.t) : outcome (Buffer.t * option GqlError) :=
  match asSlice (mapIndexNil val Coordinates) with
  | None =>
      Ret (buf, Some (GqlErrorf field path "missing coordinates in geojson value: %v"
                        [ArgMap val]))
  | Some coordinate =>
      let typ := asString (mapIndexNil val "type") in
      if (typ =? Point)%string then
        buf <- completePoint field coordinate buf ;; Ret (buf, None)
      else if (typ =? Polygon)%string then
        buf <- completePolygon field coordinate buf ;; Ret (buf, None)
      else if (typ =? MultiPolygon)%string then
        buf <- completeMultiPolygon field coordinate buf ;; Ret (buf, None)
      else
        Ret (buf, Some (GqlErrorf field path "unsupported geo type: %s" [ArgString typ]))
  end.

(** *** encodeGraphQL *)

(** What a call leaves behind: its return value, the buffer and the error
    list. *)
Record result : Type := {
  res_ok : bool;
  res_out : Buffer.t;
  res_errs : list GqlError
}.

(** [for next != nil && enc.getAttr(next) == attrId { next = next.next }] *)
Fixpoint skipAttr (attrId : N) (next : list fastJsonNode) : list fastJsonNode :=
  match next with
  | n :: rest => if (getAttr n =? attrId)%N then skipAttr attrId rest else next
  | [] => []
  end.

(** The same loop when it also moves [cur]:
    [for next != nil && enc.getAttr(next) == attrId { cur = next; next = next.next }] *)
Fixpoint skipAttrCur (attrId : N) (cur : fastJsonNode) (next : list fastJsonNode)
  : fastJsonNode * list fastJsonNode :=
  match next with
  | n :: rest => if (getAttr n =? attrId)%N then skipAttrCur attrId n rest else (cur, next)
  | [] => (cur, [])
  end.

(** The loop that saves the values of the leading dgraph.type children.
    [typeStr[1 : len(typeStr)-1]] panics on fewer than two bytes. *)
Fixpoint harvestTypes (dgraphTypeAttrId : N) (parentPath : list PathElem)
  (child : list fastJsonNode) (dgraphTypes : list string) (errList : list GqlError)
  : outcome (list fastJsonNode * list string * list GqlError) :=
  match child with
  | [] => Ret ([], dgraphTypes, errList)
  | c :: next =>
      if (getAttr c =? dgraphTypeAttrId)%N then
        match getScalarVal c with
        | ScalarErr err =>
            harvestTypes dgraphTypeAttrId parentPath next dgraphTypes
              (errList ++ [x_GqlErrorf_WithPath err parentPath])%list
        | ScalarVal val =>
            let typeStr := match val with Some b => b | None => EmptyString end in
            if (String.length typeStr <? 2)%nat then Abort RuntimePanic
            else
              harvestTypes dgraphTypeAttrId parentPath next
                (dgraphTypes ++ [substring 1 (String.length typeStr - 2) typeStr])%list
                errList
        end
      else Ret (child, dgraphTypes, errList)
  end.

(** The variables of the main loop that live across iterations.  [child]
    is the cursor; [curSelection], [cur], [next] and [nullWritten] are set
    afresh in every iteration. *)
Record loopState : Type := {
  child : list fastJsonNode;
  cnt : nat;
  i : nat;
  keyEndPos : Z;
  curSelectionIsList : bool;
  lout : Buffer.t;
  lerrs : list GqlError
}.

(** An iteration either goes on to the next one or returns from
    encodeGraphQL. *)
Inductive loopStep : Type :=
| Continue (st : loopState)
| Return (r : result).

(** After Step-2 of an iteration that did not return. *)
Record valueStep : Type := {
  v_out : Buffer.t;
  v_errs : list GqlError;
  v_nullWritten : bool;
  v_child : list fastJsonNode;
  v_cur : fastJsonNode;
  v_next : list fastJsonNode
}.

Definition encodeFn : Type :=
  fastJsonNode -> Buffer.t -> list GqlError -> N -> list Field -> Field ->
  list PathElem -> outcome result.

Section Frame.

(** One activation of encodeGraphQL past the harvest of dgraph.type:
    [rec] is the recursive call. *)
Variable enc : encoder.
Variable rec : encodeFn.
Variable fj : fastJsonNode.
Variable dgraphTypeAttrId : N.
Variable childSelectionSet : list Field.
Variable parentPath : list PathElem.
Variable dgraphTypes : list string.

Definition typenameValue (curSelection : Field) : string :=
  quoted (TypeName curSelection dgraphTypes).

Definition errExpectedNonNull (curSelection : Field) : GqlError :=
  GqlErrorf curSelection (parentPath ++ [PathName (ResponseName curSelection)])%list
    ErrExpectedNonNull [ArgString (Name curSelection); ArgType (TypeOf curSelection)].

(** Step-2 of the main loop: write the JSON value. *)
Definition writeValue (curSelection : Field) (cur : fastJsonNode)
  (next : list fastJsonNode) (cnt : nat) (keyEndPos : Z) (curSelectionIsList : bool)
  (out : Buffer.t) (errList : list GqlError) : outcome (result + valueStep) :=
  let path := (parentPath ++ [PathName (ResponseName curSelection)])%list in
  if (Name curSelection =? Typename)%string then
    Ret (inr {| v_out := Buffer.WriteString out (typenameValue curSelection);
                v_errs := errList; v_nullWritten := false;
                v_child := cur :: next; v_cur := cur; v_next := next |})
  else if negb (DgraphAlias curSelection =? attrForID enc (getAttr cur))%string then
    w <- writeGraphQLNull curSelection out keyEndPos ;;
    let '(nullWritten, out) := w in
    if negb nullWritten then
      Ret (inl {| res_ok := false; res_out := out;
                  res_errs := (errList ++ [errExpectedNonNull curSelection])%list |})
    else
      Ret (inr {| v_out := out; v_errs := errList; v_nullWritten := nullWritten;
                  v_child := cur :: next; v_cur := cur; v_next := next |})
  else if curSelectionIsList && getList cur then
    (* case 1 *)
    let itemPos := Buffer.Len out in
    r <- rec cur out errList dgraphTypeAttrId (SelectionSet curSelection) curSelection
           (path ++ [PathIndex (Z.of_nat cnt - 1)])%list ;;
    if negb (res_ok r) then
      match ListType (TypeOf curSelection) with
      | None => Abort RuntimePanic
      | Some item =>
        if Nullable item then
          out' <- Buffer.Truncate (res_out r) itemPos ;;
          Ret (inr {| v_out := Buffer.WriteString out' "null"; v_errs := res_errs r;
                      v_nullWritten := false;
                      v_child := next; v_cur := cur; v_next := next |})
        else if Nullable (TypeOf curSelection) then
          out' <- Buffer.Truncate (res_out r) keyEndPos ;;
          let attrId := idForAttr enc (DgraphAlias curSelection) in
          let '(cur', next') := skipAttrCur attrId cur next in
          Ret (inr {| v_out := Buffer.WriteString out' "null"; v_errs := res_errs r;
                      v_nullWritten := true;
                      v_child := next'; v_cur := cur'; v_next := next' |})
        else
          Ret (inl {| res_ok := false; res_out := res_out r; res_errs := res_errs r |})
      end
    else
      Ret (inr {| v_out := res_out r; v_errs := res_errs r; v_nullWritten := false;
                  v_child := next; v_cur := cur; v_next := next |})
  else if negb curSelectionIsList
          && (negb (getList cur) || (getAttr fj =? idForAttr enc "_root_")%N) then
    (* case 4 *)
    r <- rec cur out errList dgraphTypeAttrId (SelectionSet curSelection) curSelection
           path ;;
    if negb (res_ok r) then
      w <- writeGraphQLNull curSelection (res_out r) keyEndPos ;;
      let '(nullWritten, out') := w in
      if negb nullWritten then
        Ret (inl {| res_ok := false; res_out := out'; res_errs := res_errs r |})
      else
        Ret (inr {| v_out := out'; v_errs := res_errs r; v_nullWritten := nullWritten;
                    v_child := next; v_cur := cur; v_next := next |})
    else
      Ret (inr {| v_out := res_out r; v_errs := res_errs r; v_nullWritten := false;
                  v_child := next; v_cur := cur; v_next := next |})
  else if negb curSelectionIsList then
    (* case 3 *)
    let errList :=
      (errList ++ [GqlErrorf curSelection path ErrExpectedSingleItem []])%list in
    w <- writeGraphQLNull curSelection out keyEndPos ;;
    let '(nullWritten, out) := w in
    if negb nullWritten then
      Ret (inl {| res_ok := false; res_out := out; res_errs := errList |})
    else
      let attrId := idForAttr enc (DgraphAlias curSelection) in
      let next' := skipAttr attrId next in
      Ret (inr {| v_out := out; v_errs := errList; v_nullWritten := nullWritten;
                  v_child := next'; v_cur := cur; v_next := next' |})
  else
    (* case 2 *)
    let errList := (errList ++ [GqlErrorf curSelection path ErrExpectedList []])%list in
    w <- writeGraphQLNull curSelection out keyEndPos ;;
    let '(nullWritten, out) := w in
    if negb nullWritten then
      Ret (inl {| res_ok := false; res_out := out; res_errs := errList |})
    else
      Ret (inr {| v_out := out; v_errs := errList; v_nullWritten := nullWritten;
                  v_child := next; v_cur := cur; v_next := next |}).

(** [next == nil || enc.getAttr(cur) != enc.getAttr(next)] *)
Definition selectionDrained (cur : fastJsonNode) (next : list fastJsonNode) : bool :=
  match next with
  | [] => true
  | n :: _ => negb (getAttr cur =? getAttr n)%N
  end.

(** Step-3 and Step-4: close the array, move to the next selection and
    write the comma. *)
Definition closeValue (cnt i : nat) (keyEndPos : Z) (curSelectionIsList : bool)
  (v : valueStep) : loopState :=
  let drained := selectionDrained (v_cur v) (v_next v) in
  let out :=
    if drained && curSelectionIsList && negb (v_nullWritten v)
    then Buffer.WriteRune (v_out v) "]" else v_out v in
  let cnt := if drained then O else cnt in
  let i := if drained then S i else i in
  let out :=
    if (i <? List.length childSelectionSet)%nat then Buffer.WriteRune out "," else out in
  {| child := v_child v; cnt := cnt; i := i; keyEndPos := keyEndPos;
     curSelectionIsList := curSelectionIsList; lout := out; lerrs := v_errs v |}.

(** Step-1: on the first item of a selection write the JSON key, note
    where it ends and open the array of a list. *)
Definition startValue (curSelection : Field) (cnt : nat) (st : loopState)
  : Buffer.t * Z * bool :=
  if (cnt =? 1)%nat then
    let out := writeKeyGraphQL curSelection (lout st) in
    let isL := isListType (TypeOf curSelection) in
    (if isL then Buffer.WriteRune out "[" else out, Buffer.Len out, isL)
  else (lout st, keyEndPos st, curSelectionIsList st).

(** The body of [for child != nil && i < len(childSelectionSet)]. *)
Definition loopBody (st : loopState) : outcome loopStep :=
  match child st, nth_error childSelectionSet (i st) with
  | cur :: next, Some curSelection =>
    let cnt := S (cnt st) in
    if skipField curSelection dgraphTypes then
      let i := S (i st) in
      let out :=
        if (i =? List.length childSelectionSet)%nat
        then checkAndStripComma (lout st) else lout st in
      let attrId := idForAttr enc (DgraphAlias curSelection) in
      let child :=
        if (getAttr cur =? attrId)%N then skipAttr attrId next else child st in
      Ret (Continue {| child := child; cnt := O; i := i; keyEndPos := keyEndPos st;
                       curSelectionIsList := curSelectionIsList st;
                       lout := out; lerrs := lerrs st |})
    else
      let '(out, keyEndPos, curSelectionIsList) := startValue curSelection cnt st in
      r <- writeValue curSelection cur next cnt keyEndPos curSelectionIsList out
             (lerrs st) ;;
      match r with
      | inl res => Ret (Return res)
      | inr v => Ret (Continue (closeValue cnt (i st) keyEndPos curSelectionIsList v))
      end
  | _, _ => Abort RuntimePanic
  end.

Fixpoint mainLoop (fuel : nat) (st : loopState) : outcome loopStep :=
  match child st with
  | [] => Ret (Continue st)
  | _ :: _ =>
    if (i st <? List.length childSelectionSet)%nat then
      match fuel with
      | O => OutOfFuel
      | S fuel' =>
        s <- loopBody st ;;
        match s with
        | Continue st' => mainLoop fuel' st'
        | Return r => Ret (Return r)
        end
      end
    else Ret (Continue st)
  end.

(** [for i < len(childSelectionSet)]: the selections that are left when
    the data has run out; [rest] is [childSelectionSet[i:]]. *)
Fixpoint tailLoop (rest : list Field) (out : Buffer.t) (errList : list GqlError)
  : outcome result :=
  match rest with
  | [] => Ret {| res_ok := true; res_out := out; res_errs := errList |}
  | curSelection :: rest' =>
    if skipField curSelection dgraphTypes then
      let out := match rest' with [] => checkAndStripComma out | _ => out end in
      tailLoop rest' out errList
    else
      let out := writeKeyGraphQL curSelection out in
      if (Name curSelection =? Typename)%string then
        let out := Buffer.WriteString out (typenameValue curSelection) in
        let out := match rest' with [] => out | _ => Buffer.WriteRune out "," end in
        tailLoop rest' out errList
      else
        w <- writeGraphQLNull curSelection out (Buffer.Len out) ;;
        let '(written, out) := w in
        if negb written then
          Ret {| res_ok := false; res_out := out;
                 res_errs := (errList ++ [errExpectedNonNull curSelection])%list |}
        else
          let out := match rest' with [] => out | _ => Buffer.WriteRune out "," end in
          tailLoop rest' out errList
    end.

End Frame.

(** The state in which the main loop starts. *)
Definition initState (child : list fastJsonNode) (out : Buffer.t)
  (errList : list GqlError) : loopState :=
  {| child := child; cnt := O; i := O; keyEndPos := 0%Z; curSelectionIsList := false;
     lout := out; lerrs := errList |}.

(** The scalar case of encodeGraphQL: [fj] has no children. *)
Definition encodeScalar (fj : fastJsonNode) (out : Buffer.t) (errList : list GqlError)
  (parentField : Field) (parentPath : list PathElem) : outcome result :=
  match getScalarVal fj with
  | ScalarErr err =>
      Ret {| res_ok := false; res_out := out;
             res_errs := (errList ++ [GqlErrorf parentField parentPath err []])%list |}
  | ScalarVal None =>
      Ret {| res_ok := isListType (TypeOf parentField); res_out := out; res_errs := errList |}
  | ScalarVal (Some val) =>
      if IsGeo (TypeOf parentField) then
        match json_Unmarshal val with
        | None => Abort FatalCheck
        | Some geoVal =>
            g <- completeGeoObject parentPath parentField geoVal out ;;
            match g with
            | (out, Some err) =>
                Ret {| res_ok := false; res_out := out; res_errs := (errList ++ [err])%list |}
            | (out, None) => Ret {| res_ok := true; res_out := out; res_errs := errList |}
            end
        end
      else Ret {| res_ok := true; res_out := Buffer.WriteString out val; res_errs := errList |}
  end.

Fixpoint encodeGraphQL (fuel : nat) (enc : encoder) (fj : fastJsonNode)
  (out : Buffer.t) (errList : list GqlError) (dgraphTypeAttrId : N)
  (childSelectionSet : list Field) (parentField : Field)
  (parentPath : list PathElem) : outcome result :=
  match fuel with
  | O => OutOfFuel
  | S fuel' =>
    match children fj with
    | [] => encodeScalar fj out errList parentField parentPath
    | _ :: _ =>
      if (List.length childSelectionSet =? 0)%nat then
        Ret {| res_ok := false; res_out := out;
               res_errs := (errList ++ [GqlErrorf parentField parentPath ErrExpectedScalar []])%list |}
      else
        let out := Buffer.WriteRune out "{" in
        h <- harvestTypes dgraphTypeAttrId parentPath (children fj) [] errList ;;
        let '(child, dgraphTypes, errList) := h in
        s <- mainLoop enc (encodeGraphQL fuel' enc) fj dgraphTypeAttrId childSelectionSet
               parentPath dgraphTypes fuel' (initState child out errList) ;;
        match s with
        | Return r => Ret r
        | Continue st =>
            r <- tailLoop parentPath dgraphTypes (skipn (i st) childSelectionSet)
                   (lout st) (lerrs st) ;;
            if res_ok r then
              Ret {| res_ok := true; res_out := Buffer.WriteRune (res_out r) "}"; res_errs := res_errs r |}
            else Ret r
        end
    end
  end.

End Encoder.


Arguments VNil {F}.
Arguments VBool {F} b.
Arguments VFloat {F} f.
Arguments VString {F} s.
Arguments VSlice {F} l.
Arguments VMap {F} m.
Arguments ArgString {F} s.
Arguments ArgType {F} t.
Arguments ArgMap {F} m.
Arguments asSlice {F} v.
Arguments asString {F} v.
Arguments sliceOrNil {F} o.
Arguments index {F} coordinate i.
Arguments fmtV {F} v.
Arguments mapIndex {F} m k.
Arguments mapIndexNil {F} val k.
Arguments GqlErrorf {F} f path format args.
Arguments completePoint_fields {F} fs coordinate comma buf.
Arguments completePoint {F} field coordinate buf.
Arguments completePolygon_points {F} f2 r comma4 buf.
Arguments completePolygon_ringFields {F} fs2 ring comma3 buf.
Arguments completePolygon_rings {F} f1 polygon comma2 buf.
Arguments completePolygon_fields {F} fs1 polygon comma1 buf.
Arguments completePolygon {F} field polygon buf.
Arguments completeMultiPolygon_polygons {F} f multiPolygon comma2 buf.
Arguments completeMultiPolygon_fields {F} fs multiPolygon comma1 buf.
Arguments completeMultiPolygon {F} field multiPolygon buf.
Arguments completeGeoObject {F} path field val buf.
Arguments res_ok {F} r.
Arguments res_out {F} r.
Arguments res_errs {F} r.
Arguments Build_result {F} res_ok res_out res_errs.
Arguments child {F} l.
Arguments cnt {F} l.
Arguments i {F} l.
Arguments keyEndPos {F} l.
Arguments curSelectionIsList {F} l.
Arguments lout {F} l.
Arguments lerrs {F} l.
Arguments Build_loopState {F}.
Arguments Continue {F} st.
Arguments Return {F} r.
Arguments v_out {F} v.
Arguments v_errs {F} v.
Arguments v_nullWritten {F} v.
Arguments v_child {F} v.
Arguments v_cur {F} v.
Arguments v_next {F} v.
Arguments Build_valueStep {F}.

(* ================================================================== *)
(** ** The shape of an emitted geo object *)
(* ================================================================== *)

(** A JSON text as a tree: a value written as it is, an array, or an
    object whose members are a key with the value written after it,
    [None] when nothing follows the colon. *)
Inductive jtree : Type :=
| JText (s : string)
| JArray (items : list jtree)
| JObject (members : list (string * option jtree)).

Fixpoint render (t : jtree) : string :=
  match t with
  | JText s => s
  | JArray items => "[" ++ joinWith "," (map render items) ++ "]"
  | JObject members =>
      "{"
      ++ joinWith ","
           (map (fun m => let '(k, v) := m in
                          quoted k ++ ":"
                          ++ match v with Some t' => render t' | None => EmptyString end)
              members)
      ++ "}"
  end.

Section GeoTree.
Context {F : Float64Ops}.

(** The object a Point is completed to: one member per selected field,
    under its response name. *)
Definition pointMember (coordinate : list (value F)) (f : Field) : string * option jtree :=
  (ResponseName f,
   if (Name f =? Longitude)%string then Some (JText (fmtV (nth 0 coordinate VNil)))
   else if (Name f =? Latitude)%string then Some (JText (fmtV (nth 1 coordinate VNil)))
   else if (Name f =? Typename)%string then Some (JText (quoted "Point"))
   else None).

Definition pointTree (field : Field) (coordinate : list (value F)) : jtree :=
  JObject (map (pointMember coordinate) (SelectionSet field)).

Definition ringMember (ring : value F) (f2 : Field) : string * option jtree :=
  (ResponseName f2,
   if (Name f2 =? Points)%string then
     Some (JArray (map (fun point => pointTree f2 (sliceOrNil (asSlice point)))
                     (sliceOrNil (asSlice ring))))
   else if (Name f2 =? Typename)%string then Some (JText (quoted "PointList"))
   else None).

Definition ringTree (f1 : Field) (ring : value F) : jtree :=
  JObject (map (ringMember ring) (SelectionSet f1)).

Definition polygonMember (polygon : list (value F)) (f1 : Field) : string * option jtree :=
  (ResponseName f1,
   if (Name f1 =? Coordinates)%string then Some (JArray (map (ringTree f1) polygon))
   else if (Name f1 =? Typename)%string then Some (JText (quoted "Polygon"))
   else None).

Definition polygonTree (field : Field) (polygon : list (value F)) : jtree :=
  JObject (map (polygonMember polygon) (SelectionSet field)).

Definition multiPolygonMember (multiPolygon : list (value F)) (f : Field)
  : string * option jtree :=
  (ResponseName f,
   if (Name f =? Polygons)%string then
     Some (JArray (map (fun polygon => polygonTree f (sliceOrNil (asSlice polygon)))
                     multiPolygon))
   else if (Name f =? Typename)%string then Some (JText (quoted "MultiPolygon"))
   else None).

Definition multiPolygonTree (field : Field) (multiPolygon : list (value F)) : jtree :=
  JObject (map (multiPolygonMember multiPolygon) (SelectionSet field)).

(** The object for a geo value of a supported type. *)
Definition geoTree (field : Field) (val : option (gomap F)) : jtree :=
  let coordinate := sliceOrNil (asSlice (mapIndexNil val Coordinates)) in
  let typ := asString (mapIndexNil val "type") in
  if (typ =? Point)%string then pointTree field coordinate
  else if (typ =? Polygon)%string then polygonTree field coordinate
  else multiPolygonTree field coordinate.


End GeoTree.

(* ================================================================== *)
(** ** Facts about byte strings *)
(* ================================================================== *)

Lemma append_nil_r (s : string) : s ++ EmptyString = s.
Proof. induction s; simpl; congruence. Qed.

Lemma append_assoc (a b c : string) : (a ++ b) ++ c = a ++ (b ++ c).
Proof. induction a; simpl; congruence. Qed.

Lemma length_append (a b : string) :
  String.length (a ++ b) = String.length a + String.length b.
Proof. induction a; simpl; congruence. Qed.

Lemma take_app_length (a b : string) : take (String.length a) (a ++ b) = a.
Proof. induction a; simpl; [destruct b|]; congruence. Qed.

Lemma take_length (a : string) : take (String.length a) a = a.
Proof. rewrite <- (append_nil_r a) at 2. apply take_app_length. Qed.

Lemma take_app_le (n : nat) (a b : string) :
  n <= String.length a -> take n (a ++ b) = take n a.
Proof.
  revert n; induction a; intros n H; simpl in *.
  - assert (n = 0) by lia; subst; destruct b; reflexivity.
  - destruct n; simpl; [reflexivity|]. rewrite IHa by lia. reflexivity.
Qed.

Lemma take_take_app (n : nat) (a b : string) :
  n <= String.length a -> exists w, a ++ b = take n a ++ w.
Proof.
  revert n; induction a; intros n H; simpl in *.
  - exists b. destruct n; reflexivity.
  - destruct n; simpl.
    + eexists; reflexivity.
    + destruct (IHa n ltac:(lia)) as [w Hw]. exists w. congruence.
Qed.

Lemma length_take (n : nat) (a : string) :
  n <= String.length a -> String.length (take n a) = n.
Proof.
  revert n; induction a; intros n H; simpl in *.
  - assert (n = 0) by lia; subst; reflexivity.
  - destruct n; simpl; [reflexivity|]. rewrite IHa by lia. reflexivity.
Qed.

Lemma append_inv_head (a b c : string) : a ++ b = a ++ c -> b = c.
Proof. induction a; simpl; intros H; [assumption|]. inversion H; auto. Qed.

Lemma lastByte_app_char (s : string) (c : ascii) :
  lastByte (s ++ String c EmptyString) = Some c.
Proof.
  induction s as [|a s IH]; simpl; [reflexivity|].
  rewrite IH. destruct s; reflexivity.
Qed.

Lemma lastByte_some_split (s : string) (c : ascii) :
  lastByte s = Some c -> exists s', s = s' ++ String c EmptyString.
Proof.
  induction s as [|a s IH]; simpl; [discriminate|].
  destruct s as [|b s].
  - intros H; inversion H; subst. exists EmptyString. reflexivity.
  - intros H. destruct (IH H) as [s' Hs']. exists (String a s'). simpl. congruence.
Qed.

Lemma take_drop_last (s : string) (c : ascii) :
  take (String.length (s ++ String c EmptyString) - 1) (s ++ String c EmptyString) = s.
Proof.
  rewrite length_append. simpl.
  replace (String.length s + 1 - 1) with (String.length s) by lia.
  apply take_app_length.
Qed.

Lemma Truncate_ok (out : Buffer.t) (n : Z) :
  (0 <= n <= Buffer.Len out)%Z ->
  Buffer.Truncate out n = Ret (take (Z.to_nat n) out).
Proof.
  intros H. unfold Buffer.Truncate.
  destruct (Z.ltb_spec n 0); [lia|].
  destruct (Z.ltb_spec (Buffer.Len out) n); [lia|]. reflexivity.
Qed.

Lemma Truncate_Len_app (a w : string) :
  Buffer.Truncate (a ++ w) (Buffer.Len a) = Ret a.
Proof.
  rewrite Truncate_ok.
  - unfold Buffer.Len. rewrite Nat2Z.id. now rewrite take_app_length.
  - unfold Buffer.Len. rewrite length_append. lia.
Qed.

Lemma Truncate_Len (a : string) : Buffer.Truncate a (Buffer.Len a) = Ret a.
Proof. rewrite <- (append_nil_r a) at 1. apply Truncate_Len_app. Qed.

(* ================================================================== *)
(** ** The null writer and the skip filter *)
(* ================================================================== *)

Section Properties.

Context (F : Float64Ops).

(** What the null writer returns once the truncation is in range. *)
Lemma writeGraphQLNull_eq (f : Field) (out : Buffer.t) (keyEndPos : Z) :
  (0 <= keyEndPos <= Buffer.Len out)%Z ->
  writeGraphQLNull f out keyEndPos
  = Ret (if isListType (TypeOf f) then (true, take (Z.to_nat keyEndPos) out ++ "[]")
         else if Nullable (TypeOf f) then (true, take (Z.to_nat keyEndPos) out ++ "null")
         else (false, take (Z.to_nat keyEndPos) out)).
Proof.
  intros H. unfold writeGraphQLNull. rewrite (Truncate_ok _ _ H). cbn [bind].
  destruct (isListType (TypeOf f)); [reflexivity|].
  destruct (Nullable (TypeOf f)); reflexivity.
Qed.

(** C2.  With [keyEndPos] inside the buffer, writeGraphQLNull truncates
    the buffer to [keyEndPos]; for a list type it then appends an empty
    array and returns true, whatever the nullability of the list; for a
    nullable type that is no list it appends null and returns true;
    otherwise it returns false and leaves the buffer truncated. *)
Theorem writeGraphQLNull_spec (f : Field) (out : Buffer.t) (keyEndPos : Z) :
  (0 <= keyEndPos <= Buffer.Len out)%Z ->
  let truncated := take (Z.to_nat keyEndPos) out in
  (ListType (TypeOf f) <> None ->
     writeGraphQLNull f out keyEndPos = Ret (true, truncated ++ "[]"))
  /\ (ListType (TypeOf f) = None -> Nullable (TypeOf f) = true ->
     writeGraphQLNull f out keyEndPos = Ret (true, truncated ++ "null"))
  /\ (ListType (TypeOf f) = None -> Nullable (TypeOf f) = false ->
     writeGraphQLNull f out keyEndPos = Ret (false, truncated)).
Proof.
  intros H truncated. unfold writeGraphQLNull, isListType.
  rewrite (Truncate_ok _ _ H). cbn [bind]. fold truncated.
  repeat split.
  - intros Hl. destruct (ListType (TypeOf f)); [reflexivity | congruence].
  - intros Hl Hn. rewrite Hl, Hn. reflexivity.
  - intros Hl Hn. rewrite Hl, Hn. reflexivity.
Qed.

(** C4.  skipField is true exactly when the field carries a skip
    directive that holds, or an include directive that fails, or there are
    concrete type names and the field is not among the interface fields to
    include for them.  It is a function of its two arguments alone: it
    reads no buffer, error list or cursor and returns only the boolean. *)
Theorem skipField_spec (f : Field) (ts : list string) :
  skipField f ts = true <->
  (Skip f = true \/ Include f = false
   \/ (ts <> [] /\ IncludeInterfaceField f ts = false)).
Proof.
  unfold skipField.
  destruct (Skip f), (Include f); simpl; try (split; [auto | reflexivity]).
  destruct ts as [|t ts]; simpl.
  - split; [discriminate |]. intros [H|[H|[H _]]]; congruence.
  - destruct (IncludeInterfaceField f (t :: ts)); simpl.
    + split; [discriminate |]. intros [H|[H|[_ H]]]; congruence.
    + split; [|reflexivity]. intros _. right; right. split; congruence.
Qed.

(* ================================================================== *)
(** ** The scalar case *)
(* ================================================================== *)

(** C5.  On a node without children whose scalar was read without error
    and is nil, encodeGraphQL leaves the buffer and the error list as they
    were and returns true when the parent field has a list type and false
    otherwise. *)
Theorem encodeGraphQL_nil_scalar (fuel : nat) (enc : encoder) (fj : fastJsonNode)
  (out : Buffer.t) (errList : list (GqlError F)) (dgraphTypeAttrId : N)
  (childSelectionSet : list Field) (parentField : Field) (parentPath : list PathElem) :
  children fj = [] ->
  getScalarVal fj = ScalarVal None ->
  encodeGraphQL F (S fuel) enc fj out errList dgraphTypeAttrId childSelectionSet
    parentField parentPath
  = Ret {| res_ok := match ListType (TypeOf parentField) with
                     | Some _ => true
                     | None => false
                     end;
           res_out := out; res_errs := errList |}.
Proof.
  intros Hc Hs. simpl. rewrite Hc. unfold encodeScalar. rewrite Hs. reflexivity.
Qed.

(** C9.  For a geo field the scalar bytes are unmarshalled under a fatal
    check: when they are not valid JSON the call stops the process; it
    neither returns false nor appends to the error list. *)
Theorem encodeGraphQL_geo_invalid_json_is_fatal (fuel : nat) (enc : encoder)
  (fj : fastJsonNode) (val : string) (out : Buffer.t) (errList : list (GqlError F))
  (dgraphTypeAttrId : N) (childSelectionSet : list Field) (parentField : Field)
  (parentPath : list PathElem) :
  children fj = [] ->
  getScalarVal fj = ScalarVal (Some val) ->
  IsGeo (TypeOf parentField) = true ->
  json_Valid val = false ->
  encodeGraphQL F (S fuel) enc fj out errList dgraphTypeAttrId childSelectionSet
    parentField parentPath
  = Abort FatalCheck.
Proof.
  intros Hc Hs Hg Hv. simpl. rewrite Hc. unfold encodeScalar.
  rewrite Hs, Hg. unfold json_Unmarshal. rewrite Hv. reflexivity.
Qed.

(* ================================================================== *)
(** ** Geo completion: what is validated *)
(* ================================================================== *)

Lemma completePoint_fields_total (fs : list Field) (coordinate : list (value F))
  (comma : string) (buf : Buffer.t) :
  2 <= List.length coordinate ->
  exists buf', completePoint_fields fs coordinate comma buf = Ret buf'.
Proof.
  intros Hlen. revert comma buf.
  induction fs as [|f fs IH]; intros comma buf; simpl.
  - eexists; reflexivity.
  - destruct coordinate as [|c0 [|c1 cs]]; simpl in Hlen; try lia.
    unfold index; simpl.
    destruct (Name f =? Longitude)%string; simpl; [apply IH|].
    destruct (Name f =? Latitude)%string; simpl; [apply IH|].
    destruct (Name f =? Typename)%string; simpl; apply IH.
Qed.

Lemma completePoint_fields_panics (fs : list Field) (coordinate : list (value F))
  (comma : string) (buf : Buffer.t) :
  List.length coordinate < 2 ->
  (exists f, In f fs /\ Name f = Latitude) ->
  completePoint_fields fs coordinate comma buf = Abort RuntimePanic.
Proof.
  intros Hlen [f0 [Hin Hname]]. revert comma buf.
  induction fs as [|f fs IH]; intros comma buf; simpl; [contradiction|].
  destruct (String.eqb_spec (Name f) Longitude) as [Hlon|Hlon].
  - destruct coordinate as [|c0 cs]; unfold index; simpl; [reflexivity|].
    destruct Hin as [->|Hin].
    + rewrite Hname in Hlon. discriminate.
    + apply IH, Hin.
  - destruct (String.eqb_spec (Name f) Latitude) as [Hlat|Hlat].
    + destruct coordinate as [|c0 [|c1 cs]]; unfold index; simpl; try reflexivity.
      simpl in Hlen. lia.
    + destruct Hin as [->|Hin]; [congruence|].
      destruct (Name f =? Typename)%string; simpl; apply IH, Hin.
Qed.

(** C10.  completeGeoObject checks one thing about the coordinates, that
    they are a non-nil array, and it does so before it looks at the type:
    without such an array the result is the missing-coordinates error
    whatever the type is.  With an array and the type Point it hands the
    array to completePoint as it is, of any length and with any elements.
    completePoint returns for every array of at least two elements, and
    panics on a shorter one as soon as the latitude is selected. *)
Theorem completeGeoObject_validates_only_coordinates_array :
  (forall (path : list PathElem) (field : Field) (val : option (gomap F))
          (buf : Buffer.t),
      asSlice (mapIndexNil val Coordinates) = None ->
      completeGeoObject path field val buf
      = Ret (buf, Some (GqlErrorf field path
                          "missing coordinates in geojson value: %v" [ArgMap val])))
  /\ (forall (path : list PathElem) (field : Field) (val : option (gomap F))
             (buf : Buffer.t) (coordinate : list (value F)),
      asSlice (mapIndexNil val Coordinates) = Some coordinate ->
      asString (mapIndexNil val "type") = Point ->
      completeGeoObject path field val buf
      = bind (completePoint field coordinate buf) (fun buf' => Ret (buf', None)))
  /\ (forall (field : Field) (coordinate : list (value F)) (buf : Buffer.t),
      2 <= List.length coordinate ->
      exists buf', completePoint field coordinate buf = Ret buf')
  /\ (forall (field : Field) (coordinate : list (value F)) (buf : Buffer.t),
      List.length coordinate < 2 ->
      (exists f, In f (SelectionSet field) /\ Name f = Latitude) ->
      completePoint field coordinate buf = Abort RuntimePanic).
Proof.
  repeat split.
  - intros path field val buf H. unfold completeGeoObject. rewrite H. reflexivity.
  - intros path field val buf coordinate H Ht. unfold completeGeoObject.
    rewrite H, Ht. reflexivity.
  - intros field coordinate buf H. unfold completePoint.
    destruct (completePoint_fields_total (SelectionSet field) coordinate EmptyString
                (Buffer.WriteRune buf "{") H) as [b Hb].
    rewrite Hb. eexists; reflexivity.
  - intros field coordinate buf H Hex. unfold completePoint.
    rewrite (completePoint_fields_panics _ _ _ _ H Hex). reflexivity.
Qed.

(* ================================================================== *)
(** ** One iteration of the main loop *)
(* ================================================================== *)

(** What holds of the loop variables in the middle of a selection: the
    key end lies inside the buffer and [curSelectionIsList] is the list-ness
    of the current selection. *)
Definition stateOK (childSelectionSet : list Field) (st : loopState F) : Prop :=
  cnt st <> 0 ->
  (0 <= keyEndPos st <= Buffer.Len (lout st))%Z
  /\ exists sel, nth_error childSelectionSet (i st) = Some sel
                 /\ curSelectionIsList st = isListType (TypeOf sel).

Lemma Len_app (a b : string) : Buffer.Len (a ++ b) = (Buffer.Len a + Buffer.Len b)%Z.
Proof. unfold Buffer.Len. rewrite length_append. lia. Qed.

Lemma Len_nonneg (a : string) : (0 <= Buffer.Len a)%Z.
Proof. unfold Buffer.Len. lia. Qed.

Lemma startValue_ok (sels : list Field) (st : loopState F) (sel : Field)
  (out1 : Buffer.t) (kep : Z) (isL : bool) :
  stateOK sels st ->
  nth_error sels (i st) = Some sel ->
  startValue F sel (S (cnt st)) st = (out1, kep, isL) ->
  isL = isListType (TypeOf sel) /\ (0 <= kep <= Buffer.Len out1)%Z.
Proof.
  intros Hok Hn Hs. unfold startValue in Hs.
  destruct (cnt st) as [|c] eqn:Hc; simpl in Hs.
  - inversion Hs; subst; clear Hs. split; [reflexivity|].
    pose proof (Len_nonneg (writeKeyGraphQL sel (lout st))).
    destruct (isListType (TypeOf sel)); unfold Buffer.WriteRune;
      rewrite ?Len_app; pose proof (Len_nonneg "["); lia.
  - inversion Hs; subst; clear Hs.
    destruct Hok as [Hk [sel' [Hn' Hl]]]; [congruence|].
    rewrite Hn in Hn'. inversion Hn'; subst. split; assumption.
Qed.

Lemma closeValue_out (sels : list Field) (c n : nat) (kep : Z) (isL : bool)
  (v : valueStep F) :
  exists sep,
    lout (closeValue F sels c n kep isL v) = v_out v ++ sep
    /\ In sep [EmptyString; ","; "]"; "],"]
    /\ (isL && negb (v_nullWritten v) = false -> sep = EmptyString \/ sep = ",").
Proof.
  unfold closeValue. cbn [lout].
  unfold Buffer.WriteRune.
  destruct (selectionDrained (v_cur v) (v_next v)); cbn [andb];
    destruct (isL && negb (v_nullWritten v)) eqn:E; cbn [andb];
    match goal with
    | |- context [if ?b then _ else _] => destruct b
    end;
    rewrite ?append_assoc; cbn [append];
    eexists; (split; [try reflexivity; symmetry; apply append_nil_r|]);
    (split; [simpl; tauto|]); intros; try discriminate; auto.
Qed.

(** C7.  One iteration on a __typename selection that is not skipped.
    The quoted type name that the field resolves from the dgraph types is
    written as the value (behind the key on the first iteration of the
    selection), no error is added and the cursor stays on the same node.
    When that node is the last one, or the node after it carries another
    attribute, the next selection is up with the same node current.  When
    the node after it carries the attribute of the current node, Step-3
    does not move on: the same __typename selection is up again, on the
    same node, with its counter raised, so that the iteration after this
    one writes the type name once more and no key. *)
Theorem loopBody_typename_selection (enc : encoder) (rec : encodeFn F)
  (fj : fastJsonNode) (dgraphTypeAttrId : N) (childSelectionSet : list Field)
  (parentPath : list PathElem) (dgraphTypes : list string) (st : loopState F)
  (cur : fastJsonNode) (next : list fastJsonNode) (curSelection : Field)
  (out1 : Buffer.t) (kep : Z) (isL : bool) :
  child st = cur :: next ->
  nth_error childSelectionSet (i st) = Some curSelection ->
  skipField curSelection dgraphTypes = false ->
  Name curSelection = Typename ->
  startValue F curSelection (S (cnt st)) st = (out1, kep, isL) ->
  let typeName := quoted (TypeName curSelection dgraphTypes) in
  let body :=
    loopBody F enc rec fj dgraphTypeAttrId childSelectionSet parentPath dgraphTypes st in
  ((next = [] \/ exists n rest, next = n :: rest /\ getAttr cur <> getAttr n) ->
   body = Ret (Continue
     {| child := cur :: next; cnt := 0; i := S (i st); keyEndPos := kep;
        curSelectionIsList := isL;
        lout := out1 ++ typeName ++ (if isL then "]" else EmptyString)
                ++ (if (S (i st) <? List.length childSelectionSet)%nat
                    then "," else EmptyString);
        lerrs := lerrs st |}))
  /\ (forall n rest, next = n :: rest -> getAttr cur = getAttr n ->
      body = Ret (Continue
        {| child := cur :: next; cnt := S (cnt st); i := i st; keyEndPos := kep;
           curSelectionIsList := isL;
           lout := out1 ++ typeName ++ ",";
           lerrs := lerrs st |})).
Proof.
  intros Hc Hn Hskip Hname Hstart typeName body.
  assert (Hbody : body = Ret (Continue (closeValue F childSelectionSet (S (cnt st)) (i st)
                    kep isL
                    {| v_out := out1 ++ typeName; v_errs := lerrs st;
                       v_nullWritten := false; v_child := cur :: next;
                       v_cur := cur; v_next := next |}))).
  { unfold body, loopBody. rewrite Hc, Hn, Hskip, Hstart.
    unfold writeValue. rewrite Hname.
    cbn [String.eqb Ascii.eqb Bool.eqb Typename bind]. reflexivity. }
  assert (Hlt : (i st <? List.length childSelectionSet)%nat = true).
  { apply Nat.ltb_lt. apply nth_error_Some. congruence. }
  rewrite Hbody. unfold closeValue.
  cbn [v_out v_errs v_nullWritten v_child v_cur v_next negb].
  unfold Buffer.WriteRune. split.
  - intros Hd.
    assert (Hdr : selectionDrained cur next = true).
    { destruct Hd as [->|[n [rest [-> Hne]]]]; [reflexivity|].
      cbn [selectionDrained]. apply Bool.negb_true_iff. now apply N.eqb_neq. }
    rewrite Hdr. cbn [andb]. rewrite Bool.andb_true_r.
    do 2 f_equal. f_equal.
    destruct isL; destruct (S (i st) <? List.length childSelectionSet)%nat;
      rewrite ?append_assoc, ?append_nil_r; reflexivity.
  - intros n rest -> Hsame.
    assert (Hdr : selectionDrained cur (n :: rest) = false).
    { cbn [selectionDrained]. apply Bool.negb_false_iff. now apply N.eqb_eq. }
    rewrite Hdr. cbn [andb]. rewrite Hlt.
    do 2 f_equal. f_equal. now rewrite append_assoc.
Qed.

Lemma isListType_false (t : Type_) : ListType t = None -> isListType t = false.
Proof. unfold isListType. now intros ->. Qed.

Lemma isListType_true (t : Type_) : ListType t <> None -> isListType t = true.
Proof. unfold isListType. destruct (ListType t); congruence. Qed.

(** The skip loop drops the leading nodes that carry [attrId] and stops in
    front of the first node that does not. *)
Lemma skipAttr_split (attrId : N) (next : list fastJsonNode) :
  exists skipped,
    next = (skipped ++ skipAttr attrId next)%list
    /\ Forall (fun c => getAttr c = attrId) skipped
    /\ (forall n rest, skipAttr attrId next = n :: rest -> getAttr n <> attrId).
Proof.
  induction next as [|c next IH].
  - exists []. repeat split; [constructor | discriminate].
  - cbn [skipAttr]. destruct (N.eqb_spec (getAttr c) attrId) as [E|E].
    + destruct IH as [skipped [Hs [Hall Hhead]]].
      exists (c :: skipped). cbn [app]. split; [now rewrite <- Hs|].
      split; [now constructor | exact Hhead].
    + exists []. split; [reflexivity|]. split; [constructor|].
      intros n rest H. now inversion H; subst.
Qed.

(** C6.  The node holds data for the current selection, the parent is not
    the root, and the two disagree on being a list.  A single selection
    over a list node: one expected-single-item error is appended and the
    null writer is called at the key end; when it writes null, the nodes
    after the current one that carry the id of the alias are all passed,
    the cursor standing on the first node that does not carry it or at the
    end, and with an attribute table that gives the current node that id
    the next selection is up; when the null writer cannot write, the call
    returns false.  A list selection over a single node: one expected-list
    error is appended, the null writer writes the empty array, and the
    cursor moves on by exactly one node; the next selection is up unless
    the node after it carries the same attribute.  In both cases a comma
    follows the value exactly when a selection is left. *)
Theorem loopBody_shape_mismatch (enc : encoder) (rec : encodeFn F)
  (fj : fastJsonNode) (dgraphTypeAttrId : N) (childSelectionSet : list Field)
  (parentPath : list PathElem) (dgraphTypes : list string) (st : loopState F)
  (cur : fastJsonNode) (next : list fastJsonNode) (curSelection : Field)
  (out1 : Buffer.t) (kep : Z) (isL : bool) :
  stateOK childSelectionSet st ->
  child st = cur :: next ->
  nth_error childSelectionSet (i st) = Some curSelection ->
  skipField curSelection dgraphTypes = false ->
  Name curSelection <> Typename ->
  DgraphAlias curSelection = attrForID enc (getAttr cur) ->
  getAttr fj <> idForAttr enc "_root_" ->
  startValue F curSelection (S (cnt st)) st = (out1, kep, isL) ->
  let path := (parentPath ++ [PathName (ResponseName curSelection)])%list in
  let keyEnd := take (Z.to_nat kep) out1 in
  let comma := fun st' : loopState F =>
    if (i st' <? List.length childSelectionSet)%nat then "," else EmptyString in
  let body :=
    loopBody F enc rec fj dgraphTypeAttrId childSelectionSet parentPath dgraphTypes st in
  (ListType (TypeOf curSelection) = None -> getList cur = true ->
     let errList :=
       (lerrs st ++ [GqlErrorf curSelection path ErrExpectedSingleItem []])%list in
     let attrId := idForAttr enc (DgraphAlias curSelection) in
     (Nullable (TypeOf curSelection) = true ->
        exists st' skipped,
          body = Ret (Continue st')
          /\ lerrs st' = errList
          /\ next = (skipped ++ child st')%list
          /\ Forall (fun c => getAttr c = attrId) skipped
          /\ (forall n rest, child st' = n :: rest -> getAttr n <> attrId)
          /\ lout st' = keyEnd ++ "null" ++ comma st'
          /\ (attrId = getAttr cur -> i st' = S (i st) /\ cnt st' = 0))
     /\ (Nullable (TypeOf curSelection) = false ->
        body = Ret (Return {| res_ok := false; res_out := keyEnd; res_errs := errList |})))
  /\ (ListType (TypeOf curSelection) <> None -> getList cur = false ->
      exists st',
        body = Ret (Continue st')
        /\ lerrs st' = (lerrs st ++ [GqlErrorf curSelection path ErrExpectedList []])%list
        /\ child st' = next
        /\ lout st' = keyEnd ++ "[]" ++ comma st'
        /\ ((next = [] \/ exists n rest, next = n :: rest /\ getAttr cur <> getAttr n) ->
            i st' = S (i st) /\ cnt st' = 0)
        /\ (forall n rest, next = n :: rest -> getAttr cur = getAttr n ->
            i st' = i st /\ cnt st' = S (cnt st))).
Proof.
  intros Hok Hc Hn Hskip Hname Halias Hroot Hstart path keyEnd comma body.
  destruct (startValue_ok _ _ _ _ _ _ Hok Hn Hstart) as [HisL Hkep].
  assert (Hbody : body =
    bind (writeValue F enc rec fj dgraphTypeAttrId parentPath dgraphTypes curSelection
            cur next (S (cnt st)) kep isL out1 (lerrs st))
      (fun r => match r with
                | inl res => Ret (Return res)
                | inr v => Ret (Continue (closeValue F childSelectionSet (S (cnt st))
                                            (i st) kep isL v))
                end)).
  { unfold body, loopBody. rewrite Hc, Hn, Hskip, Hstart. reflexivity. }
  assert (Hnm : (Name curSelection =? Typename)%string = false)
    by (now apply String.eqb_neq).
  assert (Hal : (DgraphAlias curSelection =? attrForID enc (getAttr cur))%string = true)
    by (now apply String.eqb_eq).
  assert (Hrt : (getAttr fj =? idForAttr enc "_root_")%N = false)
    by (now apply N.eqb_neq).
  split.
  - intros Hlt Hlist errList attrId.
    pose proof (isListType_false _ Hlt) as HL. rewrite HL in HisL. subst isL.
    pose proof (writeGraphQLNull_eq curSelection out1 kep Hkep) as Hw.
    rewrite HL in Hw.
    split; intros Hnull; rewrite Hnull in Hw.
    + destruct (skipAttr_split attrId next) as [skipped [Hsplit [Hall Hhead]]].
      rewrite Hbody. unfold writeValue. rewrite Hnm, Hal, Hlist, Hrt, Hw.
      cbn [negb andb orb bind]. fold attrId.
      eexists; exists skipped.
      split; [reflexivity|]. unfold closeValue.
      cbn [lerrs child lout i cnt v_out v_errs v_nullWritten v_child v_cur v_next
           negb andb].
      rewrite !Bool.andb_false_r.
      split; [reflexivity|]. split; [exact Hsplit|]. split; [exact Hall|].
      split; [exact Hhead|].
      split.
      * unfold comma. cbn [i]. unfold Buffer.WriteRune, Buffer.WriteString.
        fold keyEnd.
        destruct (_ <? _)%nat; rewrite ?append_assoc, ?append_nil_r; reflexivity.
      * intros Hid.
        assert (Hdr : selectionDrained cur (skipAttr attrId next) = true).
        { destruct (skipAttr attrId next) as [|n rest] eqn:E; [reflexivity|].
          cbn [selectionDrained]. apply Bool.negb_true_iff, N.eqb_neq.
          rewrite <- Hid. intros E'. now apply (Hhead n rest eq_refl). }
        rewrite Hdr. split; reflexivity.
    + rewrite Hbody. unfold writeValue. rewrite Hnm, Hal, Hlist, Hrt, Hw.
      reflexivity.
  - intros Hlt Hlist.
    pose proof (isListType_true _ Hlt) as HL. rewrite HL in HisL. subst isL.
    pose proof (writeGraphQLNull_eq curSelection out1 kep Hkep) as Hw.
    rewrite HL in Hw.
    rewrite Hbody. unfold writeValue. rewrite Hnm, Hal, Hlist, Hw.
    cbn [negb andb orb bind].
    eexists. split; [reflexivity|]. unfold closeValue.
    cbn [lerrs child lout i cnt v_out v_errs v_nullWritten v_child v_cur v_next
         negb andb].
    rewrite !Bool.andb_false_r.
    split; [reflexivity|]. split; [reflexivity|].
    split.
    + unfold comma. cbn [i]. unfold Buffer.WriteRune, Buffer.WriteString.
      fold keyEnd.
      destruct (_ <? _)%nat; rewrite ?append_assoc, ?append_nil_r; reflexivity.
    + split.
      * intros Hd.
        assert (Hdr : selectionDrained cur next = true).
        { destruct Hd as [->|[n [rest [-> Hne]]]]; [reflexivity|].
          cbn [selectionDrained]. apply Bool.negb_true_iff. now apply N.eqb_neq. }
        rewrite Hdr. split; reflexivity.
      * intros n rest -> Hsame.
        assert (Hdr : selectionDrained cur (n :: rest) = false).
        { cbn [selectionDrained]. apply Bool.negb_false_iff. now apply N.eqb_eq. }
        rewrite Hdr. split; reflexivity.
Qed.

(* ================================================================== *)
(** ** Geo completion: the emitted object *)
(* ================================================================== *)

(** The text of one member of an object. *)
Definition memberText (m : string * option jtree) : string :=
  let '(k, v) := m in
  quoted k ++ ":" ++ match v with Some t' => render t' | None => EmptyString end.

(** The texts of [l], the first after [comma] and the others after a
    comma: what a loop with a comma variable writes. *)
Fixpoint joinFrom (comma : string) (l : list string) : string :=
  match l with
  | [] => EmptyString
  | x :: rest => comma ++ x ++ joinFrom "," rest
  end.

Lemma joinFrom_cons (c x : string) (rest : list string) :
  joinFrom c (x :: rest) = c ++ joinWith "," (x :: rest).
Proof.
  revert c x. induction rest as [|y rest IH]; intros c x.
  - simpl. now rewrite append_nil_r.
  - change (joinFrom c (x :: y :: rest)) with (c ++ x ++ joinFrom "," (y :: rest)).
    rewrite IH. reflexivity.
Qed.

Lemma joinFrom_empty (l : list string) : joinFrom EmptyString l = joinWith "," l.
Proof. destruct l; [reflexivity|]. now rewrite joinFrom_cons. Qed.

Lemma render_object (ms : list (string * option jtree)) :
  render (JObject ms) = "{" ++ joinWith "," (map memberText ms) ++ "}".
Proof. reflexivity. Qed.

Lemma index_nth (coordinate : list (value F)) (n : nat) (v : value F) :
  index coordinate n = Ret v -> nth n coordinate VNil = v.
Proof.
  unfold index. destruct (nth_error coordinate n) eqn:E; [|discriminate].
  intros H; inversion H; subst. now apply nth_error_nth.
Qed.

Lemma writeKey_text (f : Field) (buf : Buffer.t) :
  writeKeyGraphQL f buf = buf ++ quoted (ResponseName f) ++ ":".
Proof.
  unfold writeKeyGraphQL, Buffer.WriteString, Buffer.WriteRune, quoted.
  rewrite !append_assoc. simpl. now rewrite !append_assoc.
Qed.

Lemma Ret_inj {A : Type} (a b : A) : Ret a = Ret b -> a = b.
Proof. intros H; now inversion H. Qed.

Ltac bind_inv H :=
  match type of H with
  | bind ?m _ = Ret _ =>
      let E := fresh "E" in destruct m eqn:E; cbn [bind] in H; [|discriminate H..]
  end.

Lemma completePoint_fields_text (fs : list Field) (coordinate : list (value F))
  (comma : string) (buf b : Buffer.t) :
  completePoint_fields fs coordinate comma buf = Ret b ->
  b = buf ++ joinFrom comma (map memberText (map (pointMember coordinate) fs)).
Proof.
  revert comma buf b. induction fs as [|f fs IH]; intros comma buf b H; simpl in H.
  - apply Ret_inj in H; subst b. simpl. now rewrite append_nil_r.
  - bind_inv H. apply IH in H. subst b. cbn [map joinFrom].
    rewrite writeKey_text in E. unfold Buffer.WriteString in E.
    assert (Hm : a = (buf ++ comma) ++ memberText (pointMember coordinate f)).
    { unfold pointMember, memberText.
      destruct (Name f =? Longitude)%string.
      { bind_inv E. apply index_nth in E0. subst a0. apply Ret_inj in E; subst a.
        cbn [render]. now rewrite !append_assoc. }
      destruct (Name f =? Latitude)%string.
      { bind_inv E. apply index_nth in E0. subst a0. apply Ret_inj in E; subst a.
        cbn [render]. now rewrite !append_assoc. }
      destruct (Name f =? Typename)%string.
      { apply Ret_inj in E; subst a. cbn [render]. now rewrite !append_assoc. }
      apply Ret_inj in E; subst a. now rewrite !append_assoc. }
    subst a. now rewrite !append_assoc.
Qed.

Lemma completePoint_text (field : Field) (coordinate : list (value F))
  (buf b : Buffer.t) :
  completePoint field coordinate buf = Ret b ->
  b = buf ++ render (pointTree field coordinate).
Proof.
  unfold completePoint. intros H. bind_inv H. apply Ret_inj in H; subst b.
  apply completePoint_fields_text in E. subst.
  unfold pointTree. rewrite render_object, joinFrom_empty.
  unfold Buffer.WriteRune. now rewrite !append_assoc.
Qed.

Lemma render_array (items : list jtree) :
  render (JArray items) = "[" ++ joinWith "," (map render items) ++ "]".
Proof. reflexivity. Qed.

Lemma completePolygon_points_text (f2 : Field) (r : list (value F))
  (comma4 : string) (buf b : Buffer.t) :
  completePolygon_points f2 r comma4 buf = Ret b ->
  b = buf ++ joinFrom comma4
               (map render (map (fun point => pointTree f2 (sliceOrNil (asSlice point))) r)).
Proof.
  revert comma4 buf b. induction r as [|point r IH]; intros comma4 buf b H; simpl in H.
  - apply Ret_inj in H; subst b. simpl. now rewrite append_nil_r.
  - bind_inv H. apply IH in H. subst b. apply completePoint_text in E. subst a.
    cbn [map joinFrom]. unfold Buffer.WriteString. now rewrite !append_assoc.
Qed.

Lemma completePolygon_ringFields_text (fs2 : list Field) (ring : value F)
  (comma3 : string) (buf b : Buffer.t) :
  completePolygon_ringFields fs2 ring comma3 buf = Ret b ->
  b = buf ++ joinFrom comma3 (map memberText (map (ringMember ring) fs2)).
Proof.
  revert comma3 buf b. induction fs2 as [|f2 fs2 IH]; intros comma3 buf b H; simpl in H.
  - apply Ret_inj in H; subst b. simpl. now rewrite append_nil_r.
  - bind_inv H. apply IH in H. subst b. cbn [map joinFrom].
    rewrite writeKey_text in E. unfold Buffer.WriteString in E.
    assert (Hm : a = (buf ++ comma3) ++ memberText (ringMember ring f2)).
    { unfold ringMember, memberText.
      destruct (Name f2 =? Points)%string.
      { bind_inv E. apply completePolygon_points_text in E0. subst a0.
        apply Ret_inj in E; subst a.
        rewrite render_array, joinFrom_empty.
        unfold Buffer.WriteRune. now rewrite !append_assoc. }
      destruct (Name f2 =? Typename)%string.
      { apply Ret_inj in E; subst a. cbn [render]. now rewrite !append_assoc. }
      apply Ret_inj in E; subst a. now rewrite !append_assoc. }
    subst a. now rewrite !append_assoc.
Qed.

Lemma completePolygon_rings_text (f1 : Field) (polygon : list (value F))
  (comma2 : string) (buf b : Buffer.t) :
  completePolygon_rings f1 polygon comma2 buf = Ret b ->
  b = buf ++ joinFrom comma2 (map render (map (ringTree f1) polygon)).
Proof.
  revert comma2 buf b.
  induction polygon as [|ring polygon IH]; intros comma2 buf b H; simpl in H.
  - apply Ret_inj in H; subst b. simpl. now rewrite append_nil_r.
  - bind_inv H. apply IH in H. subst b.
    apply completePolygon_ringFields_text in E. subst a.
    cbn [map joinFrom]. rewrite joinFrom_empty.
    change (render (ringTree f1 ring))
      with ("{" ++ joinWith "," (map memberText (map (ringMember ring) (SelectionSet f1)))
                ++ "}").
    unfold Buffer.WriteString, Buffer.WriteRune. now rewrite !append_assoc.
Qed.

Lemma completePolygon_fields_text (fs1 : list Field) (polygon : list (value F))
  (comma1 : string) (buf b : Buffer.t) :
  completePolygon_fields fs1 polygon comma1 buf = Ret b ->
  b = buf ++ joinFrom comma1 (map memberText (map (polygonMember polygon) fs1)).
Proof.
  revert comma1 buf b. induction fs1 as [|f1 fs1 IH]; intros comma1 buf b H; simpl in H.
  - apply Ret_inj in H; subst b. simpl. now rewrite append_nil_r.
  - bind_inv H. apply IH in H. subst b. cbn [map joinFrom].
    rewrite writeKey_text in E. unfold Buffer.WriteString in E.
    assert (Hm : a = (buf ++ comma1) ++ memberText (polygonMember polygon f1)).
    { unfold polygonMember, memberText.
      destruct (Name f1 =? Coordinates)%string.
      { bind_inv E. apply completePolygon_rings_text in E0. subst a0.
        apply Ret_inj in E; subst a.
        rewrite render_array, joinFrom_empty.
        unfold Buffer.WriteRune. now rewrite !append_assoc. }
      destruct (Name f1 =? Typename)%string.
      { apply Ret_inj in E; subst a. cbn [render]. now rewrite !append_assoc. }
      apply Ret_inj in E; subst a. now rewrite !append_assoc. }
    subst a. now rewrite !append_assoc.
Qed.

Lemma completePolygon_text (field : Field) (polygon : list (value F))
  (buf b : Buffer.t) :
  completePolygon field polygon buf = Ret b ->
  b = buf ++ render (polygonTree field polygon).
Proof.
  unfold completePolygon. intros H. bind_inv H. apply Ret_inj in H; subst b.
  apply completePolygon_fields_text in E. subst.
  unfold polygonTree. rewrite render_object, joinFrom_empty.
  unfold Buffer.WriteRune. now rewrite !append_assoc.
Qed.

Lemma completeMultiPolygon_polygons_text (f : Field) (multiPolygon : list (value F))
  (comma2 : string) (buf b : Buffer.t) :
  completeMultiPolygon_polygons f multiPolygon comma2 buf = Ret b ->
  b = buf ++ joinFrom comma2
               (map render
                  (map (fun polygon => polygonTree f (sliceOrNil (asSlice polygon)))
                     multiPolygon)).
Proof.
  revert comma2 buf b.
  induction multiPolygon as [|polygon mp IH]; intros comma2 buf b H; simpl in H.
  - apply Ret_inj in H; subst b. simpl. now rewrite append_nil_r.
  - bind_inv H. apply IH in H. subst b. apply completePolygon_text in E. subst a.
    cbn [map joinFrom]. unfold Buffer.WriteString. now rewrite !append_assoc.
Qed.

Lemma completeMultiPolygon_fields_text (fs : list Field) (multiPolygon : list (value F))
  (comma1 : string) (buf b : Buffer.t) :
  completeMultiPolygon_fields fs multiPolygon comma1 buf = Ret b ->
  b = buf ++ joinFrom comma1 (map memberText (map (multiPolygonMember multiPolygon) fs)).
Proof.
  revert comma1 buf b. induction fs as [|f fs IH]; intros comma1 buf b H; simpl in H.
  - apply Ret_inj in H; subst b. simpl. now rewrite append_nil_r.
  - bind_inv H. apply IH in H. subst b. cbn [map joinFrom].
    rewrite writeKey_text in E. unfold Buffer.WriteString in E.
    assert (Hm : a = (buf ++ comma1) ++ memberText (multiPolygonMember multiPolygon f)).
    { unfold multiPolygonMember, memberText.
      destruct (Name f =? Polygons)%string.
      { bind_inv E. apply completeMultiPolygon_polygons_text in E0. subst a0.
        apply Ret_inj in E; subst a.
        rewrite render_array, joinFrom_empty.
        unfold Buffer.WriteRune. now rewrite !append_assoc. }
      destruct (Name f =? Typename)%string.
      { apply Ret_inj in E; subst a. cbn [render]. now rewrite !append_assoc. }
      apply Ret_inj in E; subst a. now rewrite !append_assoc. }
    subst a. now rewrite !append_assoc.
Qed.

Lemma completeMultiPolygon_text (field : Field) (multiPolygon : list (value F))
  (buf b : Buffer.t) :
  completeMultiPolygon field multiPolygon buf = Ret b ->
  b = buf ++ render (multiPolygonTree field multiPolygon).
Proof.
  unfold completeMultiPolygon. intros H. bind_inv H. apply Ret_inj in H; subst b.
  apply completeMultiPolygon_fields_text in E. subst.
  unfold multiPolygonTree. rewrite render_object, joinFrom_empty.
  unfold Buffer.WriteRune. now rewrite !append_assoc.
Qed.

Lemma completeGeoObject_text (path : list PathElem) (field : Field)
  (val : option (gomap F)) (buf b : Buffer.t) :
  completeGeoObject path field val buf = Ret (b, None) ->
  b = buf ++ render (geoTree field val).
Proof.
  unfold completeGeoObject, geoTree. intros H.
  destruct (asSlice (mapIndexNil val Coordinates)) as [coordinate|]; [|discriminate].
  cbn [sliceOrNil].
  destruct (asString (mapIndexNil val "type") =? Point)%string.
  { bind_inv H. apply Ret_inj in H. inversion H; subst. now apply completePoint_text. }
  destruct (asString (mapIndexNil val "type") =? Polygon)%string.
  { bind_inv H. apply Ret_inj in H. inversion H; subst. now apply completePolygon_text. }
  destruct (asString (mapIndexNil val "type") =? MultiPolygon)%string.
  { bind_inv H. apply Ret_inj in H. inversion H; subst.
    now apply completeMultiPolygon_text. }
  discriminate.
Qed.

(* ================================================================== *)
(** ** The buffer only grows past where a call found it *)
(* ================================================================== *)

(** [b] is [a] with something written after it. *)
Definition extends (a b : string) : Prop := exists w, b = a ++ w.

Lemma extends_refl (a : string) : extends a a.
Proof. exists EmptyString. now rewrite append_nil_r. Qed.

Lemma extends_app (a w : string) : extends a (a ++ w).
Proof. now exists w. Qed.

Lemma extends_trans (a b c : string) : extends a b -> extends b c -> extends a c.
Proof. intros [w ->] [w' ->]. exists (w ++ w'). now rewrite append_assoc. Qed.

Lemma extends_app_r (a b w : string) : extends a b -> extends a (b ++ w).
Proof. intros H. eapply extends_trans; [exact H | apply extends_app]. Qed.

Lemma extends_Len (a b : string) : extends a b -> (Buffer.Len a <= Buffer.Len b)%Z.
Proof. intros [w ->]. rewrite Len_app. pose proof (Len_nonneg w). lia. Qed.

Lemma take_app_ge (n : nat) (a w : string) :
  String.length a <= n -> take n (a ++ w) = a ++ take (n - String.length a) w.
Proof.
  revert n. induction a as [|c a IH]; intros n H; simpl in *.
  - now rewrite Nat.sub_0_r.
  - destruct n; [lia|]. simpl. rewrite IH by lia. reflexivity.
Qed.

Lemma extends_take (a b : string) (n : Z) :
  extends a b -> (Buffer.Len a <= n)%Z -> extends a (take (Z.to_nat n) b).
Proof.
  intros [w ->] H. rewrite take_app_ge by (unfold Buffer.Len in H; lia).
  apply extends_app.
Qed.

Lemma Len_take (b : string) (n : Z) :
  (0 <= n <= Buffer.Len b)%Z -> Buffer.Len (take (Z.to_nat n) b) = n.
Proof.
  intros H. unfold Buffer.Len in *. rewrite length_take by lia. lia.
Qed.

Lemma take_extends (a b : string) :
  extends a b -> take (Z.to_nat (Buffer.Len a)) b = a.
Proof.
  intros [w ->]. unfold Buffer.Len. rewrite Nat2Z.id. apply take_app_length.
Qed.

Lemma snoc_cases (w : string) :
  w = EmptyString \/ exists w' c, w = w' ++ String c EmptyString.
Proof.
  induction w as [|a w IH]; [now left|]. right.
  destruct IH as [->|[w' [c ->]]].
  - exists EmptyString, a. reflexivity.
  - exists (String a w'), c. reflexivity.
Qed.

Lemma checkAndStripComma_extends (base out : string) (c0 : ascii) :
  lastByte base = Some c0 -> c0 <> ","%char ->
  extends base out -> extends base (checkAndStripComma out).
Proof.
  intros Hb Hc [w ->]. unfold checkAndStripComma.
  destruct (snoc_cases w) as [->|[w' [c ->]]].
  - rewrite append_nil_r, Hb.
    destruct (Ascii.eqb_spec c0 ","); [contradiction|]. apply extends_refl.
  - rewrite <- append_assoc, lastByte_app_char.
    destruct (Ascii.eqb_spec c ",").
    + rewrite take_drop_last. apply extends_app.
    + exists (w' ++ String c EmptyString). now rewrite append_assoc.
Qed.

Lemma completeGeoObject_extends (path : list PathElem) (field : Field)
  (val : option (gomap F)) (buf b : Buffer.t) (e : option (GqlError F)) :
  completeGeoObject path field val buf = Ret (b, e) -> extends buf b.
Proof.
  destruct e as [err|].
  - unfold completeGeoObject.
    destruct (asSlice (mapIndexNil val Coordinates)).
    + destruct (_ =? Point)%string.
      { intros H. bind_inv H. discriminate. }
      destruct (_ =? Polygon)%string.
      { intros H. bind_inv H. discriminate. }
      destruct (_ =? MultiPolygon)%string.
      { intros H. bind_inv H. discriminate. }
      intros H. apply Ret_inj in H. inversion H. apply extends_refl.
    + intros H. apply Ret_inj in H. inversion H. apply extends_refl.
  - intros H. apply completeGeoObject_text in H. subst. apply extends_app.
Qed.

Lemma encodeScalar_extends (fj : fastJsonNode) (out : Buffer.t)
  (errList : list (GqlError F)) (parentField : Field) (parentPath : list PathElem)
  (r : result F) :
  encodeScalar F fj out errList parentField parentPath = Ret r ->
  extends out (res_out r).
Proof.
  unfold encodeScalar.
  destruct (getScalarVal fj) as [err|[val|]].
  - intros H; apply Ret_inj in H; subst; apply extends_refl.
  - destruct (IsGeo (TypeOf parentField)).
    + destruct (json_Unmarshal F val) as [geoVal|]; [|discriminate].
      intros H. bind_inv H. destruct a as [b [e|]];
        apply completeGeoObject_extends in E; apply Ret_inj in H; subst; exact E.
    + intros H; apply Ret_inj in H; subst; apply extends_app.
  - intros H; apply Ret_inj in H; subst; apply extends_refl.
Qed.

Lemma writeGraphQLNull_extends (base : string) (f : Field) (out : Buffer.t)
  (k : Z) (w : bool) (out' : Buffer.t) :
  extends base out -> (Buffer.Len base <= k <= Buffer.Len out)%Z ->
  writeGraphQLNull f out k = Ret (w, out') ->
  extends base out' /\ (k <= Buffer.Len out')%Z.
Proof.
  intros He Hk H. unfold writeGraphQLNull in H.
  pose proof (Len_nonneg base).
  rewrite Truncate_ok in H by lia. cbn [bind] in H.
  pose proof (extends_take _ _ k He ltac:(lia)) as Ht.
  pose proof (Len_take out k ltac:(lia)) as Hl.
  destruct (isListType (TypeOf f)); [|destruct (Nullable (TypeOf f))];
    apply Ret_inj in H; inversion H; subst; unfold Buffer.WriteString;
    rewrite ?Len_app; split; try (apply extends_app_r; exact Ht); try exact Ht;
    rewrite ?Hl; try lia;
    match goal with |- context [Buffer.Len ?s] => pose proof (Len_nonneg s) end; lia.
Qed.

(** The recursive call only writes after what it finds in the buffer. *)
Definition recExtends (rec : encodeFn F) : Prop :=
  forall fj out errList tid sels parentField path r,
    rec fj out errList tid sels parentField path = Ret r -> extends out (res_out r).

(** What the main loop keeps true of its state, [base] being the buffer
    up to and with the opening brace of the object. *)
Definition loopInv (base : string) (sels : list Field) (st : loopState F) : Prop :=
  extends base (lout st)
  /\ stateOK sels st
  /\ (cnt st <> 0 -> (Buffer.Len base <= keyEndPos st)%Z).

Lemma startValue_extends (base : string) (sels : list Field) (st : loopState F)
  (sel : Field) (out1 : Buffer.t) (kep : Z) (isL : bool) :
  loopInv base sels st ->
  nth_error sels (i st) = Some sel ->
  startValue F sel (S (cnt st)) st = (out1, kep, isL) ->
  extends base out1 /\ (Buffer.Len base <= kep <= Buffer.Len out1)%Z
  /\ isL = isListType (TypeOf sel).
Proof.
  intros [He [Hok Hb]] Hn Hs.
  destruct (startValue_ok _ _ _ _ _ _ Hok Hn Hs) as [HL Hk].
  assert (Hw : extends base (writeKeyGraphQL sel (lout st))).
  { rewrite writeKey_text. now apply extends_app_r. }
  pose proof (extends_Len _ _ Hw) as HwL.
  split; [|split; [|exact HL]]; clear HL;
    unfold startValue in Hs; destruct (cnt st) as [|c] eqn:Hc; simpl in Hs;
    inversion Hs; subst; clear Hs.
  - destruct (isListType (TypeOf sel)); [now apply extends_app_r | exact Hw].
  - exact He.
  - lia.
  - specialize (Hb ltac:(congruence)). lia.
Qed.

Lemma writeValue_inv (enc : encoder) (rec : encodeFn F) (fj : fastJsonNode)
  (tid : N) (path : list PathElem) (types : list string) (sel : Field)
  (cur : fastJsonNode) (next : list fastJsonNode) (c : nat) (kep : Z) (isL : bool)
  (out1 : Buffer.t) (errList : list (GqlError F)) (base : string)
  (x : result F + valueStep F) :
  recExtends rec ->
  extends base out1 -> (Buffer.Len base <= kep <= Buffer.Len out1)%Z ->
  writeValue F enc rec fj tid path types sel cur next c kep isL out1 errList = Ret x ->
  match x with
  | inl r => extends base (res_out r)
  | inr v => extends base (v_out v) /\ (kep <= Buffer.Len (v_out v))%Z
  end.
Proof.
  intros Hrec He Hk H. unfold writeValue in H.
  pose proof (Len_nonneg base) as Hb0.
  assert (Hnull : forall o w o', extends out1 o ->
            writeGraphQLNull sel o kep = Ret (w, o') ->
            extends base o' /\ (kep <= Buffer.Len o')%Z).
  { intros o w o' Ho Hw. pose proof (extends_Len _ _ Ho).
    eapply writeGraphQLNull_extends; [| |exact Hw].
    - eapply extends_trans; eassumption.
    - lia. }
  destruct (Name sel =? Typename)%string.
  { apply Ret_inj in H; subst x. cbn [v_out]. unfold Buffer.WriteString.
    split; [now apply extends_app_r|]. rewrite Len_app.
    pose proof (Len_nonneg (typenameValue types sel)). lia. }
  destruct (negb (DgraphAlias sel =? attrForID enc (getAttr cur))%string).
  { bind_inv H. destruct a as [w o'].
    apply (Hnull _ _ _ (extends_refl _)) in E.
    destruct (negb w); apply Ret_inj in H; subst x; cbn [res_out v_out]; tauto. }
  destruct (isL && getList cur).
  { bind_inv H. apply Hrec in E. pose proof (extends_Len _ _ E).
    destruct (negb (res_ok a)).
    - destruct (ListType (TypeOf sel)) as [item|]; [|discriminate].
      destruct (Nullable item).
      + rewrite Truncate_ok in H by lia. cbn [bind] in H.
        apply Ret_inj in H; subst x. cbn [v_out].
        rewrite (take_extends _ _ E). unfold Buffer.WriteString.
        split; [now apply extends_app_r|]. rewrite Len_app.
        pose proof (Len_nonneg "null"). lia.
      + destruct (Nullable (TypeOf sel)).
        * rewrite Truncate_ok in H by lia. cbn [bind] in H.
          destruct (skipAttrCur (idForAttr enc (DgraphAlias sel)) cur next).
          apply Ret_inj in H; subst x. cbn [v_out]. unfold Buffer.WriteString.
          split.
          -- apply extends_app_r, extends_take; [|lia].
             eapply extends_trans; eassumption.
          -- rewrite Len_app, Len_take by lia. pose proof (Len_nonneg "null"). lia.
        * apply Ret_inj in H; subst x. cbn [res_out].
          eapply extends_trans; eassumption.
    - apply Ret_inj in H; subst x. cbn [v_out].
      split; [eapply extends_trans; eassumption | lia]. }
  destruct (negb isL && (negb (getList cur) || (getAttr fj =? idForAttr enc "_root_")%N)).
  { bind_inv H. apply Hrec in E. pose proof (extends_Len _ _ E).
    destruct (negb (res_ok a)).
    - bind_inv H. destruct a0 as [w o']. apply (Hnull _ _ _ E) in E0.
      destruct (negb w); apply Ret_inj in H; subst x; cbn [res_out v_out]; tauto.
    - apply Ret_inj in H; subst x. cbn [v_out].
      split; [eapply extends_trans; eassumption | lia]. }
  destruct (negb isL).
  { bind_inv H. destruct a as [w o'].
    apply (Hnull _ _ _ (extends_refl _)) in E.
    destruct (negb w); apply Ret_inj in H; subst x; cbn [res_out v_out]; tauto. }
  bind_inv H. destruct a as [w o'].
  apply (Hnull _ _ _ (extends_refl _)) in E.
  destruct (negb w); apply Ret_inj in H; subst x; cbn [res_out v_out]; tauto.
Qed.

Lemma closeValue_inv (base : string) (sels : list Field) (st : loopState F)
  (sel : Field) (kep : Z) (isL : bool) (v : valueStep F) :
  nth_error sels (i st) = Some sel ->
  isL = isListType (TypeOf sel) ->
  (Buffer.Len base <= kep)%Z ->
  extends base (v_out v) -> (kep <= Buffer.Len (v_out v))%Z ->
  loopInv base sels (closeValue F sels (S (cnt st)) (i st) kep isL v).
Proof.
  intros Hn HL Hb He Hk.
  destruct (closeValue_out sels (S (cnt st)) (i st) kep isL v) as [sep [Ho _]].
  pose proof (Len_nonneg base). pose proof (Len_nonneg sep).
  unfold loopInv, stateOK. rewrite Ho.
  split; [now apply extends_app_r|].
  unfold closeValue. cbn [cnt i keyEndPos curSelectionIsList].
  destruct (selectionDrained (v_cur v) (v_next v)).
  - split; intros Hc; exfalso; apply Hc; reflexivity.
  - split; intros _; [|exact Hb].
    split; [rewrite Len_app; lia|]. exists sel. split; assumption.
Qed.

Lemma loopBody_inv (enc : encoder) (rec : encodeFn F) (fj : fastJsonNode)
  (tid : N) (sels : list Field) (path : list PathElem) (types : list string)
  (base : string) (st : loopState F) (s : loopStep F) :
  recExtends rec ->
  lastByte base = Some "{"%char ->
  loopInv base sels st ->
  loopBody F enc rec fj tid sels path types st = Ret s ->
  match s with
  | Continue st' => loopInv base sels st'
  | Return r => extends base (res_out r)
  end.
Proof.
  intros Hrec Hlast Hinv H. unfold loopBody in H.
  destruct (child st) as [|cur next] eqn:Hc; [discriminate|].
  destruct (nth_error sels (i st)) as [sel|] eqn:Hn; [|discriminate].
  destruct (skipField sel types).
  - apply Ret_inj in H; subst s. destruct Hinv as [He _].
    unfold loopInv, stateOK. cbn [lout cnt].
    split; [|split; intros Hc0; exfalso; apply Hc0; reflexivity].
    destruct (S (i st) =? List.length sels)%nat; [|exact He].
    eapply checkAndStripComma_extends; [exact Hlast | discriminate | exact He].
  - destruct (startValue F sel (S (cnt st)) st) as [[out1 kep] isL] eqn:Hs.
    destruct (startValue_extends _ _ _ _ _ _ _ Hinv Hn Hs) as [He1 [Hk HL]].
    bind_inv H.
    pose proof (writeValue_inv _ _ _ _ _ _ _ _ _ _ _ _ _ _ _ _ Hrec He1 Hk E) as Hv.
    destruct a as [r|v]; apply Ret_inj in H; subst s; [exact Hv|].
    destruct Hv as [Hv1 Hv2]. apply closeValue_inv with (sel := sel); auto; lia.
Qed.

Lemma mainLoop_inv (enc : encoder) (rec : encodeFn F) (fj : fastJsonNode)
  (tid : N) (sels : list Field) (path : list PathElem) (types : list string)
  (base : string) (fuel : nat) :
  recExtends rec ->
  lastByte base = Some "{"%char ->
  forall (st : loopState F) (s : loopStep F),
    loopInv base sels st ->
    mainLoop F enc rec fj tid sels path types fuel st = Ret s ->
    match s with
    | Continue st' => loopInv base sels st'
    | Return r => extends base (res_out r)
    end.
Proof.
  intros Hrec Hlast. induction fuel as [|fuel IH]; intros st s Hinv H; simpl in H.
  - destruct (child st); [|destruct (i st <? List.length sels)%nat; [discriminate|]];
      apply Ret_inj in H; subst s; exact Hinv.
  - destruct (child st) eqn:Hc; [apply Ret_inj in H; subst s; exact Hinv|].
    destruct (i st <? List.length sels)%nat;
      [|apply Ret_inj in H; subst s; exact Hinv].
    bind_inv H.
    assert (Hb := E). unfold loopBody in Hb.
    pose proof (loopBody_inv _ _ _ _ _ _ _ _ _ _ Hrec Hlast Hinv E) as Hs.
    destruct a as [st'|r].
    + exact (IH _ _ Hs H).
    + apply Ret_inj in H; subst s. exact Hs.
Qed.

Ltac ext_close H := first [exact H | apply extends_app_r; ext_close H].

Lemma tailLoop_extends (path : list PathElem) (types : list string) (base : string)
  (rest : list Field) :
  lastByte base = Some "{"%char ->
  forall (out : Buffer.t) (errList : list (GqlError F)) (r : result F),
    extends base out ->
    tailLoop F path types rest out errList = Ret r ->
    extends base (res_out r).
Proof.
  intros Hlast. induction rest as [|sel rest IH]; intros out errList r He H; simpl in H.
  - apply Ret_inj in H; subst r. exact He.
  - destruct (skipField sel types).
    { eapply IH; [|exact H]. destruct rest; [|exact He].
      eapply checkAndStripComma_extends; [exact Hlast | discriminate | exact He]. }
    assert (Hw : extends base (writeKeyGraphQL sel out)).
    { rewrite writeKey_text. now apply extends_app_r. }
    destruct (Name sel =? Typename)%string.
    { eapply IH; [|exact H]. unfold Buffer.WriteString, Buffer.WriteRune.
      destruct rest; ext_close Hw. }
    bind_inv H. destruct a as [w o'].
    pose proof (extends_Len _ _ Hw).
    apply (writeGraphQLNull_extends base) in E; [|exact Hw|lia].
    destruct E as [E _].
    destruct (negb w).
    { apply Ret_inj in H; subst r. exact E. }
    eapply IH; [|exact H]. unfold Buffer.WriteRune.
    destruct rest; ext_close E.
Qed.

Lemma initState_inv (base : string) (sels : list Field)
  (child0 : list fastJsonNode) (errList : list (GqlError F)) :
  loopInv base sels (initState F child0 base errList).
Proof.
  unfold loopInv, stateOK, initState. cbn [lout cnt].
  split; [apply extends_refl|]. split; intros Hc; exfalso; apply Hc; reflexivity.
Qed.

(** Whatever encodeGraphQL returns, and whether it reports success or
    not, the buffer it leaves starts with the buffer it was given. *)
Lemma encodeGraphQL_extends (enc : encoder) (fuel : nat) :
  recExtends (encodeGraphQL F fuel enc).
Proof.
  induction fuel as [|fuel IH]; intros fj out errList tid sels pf path r H;
    simpl in H; [discriminate|].
  destruct (children fj) as [|c0 cs] eqn:Hc.
  - now apply encodeScalar_extends in H.
  - destruct (List.length sels =? 0)%nat.
    { apply Ret_inj in H; subst r. apply extends_refl. }
    bind_inv H. destruct a as [[child0 types] errs0].
    bind_inv H.
    assert (Hlast : lastByte (Buffer.WriteRune out "{") = Some "{"%char)
      by apply lastByte_app_char.
    pose proof (mainLoop_inv _ _ _ _ _ _ _ _ _ IH Hlast _ _
                  (initState_inv _ sels child0 errs0) E0) as Hm.
    assert (Hbase : extends out (Buffer.WriteRune out "{")) by apply extends_app.
    destruct a as [st|r'].
    + bind_inv H. destruct Hm as [Hm _].
      pose proof (tailLoop_extends _ _ _ _ Hlast _ _ _ Hm E1) as Ht.
      destruct (res_ok a); apply Ret_inj in H; subst r; cbn [res_out].
      * unfold Buffer.WriteRune at 1. apply extends_app_r.
        eapply extends_trans; eassumption.
      * eapply extends_trans; eassumption.
    + apply Ret_inj in H; subst r. eapply extends_trans; eassumption.
Qed.

Lemma skipAttrCur_snd (attrId : N) (cur : fastJsonNode) (next : list fastJsonNode) :
  snd (skipAttrCur attrId cur next) = skipAttr attrId next.
Proof.
  revert cur. induction next as [|n rest IH]; intros cur; simpl; [reflexivity|].
  destruct (getAttr n =? attrId)%N; [apply IH | reflexivity].
Qed.

(** C1.  The current selection has a list type, the node is list-tagged
    and holds data for it, and the recursive encoding of the item returns
    false.  With a nullable item type the buffer goes back to where the
    item began and null is written as the item.  Otherwise, with a
    nullable list, the buffer goes back to the key end, null is written
    for the whole list with no closing bracket after it, and the cursor
    passes all the following children that carry the id of the alias.
    Otherwise the call returns false with the errors the recursive call
    left and no further one. *)
Theorem loopBody_list_item_failure (fuel : nat) (enc : encoder) (fj : fastJsonNode)
  (dgraphTypeAttrId : N) (childSelectionSet : list Field)
  (parentPath : list PathElem) (dgraphTypes : list string) (st : loopState F)
  (cur : fastJsonNode) (next : list fastJsonNode) (curSelection : Field)
  (item : Type_) (out1 : Buffer.t) (kep : Z) (isL : bool) (r : result F) :
  stateOK childSelectionSet st ->
  child st = cur :: next ->
  nth_error childSelectionSet (i st) = Some curSelection ->
  skipField curSelection dgraphTypes = false ->
  Name curSelection <> Typename ->
  DgraphAlias curSelection = attrForID enc (getAttr cur) ->
  ListType (TypeOf curSelection) = Some item ->
  getList cur = true ->
  startValue F curSelection (S (cnt st)) st = (out1, kep, isL) ->
  encodeGraphQL F fuel enc cur out1 (lerrs st) dgraphTypeAttrId
    (SelectionSet curSelection) curSelection
    ((parentPath ++ [PathName (ResponseName curSelection)])
       ++ [PathIndex (Z.of_nat (S (cnt st)) - 1)])%list
  = Ret r ->
  res_ok r = false ->
  let body :=
    loopBody F enc (encodeGraphQL F fuel enc) fj dgraphTypeAttrId childSelectionSet
      parentPath dgraphTypes st in
  (Nullable item = true ->
     exists st' sep,
       body = Ret (Continue st')
       /\ lout st' = out1 ++ "null" ++ sep
       /\ In sep [EmptyString; ","; "]"; "],"]
       /\ child st' = next
       /\ lerrs st' = res_errs r)
  /\ (Nullable item = false -> Nullable (TypeOf curSelection) = true ->
     exists st' sep,
       body = Ret (Continue st')
       /\ lout st' = take (Z.to_nat kep) out1 ++ "null" ++ sep
       /\ (sep = EmptyString \/ sep = ",")
       /\ child st' = skipAttr (idForAttr enc (DgraphAlias curSelection)) next
       /\ lerrs st' = res_errs r)
  /\ (Nullable item = false -> Nullable (TypeOf curSelection) = false ->
     body = Ret (Return {| res_ok := false; res_out := res_out r;
                           res_errs := res_errs r |})).
Proof.
  intros Hok Hc Hn Hskip Hname Halias Hlt Hlist Hstart Hrec Hfail body.
  destruct (startValue_ok _ _ _ _ _ _ Hok Hn Hstart) as [HisL Hkep].
  rewrite (isListType_true (TypeOf curSelection)) in HisL by congruence. subst isL.
  pose proof (encodeGraphQL_extends enc fuel _ _ _ _ _ _ _ _ Hrec) as Hext.
  pose proof (extends_Len _ _ Hext) as HextL.
  assert (Hnm : (Name curSelection =? Typename)%string = false)
    by (now apply String.eqb_neq).
  assert (Hal : (DgraphAlias curSelection =? attrForID enc (getAttr cur))%string = true)
    by (now apply String.eqb_eq).
  assert (Hbody : body =
    bind (writeValue F enc (encodeGraphQL F fuel enc) fj dgraphTypeAttrId parentPath
            dgraphTypes curSelection cur next (S (cnt st)) kep true out1 (lerrs st))
      (fun x => match x with
                | inl res => Ret (Return res)
                | inr v => Ret (Continue (closeValue F childSelectionSet (S (cnt st))
                                            (i st) kep true v))
                end)).
  { unfold body, loopBody. rewrite Hc, Hn, Hskip, Hstart. reflexivity. }
  rewrite Hbody. unfold writeValue.
  rewrite Hnm, Hal, Hlist. cbn [negb andb]. rewrite Hrec. cbn [bind].
  rewrite Hfail, Hlt. cbn [negb].
  split; [|split].
  - intros Hnull. rewrite Hnull.
    rewrite Truncate_ok by (pose proof (Len_nonneg out1); lia).
    rewrite (take_extends _ _ Hext). cbn [bind].
    match goal with
    | |- context [closeValue F ?s ?c ?n ?k ?l ?v] =>
        destruct (closeValue_out s c n k l v) as [sep [Ho [Hin _]]];
        exists (closeValue F s c n k l v), sep
    end.
    split; [reflexivity|]. rewrite Ho. cbn [v_out]. unfold Buffer.WriteString.
    split; [now rewrite append_assoc|]. split; [exact Hin|].
    split; reflexivity.
  - intros Hnull Hwrap. rewrite Hnull, Hwrap.
    rewrite Truncate_ok by lia. cbn [bind].
    destruct Hext as [w Hw]. rewrite Hw.
    rewrite take_app_le by (unfold Buffer.Len in Hkep; lia).
    pose proof (skipAttrCur_snd (idForAttr enc (DgraphAlias curSelection)) cur next)
      as Hsk.
    destruct (skipAttrCur (idForAttr enc (DgraphAlias curSelection)) cur next)
      as [cur' next'].
    cbn [snd] in Hsk. subst next'. cbv beta iota. cbn [bind].
    match goal with
    | |- context [closeValue F ?s ?c ?n ?k ?l ?v] =>
        destruct (closeValue_out s c n k l v) as [sep [Ho [_ Hsep]]];
        exists (closeValue F s c n k l v), sep
    end.
    split; [reflexivity|]. rewrite Ho. cbn [v_out]. unfold Buffer.WriteString.
    split; [now rewrite append_assoc|]. split; [apply Hsep; reflexivity|].
    split; reflexivity.
  - intros Hnull Hwrap. rewrite Hnull, Hwrap. reflexivity.
Qed.

(* ================================================================== *)
(** ** Facts about the scanner *)
(* ================================================================== *)

Lemma scan_app (s : scanner) (a b : string) : scan s (a ++ b) = scan (scan s a) b.
Proof. revert s. induction a as [|c a IH]; intros s; simpl; [reflexivity | apply IH]. Qed.

Lemma scanByte_error (ps : list parseState) (c : ascii) :
  scanByte (stateError, ps) c = scanError.
Proof. reflexivity. Qed.

Lemma scan_error (data : string) : scan scanError data = scanError.
Proof. induction data as [|c data IH]; simpl; [reflexivity | exact IH]. Qed.

(** The scanner never is in [stateEndTop] with an open composite. *)
Definition topClosed (s : scanner) : Prop :=
  fst s = stateEndTop -> snd s = [].

(** The same scan inside the composites [K]: more on the stack, and the
    end of the top-level value is the end of a value. *)
Definition lift (K : list parseState) (s : scanner) : scanner :=
  match s with
  | (stateEndTop, ps) => (stateEndValue, (ps ++ K)%list)
  | (stateError, _) => scanError
  | (st, ps) => (st, (ps ++ K)%list)
  end.

Ltac scan_cases :=
  repeat match goal with
         | |- context [if ?b then _ else _] => destruct b
         | |- context [match ?ps with [] => _ | _ :: _ => _ end] => destruct ps
         | |- context [match ?p with parseObjectKey => _ | _ => _ end] => destruct p
         end.

Lemma scanByte_topClosed (s : scanner) (c : ascii) :
  topClosed s -> topClosed (scanByte s c).
Proof.
  destruct s as [st ps]. unfold topClosed. intros H.
  destruct st; cbn [scanByte fst snd] in *;
    unfold stepBeginValue, stepBeginString, step0, stepESign, stepEndValue, stepEndTop,
      expect, popParseState, scanError;
    try (specialize (H eq_refl); subst ps);
    scan_cases; cbn [fst snd]; intros E; try discriminate E; try reflexivity.
Qed.

Lemma scan_topClosed (data : string) (s : scanner) :
  topClosed s -> topClosed (scan s data).
Proof.
  revert s. induction data as [|c data IH]; intros s H; simpl; [exact H|].
  apply IH, scanByte_topClosed, H.
Qed.

Lemma scanByte_lift (K : list parseState) (s : scanner) (c : ascii) :
  K <> [] -> topClosed s ->
  fst (scanByte s c) <> stateError ->
  scanByte (lift K s) c = lift K (scanByte s c).
Proof.
  intros HK Htop Hne. destruct s as [st ps]. unfold topClosed in Htop.
  destruct K as [|k K]; [congruence|].
  destruct st; cbn [fst snd] in Htop; try (specialize (Htop eq_refl); subst ps);
    try (destruct ps as [|p [|p' ps]]; try destruct p);
    cbn [scanByte lift fst snd app] in *;
    unfold stepBeginValue, stepBeginString, step0, stepESign, stepEndValue, stepEndTop,
      expect, popParseState, scanError in *;
    repeat match goal with
           | |- context [if ?b then _ else _] => destruct b
           | H : context [if ?b then _ else _] |- _ => destruct b
           end;
    cbn [lift fst snd app] in *; try reflexivity; try congruence.
Qed.

Lemma scan_lift (K : list parseState) (data : string) (s : scanner) :
  K <> [] -> topClosed s ->
  fst (scan s data) <> stateError ->
  scan (lift K s) data = lift K (scan s data).
Proof.
  intros HK. revert s. induction data as [|c data IH]; intros s Htop Hne; simpl in *.
  - reflexivity.
  - assert (Hc : fst (scanByte s c) <> stateError).
    { intros E. apply Hne. destruct (scanByte s c) as [st ps]. cbn in E. subst st.
      change (stateError, ps) with (stateError, ps).
      assert (scan (stateError, ps) data = scanError) as ->.
      { destruct data; [|simpl; apply scan_error].
        exfalso. apply Hne. reflexivity. }
      reflexivity. }
    rewrite scanByte_lift by assumption.
    apply IH; [apply scanByte_topClosed, Htop | exact Hne].
Qed.

(** A value has just ended, inside the composites [K]: the scanner is
    past it, or in a number that the next delimiter ends. *)
Definition valueDone (s : scanner) (K : list parseState) : Prop :=
  snd s = K /\ In (fst s) [stateEndValue; state1; state0; stateDot0; stateE0].

Lemma valueDone_delim (s : scanner) (K : list parseState) (c : ascii) :
  valueDone s K ->
  c = ","%char \/ c = "]"%char \/ c = "}"%char ->
  scanByte s c = stepEndValue K c.
Proof.
  intros [Hs Hin] Hc. destruct s as [st ps]. cbn [fst snd] in *. subst ps.
  cbn [In] in Hin.
  destruct Hin as [<-|[<-|[<-|[<-|[<-|[]]]]]];
    destruct Hc as [-> | [-> | ->]]; reflexivity.
Qed.

Lemma valueDone_endValue (K : list parseState) : valueDone (stateEndValue, K) K.
Proof. split; [reflexivity | left; reflexivity]. Qed.

Lemma eof_cases (s : scanner) :
  topClosed s -> eof s = true ->
  snd s = []
  /\ In (fst s) [stateEndTop; stateEndValue; state1; state0; stateDot0; stateE0].
Proof.
  destruct s as [st ps]. unfold topClosed, eof. cbn [fst snd]. intros Htop H.
  destruct st; try (specialize (Htop eq_refl); subst ps);
    try (destruct ps as [|p ps]; [|destruct p]);
    vm_compute in H; try discriminate H;
    (split; [reflexivity | cbn [In]; tauto]).
Qed.

Lemma topClosed_begin (K : list parseState) : topClosed (stateBeginValue, K).
Proof. unfold topClosed. cbn. discriminate. Qed.

(** A valid JSON text is a value wherever a value may stand. *)
Lemma valid_value (v : string) (K : list parseState) :
  json_Valid v = true -> K <> [] ->
  valueDone (scan (stateBeginValue, K) v) K.
Proof.
  intros Hv HK. unfold json_Valid in Hv.
  pose proof (scan_topClosed v _ (topClosed_begin [])) as Htop.
  destruct (eof_cases _ Htop Hv) as [Hps Hst].
  assert (Hne : fst (scan (stateBeginValue, []) v) <> stateError).
  { intros E. rewrite E in Hst. cbn [In] in Hst.
    repeat destruct Hst as [Hst|Hst]; try discriminate Hst. exact Hst. }
  pose proof (scan_lift K v _ HK (topClosed_begin []) Hne) as Hl.
  cbn [lift app] in Hl. rewrite Hl.
  destruct (scan (stateBeginValue, []) v) as [st ps]. cbn [fst snd] in *. subst ps.
  cbn [In] in Hst.
  destruct Hst as [<-|[<-|[<-|[<-|[<-|[<-|[]]]]]]]; cbn [lift app];
    (split; [reflexivity | cbn [fst In]; tauto]).
Qed.

(** Bytes that may stand in a string literal as they are. *)
Definition plainByte (c : ascii) : bool :=
  negb (c =? dquote)%char && negb (c =? backslash)%char && (32 <=? nat_of_ascii c)%nat.

Fixpoint plain (s : string) : bool :=
  match s with
  | EmptyString => true
  | String c rest => plainByte c && plain rest
  end.

Lemma scanByte_plain (ps : list parseState) (c : ascii) :
  plainByte c = true -> scanByte (stateInString, ps) c = (stateInString, ps).
Proof.
  unfold plainByte. intros H.
  apply andb_prop in H. destruct H as [H H3].
  apply andb_prop in H. destruct H as [H1 H2].
  cbn [scanByte].
  destruct (c =? dquote)%char; [discriminate|].
  destruct (c =? backslash)%char; [discriminate|].
  apply Nat.leb_le in H3.
  destruct (Nat.ltb_spec (nat_of_ascii c) 32); [lia | reflexivity].
Qed.

Lemma scan_plain (ps : list parseState) (k : string) :
  plain k = true -> scan (stateInString, ps) k = (stateInString, ps).
Proof.
  induction k as [|c k IH]; cbn [plain scan]; intros H; [reflexivity|].
  apply andb_prop in H. destruct H as [Hc Hk].
  rewrite scanByte_plain by exact Hc. apply IH, Hk.
Qed.

Lemma scan_inString_quote (ps : list parseState) (k rest : string) :
  plain k = true ->
  scan (stateInString, ps) (k ++ String dquote rest) = scan (stateEndValue, ps) rest.
Proof.
  intros H. rewrite scan_app, scan_plain by exact H. reflexivity.
Qed.

Lemma scan_key (q : scanStep) (rest : list parseState) (k : string) :
  q = stateBeginString \/ q = stateBeginStringOrEmpty ->
  plain k = true ->
  scan (q, parseObjectKey :: rest) (quoted k ++ ":")
  = (stateBeginValue, parseObjectValue :: rest).
Proof.
  intros Hq Hk. unfold quoted. cbn [append scan].
  assert (scanByte (q, parseObjectKey :: rest) dquote
          = (stateInString, parseObjectKey :: rest)) as ->
    by (destruct Hq as [-> | ->]; reflexivity).
  rewrite append_assoc. cbn [append].
  rewrite scan_inString_quote by exact Hk. reflexivity.
Qed.

Lemma scan_quoted_value (q : scanStep) (K : list parseState) (k : string) :
  q = stateBeginValue \/ q = stateBeginValueOrEmpty ->
  plain k = true ->
  scan (q, K) (quoted k) = (stateEndValue, K).
Proof.
  intros Hq Hk. unfold quoted. cbn [scan].
  assert (scanByte (q, K) dquote = (stateInString, K)) as ->
    by (destruct Hq as [-> | ->]; reflexivity).
  rewrite scan_inString_quote by exact Hk. reflexivity.
Qed.

(** After an opening bracket a valid text is read as after a comma. *)
Lemma scan_valueOrEmpty (K : list parseState) (v : string) :
  fst (scan (stateBeginValue, K) v) <> stateError ->
  v <> EmptyString ->
  scan (stateBeginValueOrEmpty, K) v = scan (stateBeginValue, K) v
  \/ (fst (scan (stateBeginValueOrEmpty, K) v) = stateBeginValueOrEmpty
      /\ fst (scan (stateBeginValue, K) v) = stateBeginValue).
Proof.
  induction v as [|c v IH]; intros Hne Hv; [congruence|].
  assert (E2 : scanByte (stateBeginValueOrEmpty, K) c
               = if isSpace c then (stateBeginValueOrEmpty, K)
                 else if (c =? "]")%char then stepEndValue K c
                      else stepBeginValue K c) by reflexivity.
  assert (E1 : scanByte (stateBeginValue, K) c = stepBeginValue K c) by reflexivity.
  cbn [scan] in *. rewrite E1 in *. rewrite E2. clear E1 E2.
  destruct (isSpace c) eqn:Hs.
  - assert (E : stepBeginValue K c = (stateBeginValue, K))
      by (unfold stepBeginValue; rewrite Hs; reflexivity).
    rewrite E in *.
    destruct v as [|c' v'].
    + right. split; reflexivity.
    + apply IH; [exact Hne | discriminate].
  - left. destruct (Ascii.eqb_spec c "]").
    + subst c. exfalso. apply Hne.
      change (stepBeginValue K "]") with scanError. now rewrite scan_error.
    + reflexivity.
Qed.

Lemma valid_value_orEmpty (v : string) (K : list parseState) :
  json_Valid v = true -> K <> [] ->
  valueDone (scan (stateBeginValueOrEmpty, K) v) K.
Proof.
  intros Hv HK. pose proof (valid_value v K Hv HK) as Hd.
  assert (Hne : fst (scan (stateBeginValue, K) v) <> stateError).
  { destruct Hd as [_ Hin]. intros E. rewrite E in Hin. cbn [In] in Hin.
    repeat destruct Hin as [Hin|Hin]; try discriminate Hin. exact Hin. }
  assert (Hnv : v <> EmptyString) by (intros ->; discriminate Hv).
  destruct (scan_valueOrEmpty K v Hne Hnv) as [->|[_ E]]; [exact Hd|].
  destruct Hd as [_ Hin]. rewrite E in Hin. cbn [In] in Hin.
  repeat destruct Hin as [Hin|Hin]; try discriminate Hin. contradiction.
Qed.

(** A member of an object: a key without escapes, a colon and a value. *)
Definition memberOK (m : string) : Prop :=
  exists k v, m = quoted k ++ ":" ++ v /\ plain k = true /\ json_Valid v = true.

Lemma scan_member (q : scanStep) (rest : list parseState) (m : string) :
  q = stateBeginString \/ q = stateBeginStringOrEmpty ->
  memberOK m ->
  valueDone (scan (q, parseObjectKey :: rest) m) (parseObjectValue :: rest).
Proof.
  intros Hq [k [v [-> [Hk Hv]]]].
  rewrite <- append_assoc, scan_app, scan_key by assumption.
  apply valid_value; [exact Hv | discriminate].
Qed.

Lemma joinWith_cons2 (sep x y : string) (l : list string) :
  joinWith sep (x :: y :: l) = x ++ sep ++ joinWith sep (y :: l).
Proof. reflexivity. Qed.

Lemma scan_members (ms : list string) :
  Forall memberOK ms -> ms <> [] ->
  forall (q : scanStep) (rest : list parseState),
    q = stateBeginString \/ q = stateBeginStringOrEmpty ->
    valueDone (scan (q, parseObjectKey :: rest) (joinWith "," ms))
      (parseObjectValue :: rest).
Proof.
  induction ms as [|m ms IH]; intros Hall Hne q rest Hq; [congruence|].
  inversion Hall as [|? ? Hm Hms]; subst.
  destruct ms as [|m2 ms].
  - cbn [joinWith]. now apply scan_member.
  - rewrite joinWith_cons2, scan_app. cbn [append scan].
    rewrite (valueDone_delim _ _ ","%char (scan_member q rest m Hq Hm))
      by (left; reflexivity).
    change (stepEndValue (parseObjectValue :: rest) ",")
      with (stateBeginString, parseObjectKey :: rest).
    apply IH; [exact Hms | discriminate | left; reflexivity].
Qed.

Lemma object_valid (ms : list string) :
  Forall memberOK ms -> json_Valid ("{" ++ joinWith "," ms ++ "}") = true.
Proof.
  intros Hall. unfold json_Valid. cbn [append scan].
  change (scanByte (stateBeginValue, []) "{")
    with (stateBeginStringOrEmpty, [parseObjectKey]).
  destruct ms as [|m ms]; [reflexivity|].
  rewrite scan_app. cbn [scan].
  rewrite (valueDone_delim _ _ "}"%char
             (scan_members (m :: ms) Hall ltac:(discriminate) _ []
                (or_intror eq_refl)))
    by (right; right; reflexivity).
  reflexivity.
Qed.

Lemma scan_items (vs : list string) :
  Forall (fun v => json_Valid v = true) vs -> vs <> [] ->
  forall (q : scanStep) (K : list parseState),
    q = stateBeginValue \/ q = stateBeginValueOrEmpty ->
    valueDone (scan (q, parseArrayValue :: K) (joinWith "," vs)) (parseArrayValue :: K).
Proof.
  induction vs as [|v vs IH]; intros Hall Hne q K Hq; [congruence|].
  inversion Hall as [|? ? Hv Hvs]; subst.
  assert (Hd : valueDone (scan (q, parseArrayValue :: K) v) (parseArrayValue :: K)).
  { destruct Hq as [-> | ->];
      [apply valid_value | apply valid_value_orEmpty]; try exact Hv; discriminate. }
  destruct vs as [|v2 vs].
  - cbn [joinWith]. exact Hd.
  - rewrite joinWith_cons2, scan_app. cbn [append scan].
    rewrite (valueDone_delim _ _ ","%char Hd) by (left; reflexivity).
    change (stepEndValue (parseArrayValue :: K) ",")
      with (stateBeginValue, parseArrayValue :: K).
    apply IH; [exact Hvs | discriminate | left; reflexivity].
Qed.

Lemma array_valid (vs : list string) :
  Forall (fun v => json_Valid v = true) vs ->
  json_Valid ("[" ++ joinWith "," vs ++ "]") = true.
Proof.
  intros Hall. unfold json_Valid. cbn [append scan].
  change (scanByte (stateBeginValue, []) "[")
    with (stateBeginValueOrEmpty, [parseArrayValue]).
  destruct vs as [|v vs]; [reflexivity|].
  rewrite scan_app. cbn [scan].
  rewrite (valueDone_delim _ _ "]"%char
             (scan_items (v :: vs) Hall ltac:(discriminate) _ []
                (or_intror eq_refl)))
    by (right; left; reflexivity).
  reflexivity.
Qed.

(* ================================================================== *)
(** ** Geo values that complete to valid JSON *)
(* ================================================================== *)

(** A point has its two coordinates, and they print as JSON values (as
    every float64 does). *)
Definition pointOK (coordinate : list (value F)) : Prop :=
  2 <= List.length coordinate
  /\ Forall (fun v => json_Valid (fmtV v) = true) coordinate.

Definition ringOK (ring : value F) : Prop :=
  Forall (fun point => pointOK (sliceOrNil (asSlice point))) (sliceOrNil (asSlice ring)).

Definition polygonOK (polygon : list (value F)) : Prop := Forall ringOK polygon.

Definition multiPolygonOK (multiPolygon : list (value F)) : Prop :=
  Forall (fun polygon => polygonOK (sliceOrNil (asSlice polygon))) multiPolygon.

(** The selection under a geo field asks for fields the geo type has. *)
Definition pointSelOK (fs : list Field) : Prop :=
  Forall (fun f => plain (ResponseName f) = true
                   /\ In (Name f) [Longitude; Latitude; Typename]) fs.

Definition ringSelOK (fs2 : list Field) : Prop :=
  Forall (fun f2 => plain (ResponseName f2) = true
                    /\ ((Name f2 = Points /\ pointSelOK (SelectionSet f2))
                        \/ Name f2 = Typename)) fs2.

Definition polygonSelOK (fs1 : list Field) : Prop :=
  Forall (fun f1 => plain (ResponseName f1) = true
                    /\ ((Name f1 = Coordinates /\ ringSelOK (SelectionSet f1))
                        \/ Name f1 = Typename)) fs1.

Definition multiPolygonSelOK (fs : list Field) : Prop :=
  Forall (fun f => plain (ResponseName f) = true
                   /\ ((Name f = Polygons /\ polygonSelOK (SelectionSet f))
                       \/ Name f = Typename)) fs.

Definition geoShapeOK (field : Field) (val : option (gomap F)) : Prop :=
  let coordinate := sliceOrNil (asSlice (mapIndexNil val Coordinates)) in
  let typ := asString (mapIndexNil val "type") in
  (typ = Point -> pointSelOK (SelectionSet field) /\ pointOK coordinate)
  /\ (typ = Polygon -> polygonSelOK (SelectionSet field) /\ polygonOK coordinate)
  /\ (typ = MultiPolygon ->
      multiPolygonSelOK (SelectionSet field) /\ multiPolygonOK coordinate).

Lemma memberText_ok (k : string) (t : jtree) :
  plain k = true -> json_Valid (render t) = true -> memberOK (memberText (k, Some t)).
Proof. intros Hk Ht. exists k, (render t). repeat split; assumption. Qed.

Lemma Forall_map_intro {A B : Type} (P : B -> Prop) (Q : A -> Prop) (f : A -> B)
  (l : list A) :
  (forall a, Q a -> P (f a)) -> Forall Q l -> Forall P (map f l).
Proof.
  intros H Hl. induction Hl; cbn [map]; constructor; auto.
Qed.

Lemma nth_printable (coordinate : list (value F)) (n : nat) :
  n < List.length coordinate ->
  Forall (fun v => json_Valid (fmtV v) = true) coordinate ->
  json_Valid (fmtV (nth n coordinate VNil)) = true.
Proof.
  intros Hn Hall. rewrite Forall_forall in Hall. apply Hall, nth_In, Hn.
Qed.

Lemma pointTree_valid (field : Field) (coordinate : list (value F)) :
  pointSelOK (SelectionSet field) -> pointOK coordinate ->
  json_Valid (render (pointTree field coordinate)) = true.
Proof.
  intros Hsel [Hlen Hall]. unfold pointTree. rewrite render_object.
  apply object_valid. rewrite map_map.
  eapply Forall_map_intro; [|exact Hsel].
  intros f [Hk Hn]. unfold pointMember.
  cbn [In] in Hn. destruct Hn as [Hn|[Hn|[Hn|[]]]]; rewrite <- Hn.
  - cbn [String.eqb Ascii.eqb Bool.eqb Longitude].
    apply memberText_ok; [exact Hk|]. cbn [render]. apply nth_printable; [lia|exact Hall].
  - change (Latitude =? Longitude)%string with false.
    rewrite String.eqb_refl.
    apply memberText_ok; [exact Hk|]. cbn [render]. apply nth_printable; [lia|exact Hall].
  - change (Typename =? Longitude)%string with false.
    change (Typename =? Latitude)%string with false.
    rewrite String.eqb_refl.
    apply memberText_ok; [exact Hk | reflexivity].
Qed.

Lemma ringTree_valid (f1 : Field) (ring : value F) :
  ringSelOK (SelectionSet f1) -> ringOK ring ->
  json_Valid (render (ringTree f1 ring)) = true.
Proof.
  intros Hsel Hring. unfold ringTree. rewrite render_object.
  apply object_valid. rewrite map_map.
  eapply Forall_map_intro; [|exact Hsel].
  intros f2 [Hk [[Hn Hp]|Hn]]; unfold ringMember; rewrite Hn.
  - rewrite String.eqb_refl. apply memberText_ok; [exact Hk|].
    rewrite render_array. apply array_valid. rewrite map_map.
    eapply Forall_map_intro; [|exact Hring].
    intros point Hpt. now apply pointTree_valid.
  - change (Typename =? Points)%string with false. rewrite String.eqb_refl.
    apply memberText_ok; [exact Hk | reflexivity].
Qed.

Lemma polygonTree_valid (field : Field) (polygon : list (value F)) :
  polygonSelOK (SelectionSet field) -> polygonOK polygon ->
  json_Valid (render (polygonTree field polygon)) = true.
Proof.
  intros Hsel Hpoly. unfold polygonTree. rewrite render_object.
  apply object_valid. rewrite map_map.
  eapply Forall_map_intro; [|exact Hsel].
  intros f1 [Hk [[Hn Hr]|Hn]]; unfold polygonMember; rewrite Hn.
  - rewrite String.eqb_refl. apply memberText_ok; [exact Hk|].
    rewrite render_array. apply array_valid. rewrite map_map.
    eapply Forall_map_intro; [|exact Hpoly].
    intros ring Hring. now apply ringTree_valid.
  - change (Typename =? Coordinates)%string with false. rewrite String.eqb_refl.
    apply memberText_ok; [exact Hk | reflexivity].
Qed.

Lemma multiPolygonTree_valid (field : Field) (multiPolygon : list (value F)) :
  multiPolygonSelOK (SelectionSet field) -> multiPolygonOK multiPolygon ->
  json_Valid (render (multiPolygonTree field multiPolygon)) = true.
Proof.
  intros Hsel Hmp. unfold multiPolygonTree. rewrite render_object.
  apply object_valid. rewrite map_map.
  eapply Forall_map_intro; [|exact Hsel].
  intros f [Hk [[Hn Hr]|Hn]]; unfold multiPolygonMember; rewrite Hn.
  - rewrite String.eqb_refl. apply memberText_ok; [exact Hk|].
    rewrite render_array. apply array_valid. rewrite map_map.
    eapply Forall_map_intro; [|exact Hmp].
    intros polygon Hpoly. now apply polygonTree_valid.
  - change (Typename =? Polygons)%string with false. rewrite String.eqb_refl.
    apply memberText_ok; [exact Hk | reflexivity].
Qed.

(** A geo value of the expected shape completes to a valid JSON text. *)
Lemma completeGeoObject_valid (path : list PathElem) (field : Field)
  (val : option (gomap F)) (buf b : Buffer.t) :
  geoShapeOK field val ->
  completeGeoObject path field val buf = Ret (b, None) ->
  exists w, b = buf ++ w /\ json_Valid w = true.
Proof.
  intros [Hpt [Hpoly Hmulti]] H.
  exists (render (geoTree field val)).
  split; [now apply completeGeoObject_text in H|].
  unfold completeGeoObject in H. unfold geoTree.
  destruct (asSlice (mapIndexNil val Coordinates)) as [coordinate|]; [|discriminate].
  cbn [sliceOrNil] in *.
  destruct (String.eqb_spec (asString (mapIndexNil val "type")) Point) as [Ht|Ht].
  { destruct (Hpt Ht). now apply pointTree_valid. }
  destruct (String.eqb_spec (asString (mapIndexNil val "type")) Polygon) as [Hp|Hp].
  { destruct (Hpoly Hp). now apply polygonTree_valid. }
  destruct (String.eqb_spec (asString (mapIndexNil val "type")) MultiPolygon) as [Hm|Hm];
    [|discriminate].
  destruct (Hmulti Hm). now apply multiPolygonTree_valid.
Qed.

(* ================================================================== *)
(** ** The keys of an emitted geo object, read off its bytes *)
(* ================================================================== *)



















Section TreeInduction.

Variable P : jtree -> Prop.
Hypothesis Htext : forall s, P (JText s).
Hypothesis Harray : forall items, Forall P items -> P (JArray items).
Hypothesis Hobject :
  forall members,
    Forall (fun m => forall t', snd m = Some t' -> P t') members -> P (JObject members).


End TreeInduction.

































(* ================================================================== *)
(** ** Inputs on which the response is valid JSON *)
(* ================================================================== *)

(** The interner gives back the id of the name it has for an id. *)
Definition internedAt (enc : encoder) (a : N) : Prop :=
  idForAttr enc (attrForID enc a) = a.

(** A node without children whose scalar is nil. *)
Definition nilLeaf (c : fastJsonNode) : Prop :=
  children c = [] /\ getScalarVal c = ScalarVal None.

(** Two neighbours with the same attribute are items of one list: both
    are list-tagged, neither is a nil leaf, and the selections for that
    attribute have a list type. *)
Fixpoint siblingsOK (enc : encoder) (sels : list Field) (cs : list fastJsonNode)
  : Prop :=
  match cs with
  | c1 :: rest =>
      match rest with
      | c2 :: _ =>
          (getAttr c1 = getAttr c2 ->
           getList c1 = true /\ getList c2 = true
           /\ ~ nilLeaf c1 /\ ~ nilLeaf c2
           /\ forall g, In g sels -> DgraphAlias g = attrForID enc (getAttr c1) ->
                        ListType (TypeOf g) <> None)
      | [] => True
      end
      /\ siblingsOK enc sels rest
  | [] => True
  end.

(** A selection whose key and type name can be written between quotes as
    they are; __typename is no list. *)
Definition fieldOK (g : Field) : Prop :=
  plain (ResponseName g) = true
  /\ (Name g = Typename ->
      ListType (TypeOf g) = None /\ forall ts, plain (TypeName g ts) = true).

(** The children that are left once the leading dgraph.type children have
    been read. *)
Fixpoint afterTypes (tid : N) (cs : list fastJsonNode) : list fastJsonNode :=
  match cs with
  | c :: rest => if (getAttr c =? tid)%N then afterTypes tid rest else cs
  | [] => []
  end.

(** The physical tree under [fj] fits the selection set [sels] of the
    field [pf]: scalars are valid JSON texts, geo values have the shape of
    their type, lists are runs of list-tagged nodes, the selections can be
    written as keys, and the interner is consistent on the attributes of
    the tree. *)
Inductive wfCall (enc : encoder) (tid : N)
  : fastJsonNode -> list Field -> Field -> Prop :=
| wfLeaf (fj : fastJsonNode) (sels : list Field) (pf : Field) :
    children fj = [] ->
    (forall val, getScalarVal fj = ScalarVal (Some val) ->
       if IsGeo (TypeOf pf)
       then forall geoVal, json_Unmarshal F val = Some geoVal -> geoShapeOK pf geoVal
       else json_Valid val = true) ->
    wfCall enc tid fj sels pf
| wfObject (fj : fastJsonNode) (sels : list Field) (pf : Field) :
    children fj <> [] ->
    Forall fieldOK sels ->
    siblingsOK enc sels (afterTypes tid (children fj)) ->
    (forall c, In c (children fj) -> internedAt enc (getAttr c)) ->
    (forall c g, In c (children fj) -> In g sels ->
                 DgraphAlias g = attrForID enc (getAttr c) ->
                 wfCall enc tid c (SelectionSet g) g) ->
    wfCall enc tid fj sels pf.

(** What the cursor of an activation satisfies. *)
Definition cursorOK (enc : encoder) (tid : N) (sels : list Field)
  (cs : list fastJsonNode) : Prop :=
  siblingsOK enc sels cs
  /\ forall c, In c cs ->
       internedAt enc (getAttr c)
       /\ forall g, In g sels -> DgraphAlias g = attrForID enc (getAttr c) ->
                    wfCall enc tid c (SelectionSet g) g.

(** [cs'] is what is left of [cs] after some nodes. *)
Inductive suffix : list fastJsonNode -> list fastJsonNode -> Prop :=
| suffix_refl (cs : list fastJsonNode) : suffix cs cs
| suffix_cons (c : fastJsonNode) (cs cs' : list fastJsonNode) :
    suffix cs' cs -> suffix cs' (c :: cs).

Lemma suffix_In (cs cs' : list fastJsonNode) (c : fastJsonNode) :
  suffix cs' cs -> In c cs' -> In c cs.
Proof.
  intros Hs. induction Hs as [cs|c0 cs cs' Hs IH]; intros Hin; [exact Hin | right; auto].
Qed.

Lemma siblingsOK_tail (enc : encoder) (sels : list Field) (c : fastJsonNode)
  (cs : list fastJsonNode) :
  siblingsOK enc sels (c :: cs) -> siblingsOK enc sels cs.
Proof. cbn [siblingsOK]. tauto. Qed.

Lemma siblingsOK_suffix (enc : encoder) (sels : list Field)
  (cs cs' : list fastJsonNode) :
  suffix cs' cs -> siblingsOK enc sels cs -> siblingsOK enc sels cs'.
Proof.
  intros Hs. induction Hs as [cs|c cs cs' Hs IH]; intros Hok; [exact Hok|].
  apply IH. eapply siblingsOK_tail, Hok.
Qed.

Lemma cursorOK_suffix (enc : encoder) (tid : N) (sels : list Field)
  (cs cs' : list fastJsonNode) :
  suffix cs' cs -> cursorOK enc tid sels cs -> cursorOK enc tid sels cs'.
Proof.
  intros Hs [H1 H2]. split; [eapply siblingsOK_suffix; eassumption|].
  intros c Hc. apply H2. eapply suffix_In; eassumption.
Qed.

Lemma skipAttr_suffix (attrId : N) (next : list fastJsonNode) :
  suffix (skipAttr attrId next) next.
Proof.
  induction next as [|n rest IH]; cbn [skipAttr]; [constructor|].
  destruct (getAttr n =? attrId)%N; [now constructor | constructor].
Qed.

Lemma afterTypes_suffix (tid : N) (cs : list fastJsonNode) :
  suffix (afterTypes tid cs) cs.
Proof.
  induction cs as [|c rest IH]; cbn [afterTypes]; [constructor|].
  destruct (getAttr c =? tid)%N; [now constructor | constructor].
Qed.

(** After the skip the selection is drained, when the current node has
    the id that is skipped. *)
Lemma skipAttr_drained (attrId : N) (cur : fastJsonNode) (next : list fastJsonNode) :
  getAttr cur = attrId ->
  selectionDrained cur (skipAttr attrId next) = true.
Proof.
  intros Hc. induction next as [|n rest IH]; cbn [skipAttr]; [reflexivity|].
  destruct (N.eqb_spec (getAttr n) attrId) as [E|E]; [exact IH|].
  cbn [selectionDrained]. apply negb_true_iff, N.eqb_neq. congruence.
Qed.

Lemma skipAttrCur_drained (attrId : N) (cur : fastJsonNode) (next : list fastJsonNode) :
  getAttr cur = attrId ->
  selectionDrained (fst (skipAttrCur attrId cur next)) (snd (skipAttrCur attrId cur next))
  = true.
Proof.
  revert cur. induction next as [|n rest IH]; intros cur Hc; cbn [skipAttrCur];
    [reflexivity|].
  destruct (N.eqb_spec (getAttr n) attrId) as [E|E]; [apply IH, E|].
  cbn [fst snd selectionDrained]. apply negb_true_iff, N.eqb_neq. congruence.
Qed.

Lemma harvestTypes_child (tid : N) (path : list PathElem) (cs : list fastJsonNode)
  (types : list string) (errList : list (GqlError F))
  (child0 : list fastJsonNode) (types' : list string) (errs' : list (GqlError F)) :
  harvestTypes F tid path cs types errList = Ret (child0, types', errs') ->
  child0 = afterTypes tid cs.
Proof.
  revert types errList.
  induction cs as [|c rest IH]; intros types errList H; cbn [harvestTypes afterTypes] in *.
  - apply Ret_inj in H. now inversion H.
  - destruct (getAttr c =? tid)%N.
    + destruct (getScalarVal c) as [err|val]; [now apply IH in H|].
      destruct (String.length _ <? 2)%nat; [discriminate|]. now apply IH in H.
    + apply Ret_inj in H. now inversion H.
Qed.

Lemma checkAndStripComma_comma (s : string) :
  checkAndStripComma (s ++ ",") = s.
Proof.
  unfold checkAndStripComma. rewrite lastByte_app_char.
  cbn [Ascii.eqb Bool.eqb]. apply take_drop_last.
Qed.

Lemma checkAndStripComma_brace (s : string) :
  checkAndStripComma (s ++ "{") = s ++ "{".
Proof. unfold checkAndStripComma. rewrite lastByte_app_char. reflexivity. Qed.

(** The recursive call, on a node that fits its selection, writes one
    valid JSON text when it returns true, or nothing at all for a nil leaf
    under a list field. *)
Definition recValid (enc : encoder) (tid : N) (rec : encodeFn F) : Prop :=
  forall c sels g out errList p r,
    wfCall enc tid c sels g ->
    rec c out errList tid sels g p = Ret r ->
    res_ok r = true ->
    exists w, res_out r = out ++ w
              /\ (json_Valid w = true
                  \/ (w = EmptyString /\ nilLeaf c /\ ListType (TypeOf g) <> None)).

(** The scanner after the opening brace of an object and the text [t]. *)
Definition scanMembers (t : string) : scanner :=
  scan (stateBeginStringOrEmpty, [parseObjectKey]) t.

Lemma scanMembers_app (a b : string) : scanMembers (a ++ b) = scan (scanMembers a) b.
Proof. apply scan_app. Qed.

Section ValidFrame.

Variable enc : encoder.
Variable tid : N.
Variable rec : encodeFn F.
Variable fj : fastJsonNode.
Variable sels : list Field.
Variable path : list PathElem.
Variable types : list string.
Variable base : string.

Hypothesis Hrec_ext : recExtends rec.
Hypothesis Hrec : recValid enc tid rec.
Hypothesis Hsels : Forall fieldOK sels.

(** Between two selections: nothing is written yet, or complete members,
    with a comma after them exactly when a selection is left. *)
Definition needKey (t : string) (n : nat) : Prop :=
  t = EmptyString
  \/ exists t', valueDone (scanMembers t') [parseObjectValue]
                /\ ((n < List.length sels /\ t = t' ++ ",")
                    \/ (List.length sels <= n /\ t = t')).

(** In the middle of a list: the key, the opening bracket and items with
    a comma after the last; the current node is the next item. *)
Definition inList (st : loopState F) : Prop :=
  exists sel cur next tk u,
    child st = cur :: next
    /\ nth_error sels (i st) = Some sel
    /\ skipField sel types = false
    /\ Name sel <> Typename
    /\ DgraphAlias sel = attrForID enc (getAttr cur)
    /\ getList cur = true
    /\ ~ nilLeaf cur
    /\ curSelectionIsList st = true
    /\ ListType (TypeOf sel) <> None
    /\ keyEndPos st = Buffer.Len (base ++ tk)
    /\ lout st = base ++ tk ++ "[" ++ u ++ ","
    /\ scanMembers tk = (stateBeginValue, [parseObjectValue])
    /\ valueDone (scanMembers (tk ++ "[" ++ u)) [parseArrayValue; parseObjectValue].

(** A state from which the loop no longer advances: the selection is
    __typename or has no data, and the next node has the attribute of the
    current one. *)
Definition doomed (st : loopState F) : Prop :=
  exists cur n rest sel,
    child st = cur :: n :: rest
    /\ getAttr cur = getAttr n
    /\ nth_error sels (i st) = Some sel
    /\ skipField sel types = false
    /\ (Name sel = Typename \/ DgraphAlias sel <> attrForID enc (getAttr cur)).

Definition validInv (st : loopState F) : Prop :=
  cursorOK enc tid sels (child st)
  /\ (doomed st
      \/ (cnt st = 0 /\ exists t, lout st = base ++ t /\ needKey t (i st))
      \/ (cnt st <> 0 /\ inList st)).

Section AfterValue.

Variable sel : Field.
Variable tk : string.
Variable isL : bool.

(** Step-2 has completed the member of the object. *)
Definition memberDone (v : valueStep F) : Prop :=
  selectionDrained (v_cur v) (v_next v) = true
  /\ isL && negb (v_nullWritten v) = false
  /\ exists tv, v_out v = base ++ tv
                /\ valueDone (scanMembers tv) [parseObjectValue].

(** Step-2 has written an item of the array of the member. *)
Definition itemDone (v : valueStep F) : Prop :=
  isL = true /\ v_nullWritten v = false
  /\ exists u,
       v_out v = base ++ tk ++ "[" ++ u
       /\ ((selectionDrained (v_cur v) (v_next v) = true
            /\ (u = EmptyString
                \/ valueDone (scanMembers (tk ++ "[" ++ u))
                     [parseArrayValue; parseObjectValue]))
           \/ (selectionDrained (v_cur v) (v_next v) = false
               /\ valueDone (scanMembers (tk ++ "[" ++ u))
                    [parseArrayValue; parseObjectValue]
               /\ v_child v = v_next v
               /\ Name sel <> Typename
               /\ exists n rest,
                    v_next v = n :: rest
                    /\ DgraphAlias sel = attrForID enc (getAttr n)
                    /\ getList n = true /\ ~ nilLeaf n)).

(** Step-2 has left the cursor where it was, before a node of the same
    attribute. *)
Definition stuck (v : valueStep F) : Prop :=
  selectionDrained (v_cur v) (v_next v) = false
  /\ v_child v = v_cur v :: v_next v
  /\ (Name sel = Typename \/ DgraphAlias sel <> attrForID enc (getAttr (v_cur v))).

Lemma selectionDrained_false (cur : fastJsonNode) (next : list fastJsonNode) :
  selectionDrained cur next = false ->
  exists n rest, next = n :: rest /\ getAttr cur = getAttr n.
Proof.
  destruct next as [|n rest]; cbn [selectionDrained]; [discriminate|].
  intros H. exists n, rest. split; [reflexivity|].
  apply negb_false_iff, N.eqb_eq in H. exact H.
Qed.

Lemma ltb_length_cases (n : nat) :
  ((n <? List.length sels)%nat = true /\ n < List.length sels)
  \/ ((n <? List.length sels)%nat = false /\ List.length sels <= n).
Proof. destruct (Nat.ltb_spec n (List.length sels)); [left | right]; split; auto. Qed.

Lemma closeValue_valid (c n : nat) (kep : Z) (v : valueStep F) :
  nth_error sels n = Some sel ->
  skipField sel types = false ->
  isL = isListType (TypeOf sel) ->
  scanMembers tk = (stateBeginValue, [parseObjectValue]) ->
  kep = Buffer.Len (base ++ tk) ->
  cursorOK enc tid sels (v_child v) ->
  memberDone v \/ itemDone v \/ stuck v ->
  validInv (closeValue F sels (S c) n kep isL v).
Proof.
  intros Hn Hskip HL Htk Hkep Hcur Hout.
  assert (Hlt : n < List.length sels) by (apply nth_error_Some; congruence).
  assert (Hltb : (n <? List.length sels)%nat = true) by (now apply Nat.ltb_lt).
  split; [unfold closeValue; cbn [child]; exact Hcur|].
  destruct Hout as [[Hd [Hnw [tv [Ho Hv]]]] | [[HisL [Hnw [u [Ho Hu]]]] | [Hd [Hc Hs]]]].
  - (* the member is complete *)
    right; left. unfold closeValue. rewrite Hd. cbn [andb]. rewrite Hnw.
    cbn [cnt i lout].
    split; [reflexivity|]. rewrite Ho. unfold Buffer.WriteRune.
    destruct (ltb_length_cases (S n)) as [[-> Hi]|[-> Hi]].
    + exists (tv ++ ","). split; [now rewrite append_assoc|].
      right. exists tv. split; [exact Hv|]. left. split; [exact Hi | reflexivity].
    + exists tv. split; [reflexivity|].
      right. exists tv. split; [exact Hv|]. right. split; [exact Hi | reflexivity].
  - destruct Hu as [[Hd Hu] | [Hd [Hv [Hc [Hname [n0 [rest [Hnext [Hal [Hl Hnil]]]]]]]]]].
    + (* the last item: the bracket closes the member *)
      right; left. unfold closeValue. rewrite Hd, HisL, Hnw. cbn [andb negb cnt i lout].
      split; [reflexivity|]. rewrite Ho. unfold Buffer.WriteRune.
      assert (Hv : valueDone (scanMembers (tk ++ "[" ++ u ++ "]")) [parseObjectValue]).
      { destruct Hu as [-> | Hu].
        - cbn [append]. rewrite scanMembers_app, Htk. apply valueDone_endValue.
        - replace (tk ++ "[" ++ u ++ "]") with ((tk ++ "[" ++ u) ++ "]")
            by (now rewrite !append_assoc).
          rewrite scanMembers_app. cbn [scan].
          rewrite (valueDone_delim _ _ "]"%char Hu) by (right; left; reflexivity).
          apply valueDone_endValue. }
      destruct (ltb_length_cases (S n)) as [[-> Hi]|[-> Hi]].
      * exists ((tk ++ "[" ++ u ++ "]") ++ ","). split; [now rewrite !append_assoc|].
        right. eexists. split; [exact Hv|]. left. split; [exact Hi | reflexivity].
      * exists (tk ++ "[" ++ u ++ "]"). split; [now rewrite !append_assoc|].
        right. eexists. split; [exact Hv|]. right. split; [exact Hi | reflexivity].
    + (* more items follow *)
      right; right. unfold closeValue. rewrite Hd. cbn [andb cnt i lout].
      split; [discriminate|]. rewrite Hltb.
      exists sel, n0, rest, tk, u.
      cbn [child cnt i keyEndPos curSelectionIsList lout].
      rewrite Hc, Hnext, Ho. unfold Buffer.WriteRune.
      repeat split; try assumption.
      * rewrite HL in HisL. unfold isListType in HisL.
        destruct (ListType (TypeOf sel)); [discriminate | discriminate HisL].
      * now rewrite !append_assoc.
      * destruct Hv; assumption.
      * destruct Hv; assumption.
  - (* the cursor has not moved and cannot *)
    left. destruct (selectionDrained_false _ _ Hd) as [n0 [rest [Hnext Hattr]]].
    unfold closeValue. rewrite Hd. cbn [andb].
    exists (v_cur v), n0, rest, sel. cbn [child i]. rewrite Hc, Hnext.
    repeat split; assumption.
Qed.

End AfterValue.

Lemma take_base (a rest : string) :
  take (Z.to_nat (Buffer.Len a)) (a ++ rest) = a.
Proof. unfold Buffer.Len. rewrite Nat2Z.id. apply take_app_length. Qed.

Lemma Truncate_base (a rest : string) :
  Buffer.Truncate (a ++ rest) (Buffer.Len a) = Ret a.
Proof. apply Truncate_Len_app. Qed.

(** The null writer at the key end leaves a complete member, when it
    writes. *)
Lemma nullWriter_valid (sel : Field) (tk rest : string) (w : bool) (o' : Buffer.t) :
  scanMembers tk = (stateBeginValue, [parseObjectValue]) ->
  writeGraphQLNull sel ((base ++ tk) ++ rest) (Buffer.Len (base ++ tk)) = Ret (w, o') ->
  w = false
  \/ (w = true /\ exists tv, o' = base ++ tv
                             /\ valueDone (scanMembers tv) [parseObjectValue]).
Proof.
  intros Htk H. unfold writeGraphQLNull in H. rewrite Truncate_base in H.
  cbn [bind] in H. unfold Buffer.WriteString in H.
  destruct (isListType (TypeOf sel)); [|destruct (Nullable (TypeOf sel))];
    apply Ret_inj in H; inversion H; subst; [right | right | left; reflexivity];
    (split; [reflexivity|]).
  - exists (tk ++ "[]"). split; [now rewrite append_assoc|].
    rewrite scanMembers_app, Htk. apply valueDone_endValue.
  - exists (tk ++ "null"). split; [now rewrite append_assoc|].
    rewrite scanMembers_app, Htk. apply valueDone_endValue.
Qed.

(** A node followed by one of the same attribute is an item of a list. *)
Lemma notDrained_list (sel : Field) (cur : fastJsonNode) (next : list fastJsonNode) :
  cursorOK enc tid sels (cur :: next) ->
  selectionDrained cur next = false ->
  In sel sels ->
  DgraphAlias sel = attrForID enc (getAttr cur) ->
  exists n rest,
    next = n :: rest /\ getAttr cur = getAttr n
    /\ getList cur = true /\ getList n = true
    /\ ~ nilLeaf cur /\ ~ nilLeaf n
    /\ ListType (TypeOf sel) <> None.
Proof.
  intros [Hsib _] Hd Hin Hal.
  destruct (selectionDrained_false _ _ Hd) as [n [rest [-> Hattr]]].
  cbn [siblingsOK] in Hsib. destruct Hsib as [Hpair _].
  destruct (Hpair Hattr) as [H1 [H2 [H3 [H4 H5]]]].
  exists n, rest. repeat split; auto.
Qed.

Lemma cursorOK_tail (c : fastJsonNode) (cs : list fastJsonNode) :
  cursorOK enc tid sels (c :: cs) -> cursorOK enc tid sels cs.
Proof. apply cursorOK_suffix. constructor. constructor. Qed.

Lemma cursorOK_skip (attrId : N) (c : fastJsonNode) (cs : list fastJsonNode) :
  cursorOK enc tid sels (c :: cs) -> cursorOK enc tid sels (skipAttr attrId cs).
Proof.
  intros H. eapply cursorOK_suffix; [|exact H]. constructor. apply skipAttr_suffix.
Qed.

Lemma isListType_spec (t : Type_) :
  (isListType t = true /\ exists item, ListType t = Some item)
  \/ (isListType t = false /\ ListType t = None).
Proof.
  unfold isListType. destruct (ListType t) as [item|];
    [left; split; [reflexivity | now exists item] | right; split; reflexivity].
Qed.

(** An item written into the array of a list selection. *)
Lemma item_written (sel : Field) (cur : fastJsonNode) (next : list fastJsonNode)
  (tk pre w : string) (q : scanStep) (errs : list (GqlError F)) :
  In sel sels ->
  Name sel <> Typename ->
  DgraphAlias sel = attrForID enc (getAttr cur) ->
  cursorOK enc tid sels (cur :: next) ->
  scanMembers (tk ++ "[" ++ pre) = (q, [parseArrayValue; parseObjectValue]) ->
  (q = stateBeginValueOrEmpty /\ pre = EmptyString)
  \/ (q = stateBeginValue /\ ~ nilLeaf cur) ->
  json_Valid w = true \/ (w = EmptyString /\ nilLeaf cur) ->
  itemDone sel tk true
    {| v_out := (base ++ tk ++ "[" ++ pre) ++ w; v_errs := errs; v_nullWritten := false;
       v_child := next; v_cur := cur; v_next := next |}.
Proof.
  intros Hin Hname Hal Hcur Hq Hqc Hw.
  split; [reflexivity|]. split; [reflexivity|].
  exists (pre ++ w). cbn [v_out v_cur v_next v_child].
  split; [now rewrite !append_assoc|].
  assert (Hdone : json_Valid w = true ->
            valueDone (scanMembers (tk ++ "[" ++ pre ++ w))
              [parseArrayValue; parseObjectValue]).
  { intros Hv.
    replace (tk ++ "[" ++ pre ++ w) with ((tk ++ "[" ++ pre) ++ w)
      by (now rewrite !append_assoc).
    rewrite scanMembers_app, Hq.
    destruct Hqc as [[-> _] | [-> _]];
      [apply valid_value_orEmpty | apply valid_value]; try exact Hv; discriminate. }
  destruct (selectionDrained cur next) eqn:Hd.
  - left. split; [reflexivity|].
    destruct Hw as [Hv | [-> Hnil]]; [right; now apply Hdone|].
    destruct Hqc as [[_ ->] | [_ Hnn]]; [left; reflexivity | contradiction].
  - right. split; [reflexivity|].
    destruct (notDrained_list sel cur next Hcur Hd Hin Hal)
      as [n [rest [Hnext [Hattr [Hl1 [Hl2 [Hn1 [Hn2 Hlt]]]]]]]].
    split.
    { destruct Hw as [Hv | [_ Hnil]]; [now apply Hdone | contradiction]. }
    split; [reflexivity|]. split; [exact Hname|].
    exists n, rest. repeat split; try assumption. congruence.
Qed.

Lemma writeValue_valid (sel : Field) (cur : fastJsonNode) (next : list fastJsonNode)
  (c : nat) (isL : bool) (errList : list (GqlError F)) (tk pre : string)
  (q : scanStep) (x : result F + valueStep F) :
  In sel sels ->
  isL = isListType (TypeOf sel) ->
  scanMembers tk = (stateBeginValue, [parseObjectValue]) ->
  cursorOK enc tid sels (cur :: next) ->
  (isL = true ->
     scanMembers (tk ++ "[" ++ pre) = (q, [parseArrayValue; parseObjectValue])
     /\ ((q = stateBeginValueOrEmpty /\ pre = EmptyString)
         \/ (q = stateBeginValue /\ ~ nilLeaf cur))) ->
  writeValue F enc rec fj tid path types sel cur next c (Buffer.Len (base ++ tk)) isL
    ((base ++ tk) ++ (if isL then "[" ++ pre else EmptyString)) errList = Ret x ->
  match x with
  | inl r => res_ok r = false
  | inr v => cursorOK enc tid sels (v_child v)
             /\ (memberDone isL v \/ itemDone sel tk isL v \/ stuck sel v)
  end.
Proof.
  intros Hin HL Htk Hcur Harr H.
  assert (Hf : fieldOK sel) by (rewrite Forall_forall in Hsels; now apply Hsels).
  destruct Hf as [_ Hty].
  unfold writeValue in H.
  destruct (String.eqb_spec (Name sel) Typename) as [Hname|Hname].
  { (* __typename *)
    destruct (Hty Hname) as [Hlt Hplain].
    rewrite (isListType_false _ Hlt) in HL. subst isL.
    apply Ret_inj in H; subst x. cbn [v_child]. split; [exact Hcur|].
    destruct (selectionDrained cur next) eqn:Hd.
    - left. split; [exact Hd|]. split; [reflexivity|]. cbn [v_out].
      exists (tk ++ typenameValue types sel).
      rewrite append_nil_r. unfold Buffer.WriteString.
      split; [now rewrite append_assoc|].
      rewrite scanMembers_app, Htk. unfold typenameValue.
      rewrite scan_quoted_value by (auto). apply valueDone_endValue.
    - right; right. split; [exact Hd|]. split; [reflexivity|]. now left. }
  destruct (String.eqb_spec (DgraphAlias sel) (attrForID enc (getAttr cur)))
    as [Hal|Hal]; cbn [negb] in H.
  2: { (* no data for the selection *)
    bind_inv H. destruct a as [w o'].
    destruct (nullWriter_valid _ _ _ _ _ Htk E) as [-> | [-> [tv [-> Hv]]]];
      cbn [negb] in H; apply Ret_inj in H; subst x; [reflexivity|].
    cbn [v_child]. split; [exact Hcur|].
    destruct (selectionDrained cur next) eqn:Hd.
    - left. split; [exact Hd|]. split; [apply andb_false_r|]. now exists tv.
    - right; right. split; [exact Hd|]. split; [reflexivity|]. now right. }
  assert (Hwf : wfCall enc tid cur (SelectionSet sel) sel).
  { destruct Hcur as [_ Hc]. apply (Hc cur); [now left | exact Hin | exact Hal]. }
  assert (Hid : idForAttr enc (DgraphAlias sel) = getAttr cur).
  { rewrite Hal. destruct Hcur as [_ Hc]. apply (Hc cur). now left. }
  assert (Hnd : forall v_nw tv next',
            isL && negb v_nw = false ->
            valueDone (scanMembers tv) [parseObjectValue] ->
            selectionDrained cur next' = true ->
            memberDone isL {| v_out := base ++ tv; v_errs := errList;
                              v_nullWritten := v_nw; v_child := next';
                              v_cur := cur; v_next := next' |}).
  { intros v_nw tv next' H1 H2 H3. split; [exact H3|]. split; [exact H1|].
    now exists tv. }
  destruct (isListType_spec (TypeOf sel)) as [[HLt [item Hitem]] | [HLt HLn]];
    rewrite HLt in HL; subst isL.
  - (* a list selection *)
    destruct (Harr eq_refl) as [Hq Hqc].
    destruct (getList cur) eqn:Hlist; cbn [andb negb orb] in H.
    + (* case 1 *)
      bind_inv H. rename a into r. rename E into Hr.
      pose proof (Hrec_ext _ _ _ _ _ _ _ _ Hr) as Hext.
      destruct (res_ok r) eqn:Hok; cbn [negb] in H.
      * apply Ret_inj in H; subst x.
        destruct (Hrec _ _ _ _ _ _ _ Hwf Hr Hok) as [w [Hw Hwv]].
        cbn [v_child]. split; [exact (cursorOK_tail _ _ Hcur)|].
        right; left. rewrite Hw.
        replace ((base ++ tk) ++ "[" ++ pre) with (base ++ tk ++ "[" ++ pre)
          by (now rewrite !append_assoc).
        apply item_written with (q := q); try assumption.
        destruct Hwv as [Hv | [Hv [Hn _]]]; [now left | right; now split].
      * rewrite Hitem in H.
        destruct (Nullable item).
        -- rewrite Truncate_ok in H
             by (pose proof (extends_Len _ _ Hext);
                 pose proof (Len_nonneg ((base ++ tk) ++ "[" ++ pre)); lia).
           rewrite (take_extends _ _ Hext) in H. cbn [bind] in H.
           apply Ret_inj in H; subst x.
           cbn [v_child]. split; [exact (cursorOK_tail _ _ Hcur)|].
           right; left. unfold Buffer.WriteString.
           replace ((base ++ tk) ++ "[" ++ pre) with (base ++ tk ++ "[" ++ pre)
             by (now rewrite !append_assoc).
           apply item_written with (q := q); try assumption. now left.
        -- destruct (Nullable (TypeOf sel)).
           ++ destruct Hext as [w' Hw']. rewrite Hw' in H.
              rewrite append_assoc, Truncate_base in H. cbn [bind] in H.
              pose proof (skipAttrCur_snd (idForAttr enc (DgraphAlias sel)) cur next)
                as Hsnd.
              pose proof (skipAttrCur_drained (idForAttr enc (DgraphAlias sel)) cur next
                            (eq_sym Hid)) as Hdr.
              destruct (skipAttrCur (idForAttr enc (DgraphAlias sel)) cur next)
                as [cur' next'].
              cbn [fst snd] in *. subst next'.
              apply Ret_inj in H; subst x. cbn [v_child].
              split; [exact (cursorOK_skip _ _ _ Hcur)|].
              left. split; [exact Hdr|]. split; [reflexivity|].
              cbn [v_out]. unfold Buffer.WriteString.
              exists (tk ++ "null"). split; [now rewrite !append_assoc|].
              rewrite scanMembers_app, Htk. apply valueDone_endValue.
           ++ apply Ret_inj in H; subst x. reflexivity.
    + (* case 2 *)
      bind_inv H. destruct a as [w o'].
      destruct (nullWriter_valid _ _ _ _ _ Htk E) as [-> | [-> [tv [-> Hv]]]];
        cbn [negb] in H; apply Ret_inj in H; subst x; [reflexivity|].
      cbn [v_child]. split; [exact (cursorOK_tail _ _ Hcur)|].
      left. split; [|split; [reflexivity | now exists tv]].
      cbn [v_cur v_next].
      destruct (selectionDrained cur next) eqn:Hd; [reflexivity|].
      destruct (notDrained_list sel cur next Hcur Hd Hin Hal)
        as [n [rest [_ [_ [Hl1 _]]]]]. congruence.
  - (* a single selection *)
    cbn [andb negb] in H.
    assert (Hdr : selectionDrained cur next = true).
    { destruct (selectionDrained cur next) eqn:Hd; [reflexivity|].
      destruct (notDrained_list sel cur next Hcur Hd Hin Hal)
        as [n [rest [_ [_ [_ [_ [_ [_ Hlist]]]]]]]]. congruence. }
    rewrite append_nil_r in H.
    destruct (negb (getList cur) || (getAttr fj =? idForAttr enc "_root_")%N).
    + (* case 4 *)
      bind_inv H. rename a into r. rename E into Hr.
      pose proof (Hrec_ext _ _ _ _ _ _ _ _ Hr) as Hext.
      destruct (res_ok r) eqn:Hok; cbn [negb] in H.
      * apply Ret_inj in H; subst x.
        destruct (Hrec _ _ _ _ _ _ _ Hwf Hr Hok) as [w [Hw Hwv]].
        cbn [v_child]. split; [exact (cursorOK_tail _ _ Hcur)|].
        left. split; [exact Hdr|]. split; [reflexivity|]. cbn [v_out].
        exists (tk ++ w). split; [rewrite Hw; now rewrite append_assoc|].
        destruct Hwv as [Hv | [_ [_ Hlist]]]; [|congruence].
        rewrite scanMembers_app, Htk. apply valid_value; [exact Hv | discriminate].
      * bind_inv H. destruct a as [w o'].
        destruct Hext as [w' Hw']. rewrite Hw' in E.
        destruct (nullWriter_valid _ _ _ _ _ Htk E) as [-> | [-> [tv [-> Hv]]]];
          cbn [negb] in H; apply Ret_inj in H; subst x; [reflexivity|].
        cbn [v_child]. split; [exact (cursorOK_tail _ _ Hcur)|].
        left. split; [exact Hdr|]. split; [reflexivity|]. now exists tv.
    + (* case 3 *)
      bind_inv H. destruct a as [w o'].
      rewrite <- (append_nil_r (base ++ tk)) in E at 1.
      destruct (nullWriter_valid _ _ _ _ _ Htk E) as [-> | [-> [tv [-> Hv]]]];
        cbn [negb] in H; apply Ret_inj in H; subst x; [reflexivity|].
      cbn [v_child]. split; [exact (cursorOK_skip _ _ _ Hcur)|].
      left. split; [|split; [reflexivity | now exists tv]].
      cbn [v_cur v_next]. apply skipAttr_drained. now symmetry.
Qed.

Hypothesis Hbase : exists b0, base = b0 ++ "{".

Lemma closeValue_doomed (sel : Field) (c n : nat) (kep : Z) (isL : bool)
  (v : valueStep F) :
  nth_error sels n = Some sel ->
  skipField sel types = false ->
  selectionDrained (v_cur v) (v_next v) = false ->
  v_child v = v_cur v :: v_next v ->
  Name sel = Typename \/ DgraphAlias sel <> attrForID enc (getAttr (v_cur v)) ->
  doomed (closeValue F sels c n kep isL v).
Proof.
  intros Hn Hskip Hd Hc Hs.
  destruct (selectionDrained_false _ _ Hd) as [n0 [rest [Hnext Hattr]]].
  unfold closeValue. rewrite Hd. cbn [andb].
  exists (v_cur v), n0, rest, sel. cbn [child i]. rewrite Hc, Hnext.
  repeat split; assumption.
Qed.

(** The text up to the end of the key of the next member. *)
Lemma key_after_needKey (sel : Field) (t : string) (n : nat) :
  fieldOK sel -> needKey t n -> n < List.length sels ->
  scanMembers (t ++ quoted (ResponseName sel) ++ ":")
  = (stateBeginValue, [parseObjectValue]).
Proof.
  intros [Hk _] Hnk Hn. rewrite scanMembers_app.
  destruct Hnk as [-> | [t' [Hv [[_ ->] | [Hle _]]]]]; [| |lia].
  - cbn [scanMembers scan]. unfold scanMembers. cbn [scan].
    apply scan_key; [right; reflexivity | exact Hk].
  - rewrite scanMembers_app. cbn [scan].
    rewrite (valueDone_delim _ _ ","%char Hv) by (left; reflexivity).
    apply scan_key; [left; reflexivity | exact Hk].
Qed.

Lemma checkAndStripComma_base : checkAndStripComma base = base.
Proof. destruct Hbase as [b0 ->]. apply checkAndStripComma_brace. Qed.

Lemma needKey_skip (t : string) (n : nat) :
  needKey t n -> n < List.length sels ->
  exists t2,
    (if (S n =? List.length sels)%nat then checkAndStripComma (base ++ t) else base ++ t)
    = base ++ t2
    /\ needKey t2 (S n).
Proof.
  intros Hnk Hn.
  destruct Hnk as [-> | [t' [Hv [[_ ->] | [Hle _]]]]]; [| |lia].
  - exists EmptyString. rewrite append_nil_r.
    split; [|now left].
    destruct (S n =? List.length sels)%nat;
      [apply checkAndStripComma_base | reflexivity].
  - destruct (Nat.eqb_spec (S n) (List.length sels)) as [E|E].
    + exists t'. rewrite <- append_assoc, checkAndStripComma_comma.
      split; [reflexivity|]. right. exists t'. split; [exact Hv|].
      right. split; [lia | reflexivity].
    + exists (t' ++ ","). split; [reflexivity|]. right. exists t'.
      split; [exact Hv|]. left. split; [lia | reflexivity].
Qed.

Lemma nth_error_sel_In (n : nat) (sel : Field) :
  nth_error sels n = Some sel -> In sel sels /\ n < List.length sels.
Proof.
  intros H. split; [eapply nth_error_In; exact H|].
  apply nth_error_Some. congruence.
Qed.

(** One iteration keeps the invariant, or returns false. *)
Lemma loopBody_valid (st : loopState F) (s : loopStep F) :
  validInv st ->
  loopBody F enc rec fj tid sels path types st = Ret s ->
  match s with
  | Continue st' => validInv st'
  | Return r => res_ok r = false
  end.
Proof.
  intros [Hcur Hform] H. unfold loopBody in H.
  destruct (child st) as [|cur next] eqn:Hc; [discriminate|].
  destruct (nth_error sels (i st)) as [sel|] eqn:Hn; [|discriminate].
  destruct (nth_error_sel_In _ _ Hn) as [Hin Hlt].
  assert (Hf : fieldOK sel) by (rewrite Forall_forall in Hsels; now apply Hsels).
  destruct (skipField sel types) eqn:Hskip.
  - (* the selection is skipped *)
    apply Ret_inj in H; subst s.
    destruct Hform as [Hd | [[Hc0 [t [Ho Hnk]]] | [_ Hil]]].
    + destruct Hd as [? [? [? [sel' [_ [_ [Hn' [Hs' _]]]]]]]]. congruence.
    + split.
      { cbn [child].
        destruct (getAttr cur =? idForAttr enc (DgraphAlias sel))%N;
          [exact (cursorOK_skip _ _ _ Hcur) | exact Hcur]. }
      right; left. cbn [cnt lout i]. split; [reflexivity|].
      rewrite Ho. now apply needKey_skip.
    + destruct Hil as [sel' [? [? [? [? [_ [Hn' [Hs' _]]]]]]]]. congruence.
  - destruct (startValue F sel (S (cnt st)) st) as [[out1 kep] isL] eqn:Hs.
    bind_inv H. rename a into x. rename E into Hx.
    destruct Hform as [Hd | [[Hc0 [t [Ho Hnk]]] | [Hcn Hil]]].
    + (* the loop is stuck already *)
      destruct Hd as [cur' [n0 [rest [sel' [Hc' [Hattr [Hn' [_ Hty]]]]]]]].
      rewrite Hc in Hc'. inversion Hc'; subst cur' next. clear Hc'.
      rewrite Hn in Hn'. inversion Hn'; subst sel'. clear Hn'.
      assert (Hd : selectionDrained cur (n0 :: rest) = false).
      { cbn [selectionDrained]. apply negb_false_iff, N.eqb_eq, Hattr. }
      unfold writeValue in Hx.
      destruct (String.eqb_spec (Name sel) Typename) as [Hname|Hname].
      { apply Ret_inj in Hx; subst x. apply Ret_inj in H; subst s.
        split; [exact Hcur|]. left.
        apply closeValue_doomed with (sel := sel); auto. }
      destruct Hty as [Hty|Hty]; [contradiction|].
      destruct (String.eqb_spec (DgraphAlias sel) (attrForID enc (getAttr cur)))
        as [Hal|_]; [contradiction|]. cbn [negb] in Hx.
      bind_inv Hx. destruct a as [w o'].
      destruct w; cbn [negb] in Hx; apply Ret_inj in Hx; subst x;
        apply Ret_inj in H; subst s; [|reflexivity].
      split; [exact Hcur|]. left.
      apply closeValue_doomed with (sel := sel); auto.
    + (* the first item of the selection: the key is written *)
      unfold startValue in Hs. rewrite Hc0 in Hs. cbn [Nat.eqb] in Hs.
      rewrite Ho, writeKey_text in Hs.
      set (tk := t ++ quoted (ResponseName sel) ++ ":").
      assert (Hbk : (base ++ t) ++ quoted (ResponseName sel) ++ ":" = base ++ tk)
        by (unfold tk; now rewrite append_assoc).
      rewrite Hbk in Hs. inversion Hs; subst out1 kep isL. clear Hs.
      assert (Htk : scanMembers tk = (stateBeginValue, [parseObjectValue]))
        by (apply key_after_needKey with (n := i st); assumption).
      assert (Hout1 : (if isListType (TypeOf sel)
                       then Buffer.WriteRune (base ++ tk) "[" else base ++ tk)
                      = (base ++ tk)
                          ++ (if isListType (TypeOf sel)
                              then "[" ++ EmptyString else EmptyString)).
      { destruct (isListType (TypeOf sel)); [reflexivity | now rewrite append_nil_r]. }
      rewrite Hout1 in Hx.
      pose proof (writeValue_valid sel cur next (S (cnt st))
                    (isListType (TypeOf sel)) (lerrs st) tk EmptyString
                    stateBeginValueOrEmpty x Hin eq_refl Htk Hcur) as Hv.
      assert (Harr : isListType (TypeOf sel) = true ->
                scanMembers (tk ++ "[" ++ EmptyString)
                = (stateBeginValueOrEmpty, [parseArrayValue; parseObjectValue])
                /\ ((stateBeginValueOrEmpty = stateBeginValueOrEmpty
                     /\ EmptyString = EmptyString)
                    \/ (stateBeginValueOrEmpty = stateBeginValue /\ ~ nilLeaf cur))).
      { intros _. split; [|left; split; reflexivity].
        rewrite scanMembers_app, Htk. reflexivity. }
      specialize (Hv Harr Hx).
      destruct x as [r|v]; apply Ret_inj in H; subst s; [exact Hv|].
      destruct Hv as [Hcv Hout].
      apply closeValue_valid with (sel := sel) (tk := tk); auto.
    + (* a further item of a list *)
      destruct Hil as [sel' [cur' [next' [tk [u [Hc' [Hn' [_ [Hname [Hal [Hlist
                        [Hnil [Hcl [Hlt' [Hk [Ho [Htk Hu]]]]]]]]]]]]]]]]].
      rewrite Hc in Hc'. inversion Hc'; subst cur' next'. clear Hc'.
      rewrite Hn in Hn'. inversion Hn'; subst sel'. clear Hn'.
      unfold startValue in Hs.
      destruct (cnt st) as [|c0] eqn:Hcnt; [congruence|]. cbn [Nat.eqb] in Hs.
      rewrite Ho, Hk, Hcl in Hs. inversion Hs; subst out1 kep isL. clear Hs.
      assert (HL : true = isListType (TypeOf sel))
        by (symmetry; now apply isListType_true).
      assert (Hx' : writeValue F enc rec fj tid path types sel cur next (S (S c0))
                      (Buffer.Len (base ++ tk)) true
                      ((base ++ tk) ++ "[" ++ u ++ ",") (lerrs st) = Ret x)
        by (rewrite append_assoc; exact Hx).
      assert (Harr : true = true ->
                scanMembers (tk ++ "[" ++ u ++ ",")
                = (stateBeginValue, [parseArrayValue; parseObjectValue])
                /\ ((stateBeginValue = stateBeginValueOrEmpty
                     /\ u ++ "," = EmptyString)
                    \/ (stateBeginValue = stateBeginValue /\ ~ nilLeaf cur))).
      { intros _. split; [|right; split; [reflexivity | exact Hnil]].
        replace (tk ++ "[" ++ u ++ ",") with ((tk ++ "[" ++ u) ++ ",")
          by (now rewrite !append_assoc).
        rewrite scanMembers_app. cbn [scan].
        rewrite (valueDone_delim _ _ ","%char Hu) by (left; reflexivity).
        reflexivity. }
      pose proof (writeValue_valid sel cur next (S (S c0)) true (lerrs st) tk
                    (u ++ ",") stateBeginValue x Hin HL Htk Hcur Harr Hx') as Hv.
      destruct x as [r|v]; apply Ret_inj in H; subst s; [exact Hv|].
      destruct Hv as [Hcv Hout].
      apply closeValue_valid with (sel := sel) (tk := tk); auto.
Qed.

Lemma mainLoop_valid (fuel : nat) :
  forall (st : loopState F) (s : loopStep F),
    validInv st ->
    mainLoop F enc rec fj tid sels path types fuel st = Ret s ->
    match s with
    | Continue st' => exists t, lout st' = base ++ t /\ needKey t (i st')
    | Return r => res_ok r = false
    end.
Proof.
  assert (Hexit : forall st : loopState F,
            validInv st ->
            child st = [] \/ (i st <? List.length sels)%nat = false ->
            exists t, lout st = base ++ t /\ needKey t (i st)).
  { intros st [_ Hform] Hex.
    destruct Hform as [Hd | [[_ Ht] | [_ Hil]]]; [|exact Ht|].
    - destruct Hd as [cur [n0 [rest [sel [Hc [_ [Hn _]]]]]]].
      destruct (nth_error_sel_In _ _ Hn) as [_ Hlt]. apply Nat.ltb_lt in Hlt.
      destruct Hex as [Hex|Hex]; congruence.
    - destruct Hil as [sel [cur [next [? [? [Hc [Hn _]]]]]]].
      destruct (nth_error_sel_In _ _ Hn) as [_ Hlt]. apply Nat.ltb_lt in Hlt.
      destruct Hex as [Hex|Hex]; congruence. }
  induction fuel as [|fuel IH]; intros st s Hinv H; cbn [mainLoop] in H.
  - destruct (child st) eqn:Hc;
      [|destruct (i st <? List.length sels)%nat eqn:Hi; [discriminate|]];
      apply Ret_inj in H; subst s; apply Hexit; auto.
  - destruct (child st) eqn:Hc; [apply Ret_inj in H; subst s; apply Hexit; auto|].
    destruct (i st <? List.length sels)%nat eqn:Hi;
      [|apply Ret_inj in H; subst s; apply Hexit; auto].
    bind_inv H.
    pose proof (loopBody_valid _ _ Hinv E) as Hs.
    destruct a as [st'|r].
    + exact (IH _ _ Hs H).
    + apply Ret_inj in H; subst s. exact Hs.
Qed.

(** Between two selections, when the data has run out. *)
Definition needKeyRest (t : string) (rest : list Field) : Prop :=
  t = EmptyString
  \/ exists t', valueDone (scanMembers t') [parseObjectValue]
                /\ ((rest <> [] /\ t = t' ++ ",") \/ (rest = [] /\ t = t')).

Lemma tailLoop_valid (rest : list Field) :
  Forall fieldOK rest ->
  forall (t : string) (errList : list (GqlError F)) (r : result F),
    needKeyRest t rest ->
    tailLoop F path types rest (base ++ t) errList = Ret r ->
    res_ok r = true ->
    exists t2, res_out r = base ++ t2
               /\ (t2 = EmptyString \/ valueDone (scanMembers t2) [parseObjectValue]).
Proof.
  induction rest as [|sel rest IH]; intros Hall t errList r Hnk H Hok;
    cbn [tailLoop] in H.
  - apply Ret_inj in H; subst r. cbn [res_out]. exists t. split; [reflexivity|].
    destruct Hnk as [-> | [t' [Hv [[Hne _] | [_ ->]]]]];
      [now left | congruence | now right].
  - inversion Hall as [|? ? Hf Hrest]; subst.
    assert (Hnext : forall o tv,
              o = base ++ tv -> valueDone (scanMembers tv) [parseObjectValue] ->
              exists t2,
                (match rest with [] => o | _ :: _ => Buffer.WriteRune o "," end)
                = base ++ t2 /\ needKeyRest t2 rest).
    { intros o tv -> Hv. destruct rest as [|g rest'].
      - exists tv. split; [reflexivity|]. right. exists tv. split; [exact Hv|].
        right. split; reflexivity.
      - exists (tv ++ ","). unfold Buffer.WriteRune. split; [now rewrite append_assoc|].
        right. exists tv. split; [exact Hv|]. left. split; [discriminate | reflexivity]. }
    destruct (skipField sel types).
    { assert (Hs : exists t2,
                (match rest with [] => checkAndStripComma (base ++ t) | _ :: _ => base ++ t end)
                = base ++ t2 /\ needKeyRest t2 rest).
      { destruct Hnk as [-> | [t' [Hv [[_ ->] | [Hne _]]]]]; [| |congruence].
        - exists EmptyString. rewrite append_nil_r. split; [|now left].
          destruct rest; [apply checkAndStripComma_base | reflexivity].
        - destruct rest as [|g rest'].
          + exists t'. rewrite <- append_assoc, checkAndStripComma_comma.
            split; [reflexivity|]. right. exists t'. split; [exact Hv|].
            right. split; reflexivity.
          + exists (t' ++ ","). split; [reflexivity|]. right. exists t'.
            split; [exact Hv|]. left. split; [discriminate | reflexivity]. }
      destruct Hs as [t2 [Ht2 Hnk2]]. rewrite Ht2 in H.
      exact (IH Hrest _ _ _ Hnk2 H Hok). }
    set (tk := t ++ quoted (ResponseName sel) ++ ":").
    assert (Hbk : writeKeyGraphQL sel (base ++ t) = base ++ tk)
      by (rewrite writeKey_text; unfold tk; now rewrite append_assoc).
    assert (Htk : scanMembers tk = (stateBeginValue, [parseObjectValue])).
    { unfold tk. rewrite scanMembers_app. destruct Hf as [Hk _].
      destruct Hnk as [-> | [t' [Hv [[_ ->] | [Hne _]]]]]; [| |congruence].
      - unfold scanMembers. cbn [scan].
        apply scan_key; [right; reflexivity | exact Hk].
      - rewrite scanMembers_app. cbn [scan].
        rewrite (valueDone_delim _ _ ","%char Hv) by (left; reflexivity).
        apply scan_key; [left; reflexivity | exact Hk]. }
    rewrite Hbk in H.
    destruct (String.eqb_spec (Name sel) Typename) as [Hname|Hname].
    { destruct Hf as [_ Hty]. destruct (Hty Hname) as [_ Hplain].
      assert (Hv : valueDone (scanMembers (tk ++ typenameValue types sel))
                     [parseObjectValue]).
      { rewrite scanMembers_app, Htk. unfold typenameValue.
        rewrite scan_quoted_value by auto. apply valueDone_endValue. }
      destruct (Hnext (Buffer.WriteString (base ++ tk) (typenameValue types sel)) _
                  (append_assoc _ _ _) Hv) as [t2 [Ht2 Hnk2]].
      apply (IH Hrest t2 errList r Hnk2); [|exact Hok].
      rewrite <- Ht2. exact H. }
    bind_inv H. destruct a as [w o'].
    rewrite <- (append_nil_r (base ++ tk)) in E at 1.
    destruct (nullWriter_valid _ _ _ _ _ Htk E) as [-> | [-> [tv [-> Hv]]]];
      cbn [negb] in H.
    { apply Ret_inj in H; subst r. discriminate Hok. }
    destruct (Hnext _ _ eq_refl Hv) as [t2 [Ht2 Hnk2]].
    apply (IH Hrest t2 errList r Hnk2); [|exact Hok].
    rewrite <- Ht2. exact H.
Qed.

End ValidFrame.

Lemma Forall_skipn_fields (P : Field -> Prop) (n : nat) (l : list Field) :
  Forall P l -> Forall P (skipn n l).
Proof.
  revert l. induction n as [|n IH]; intros l H; cbn [skipn]; [exact H|].
  destruct l; [constructor|]. inversion H; subst. now apply IH.
Qed.

Lemma needKey_rest (sels : list Field) (t : string) (n : nat) :
  needKey sels t n -> needKeyRest t (skipn n sels).
Proof.
  intros [-> | [t' [Hv [[Hlt ->] | [Hle ->]]]]]; [now left | |];
    right; exists t'; (split; [exact Hv|]).
  - left. split; [|reflexivity]. intros E.
    apply (f_equal (@List.length Field)) in E. rewrite length_skipn in E.
    cbn in E. lia.
  - right. split; [|reflexivity]. now apply skipn_all2.
Qed.

Lemma object_text_valid (t2 : string) :
  t2 = EmptyString \/ valueDone (scanMembers t2) [parseObjectValue] ->
  json_Valid ("{" ++ t2 ++ "}") = true.
Proof.
  intros H. unfold json_Valid. cbn [append scan].
  change (scanByte (stateBeginValue, []) "{")
    with (stateBeginStringOrEmpty, [parseObjectKey]).
  destruct H as [-> | Hv]; [reflexivity|].
  rewrite scan_app. fold (scanMembers t2). cbn [scan].
  rewrite (valueDone_delim _ _ "}"%char Hv) by (right; right; reflexivity).
  reflexivity.
Qed.

(** On a tree that fits the selection set, a call that returns true has
    appended one valid JSON text, or nothing for a nil leaf under a list
    field. *)
Lemma encodeGraphQL_recValid (enc : encoder) (tid : N) (fuel : nat) :
  recValid enc tid (encodeGraphQL F fuel enc).
Proof.
  induction fuel as [|fuel IH]; intros fj sels pf out errList p r Hwf H Hok;
    cbn [encodeGraphQL] in H; [discriminate|].
  destruct (children fj) as [|c0 cs] eqn:Hc.
  - (* a scalar *)
    inversion Hwf as [? ? ? _ Hscalar | ? ? ? Hne]; subst; [|congruence].
    unfold encodeScalar in H.
    destruct (getScalarVal fj) as [err|[val|]] eqn:Hs.
    + apply Ret_inj in H; subst r. discriminate Hok.
    + specialize (Hscalar val eq_refl).
      destruct (IsGeo (TypeOf pf)).
      * destruct (json_Unmarshal F val) as [geoVal|] eqn:Hu; [|discriminate].
        bind_inv H. destruct a as [b [e|]]; apply Ret_inj in H; subst r;
          [discriminate Hok|].
        destruct (completeGeoObject_valid _ _ _ _ _ (Hscalar _ eq_refl) E)
          as [w [Hw Hv]].
        exists w. split; [exact Hw | now left].
      * apply Ret_inj in H; subst r. exists val. split; [reflexivity | now left].
    + apply Ret_inj in H; subst r. cbn [res_ok res_out] in *.
      exists EmptyString. split; [now rewrite append_nil_r|]. right.
      split; [reflexivity|]. split; [split; assumption|].
      unfold isListType in Hok. destruct (ListType (TypeOf pf)); [discriminate|].
      discriminate Hok.
  - (* an object *)
    inversion Hwf as [? ? ? Hnil | ? ? ? _ Hsels Hsib Hint Hsub]; subst;
      [congruence|].
    destruct (List.length sels =? 0)%nat.
    { apply Ret_inj in H; subst r. discriminate Hok. }
    bind_inv H. destruct a as [[child0 types] errs0].
    apply harvestTypes_child in E. subst child0.
    bind_inv H. rename a into s. rename E into Hmain.
    set (base := Buffer.WriteRune out "{") in *.
    assert (Hbase : exists b0, base = b0 ++ "{") by (now exists out).
    rewrite Hc in Hsib, Hint, Hsub.
    assert (Hinit : validInv enc tid sels types base
                      (initState F (afterTypes tid (c0 :: cs)) base errs0)).
    { split.
      - cbn [initState child]. split; [exact Hsib|].
        intros c Hin. pose proof (suffix_In _ _ _ (afterTypes_suffix tid _) Hin) as Hin'.
        split; [now apply Hint|]. intros g Hg Hal. now apply Hsub.
      - right; left. cbn [initState cnt lout i]. split; [reflexivity|].
        exists EmptyString. split; [now rewrite append_nil_r | now left]. }
    pose proof (mainLoop_valid enc tid (encodeGraphQL F fuel enc) fj sels p types base
                  (encodeGraphQL_extends enc fuel) IH Hsels Hbase fuel _ _
                  Hinit Hmain) as Hm.
    destruct s as [st|r'].
    + destruct Hm as [t [Ho Hnk]].
      bind_inv H. rename a into r'. rename E into Htail.
      destruct (res_ok r') eqn:Hok'; apply Ret_inj in H; subst r;
        [|cbn [res_ok] in Hok; congruence].
      rewrite Ho in Htail.
      destruct (tailLoop_valid p types base Hbase (skipn (i st) sels)
                  (Forall_skipn_fields _ _ _ Hsels) t (lerrs st) r'
                  (needKey_rest _ _ _ Hnk) Htail Hok') as [t2 [Ho2 Ht2]].
      cbn [res_out]. exists ("{" ++ t2 ++ "}").
      split; [|left; now apply object_text_valid].
      rewrite Ho2. unfold base, Buffer.WriteRune.
      now rewrite !append_assoc.
    + apply Ret_inj in H; subst r. congruence.
Qed.

(** C3 (as amended).  Let the physical tree fit the selection set
    (wfCall): scalar bytes are valid JSON texts; geo values have the shape
    of their type and the selections under a geo field are fields of that
    type; neighbours with the same attribute are list-tagged items of a
    list selection and no nil leaves; response names and type names need
    no escaping and __typename is no list; the interner maps the name of
    every attribute of the tree back to its id.  Then whenever
    encodeGraphQL returns true, what it has appended to the buffer is one
    syntactically valid JSON text; the one exception is a nil leaf under a
    list field, for which it appends nothing. *)
Theorem encodeGraphQL_emits_valid_json (fuel : nat) (enc : encoder)
  (dgraphTypeAttrId : N) (fj : fastJsonNode) (out : Buffer.t)
  (errList : list (GqlError F)) (childSelectionSet : list Field)
  (parentField : Field) (parentPath : list PathElem) (r : result F) :
  wfCall enc dgraphTypeAttrId fj childSelectionSet parentField ->
  encodeGraphQL F fuel enc fj out errList dgraphTypeAttrId childSelectionSet
    parentField parentPath = Ret r ->
  res_ok r = true ->
  exists w,
    res_out r = out ++ w
    /\ (json_Valid w = true
        \/ (w = EmptyString /\ nilLeaf fj /\ ListType (TypeOf parentField) <> None)).
Proof.
  intros Hwf H Hok.
  exact (encodeGraphQL_recValid enc dgraphTypeAttrId fuel fj childSelectionSet
           parentField out errList parentPath r Hwf H Hok).
Qed.

(* ================================================================== *)
(** ** Fuel *)
(* ================================================================== *)

(** An outcome other than [OutOfFuel] is what the call does: with more
    fuel the model gives the same. *)
Definition settled {A : Type} (o : outcome A) : Prop := o <> OutOfFuel.

Definition refines (rec rec' : encodeFn F) : Prop :=
  forall fj out errs tid sels pf path,
    settled (rec fj out errs tid sels pf path) ->
    rec' fj out errs tid sels pf path = rec fj out errs tid sels pf path.

Lemma bind_settled {A B : Type} (m m' : outcome A) (k k' : A -> outcome B) :
  settled (bind m k) ->
  (settled m -> m' = m) ->
  (forall a, m = Ret a -> settled (k a) -> k' a = k a) ->
  bind m' k' = bind m k.
Proof.
  intros Hs Hm Hk. destruct m as [a|e|]; cbn [bind] in *.
  - rewrite Hm by discriminate. cbn [bind]. now apply Hk.
  - rewrite Hm by discriminate. reflexivity.
  - exfalso. now apply Hs.
Qed.

Lemma writeValue_settled (enc : encoder) (rec rec' : encodeFn F) (fj : fastJsonNode)
  (tid : N) (path : list PathElem) (types : list string) (sel : Field)
  (cur : fastJsonNode) (next : list fastJsonNode) (c : nat) (kep : Z) (isL : bool)
  (out : Buffer.t) (errs : list (GqlError F)) :
  refines rec rec' ->
  settled (writeValue F enc rec fj tid path types sel cur next c kep isL out errs) ->
  writeValue F enc rec' fj tid path types sel cur next c kep isL out errs
  = writeValue F enc rec fj tid path types sel cur next c kep isL out errs.
Proof.
  intros Href Hs. unfold writeValue in *.
  destruct (Name sel =? Typename)%string; [reflexivity|].
  destruct (negb (DgraphAlias sel =? attrForID enc (getAttr cur))%string); [reflexivity|].
  destruct (isL && getList cur).
  { apply bind_settled; [exact Hs | apply Href | reflexivity]. }
  destruct (negb isL && (negb (getList cur) || (getAttr fj =? idForAttr enc "_root_")%N)).
  { apply bind_settled; [exact Hs | apply Href | reflexivity]. }
  reflexivity.
Qed.

Lemma loopBody_settled (enc : encoder) (rec rec' : encodeFn F) (fj : fastJsonNode)
  (tid : N) (sels : list Field) (path : list PathElem) (types : list string)
  (st : loopState F) :
  refines rec rec' ->
  settled (loopBody F enc rec fj tid sels path types st) ->
  loopBody F enc rec' fj tid sels path types st
  = loopBody F enc rec fj tid sels path types st.
Proof.
  intros Href Hs. unfold loopBody in *.
  destruct (child st) as [|cur next]; [reflexivity|].
  destruct (nth_error sels (i st)) as [sel|]; [|reflexivity].
  destruct (skipField sel types); [reflexivity|].
  destruct (startValue F sel (S (cnt st)) st) as [[out1 kep] isL].
  apply bind_settled; [exact Hs | now apply writeValue_settled | reflexivity].
Qed.

Lemma mainLoop_settled (enc : encoder) (rec rec' : encodeFn F) (fj : fastJsonNode)
  (tid : N) (sels : list Field) (path : list PathElem) (types : list string)
  (fuel : nat) :
  refines rec rec' ->
  forall (fuel' : nat) (st : loopState F),
    fuel <= fuel' ->
    settled (mainLoop F enc rec fj tid sels path types fuel st) ->
    mainLoop F enc rec' fj tid sels path types fuel' st
    = mainLoop F enc rec fj tid sels path types fuel st.
Proof.
  intros Href. induction fuel as [|fuel IH]; intros fuel' st Hle Hs.
  - destruct fuel'; cbn [mainLoop] in *;
      destruct (child st); try reflexivity;
      destruct (i st <? List.length sels)%nat; try reflexivity;
      exfalso; now apply Hs.
  - destruct fuel' as [|fuel']; [lia|]. cbn [mainLoop] in *.
    destruct (child st); [reflexivity|].
    destruct (i st <? List.length sels)%nat; [|reflexivity].
    apply bind_settled; [exact Hs | now apply loopBody_settled |].
    intros [st'|r] _ Hk; [|reflexivity].
    apply IH; [lia | exact Hk].
Qed.

(** With more fuel a call that returned or stopped the process does the
    same: the result of encodeGraphQL does not depend on the fuel. *)
Lemma encodeGraphQL_settled (enc : encoder) (fuel : nat) :
  forall fuel' : nat, fuel <= fuel' ->
  refines (encodeGraphQL F fuel enc) (encodeGraphQL F fuel' enc).
Proof.
  induction fuel as [|fuel IH]; intros fuel' Hle fj out errs tid sels pf path Hs.
  - exfalso. now apply Hs.
  - destruct fuel' as [|fuel']; [lia|]. cbn [encodeGraphQL] in *.
    destruct (children fj); [reflexivity|].
    destruct (List.length sels =? 0)%nat; [reflexivity|].
    apply bind_settled; [exact Hs | reflexivity |].
    intros [[ch types] errs'] _ Hk.
    apply bind_settled; [exact Hk | |reflexivity].
    apply mainLoop_settled; [apply IH; lia | lia].
Qed.

Corollary encodeGraphQL_fuel (enc : encoder) (fuel fuel' : nat) (fj : fastJsonNode)
  (out : Buffer.t) (errList : list (GqlError F)) (dgraphTypeAttrId : N)
  (childSelectionSet : list Field) (parentField : Field) (parentPath : list PathElem)
  (r : result F) :
  fuel <= fuel' ->
  encodeGraphQL F fuel enc fj out errList dgraphTypeAttrId childSelectionSet
    parentField parentPath = Ret r ->
  encodeGraphQL F fuel' enc fj out errList dgraphTypeAttrId childSelectionSet
    parentField parentPath = Ret r.
Proof.
  intros Hle H. rewrite <- H.
  apply encodeGraphQL_settled; [exact Hle|]. rewrite H. discriminate.
Qed.

End Properties.

(* ================================================================== *)
(** ** Sample inputs *)
(* ================================================================== *)

(** A stand-in for float64 that keeps the number literal: it agrees with
    Go on literals that are already in their shortest form, such as 12.5. *)
Definition literalFloat : Float64Ops :=
  {| float64 := string; ParseFloat := fun lit => Some lit; FormatFloat := fun f => f |}.

Definition sampleAttrs : list (string * N) :=
  [("_root_", 1%N); ("name", 2%N); ("age", 3%N); ("q", 4%N); ("friends", 5%N);
   ("scores", 6%N); ("loc", 7%N)].

Fixpoint lookupId (tbl : list (string * N)) (s : string) : N :=
  match tbl with
  | [] => 0%N
  | (k, n) :: rest => if (k =? s)%string then n else lookupId rest s
  end.

Fixpoint lookupAttr (tbl : list (string * N)) (n : N) : string :=
  match tbl with
  | [] => EmptyString
  | (k, m) :: rest => if (m =? n)%N then k else lookupAttr rest n
  end.

Definition sampleEnc : encoder :=
  {| idForAttr := lookupId sampleAttrs; attrForID := lookupAttr sampleAttrs |}.

Definition tInt : Type_ := mkType "Int" true None false.
Definition tIntNonNull : Type_ := mkType "Int!" false None false.
Definition tString : Type_ := mkType "String" true None false.
Definition tListOfNonNull : Type_ := mkType "[Int!]" true (Some tIntNonNull) false.
Definition tListOfInt : Type_ := mkType "[Int]" true (Some tInt) false.
Definition tPoint : Type_ := mkType "Point" true None true.

(** A field without alias or directives. *)
Definition plainField (name : string) (t : Type_) (sels : list Field) : Field :=
  mkField name name name t sels false true (fun _ => true) (fun _ => "Person").


Definition leaf (a : N) (isList : bool) (val : string) : fastJsonNode :=
  mkNode a isList (ScalarVal (Some val)) [].

Definition object (a : N) (isList : bool) (cs : list fastJsonNode) : fastJsonNode :=
  mkNode a isList (ScalarVal None) cs.

Definition failingLeaf (a : N) (isList : bool) : fastJsonNode :=
  mkNode a isList (ScalarErr "unreadable") [].

Definition num (lit : string) : value literalFloat := @VFloat literalFloat lit.

Definition scoresState : loopState literalFloat :=
  initState literalFloat [failingLeaf 6 true; leaf 6 true "2"; leaf 3 false "30"] "{" [].

Definition pointValue : option (gomap literalFloat) :=
  Some [("type", VString "Point"); ("coordinates", VSlice [num "12.5"; num "55.1"])].

(* ================================================================== *)
(** ** The theorems at sample inputs *)
(* ================================================================== *)

Lemma writeGraphQLNull_spec_witness :
  (0 <= 5 <= Buffer.Len "{key:12,")%Z
  /\ writeGraphQLNull (plainField "scores" tListOfNonNull []) "{key:12," 5
     = Ret (true, "{key:[]").
Proof.
  split; [vm_compute; split; discriminate|].
  apply (writeGraphQLNull_spec (plainField "scores" tListOfNonNull []) "{key:12," 5).
  - vm_compute; split; discriminate.
  - discriminate.
Defined.

Lemma encodeGraphQL_nil_scalar_witness :
  children (object 4 true []) = []
  /\ getScalarVal (object 4 true []) = ScalarVal None
  /\ encodeGraphQL literalFloat 1 sampleEnc (object 4 true []) "[" [] 0
       [plainField "name" tString []] (plainField "q" tListOfInt []) []
     = Ret {| res_ok := true; res_out := "["; res_errs := [] |}.
Proof.
  split; [reflexivity|]. split; [reflexivity|].
  apply (encodeGraphQL_nil_scalar literalFloat 0 sampleEnc (object 4 true []) "[" [] 0%N
           [plainField "name" tString []] (plainField "q" tListOfInt []) []);
    reflexivity.
Defined.

Lemma encodeGraphQL_geo_invalid_json_is_fatal_witness :
  json_Valid "{type:Point}" = false
  /\ encodeGraphQL literalFloat 1 sampleEnc (leaf 7 false "{type:Point}") "{" [] 0
       [] (plainField "loc" tPoint []) []
     = Abort FatalCheck.
Proof.
  split; [reflexivity|].
  apply (encodeGraphQL_geo_invalid_json_is_fatal literalFloat 0 sampleEnc
           (leaf 7 false "{type:Point}") "{type:Point}" "{" [] 0%N []
           (plainField "loc" tPoint []) []); reflexivity.
Defined.

Lemma completeGeoObject_validates_only_coordinates_array_witness :
  (exists buf',
      completePoint (F := literalFloat)
        (plainField "loc" tPoint [plainField "latitude" tInt []])
        [num "12.5"; num "55.1"] "" = Ret buf')
  /\ completePoint (F := literalFloat)
       (plainField "loc" tPoint [plainField "latitude" tInt []])
       [num "12.5"] "" = Abort RuntimePanic.
Proof.
  destruct (completeGeoObject_validates_only_coordinates_array literalFloat)
    as [_ [_ [Htotal Hpanic]]].
  split.
  - apply Htotal. simpl. lia.
  - apply Hpanic.
    + simpl. lia.
    + exists (plainField "latitude" tInt []). split; [left|]; reflexivity.
Defined.

Lemma loopBody_shape_mismatch_witness :
  let one := plainField "scores" tInt [] in
  let many := plainField "scores" tListOfInt [] in
  let age := plainField "age" tInt [] in
  let rec := encodeGraphQL literalFloat 3 sampleEnc in
  let run := [leaf 6 true "1"; leaf 6 true "2"; leaf 6 true "3"; leaf 3 false "30"] in
  let single := [leaf 6 false "1"; leaf 3 false "30"] in
  (exists st' skipped,
      loopBody literalFloat sampleEnc rec (object 5 true []) 0 [one; age] [] []
        (initState literalFloat run "{" []) = Ret (Continue st')
      /\ skipped = [leaf 6 true "2"; leaf 6 true "3"]
      /\ child st' = [leaf 3 false "30"]
      /\ lerrs st' = [GqlErrorf one [PathName "scores"] ErrExpectedSingleItem []]
      /\ lout st' = "{" ++ quoted "scores" ++ ":null,"
      /\ i st' = 1 /\ cnt st' = 0)
  /\ (exists st',
      loopBody literalFloat sampleEnc rec (object 5 true []) 0 [many; age] [] []
        (initState literalFloat single "{" []) = Ret (Continue st')
      /\ child st' = [leaf 3 false "30"]
      /\ lerrs st' = [GqlErrorf many [PathName "scores"] ErrExpectedList []]
      /\ lout st' = "{" ++ quoted "scores" ++ ":[],"
      /\ i st' = 1 /\ cnt st' = 0).
Proof.
  intros one many age rec run single. split.
  - destruct (loopBody_shape_mismatch literalFloat sampleEnc rec (object 5 true []) 0%N
                [one; age] [] [] (initState literalFloat run "{" [])
                (leaf 6 true "1") [leaf 6 true "2"; leaf 6 true "3"; leaf 3 false "30"]
                one ("{" ++ quoted "scores" ++ ":") 10%Z false)
      as [Hsingle _]; try reflexivity.
    + intros Hc. exfalso. apply Hc. reflexivity.
    + discriminate.
    + discriminate.
    + destruct (Hsingle eq_refl eq_refl) as [Hnull _].
      destruct (Hnull eq_refl)
        as [st' [skipped [Hb [He [Hsplit [Hall [Hhead [Hout Hi]]]]]]]].
      assert (Hst : st' = {| child := [leaf 3 false "30"]; cnt := 0; i := 1;
                             keyEndPos := 10; curSelectionIsList := false;
                             lout := "{" ++ quoted "scores" ++ ":null,";
                             lerrs := [GqlErrorf one [PathName "scores"]
                                         ErrExpectedSingleItem []] |}).
      { vm_compute in Hb. inversion Hb. reflexivity. }
      exists st', skipped. split; [exact Hb|]. subst st'. cbn [child] in Hsplit.
      split.
      { change [leaf 6 true "2"; leaf 6 true "3"; leaf 3 false "30"]
          with ([leaf 6 true "2"; leaf 6 true "3"] ++ [leaf 3 false "30"])%list
          in Hsplit.
        apply app_inv_tail in Hsplit. now symmetry. }
      repeat split; reflexivity.
  - destruct (loopBody_shape_mismatch literalFloat sampleEnc rec (object 5 true []) 0%N
                [many; age] [] [] (initState literalFloat single "{" [])
                (leaf 6 false "1") [leaf 3 false "30"]
                many ("{" ++ quoted "scores" ++ ":[") 10%Z true)
      as [_ Hlist]; try reflexivity.
    + intros Hc. exfalso. apply Hc. reflexivity.
    + discriminate.
    + discriminate.
    + destruct (Hlist ltac:(discriminate) eq_refl)
        as [st' [Hb [He [Hc [Hout [Hnext _]]]]]].
      destruct Hnext as [Hi Hcnt].
      { right. exists (leaf 3 false "30"), []. split; [reflexivity | discriminate]. }
      exists st'. split; [exact Hb|]. split; [exact Hc|]. split; [exact He|].
      split; [|split; assumption].
      rewrite Hout, Hi. reflexivity.
Defined.

Lemma loopBody_list_item_failure_witness :
  let sel := plainField "scores" tListOfNonNull [] in
  let sels := [sel; plainField "age" tInt []] in
  let out1 := "{" ++ quoted "scores" ++ ":[" in
  let r : result literalFloat :=
    {| res_ok := false; res_out := out1;
       res_errs := [GqlErrorf sel [PathName "scores"; PathIndex 0] "unreadable" []] |} in
  encodeGraphQL literalFloat 1 sampleEnc (failingLeaf 6 true) out1 [] 0 [] sel
    [PathName "scores"; PathIndex 0] = Ret r
  /\ exists st' sep,
       loopBody literalFloat sampleEnc (encodeGraphQL literalFloat 1 sampleEnc)
         (object 5 true []) 0 sels [] [] scoresState = Ret (Continue st')
       /\ lout st' = ("{" ++ quoted "scores" ++ ":") ++ "null" ++ sep
       /\ (sep = EmptyString \/ sep = ",")
       /\ child st' = [leaf 3 false "30"]
       /\ lerrs st' = res_errs r.
Proof.
  intros sel sels out1 r. split; [reflexivity|].
  destruct (loopBody_list_item_failure literalFloat 1 sampleEnc (object 5 true []) 0%N
              sels [] [] scoresState (failingLeaf 6 true)
              [leaf 6 true "2"; leaf 3 false "30"] sel tIntNonNull out1 10%Z true r)
    as [_ [Hwrap _]]; try reflexivity.
  - intros Hc. exfalso. apply Hc. reflexivity.
  - discriminate.
  - apply Hwrap; reflexivity.
Defined.







Definition friendsTree : fastJsonNode :=
  object 1 false
    [object 5 true [leaf 2 false (quoted "Bob")];
     object 5 true [leaf 2 false (quoted "Eve")];
     leaf 3 false "30"].

Definition tPerson : Type_ := mkType "Person" true None false.
Definition tListOfPerson : Type_ := mkType "[Person]" true (Some tPerson) false.

Definition friendsSelection : list Field :=
  [plainField "friends" tListOfPerson [plainField "name" tString []];
   plainField "age" tInt []].

Definition queryField : Field := plainField "query" tPerson friendsSelection.

Lemma friendsTree_wf : wfCall literalFloat sampleEnc 0 friendsTree friendsSelection queryField.
Proof.
  assert (Hfield : forall n t s, plain n = true -> n <> Typename ->
                                 fieldOK (plainField n t s)).
  { intros n t s Hp Hn. split; [exact Hp|]. intros E. contradiction. }
  assert (Hleaf : forall a l v sels pf,
            IsGeo (TypeOf pf) = false -> json_Valid v = true ->
            wfCall literalFloat sampleEnc 0 (leaf a l v) sels pf).
  { intros a l v sels pf Hg Hv. apply wfLeaf; [reflexivity|].
    intros val E. inversion E; subst. rewrite Hg. exact Hv. }
  assert (Hperson : forall v, json_Valid v = true ->
            wfCall literalFloat sampleEnc 0 (object 5 true [leaf 2 false v])
              [plainField "name" tString []]
              (plainField "friends" tListOfPerson [plainField "name" tString []])).
  { intros v Hv. apply wfObject.
    - discriminate.
    - repeat (apply Forall_cons; [apply Hfield; [reflexivity | discriminate]|]).
      apply Forall_nil.
    - cbn. tauto.
    - intros c [<-|[]]. reflexivity.
    - intros c g [<-|[]] [<-|[]] _. now apply Hleaf. }
  apply wfObject.
  - discriminate.
  - repeat (apply Forall_cons; [apply Hfield; [reflexivity | discriminate]|]).
    apply Forall_nil.
  - cbn [siblingsOK afterTypes friendsTree object children getAttr N.eqb Pos.eqb].
    split; [|split; [intros E; discriminate E | split; exact I]].
    intros _. split; [reflexivity|]. split; [reflexivity|].
    split; [intros [Hn _]; discriminate Hn|].
    split; [intros [Hn _]; discriminate Hn|].
    intros g [<-|[<-|[]]] E; [discriminate | discriminate E].
  - intros c [<-|[<-|[<-|[]]]]; reflexivity.
  - intros c g [<-|[<-|[<-|[]]]] [<-|[<-|[]]] E; try discriminate E.
    + now apply Hperson.
    + now apply Hperson.
    + now apply Hleaf.
Qed.

Lemma encodeGraphQL_emits_valid_json_witness :
  let text := "{" ++ quoted "friends" ++ ":[{" ++ quoted "name" ++ ":" ++ quoted "Bob"
              ++ "},{" ++ quoted "name" ++ ":" ++ quoted "Eve" ++ "}],"
              ++ quoted "age" ++ ":30}" in
  encodeGraphQL literalFloat 6 sampleEnc friendsTree "" [] 0 friendsSelection
    queryField []
  = Ret {| res_ok := true; res_out := text; res_errs := [] |}
  /\ json_Valid text = true.
Proof.
  intros text.
  assert (H : encodeGraphQL literalFloat 6 sampleEnc friendsTree "" [] 0
                friendsSelection queryField []
              = Ret {| res_ok := true; res_out := text; res_errs := [] |})
    by reflexivity.
  split; [exact H|].
  destruct (encodeGraphQL_emits_valid_json literalFloat 6 sampleEnc 0%N friendsTree ""
              [] friendsSelection queryField [] _ friendsTree_wf H eq_refl)
    as [w [Hw [Hv | [_ [[Hnil _] _]]]]].
  - cbn [res_out append] in Hw. subst w. exact Hv.
  - discriminate Hnil.
Defined.

(** C3 as the specification states it fails.  Under the root a single
    selection takes every node that carries its attribute; with two such
    nodes the values follow each other after one key, and the text is not
    JSON. *)
Lemma two_results_for_a_single_selection_are_not_json :
  let root := object 1 false [leaf 4 true "1"; leaf 4 true "2"] in
  let sels := [plainField "q" tInt []] in
  encodeGraphQL literalFloat 3 sampleEnc root "" [] 0 sels
    (plainField "query" tPerson sels) []
  = Ret {| res_ok := true; res_out := "{" ++ quoted "q" ++ ":1,2}"; res_errs := [] |}
  /\ json_Valid "1" = true
  /\ json_Valid "2" = true
  /\ json_Valid ("{" ++ quoted "q" ++ ":1,2}") = false.
Proof.
  intros root sels. repeat split; reflexivity.
Qed.

(** Two more inputs outside the amended C3: nil leaves as the items of a
    list leave the commas alone, and a selection under a Point that the
    type does not have leaves its key without a value. *)
Example nil_items_are_not_json :
  let sels := [plainField "q" tListOfInt []] in
  encodeGraphQL literalFloat 4 sampleEnc
    (object 1 false [object 4 true []; object 4 true []]) "" [] 0 sels
    (plainField "query" tPerson sels) []
  = Ret {| res_ok := true; res_out := "{" ++ quoted "q" ++ ":[,]}"; res_errs := [] |}
  /\ json_Valid ("{" ++ quoted "q" ++ ":[,]}") = false.
Proof. intros sels. split; reflexivity. Qed.

Example unknown_geo_field_is_not_json :
  let sels := [plainField "loc" tPoint [plainField "altitude" tInt []]] in
  let point := "{" ++ quoted "type" ++ ":" ++ quoted "Point" ++ ","
               ++ quoted "coordinates" ++ ":[12.5,55.1]}" in
  encodeGraphQL literalFloat 4 sampleEnc (object 1 false [leaf 7 false point]) "" [] 0
    sels (plainField "query" tPerson sels) []
  = Ret {| res_ok := true;
           res_out := "{" ++ quoted "loc" ++ ":{" ++ quoted "altitude" ++ ":}}";
           res_errs := [] |}
  /\ json_Valid point = true
  /\ json_Valid ("{" ++ quoted "loc" ++ ":{" ++ quoted "altitude" ++ ":}}") = false.
Proof. intros sels point. repeat split; reflexivity. Qed.

(** Step-3 moves to the next selection only when the next node carries
    another attribute than the current one, and a __typename selection
    leaves the cursor where it is.  With __typename selected ahead of a
    list of two items the iteration therefore repeats in the same place,
    writing the type name again each time, and the call does not return
    whatever the fuel. *)
Definition typenameSelection : list Field :=
  plainField "__typename" tString [] :: friendsSelection.

Lemma typename_iteration_repeats (rec : encodeFn literalFloat) (fuel : nat) :
  forall st : loopState literalFloat,
    child st = children friendsTree ->
    i st = 0 ->
    mainLoop literalFloat sampleEnc rec friendsTree 0 typenameSelection [] [] fuel st
    = OutOfFuel.
Proof.
  induction fuel as [|fuel IH]; intros st Hc Hi.
  - destruct st as [ch c n k l o e]. cbn [child i] in Hc, Hi. subst ch n. reflexivity.
  - destruct st as [ch c n k l o e]. cbn [child i] in Hc, Hi. subst ch n.
    cbn [mainLoop child i friendsTree object children].
    change (0 <? List.length typenameSelection)%nat with true. cbv iota.
    destruct c as [|c]; cbn; apply IH; reflexivity.
Qed.

Example typename_before_a_list_never_returns (fuel : nat) :
  encodeGraphQL literalFloat fuel sampleEnc friendsTree "" [] 0 typenameSelection
    (plainField "query" tPerson typenameSelection) []
  = OutOfFuel.
Proof.
  destruct fuel as [|fuel]; [reflexivity|].
  cbn [encodeGraphQL friendsTree object children].
  change (List.length typenameSelection =? 0)%nat with false. cbv iota.
  cbn [harvestTypes getAttr object N.eqb]. cbn [bind].
  rewrite typename_iteration_repeats; reflexivity.
Qed.

Lemma loopBody_typename_selection_witness :
  let sel := plainField "__typename" tString [] in
  let rec := encodeGraphQL literalFloat 3 sampleEnc in
  let key := "{" ++ quoted "__typename" ++ ":" in
  let again (n : nat) (out : string) : loopState literalFloat :=
    {| child := children friendsTree; cnt := n; i := 0; keyEndPos := 14;
       curSelectionIsList := false; lout := out; lerrs := [] |} in
  let body := loopBody literalFloat sampleEnc rec friendsTree 0 typenameSelection [] [] in
  skipField sel [] = false
  /\ body (initState literalFloat (children friendsTree) "{" [])
     = Ret (Continue (again 1 (key ++ quoted "Person" ++ ",")))
  /\ body (again 1 (key ++ quoted "Person" ++ ","))
     = Ret (Continue (again 2 (key ++ quoted "Person" ++ "," ++ quoted "Person" ++ ",")))
  /\ loopBody literalFloat sampleEnc rec (object 5 true []) 0
       [sel; plainField "name" tString []] [] []
       (initState literalFloat [leaf 2 false (quoted "Alice")] "{" [])
     = Ret (Continue {| child := [leaf 2 false (quoted "Alice")]; cnt := 0; i := 1;
                        keyEndPos := 14; curSelectionIsList := false;
                        lout := key ++ quoted "Person" ++ ","; lerrs := [] |}).
Proof.
  intros sel rec key again body. split; [reflexivity|].
  pose (bob := object 5 true [leaf 2 false (quoted "Bob")]).
  pose (rest := [object 5 true [leaf 2 false (quoted "Eve")]; leaf 3 false "30"]).
  split; [|split].
  - exact (proj2 (loopBody_typename_selection literalFloat sampleEnc rec friendsTree 0%N
                    typenameSelection [] []
                    (initState literalFloat (children friendsTree) "{" [])
                    bob rest sel key 14%Z false
                    eq_refl eq_refl eq_refl eq_refl eq_refl)
             (object 5 true [leaf 2 false (quoted "Eve")]) [leaf 3 false "30"]
             eq_refl eq_refl).
  - exact (proj2 (loopBody_typename_selection literalFloat sampleEnc rec friendsTree 0%N
                    typenameSelection [] []
                    (again 1 (key ++ quoted "Person" ++ ","))
                    bob rest sel (key ++ quoted "Person" ++ ",") 14%Z false
                    eq_refl eq_refl eq_refl eq_refl eq_refl)
             (object 5 true [leaf 2 false (quoted "Eve")]) [leaf 3 false "30"]
             eq_refl eq_refl).
  - exact (proj1 (loopBody_typename_selection literalFloat sampleEnc rec
                    (object 5 true []) 0%N [sel; plainField "name" tString []] [] []
                    (initState literalFloat [leaf 2 false (quoted "Alice")] "{" [])
                    (leaf 2 false (quoted "Alice")) [] sel key 14%Z false
                    eq_refl eq_refl eq_refl eq_refl eq_refl)
             (or_introl eq_refl)).
Defined.

(* ================================================================== *)
(** ** Further properties: the helpers *)
(* ================================================================== *)

Section Further.

Context (F : Float64Ops).

Ltac bind_ret H :=
  match type of H with
  | bind ?m _ = Ret _ =>
      let E := fresh "E" in destruct m eqn:E; cbn [bind] in H; [|discriminate H..]
  end.

(** X18.  checkAndStripComma takes exactly one trailing comma off the buffer,
    and leaves a buffer that does not end in a comma, the empty one too,
    as it is. *)
Theorem checkAndStripComma_strips_one_comma (buf : Buffer.t) :
  checkAndStripComma (buf ++ ",") = buf
  /\ (lastByte buf <> Some ","%char -> checkAndStripComma buf = buf).
Proof.
  split; [apply checkAndStripComma_comma|].
  intros H. unfold checkAndStripComma.
  destruct (lastByte buf) as [c|]; [|reflexivity].
  destruct (Ascii.eqb_spec c ","); [subst; congruence | reflexivity].
Qed.

(** X14.  completeGeoObject reports an error in two cases only, and then it has
    written nothing: the coordinates are no array (missing, null or of
    another type), or they are one and the type is none of Point, Polygon
    and MultiPolygon. *)
Theorem completeGeoObject_error_iff (path : list PathElem) (field : Field)
  (val : option (gomap F)) (buf b : Buffer.t) (e : GqlError F) :
  completeGeoObject path field val buf = Ret (b, Some e) <->
  b = buf
  /\ ((asSlice (mapIndexNil val Coordinates) = None
       /\ e = GqlErrorf field path "missing coordinates in geojson value: %v"
                [ArgMap val])
      \/ (asSlice (mapIndexNil val Coordinates) <> None
          /\ asString (mapIndexNil val "type") <> Point
          /\ asString (mapIndexNil val "type") <> Polygon
          /\ asString (mapIndexNil val "type") <> MultiPolygon
          /\ e = GqlErrorf field path "unsupported geo type: %s"
                   [ArgString (asString (mapIndexNil val "type"))])).
Proof.
  unfold completeGeoObject.
  destruct (asSlice (mapIndexNil val Coordinates)) as [coordinate|].
  - destruct (String.eqb_spec (asString (mapIndexNil val "type")) Point) as [Ht|Ht].
    { split.
      - intros H. bind_ret H. discriminate.
      - intros [_ [[H _]|[_ [H _]]]]; [discriminate | contradiction]. }
    destruct (String.eqb_spec (asString (mapIndexNil val "type")) Polygon) as [Hp|Hp].
    { split.
      - intros H. bind_ret H. discriminate.
      - intros [_ [[H _]|[_ [_ [H _]]]]]; [discriminate | contradiction]. }
    destruct (String.eqb_spec (asString (mapIndexNil val "type")) MultiPolygon)
      as [Hm|Hm].
    { split.
      - intros H. bind_ret H. discriminate.
      - intros [_ [[H _]|[_ [_ [_ [H _]]]]]]; [discriminate | contradiction]. }
    split.
    + intros H. apply Ret_inj in H. inversion H; subst.
      split; [reflexivity|]. right. repeat split; try assumption. discriminate.
    + intros [-> [[H _]|[_ [_ [_ [_ ->]]]]]]; [discriminate | reflexivity].
  - split.
    + intros H. apply Ret_inj in H. inversion H; subst.
      split; [reflexivity|]. left. split; reflexivity.
    + intros [-> [[_ ->]|[H _]]]; [reflexivity | contradiction].
Qed.

(** The fields of a point either all get written or the first read
    outside the coordinate array panics. *)
Lemma completePoint_fields_outcome (fs : list Field) (coordinate : list (value F))
  (comma : string) (buf : Buffer.t) :
  (completePoint_fields fs coordinate comma buf = Abort RuntimePanic
   /\ ((coordinate = [] /\ exists f, In f fs /\ Name f = Longitude)
       \/ (List.length coordinate < 2 /\ exists f, In f fs /\ Name f = Latitude)))
  \/ ((exists b, completePoint_fields fs coordinate comma buf = Ret b)
      /\ (coordinate = [] -> forall f, In f fs -> Name f <> Longitude)
      /\ (List.length coordinate < 2 -> forall f, In f fs -> Name f <> Latitude)).
Proof.
  revert comma buf. induction fs as [|f fs IH]; intros comma buf; cbn [completePoint_fields].
  - right. split; [eexists; reflexivity|]. split; intros _ f [].
  - set (buf1 := writeKeyGraphQL f (Buffer.WriteString buf comma)).
    assert (Hnext : forall b1,
      (completePoint_fields fs coordinate "," b1 = Abort RuntimePanic
       /\ ((coordinate = [] /\ exists f0, In f0 (f :: fs) /\ Name f0 = Longitude)
           \/ (List.length coordinate < 2
               /\ exists f0, In f0 (f :: fs) /\ Name f0 = Latitude)))
      \/ ((exists b, completePoint_fields fs coordinate "," b1 = Ret b)
          /\ (coordinate = [] -> forall f0, In f0 fs -> Name f0 <> Longitude)
          /\ (List.length coordinate < 2 -> forall f0, In f0 fs -> Name f0 <> Latitude))).
    { intros b1. destruct (IH "," b1) as [[Hp Hc]|Hr]; [left|right; exact Hr].
      split; [exact Hp|].
      destruct Hc as [[Hc [f0 [Hin Hn]]]|[Hc [f0 [Hin Hn]]]];
        [left|right]; (split; [exact Hc|]); exists f0; (split; [now right | exact Hn]). }
    destruct (String.eqb_spec (Name f) Longitude) as [Hlon|Hlon].
    { destruct coordinate as [|c0 cs]; unfold index; cbn [nth_error bind].
      - left. split; [reflexivity|]. left. split; [reflexivity|].
        exists f. split; [now left | exact Hlon].
      - destruct (Hnext (Buffer.WriteString buf1 (fmtV c0))) as [Hl|[Hb [H0 H1]]];
          [left; exact Hl|].
        right. split; [exact Hb|]. split; [discriminate|].
        intros Hlen f0 [<-|Hin]; [|now apply H1].
        rewrite Hlon. discriminate. }
    destruct (String.eqb_spec (Name f) Latitude) as [Hlat|Hlat].
    { destruct coordinate as [|c0 [|c1 cs]]; unfold index; cbn [nth_error bind].
      - left. split; [reflexivity|]. right. split; [cbn; lia|].
        exists f. split; [now left | exact Hlat].
      - left. split; [reflexivity|]. right. split; [cbn; lia|].
        exists f. split; [now left | exact Hlat].
      - destruct (Hnext (Buffer.WriteString buf1 (fmtV c1))) as [Hl|[Hb [H0 H1]]];
          [left; exact Hl|].
        right. split; [exact Hb|]. split; [discriminate|].
        cbn [List.length]. intros Hlen. lia. }
    assert (Hrest : forall b1,
      (completePoint_fields fs coordinate "," b1 = Abort RuntimePanic
       /\ ((coordinate = [] /\ exists f0, In f0 (f :: fs) /\ Name f0 = Longitude)
           \/ (List.length coordinate < 2
               /\ exists f0, In f0 (f :: fs) /\ Name f0 = Latitude)))
      \/ ((exists b, completePoint_fields fs coordinate "," b1 = Ret b)
          /\ (coordinate = [] -> forall f0, In f0 (f :: fs) -> Name f0 <> Longitude)
          /\ (List.length coordinate < 2 ->
              forall f0, In f0 (f :: fs) -> Name f0 <> Latitude))).
    { intros b1. destruct (Hnext b1) as [Hl|[Hb [H0 H1]]]; [left; exact Hl|].
      right. split; [exact Hb|].
      split; intros Hc f0 [<-|Hin]; auto. }
    destruct (Name f =? Typename)%string; cbn [bind]; apply Hrest.
Qed.

(** X15.  completePoint reads element 0 for a longitude and element 1 for a
    latitude without a check.  It panics exactly when a selected longitude
    meets an empty coordinate array or a selected latitude one of fewer
    than two elements; in every other case it returns, with the object of
    the point appended. *)
Theorem completePoint_panics_iff (field : Field) (coordinate : list (value F))
  (buf : Buffer.t) :
  (completePoint field coordinate buf = Abort RuntimePanic <->
   (coordinate = [] /\ exists f, In f (SelectionSet field) /\ Name f = Longitude)
   \/ (List.length coordinate < 2
       /\ exists f, In f (SelectionSet field) /\ Name f = Latitude))
  /\ (completePoint field coordinate buf = Abort RuntimePanic
      \/ completePoint field coordinate buf
         = Ret (buf ++ render (pointTree field coordinate))).
Proof.
  destruct (completePoint_fields_outcome (SelectionSet field) coordinate EmptyString
              (Buffer.WriteRune buf "{")) as [[Hp Hc]|[[b Hb] [H0 H1]]].
  - assert (E : completePoint field coordinate buf = Abort RuntimePanic)
      by (unfold completePoint; now rewrite Hp).
    split; [|left; exact E]. split; [intros _; exact Hc | intros _; exact E].
  - assert (E : completePoint field coordinate buf = Ret (Buffer.WriteRune b "}"))
      by (unfold completePoint; now rewrite Hb).
    split.
    + split; [rewrite E; discriminate|].
      intros [[Hc [f [Hin Hn]]]|[Hc [f [Hin Hn]]]]; exfalso.
      * exact (H0 Hc f Hin Hn).
      * exact (H1 Hc f Hin Hn).
    + right. rewrite E. f_equal. now apply (completePoint_text F).
Qed.

(** X17.  A geo value whose points have their two coordinates, under a selection
    of fields its type has, is completed to one valid JSON object. *)
Theorem completeGeoObject_emits_valid_json (path : list PathElem) (field : Field)
  (val : option (gomap F)) (buf b : Buffer.t) :
  geoShapeOK F field val ->
  completeGeoObject path field val buf = Ret (b, None) ->
  b = buf ++ render (geoTree field val)
  /\ json_Valid (render (geoTree field val)) = true.
Proof.
  intros Hshape H.
  pose proof (completeGeoObject_text F _ _ _ _ _ H) as Ht.
  split; [exact Ht|].
  destruct (completeGeoObject_valid F _ _ _ _ _ Hshape H) as [w [Hw Hv]].
  rewrite Ht in Hw. apply append_inv_head in Hw. now subst w.
Qed.

(* ================================================================== *)
(** ** Further properties: one iteration of the main loop *)
(* ================================================================== *)

(** What Step-3 and Step-4 append after the value, and where they leave
    the counters. *)
Lemma closeValue_eq (sels : list Field) (c n : nat) (kep : Z) (isL : bool)
  (v : valueStep F) :
  let drained := selectionDrained (v_cur v) (v_next v) in
  let n' := if drained then S n else n in
  closeValue F sels c n kep isL v
  = {| child := v_child v; cnt := if drained then 0 else c; i := n';
       keyEndPos := kep; curSelectionIsList := isL;
       lout := v_out v
               ++ (if drained && isL && negb (v_nullWritten v) then "]" else EmptyString)
               ++ (if (n' <? List.length sels)%nat then "," else EmptyString);
       lerrs := v_errs v |}.
Proof.
  intros drained n'. unfold closeValue. fold drained. fold n'.
  f_equal. unfold Buffer.WriteRune.
  destruct (drained && isL && negb (v_nullWritten v));
    destruct (n' <? List.length sels)%nat; cbn [append];
    rewrite ?append_assoc, ?append_nil_r; reflexivity.
Qed.

Lemma nth_error_ltb {A : Type} (l : list A) (n : nat) (a : A) :
  nth_error l n = Some a -> (n <? List.length l)%nat = true.
Proof.
  intros H. apply Nat.ltb_lt, nth_error_Some. congruence.
Qed.

Lemma skipAttr_head (attrId : N) (next : list fastJsonNode) (n : fastJsonNode)
  (rest : list fastJsonNode) :
  skipAttr attrId next = n :: rest -> getAttr n <> attrId.
Proof.
  induction next as [|m next IH]; cbn [skipAttr]; [discriminate|].
  destruct (N.eqb_spec (getAttr m) attrId) as [E|E]; [exact IH|].
  intros H. inversion H; subst. exact E.
Qed.

(** X13.  A skipped selection writes no key and no value and adds no error.  The
    iteration moves to the next selection; the buffer loses a trailing comma
    when the skipped selection was the last one and is untouched otherwise;
    and when the current node holds data for the skipped field the cursor
    passes all of it, stopping at the first node of another attribute. *)
Theorem loopBody_skipped_selection (enc : encoder) (rec : encodeFn F)
  (fj : fastJsonNode) (dgraphTypeAttrId : N) (childSelectionSet : list Field)
  (parentPath : list PathElem) (dgraphTypes : list string) (st : loopState F)
  (cur : fastJsonNode) (next : list fastJsonNode) (curSelection : Field) :
  child st = cur :: next ->
  nth_error childSelectionSet (i st) = Some curSelection ->
  skipField curSelection dgraphTypes = true ->
  let attrId := idForAttr enc (DgraphAlias curSelection) in
  exists st',
    loopBody F enc rec fj dgraphTypeAttrId childSelectionSet parentPath dgraphTypes st
    = Ret (Continue st')
    /\ i st' = S (i st) /\ cnt st' = 0 /\ lerrs st' = lerrs st
    /\ (S (i st) < List.length childSelectionSet -> lout st' = lout st)
    /\ (S (i st) = List.length childSelectionSet ->
        lout st' = checkAndStripComma (lout st))
    /\ (getAttr cur <> attrId -> child st' = cur :: next)
    /\ (getAttr cur = attrId ->
        child st' = skipAttr attrId next
        /\ forall n rest, child st' = n :: rest -> getAttr n <> attrId).
Proof.
  intros Hc Hn Hskip attrId. unfold loopBody. rewrite Hc, Hn, Hskip.
  eexists. split; [reflexivity|]. cbn [i cnt lerrs lout child].
  split; [reflexivity|]. split; [reflexivity|]. split; [reflexivity|].
  split; [|split; [|split]].
  - intros Hlt. destruct (Nat.eqb_spec (S (i st)) (List.length childSelectionSet));
      [lia | reflexivity].
  - intros Heq. rewrite Heq, Nat.eqb_refl. reflexivity.
  - intros Hne. fold attrId. destruct (N.eqb_spec (getAttr cur) attrId);
      [contradiction | reflexivity].
  - intros He. fold attrId. destruct (N.eqb_spec (getAttr cur) attrId);
      [|contradiction].
    split; [reflexivity|]. intros n rest. apply skipAttr_head.
Qed.

(** X10.  The current node holds data for another field than the current
    selection: the buffer goes back to the end of the key and the null
    writer decides.  For a list type or a nullable type the empty array or
    null is the value, no error is added and the cursor stays on the node,
    which is data for a later selection; for a non-nullable single type the
    expected-non-null error of the selection is appended and the call
    returns false. *)
Theorem loopBody_misaligned (enc : encoder) (rec : encodeFn F)
  (fj : fastJsonNode) (dgraphTypeAttrId : N) (childSelectionSet : list Field)
  (parentPath : list PathElem) (dgraphTypes : list string) (st : loopState F)
  (cur : fastJsonNode) (next : list fastJsonNode) (curSelection : Field)
  (out1 : Buffer.t) (kep : Z) (isL : bool) :
  stateOK F childSelectionSet st ->
  child st = cur :: next ->
  nth_error childSelectionSet (i st) = Some curSelection ->
  skipField curSelection dgraphTypes = false ->
  Name curSelection <> Typename ->
  DgraphAlias curSelection <> attrForID enc (getAttr cur) ->
  startValue F curSelection (S (cnt st)) st = (out1, kep, isL) ->
  let keyEnd := take (Z.to_nat kep) out1 in
  let body :=
    loopBody F enc rec fj dgraphTypeAttrId childSelectionSet parentPath dgraphTypes st in
  (ListType (TypeOf curSelection) = None -> Nullable (TypeOf curSelection) = false ->
     body = Ret (Return {| res_ok := false; res_out := keyEnd;
                           res_errs := (lerrs st
                                        ++ [errExpectedNonNull F parentPath curSelection])%list |}))
  /\ (ListType (TypeOf curSelection) <> None \/ Nullable (TypeOf curSelection) = true ->
      exists st' sep,
        body = Ret (Continue st')
        /\ child st' = cur :: next
        /\ lerrs st' = lerrs st
        /\ lout st'
           = keyEnd ++ (if isListType (TypeOf curSelection) then "[]" else "null") ++ sep
        /\ (sep = EmptyString \/ sep = ",")).
Proof.
  intros Hok Hc Hn Hskip Hname Halias Hstart keyEnd body.
  destruct (startValue_ok F _ _ _ _ _ _ Hok Hn Hstart) as [HisL Hkep].
  assert (Hnm : (Name curSelection =? Typename)%string = false)
    by (now apply String.eqb_neq).
  assert (Hal : (DgraphAlias curSelection =? attrForID enc (getAttr cur))%string = false)
    by (now apply String.eqb_neq).
  pose proof (writeGraphQLNull_eq curSelection out1 kep Hkep) as Hw.
  fold keyEnd in Hw.
  assert (Hbody : body =
    bind (writeValue F enc rec fj dgraphTypeAttrId parentPath dgraphTypes curSelection
            cur next (S (cnt st)) kep isL out1 (lerrs st))
      (fun r => match r with
                | inl res => Ret (Return res)
                | inr v => Ret (Continue (closeValue F childSelectionSet (S (cnt st))
                                            (i st) kep isL v))
                end)).
  { unfold body, loopBody. rewrite Hc, Hn, Hskip, Hstart. reflexivity. }
  rewrite Hbody. unfold writeValue. rewrite Hnm, Hal, Hw. cbn [negb bind].
  split.
  - intros Hlt Hnull. rewrite (isListType_false _ Hlt), Hnull. reflexivity.
  - intros Hcase.
    assert (Hwritten :
              (if isListType (TypeOf curSelection)
               then (true, keyEnd ++ "[]")
               else if Nullable (TypeOf curSelection)
                    then (true, keyEnd ++ "null") else (false, keyEnd))
              = (true, keyEnd ++ (if isListType (TypeOf curSelection)
                                  then "[]" else "null"))).
    { destruct Hcase as [Hl|Hnull].
      - now rewrite (isListType_true _ Hl).
      - rewrite Hnull. now destruct (isListType (TypeOf curSelection)). }
    rewrite Hwritten. cbn [negb bind].
    match goal with
    | |- context [closeValue F ?s ?c ?n ?k ?l ?v] =>
        destruct (closeValue_out F s c n k l v) as [sep [Ho [_ Hsep]]];
        exists (closeValue F s c n k l v), sep
    end.
    split; [reflexivity|]. split; [reflexivity|]. split; [reflexivity|].
    split; [rewrite Ho; cbn [v_out]; now rewrite append_assoc|].
    apply Hsep. cbn [v_nullWritten negb]. apply andb_false_r.
Qed.

(** X11.  A list item that is encoded with success: the recursive call is made
    at the path of the selection followed by the number of items before
    this one, the buffer and the errors are what the call left, and the
    cursor moves on by one node.  When the next node carries the same
    attribute the list goes on after a comma; otherwise the closing bracket
    is written, the next selection is up, and a comma follows when there is
    one. *)
Theorem loopBody_list_item_success (enc : encoder) (rec : encodeFn F)
  (fj : fastJsonNode) (dgraphTypeAttrId : N) (childSelectionSet : list Field)
  (parentPath : list PathElem) (dgraphTypes : list string) (st : loopState F)
  (cur : fastJsonNode) (next : list fastJsonNode) (curSelection : Field)
  (out1 : Buffer.t) (kep : Z) (isL : bool) (r : result F) :
  stateOK F childSelectionSet st ->
  child st = cur :: next ->
  nth_error childSelectionSet (i st) = Some curSelection ->
  skipField curSelection dgraphTypes = false ->
  Name curSelection <> Typename ->
  DgraphAlias curSelection = attrForID enc (getAttr cur) ->
  ListType (TypeOf curSelection) <> None ->
  getList cur = true ->
  startValue F curSelection (S (cnt st)) st = (out1, kep, isL) ->
  rec cur out1 (lerrs st) dgraphTypeAttrId (SelectionSet curSelection) curSelection
    (parentPath ++ [PathName (ResponseName curSelection); PathIndex (Z.of_nat (cnt st))])%list
  = Ret r ->
  res_ok r = true ->
  exists st',
    loopBody F enc rec fj dgraphTypeAttrId childSelectionSet parentPath dgraphTypes st
    = Ret (Continue st')
    /\ child st' = next
    /\ lerrs st' = res_errs r
    /\ (selectionDrained cur next = false ->
        lout st' = res_out r ++ "," /\ i st' = i st /\ cnt st' = S (cnt st))
    /\ (selectionDrained cur next = true ->
        i st' = S (i st) /\ cnt st' = 0
        /\ lout st' = res_out r ++ "]"
                      ++ (if (S (i st) <? List.length childSelectionSet)%nat
                          then "," else EmptyString)).
Proof.
  intros Hok Hc Hn Hskip Hname Halias Hlt Hlist Hstart Hrec Hsucc.
  destruct (startValue_ok F _ _ _ _ _ _ Hok Hn Hstart) as [HisL _].
  rewrite (isListType_true _ Hlt) in HisL. subst isL.
  assert (Hnm : (Name curSelection =? Typename)%string = false)
    by (now apply String.eqb_neq).
  assert (Hal : (DgraphAlias curSelection =? attrForID enc (getAttr cur))%string = true)
    by (now apply String.eqb_eq).
  assert (Hpath : ((parentPath ++ [PathName (ResponseName curSelection)])
                     ++ [PathIndex (Z.of_nat (S (cnt st)) - 1)])%list
                  = (parentPath ++ [PathName (ResponseName curSelection);
                                    PathIndex (Z.of_nat (cnt st))])%list).
  { rewrite <- app_assoc. cbn [app].
    replace (Z.of_nat (S (cnt st)) - 1)%Z with (Z.of_nat (cnt st)) by lia.
    reflexivity. }
  unfold loopBody. rewrite Hc, Hn, Hskip, Hstart.
  unfold writeValue. rewrite Hnm, Hal, Hlist. cbn [negb andb].
  rewrite Hpath, Hrec. cbn [bind]. rewrite Hsucc. cbn [negb bind].
  eexists. split; [reflexivity|]. rewrite closeValue_eq.
  cbn [child lerrs lout i cnt v_child v_errs v_out v_cur v_next v_nullWritten negb].
  split; [reflexivity|]. split; [reflexivity|].
  split; intros Hd; rewrite Hd; cbn [andb].
  - rewrite (nth_error_ltb _ _ _ Hn). auto.
  - auto.
Qed.

(** X12.  A single-valued selection over a node that holds its data (a node that
    is no list item, or any node under the root): the value is encoded by
    the recursive call at the path of the selection.  With success the
    buffer and errors are what the call left; on failure the buffer goes
    back to the end of the key and null is written for a nullable type,
    while for a non-nullable type the call returns false, adding no error
    to those of the recursive call.  The cursor moves on by one node. *)
Theorem loopBody_single_value (fuel : nat) (enc : encoder)
  (fj : fastJsonNode) (dgraphTypeAttrId : N) (childSelectionSet : list Field)
  (parentPath : list PathElem) (dgraphTypes : list string) (st : loopState F)
  (cur : fastJsonNode) (next : list fastJsonNode) (curSelection : Field)
  (out1 : Buffer.t) (kep : Z) (isL : bool) (r : result F) :
  stateOK F childSelectionSet st ->
  child st = cur :: next ->
  nth_error childSelectionSet (i st) = Some curSelection ->
  skipField curSelection dgraphTypes = false ->
  Name curSelection <> Typename ->
  DgraphAlias curSelection = attrForID enc (getAttr cur) ->
  ListType (TypeOf curSelection) = None ->
  getList cur = false \/ getAttr fj = idForAttr enc "_root_" ->
  startValue F curSelection (S (cnt st)) st = (out1, kep, isL) ->
  encodeGraphQL F fuel enc cur out1 (lerrs st) dgraphTypeAttrId
    (SelectionSet curSelection) curSelection
    (parentPath ++ [PathName (ResponseName curSelection)])%list
  = Ret r ->
  let body :=
    loopBody F enc (encodeGraphQL F fuel enc) fj dgraphTypeAttrId childSelectionSet
      parentPath dgraphTypes st in
  let keyEnd := take (Z.to_nat kep) out1 in
  (res_ok r = true ->
     exists st' sep,
       body = Ret (Continue st')
       /\ child st' = next /\ lerrs st' = res_errs r
       /\ lout st' = res_out r ++ sep /\ (sep = EmptyString \/ sep = ","))
  /\ (res_ok r = false -> Nullable (TypeOf curSelection) = true ->
      exists st' sep,
        body = Ret (Continue st')
        /\ child st' = next /\ lerrs st' = res_errs r
        /\ lout st' = keyEnd ++ "null" ++ sep /\ (sep = EmptyString \/ sep = ","))
  /\ (res_ok r = false -> Nullable (TypeOf curSelection) = false ->
      body = Ret (Return {| res_ok := false; res_out := keyEnd;
                            res_errs := res_errs r |})).
Proof.
  intros Hok Hc Hn Hskip Hname Halias Hlt Hsingle Hstart Hrec body keyEnd.
  destruct (startValue_ok F _ _ _ _ _ _ Hok Hn Hstart) as [HisL Hkep].
  rewrite (isListType_false _ Hlt) in HisL. subst isL.
  pose proof (encodeGraphQL_extends F enc fuel _ _ _ _ _ _ _ _ Hrec) as Hext.
  pose proof (extends_Len _ _ Hext) as HextL.
  assert (Hnm : (Name curSelection =? Typename)%string = false)
    by (now apply String.eqb_neq).
  assert (Hal : (DgraphAlias curSelection =? attrForID enc (getAttr cur))%string = true)
    by (now apply String.eqb_eq).
  assert (Hcase : negb (getList cur) || (getAttr fj =? idForAttr enc "_root_")%N = true).
  { destruct Hsingle as [Hs|Hs]; [now rewrite Hs|].
    rewrite Hs, N.eqb_refl. apply orb_true_r. }
  assert (Hbody : body =
    bind (writeValue F enc (encodeGraphQL F fuel enc) fj dgraphTypeAttrId parentPath
            dgraphTypes curSelection cur next (S (cnt st)) kep false out1 (lerrs st))
      (fun x => match x with
                | inl res => Ret (Return res)
                | inr v => Ret (Continue (closeValue F childSelectionSet (S (cnt st))
                                            (i st) kep false v))
                end)).
  { unfold body, loopBody. rewrite Hc, Hn, Hskip, Hstart. reflexivity. }
  rewrite Hbody. unfold writeValue.
  rewrite Hnm, Hal. cbn [negb andb]. rewrite Hcase, Hrec. cbn [bind].
  assert (Hw : writeGraphQLNull curSelection (res_out r) kep
               = Ret (if Nullable (TypeOf curSelection)
                      then (true, keyEnd ++ "null") else (false, keyEnd))).
  { rewrite writeGraphQLNull_eq by lia. rewrite (isListType_false _ Hlt).
    destruct Hext as [w Hw]. rewrite Hw.
    rewrite take_app_le by (unfold Buffer.Len in Hkep; lia). reflexivity. }
  split; [|split].
  - intros Hsucc. rewrite Hsucc. cbn [negb bind].
    match goal with
    | |- context [closeValue F ?s ?c ?n ?k ?l ?v] =>
        destruct (closeValue_out F s c n k l v) as [sep [Ho [_ Hsep]]];
        exists (closeValue F s c n k l v), sep
    end.
    split; [reflexivity|]. split; [reflexivity|]. split; [reflexivity|].
    split; [exact Ho | apply Hsep; reflexivity].
  - intros Hfail Hnull. rewrite Hfail, Hw, Hnull. cbn [negb bind].
    match goal with
    | |- context [closeValue F ?s ?c ?n ?k ?l ?v] =>
        destruct (closeValue_out F s c n k l v) as [sep [Ho [_ Hsep]]];
        exists (closeValue F s c n k l v), sep
    end.
    split; [reflexivity|]. split; [reflexivity|]. split; [reflexivity|].
    split; [rewrite Ho; cbn [v_out]; now rewrite append_assoc|].
    apply Hsep; reflexivity.
  - intros Hfail Hnull. rewrite Hfail, Hw, Hnull. reflexivity.
Qed.

(* ================================================================== *)
(** ** Further properties: the buffer and the error list of a call *)
(* ================================================================== *)

(** A return from inside the main loop reports failure. *)
Lemma writeValue_return_fails (enc : encoder) (rec : encodeFn F) (fj : fastJsonNode)
  (tid : N) (path : list PathElem) (types : list string) (sel : Field)
  (cur : fastJsonNode) (next : list fastJsonNode) (c : nat) (kep : Z) (isL : bool)
  (out : Buffer.t) (errs : list (GqlError F)) (r : result F) :
  writeValue F enc rec fj tid path types sel cur next c kep isL out errs = Ret (inl r) ->
  res_ok r = false.
Proof.
  unfold writeValue. intros H.
  repeat match type of H with
         | Ret _ = Ret _ => apply Ret_inj in H; inversion H; subst; reflexivity
         | Abort _ = Ret _ => discriminate H
         | bind ?m _ = Ret _ => bind_ret H
         | (let '(_, _) := ?p in _) = Ret _ => destruct p
         | (if ?b then _ else _) = Ret _ => destruct b
         | match ?o with Some _ => _ | None => _ end = Ret _ => destruct o
         end.
Qed.

Lemma loopBody_return_fails (enc : encoder) (rec : encodeFn F) (fj : fastJsonNode)
  (tid : N) (sels : list Field) (path : list PathElem) (types : list string)
  (st : loopState F) (r : result F) :
  loopBody F enc rec fj tid sels path types st = Ret (Return r) -> res_ok r = false.
Proof.
  unfold loopBody. intros H.
  destruct (child st) as [|cur next]; [discriminate|].
  destruct (nth_error sels (i st)) as [sel|]; [|discriminate].
  destruct (skipField sel types); [discriminate|].
  destruct (startValue F sel (S (cnt st)) st) as [[out1 kep] isL].
  bind_ret H. destruct a as [r'|v]; [|discriminate].
  apply Ret_inj in H. inversion H; subst. now apply writeValue_return_fails in E.
Qed.

Lemma mainLoop_return_fails (enc : encoder) (rec : encodeFn F) (fj : fastJsonNode)
  (tid : N) (sels : list Field) (path : list PathElem) (types : list string)
  (fuel : nat) :
  forall (st : loopState F) (r : result F),
    mainLoop F enc rec fj tid sels path types fuel st = Ret (Return r) ->
    res_ok r = false.
Proof.
  induction fuel as [|fuel IH]; intros st r H; cbn [mainLoop] in H.
  - destruct (child st); [discriminate|].
    destruct (i st <? List.length sels)%nat; discriminate.
  - destruct (child st); [discriminate|].
    destruct (i st <? List.length sels)%nat; [|discriminate].
    bind_ret H. destruct a as [st'|r'].
    + now apply IH in H.
    + apply Ret_inj in H. inversion H; subst. now apply loopBody_return_fails in E.
Qed.

(** X3.  encodeGraphQL only appends to the buffer: whatever it returns, the
    bytes that were in the buffer before the call are still there, in
    front; every truncation it makes stays behind them.  A successful call
    on a node with children has appended one pair of braces with the
    members between them. *)
Theorem encodeGraphQL_appends_to_buffer (fuel : nat) (enc : encoder)
  (fj : fastJsonNode) (out : Buffer.t) (errList : list (GqlError F))
  (dgraphTypeAttrId : N) (childSelectionSet : list Field) (parentField : Field)
  (parentPath : list PathElem) (r : result F) :
  encodeGraphQL F fuel enc fj out errList dgraphTypeAttrId childSelectionSet
    parentField parentPath = Ret r ->
  (exists w, res_out r = out ++ w)
  /\ (children fj <> [] -> res_ok r = true ->
      exists t, res_out r = out ++ "{" ++ t ++ "}").
Proof.
  intros H. split; [exact (encodeGraphQL_extends F enc fuel _ _ _ _ _ _ _ _ H)|].
  intros Hch Hok. destruct fuel as [|fuel]; [discriminate|].
  cbn [encodeGraphQL] in H.
  destruct (children fj) as [|c0 cs]; [congruence|].
  destruct (List.length childSelectionSet =? 0)%nat.
  { apply Ret_inj in H; subst r. discriminate. }
  bind_ret H. destruct a as [[child0 types] errs0]. bind_ret H.
  assert (Hlast : lastByte (Buffer.WriteRune out "{") = Some "{"%char)
    by apply lastByte_app_char.
  pose proof (mainLoop_inv F _ _ _ _ _ _ _ _ _ (encodeGraphQL_extends F enc fuel)
                Hlast _ _ (initState_inv F _ childSelectionSet child0 errs0) E0) as Hm.
  destruct a as [st|r'].
  - bind_ret H. destruct Hm as [Hm _].
    destruct (tailLoop_extends F _ _ _ _ Hlast _ _ _ Hm E1) as [t Ht].
    destruct (res_ok a) eqn:Ha; apply Ret_inj in H; subst r; [|congruence].
    exists t. cbn [res_out]. rewrite Ht. unfold Buffer.WriteRune.
    now rewrite !append_assoc.
  - apply Ret_inj in H; subst r.
    apply mainLoop_return_fails in E0. congruence.
Qed.

(** *** Errors are only appended *)

Definition grows {A : Type} (a b : list A) : Prop := exists w, b = (a ++ w)%list.

Lemma grows_refl {A : Type} (a : list A) : grows a a.
Proof. exists []. now rewrite app_nil_r. Qed.

Lemma grows_app {A : Type} (a w : list A) : grows a (a ++ w)%list.
Proof. now exists w. Qed.

Lemma grows_trans {A : Type} (a b c : list A) : grows a b -> grows b c -> grows a c.
Proof. intros [w ->] [w' ->]. exists (w ++ w')%list. now rewrite app_assoc. Qed.

Definition recGrows (rec : encodeFn F) : Prop :=
  forall fj out errList tid sels parentField path r,
    rec fj out errList tid sels parentField path = Ret r -> grows errList (res_errs r).

Lemma harvestTypes_grows (tid : N) (path : list PathElem) (cs : list fastJsonNode) :
  forall (types : list string) (errList : list (GqlError F))
         (child0 : list fastJsonNode) (types' : list string) (errs' : list (GqlError F)),
    harvestTypes F tid path cs types errList = Ret (child0, types', errs') ->
    grows errList errs'.
Proof.
  induction cs as [|c rest IH]; intros types errList child0 types' errs' H;
    cbn [harvestTypes] in H.
  - apply Ret_inj in H. inversion H; subst. apply grows_refl.
  - destruct (getAttr c =? tid)%N.
    + destruct (getScalarVal c) as [err|val].
      * apply IH in H. eapply grows_trans; [apply grows_app | exact H].
      * destruct (String.length _ <? 2)%nat; [discriminate|]. now apply IH in H.
    + apply Ret_inj in H. inversion H; subst. apply grows_refl.
Qed.

Lemma writeValue_grows (enc : encoder) (rec : encodeFn F) (fj : fastJsonNode)
  (tid : N) (path : list PathElem) (types : list string) (sel : Field)
  (cur : fastJsonNode) (next : list fastJsonNode) (c : nat) (kep : Z) (isL : bool)
  (out : Buffer.t) (errs : list (GqlError F)) (x : result F + valueStep F) :
  recGrows rec ->
  writeValue F enc rec fj tid path types sel cur next c kep isL out errs = Ret x ->
  grows errs match x with inl r => res_errs r | inr v => v_errs v end.
Proof.
  intros Hrec H. unfold writeValue in H.
  destruct (Name sel =? Typename)%string.
  { apply Ret_inj in H; subst x. apply grows_refl. }
  destruct (negb (DgraphAlias sel =? attrForID enc (getAttr cur))%string).
  { bind_ret H. destruct a as [w o'].
    destruct (negb w); apply Ret_inj in H; subst x;
      [apply grows_app | apply grows_refl]. }
  destruct (isL && getList cur).
  { bind_ret H. apply Hrec in E.
    destruct (negb (res_ok a)).
    - destruct (ListType (TypeOf sel)) as [item|]; [|discriminate].
      destruct (Nullable item).
      + bind_ret H. apply Ret_inj in H; subst x. exact E.
      + destruct (Nullable (TypeOf sel)).
        * bind_ret H.
          destruct (skipAttrCur (idForAttr enc (DgraphAlias sel)) cur next).
          apply Ret_inj in H; subst x. exact E.
        * apply Ret_inj in H; subst x. exact E.
    - apply Ret_inj in H; subst x. exact E. }
  destruct (negb isL && (negb (getList cur) || (getAttr fj =? idForAttr enc "_root_")%N)).
  { bind_ret H. apply Hrec in E.
    destruct (negb (res_ok a)).
    - bind_ret H. destruct a0 as [w o'].
      destruct (negb w); apply Ret_inj in H; subst x; exact E.
    - apply Ret_inj in H; subst x. exact E. }
  destruct (negb isL).
  { bind_ret H. destruct a as [w o'].
    destruct (negb w); apply Ret_inj in H; subst x; apply grows_app. }
  bind_ret H. destruct a as [w o'].
  destruct (negb w); apply Ret_inj in H; subst x; apply grows_app.
Qed.

Lemma loopBody_grows (enc : encoder) (rec : encodeFn F) (fj : fastJsonNode)
  (tid : N) (sels : list Field) (path : list PathElem) (types : list string)
  (st : loopState F) (s : loopStep F) :
  recGrows rec ->
  loopBody F enc rec fj tid sels path types st = Ret s ->
  grows (lerrs st) match s with Continue st' => lerrs st' | Return r => res_errs r end.
Proof.
  intros Hrec H. unfold loopBody in H.
  destruct (child st) as [|cur next]; [discriminate|].
  destruct (nth_error sels (i st)) as [sel|]; [|discriminate].
  destruct (skipField sel types).
  { apply Ret_inj in H; subst s. apply grows_refl. }
  destruct (startValue F sel (S (cnt st)) st) as [[out1 kep] isL].
  bind_ret H. apply (writeValue_grows _ _ _ _ _ _ _ _ _ _ _ _ _ _ _ Hrec) in E.
  destruct a as [r|v]; apply Ret_inj in H; subst s; exact E.
Qed.

Lemma mainLoop_grows (enc : encoder) (rec : encodeFn F) (fj : fastJsonNode)
  (tid : N) (sels : list Field) (path : list PathElem) (types : list string)
  (fuel : nat) :
  recGrows rec ->
  forall (st : loopState F) (s : loopStep F),
    mainLoop F enc rec fj tid sels path types fuel st = Ret s ->
    grows (lerrs st) match s with Continue st' => lerrs st' | Return r => res_errs r end.
Proof.
  intros Hrec. induction fuel as [|fuel IH]; intros st s H; cbn [mainLoop] in H.
  - destruct (child st); [|destruct (i st <? List.length sels)%nat; [discriminate|]];
      apply Ret_inj in H; subst s; apply grows_refl.
  - destruct (child st); [apply Ret_inj in H; subst s; apply grows_refl|].
    destruct (i st <? List.length sels)%nat;
      [|apply Ret_inj in H; subst s; apply grows_refl].
    bind_ret H. apply (loopBody_grows _ _ _ _ _ _ _ _ _ Hrec) in E.
    destruct a as [st'|r].
    + apply IH in H. eapply grows_trans; eassumption.
    + apply Ret_inj in H; subst s. exact E.
Qed.

Lemma tailLoop_grows (path : list PathElem) (types : list string) (rest : list Field) :
  forall (out : Buffer.t) (errList : list (GqlError F)) (r : result F),
    tailLoop F path types rest out errList = Ret r -> grows errList (res_errs r).
Proof.
  induction rest as [|sel rest IH]; intros out errList r H; cbn [tailLoop] in H.
  - apply Ret_inj in H; subst r. apply grows_refl.
  - destruct (skipField sel types); [now apply IH in H|].
    destruct (Name sel =? Typename)%string; [now apply IH in H|].
    bind_ret H. destruct a as [w o'].
    destruct (negb w); [apply Ret_inj in H; subst r; apply grows_app | now apply IH in H].
Qed.

Lemma encodeGraphQL_grows (enc : encoder) (fuel : nat) :
  recGrows (encodeGraphQL F fuel enc).
Proof.
  induction fuel as [|fuel IH]; intros fj out errList tid sels pf path r H;
    cbn [encodeGraphQL] in H; [discriminate|].
  destruct (children fj) as [|c0 cs].
  - unfold encodeScalar in H.
    destruct (getScalarVal fj) as [err|[val|]].
    + apply Ret_inj in H; subst r. apply grows_app.
    + destruct (IsGeo (TypeOf pf)).
      * destruct (json_Unmarshal F val) as [geoVal|]; [|discriminate].
        bind_ret H. destruct a as [b [e|]]; apply Ret_inj in H; subst r;
          [apply grows_app | apply grows_refl].
      * apply Ret_inj in H; subst r. apply grows_refl.
    + apply Ret_inj in H; subst r. apply grows_refl.
  - destruct (List.length sels =? 0)%nat.
    { apply Ret_inj in H; subst r. apply grows_app. }
    bind_ret H. destruct a as [[child0 types] errs0].
    apply harvestTypes_grows in E. bind_ret H.
    apply (mainLoop_grows _ _ _ _ _ _ _ _ IH) in E0. cbn [initState lerrs] in E0.
    destruct a as [st|r'].
    + bind_ret H. apply tailLoop_grows in E1.
      assert (Hg : grows errList (res_errs a))
        by (eapply grows_trans; [exact E | eapply grows_trans; eassumption]).
      destruct (res_ok a); apply Ret_inj in H; subst r; exact Hg.
    + apply Ret_inj in H; subst r. eapply grows_trans; eassumption.
Qed.

(* ================================================================== *)
(** ** Further properties: no runtime panic *)
(* ================================================================== *)

(** Every point of a geo value has its two coordinates. *)
Definition pointArity (point : value F) : Prop :=
  2 <= List.length (sliceOrNil (asSlice point)).

Definition ringArity (ring : value F) : Prop :=
  Forall pointArity (sliceOrNil (asSlice ring)).

Definition polygonArity (polygon : value F) : Prop :=
  Forall ringArity (sliceOrNil (asSlice polygon)).

Definition geoArity (val : option (gomap F)) : Prop :=
  let coordinate := sliceOrNil (asSlice (mapIndexNil val Coordinates)) in
  let typ := asString (mapIndexNil val "type") in
  (typ = Point -> 2 <= List.length coordinate)
  /\ (typ = Polygon -> Forall ringArity coordinate)
  /\ (typ = MultiPolygon -> Forall polygonArity coordinate).

Lemma completePoint_returns (field : Field) (coordinate : list (value F))
  (buf : Buffer.t) :
  2 <= List.length coordinate -> exists b, completePoint field coordinate buf = Ret b.
Proof.
  intros H. unfold completePoint.
  destruct (completePoint_fields_total F (SelectionSet field) coordinate EmptyString
              (Buffer.WriteRune buf "{") H) as [b Hb].
  rewrite Hb. eexists; reflexivity.
Qed.

Lemma completePolygon_points_returns (f2 : Field) (r : list (value F)) :
  Forall pointArity r ->
  forall (comma4 : string) (buf : Buffer.t),
    exists b, completePolygon_points f2 r comma4 buf = Ret b.
Proof.
  induction 1 as [|point r Hp _ IH]; intros comma4 buf; cbn [completePolygon_points].
  - eexists; reflexivity.
  - destruct (completePoint_returns f2 _ (Buffer.WriteString buf comma4) Hp) as [b Hb].
    rewrite Hb. cbn [bind]. apply IH.
Qed.

Lemma completePolygon_ringFields_returns (fs2 : list Field) (ring : value F) :
  ringArity ring ->
  forall (comma3 : string) (buf : Buffer.t),
    exists b, completePolygon_ringFields fs2 ring comma3 buf = Ret b.
Proof.
  intros Hr. induction fs2 as [|f2 fs2 IH]; intros comma3 buf;
    cbn [completePolygon_ringFields].
  - eexists; reflexivity.
  - destruct (Name f2 =? Points)%string.
    + match goal with
      | |- context [completePolygon_points ?f ?r ?c ?b] =>
          destruct (completePolygon_points_returns f r Hr c b) as [b1 Hb1]
      end.
      rewrite Hb1. cbn [bind]. apply IH.
    + destruct (Name f2 =? Typename)%string; cbn [bind]; apply IH.
Qed.

Lemma completePolygon_rings_returns (f1 : Field) (polygon : list (value F)) :
  Forall ringArity polygon ->
  forall (comma2 : string) (buf : Buffer.t),
    exists b, completePolygon_rings f1 polygon comma2 buf = Ret b.
Proof.
  induction 1 as [|ring polygon Hr _ IH]; intros comma2 buf; cbn [completePolygon_rings].
  - eexists; reflexivity.
  - match goal with
    | |- context [completePolygon_ringFields ?fs ?r ?c ?b] =>
        destruct (completePolygon_ringFields_returns fs r Hr c b) as [b1 Hb1]
    end.
    rewrite Hb1. cbn [bind]. apply IH.
Qed.

Lemma completePolygon_returns (field : Field) (polygon : list (value F))
  (buf : Buffer.t) :
  Forall ringArity polygon -> exists b, completePolygon field polygon buf = Ret b.
Proof.
  intros Hp. unfold completePolygon.
  assert (Hfs : forall fs1 comma1 b0,
             exists b, completePolygon_fields fs1 polygon comma1 b0 = Ret b).
  { induction fs1 as [|f1 fs1 IH]; intros comma1 b0; cbn [completePolygon_fields].
    - eexists; reflexivity.
    - destruct (Name f1 =? Coordinates)%string.
      + match goal with
        | |- context [completePolygon_rings ?f ?p ?c ?b] =>
            destruct (completePolygon_rings_returns f p Hp c b) as [b1 Hb1]
        end.
        rewrite Hb1. cbn [bind]. apply IH.
      + destruct (Name f1 =? Typename)%string; cbn [bind]; apply IH. }
  destruct (Hfs (SelectionSet field) EmptyString (Buffer.WriteRune buf "{")) as [b Hb].
  rewrite Hb. eexists; reflexivity.
Qed.

Lemma completeMultiPolygon_polygons_returns (f : Field) (multiPolygon : list (value F)) :
  Forall polygonArity multiPolygon ->
  forall (comma2 : string) (buf : Buffer.t),
    exists b, completeMultiPolygon_polygons f multiPolygon comma2 buf = Ret b.
Proof.
  induction 1 as [|polygon mp Hp _ IH]; intros comma2 buf;
    cbn [completeMultiPolygon_polygons].
  - eexists; reflexivity.
  - destruct (completePolygon_returns f _ (Buffer.WriteString buf comma2) Hp) as [b Hb].
    rewrite Hb. cbn [bind]. apply IH.
Qed.

Lemma completeMultiPolygon_returns (field : Field) (multiPolygon : list (value F))
  (buf : Buffer.t) :
  Forall polygonArity multiPolygon ->
  exists b, completeMultiPolygon field multiPolygon buf = Ret b.
Proof.
  intros Hp. unfold completeMultiPolygon.
  assert (Hfs : forall fs comma1 b0,
             exists b, completeMultiPolygon_fields fs multiPolygon comma1 b0 = Ret b).
  { induction fs as [|f fs IH]; intros comma1 b0; cbn [completeMultiPolygon_fields].
    - eexists; reflexivity.
    - destruct (Name f =? Polygons)%string.
      + match goal with
        | |- context [completeMultiPolygon_polygons ?f ?p ?c ?b] =>
            destruct (completeMultiPolygon_polygons_returns f p Hp c b) as [b1 Hb1]
        end.
        rewrite Hb1. cbn [bind]. apply IH.
      + destruct (Name f =? Typename)%string; cbn [bind]; apply IH. }
  destruct (Hfs (SelectionSet field) EmptyString (Buffer.WriteRune buf "{")) as [b Hb].
  rewrite Hb. eexists; reflexivity.
Qed.

Lemma completeGeoObject_returns (path : list PathElem) (field : Field)
  (val : option (gomap F)) (buf : Buffer.t) :
  geoArity val ->
  exists b e, completeGeoObject path field val buf = Ret (b, e).
Proof.
  intros [Hpt [Hpoly Hmulti]]. unfold completeGeoObject.
  destruct (asSlice (mapIndexNil val Coordinates)) as [coordinate|];
    [|eexists; eexists; reflexivity].
  cbn [sliceOrNil] in *.
  destruct (String.eqb_spec (asString (mapIndexNil val "type")) Point) as [Ht|Ht].
  { destruct (completePoint_returns field coordinate buf (Hpt Ht)) as [b Hb].
    rewrite Hb. eexists; eexists; reflexivity. }
  destruct (String.eqb_spec (asString (mapIndexNil val "type")) Polygon) as [Hp|Hp].
  { destruct (completePolygon_returns field coordinate buf (Hpoly Hp)) as [b Hb].
    rewrite Hb. eexists; eexists; reflexivity. }
  destruct (String.eqb_spec (asString (mapIndexNil val "type")) MultiPolygon) as [Hm|Hm].
  { destruct (completeMultiPolygon_returns field coordinate buf (Hmulti Hm)) as [b Hb].
    rewrite Hb. eexists; eexists; reflexivity. }
  eexists; eexists; reflexivity.
Qed.

Lemma completeGeoObject_error_buffer (path : list PathElem) (field : Field)
  (val : option (gomap F)) (buf b : Buffer.t) (e : GqlError F) :
  completeGeoObject path field val buf = Ret (b, Some e) -> b = buf.
Proof.
  unfold completeGeoObject. intros H.
  destruct (asSlice (mapIndexNil val Coordinates)) as [coordinate|];
    [|apply Ret_inj in H; now inversion H].
  destruct (_ =? Point)%string; [bind_ret H; discriminate|].
  destruct (_ =? Polygon)%string; [bind_ret H; discriminate|].
  destruct (_ =? MultiPolygon)%string; [bind_ret H; discriminate|].
  apply Ret_inj in H; now inversion H.
Qed.

(** X16.  Whatever the selection under the geo field asks for, and whatever the
    type of the value, completeGeoObject returns, with an error or
    without, once every point of the value has its two coordinates: the
    reads of the coordinates are the only place where it can panic. *)
Theorem completeGeoObject_returns_on_full_points (path : list PathElem)
  (field : Field) (val : option (gomap F)) (buf : Buffer.t) :
  geoArity val ->
  exists b e,
    completeGeoObject path field val buf = Ret (b, e)
    /\ (e = None -> b = buf ++ render (geoTree field val))
    /\ (e <> None -> b = buf).
Proof.
  intros Ha. destruct (completeGeoObject_returns path field val buf Ha) as [b [e H]].
  exists b, e. split; [exact H|]. split.
  - intros ->. now apply (completeGeoObject_text F) in H.
  - intros He. destruct e as [e|]; [|congruence].
    now apply completeGeoObject_error_buffer in H.
Qed.

(** An outcome that is no runtime panic. *)
Definition noPanic {A : Type} (o : outcome A) : Prop := o <> Abort RuntimePanic.

Lemma bind_noPanic {A B : Type} (m : outcome A) (k : A -> outcome B) :
  noPanic m -> (forall a, m = Ret a -> noPanic (k a)) -> noPanic (bind m k).
Proof.
  intros Hm Hk. destruct m as [a|e|]; cbn [bind].
  - now apply Hk.
  - intros H. apply Hm. inversion H. reflexivity.
  - discriminate.
Qed.

Lemma Ret_noPanic {A : Type} (a : A) : noPanic (Ret a).
Proof. discriminate. Qed.

(** The data under a node is long enough for every read the encoder makes
    without a check: a dgraph.type child that was read without error has
    the two quotes at least, and a scalar that decodes as a geo value has
    points of two coordinates. *)
Inductive fullData (tid : N) : fastJsonNode -> Prop :=
| fullNode (fj : fastJsonNode) :
    (forall val geoVal,
        getScalarVal fj = ScalarVal (Some val) ->
        json_Unmarshal F val = Some geoVal -> geoArity geoVal) ->
    (forall c val,
        In c (children fj) -> getAttr c = tid -> getScalarVal c = ScalarVal val ->
        2 <= String.length match val with Some b => b | None => EmptyString end) ->
    (forall c, In c (children fj) -> fullData tid c) ->
    fullData tid fj.

Definition recNoPanic (tid : N) (rec : encodeFn F) : Prop :=
  forall c out errList sels parentField path,
    fullData tid c -> noPanic (rec c out errList tid sels parentField path).

Lemma writeGraphQLNull_noPanic (f : Field) (out : Buffer.t) (k : Z) :
  (0 <= k <= Buffer.Len out)%Z -> noPanic (writeGraphQLNull f out k).
Proof. intros H. rewrite writeGraphQLNull_eq by exact H. discriminate. Qed.

Lemma writeValue_noPanic (enc : encoder) (rec : encodeFn F) (fj : fastJsonNode)
  (tid : N) (path : list PathElem) (types : list string) (sel : Field)
  (cur : fastJsonNode) (next : list fastJsonNode) (c : nat) (kep : Z) (isL : bool)
  (out1 : Buffer.t) (errList : list (GqlError F)) :
  recNoPanic tid rec -> recExtends F rec ->
  fullData tid cur ->
  (0 <= kep <= Buffer.Len out1)%Z ->
  isL = isListType (TypeOf sel) ->
  noPanic (writeValue F enc rec fj tid path types sel cur next c kep isL out1 errList).
Proof.
  intros Hrec Hext Hcur Hk HL. unfold writeValue.
  destruct (Name sel =? Typename)%string; [apply Ret_noPanic|].
  destruct (negb (DgraphAlias sel =? attrForID enc (getAttr cur))%string).
  { rewrite writeGraphQLNull_eq by exact Hk. cbn [bind].
    destruct (isListType (TypeOf sel)); [|destruct (Nullable (TypeOf sel))];
      cbn [negb]; apply Ret_noPanic. }
  destruct (isL && getList cur) eqn:Hcase.
  { apply bind_noPanic; [now apply Hrec|]. intros r Hr.
    pose proof (extends_Len _ _ (Hext _ _ _ _ _ _ _ _ Hr)) as HextL.
    destruct (negb (res_ok r)); [|apply Ret_noPanic].
    apply andb_true_iff in Hcase. destruct Hcase as [HisL _]. subst isL.
    unfold isListType in HisL.
    destruct (ListType (TypeOf sel)) as [item|]; [|discriminate].
    destruct (Nullable item).
    - rewrite Truncate_ok by (pose proof (Len_nonneg out1); lia).
      cbn [bind]. apply Ret_noPanic.
    - destruct (Nullable (TypeOf sel)); [|apply Ret_noPanic].
      rewrite Truncate_ok by lia. cbn [bind].
      destruct (skipAttrCur (idForAttr enc (DgraphAlias sel)) cur next).
      apply Ret_noPanic. }
  destruct (negb isL && (negb (getList cur) || (getAttr fj =? idForAttr enc "_root_")%N)).
  { apply bind_noPanic; [now apply Hrec|]. intros r Hr.
    pose proof (extends_Len _ _ (Hext _ _ _ _ _ _ _ _ Hr)) as HextL.
    destruct (negb (res_ok r)); [|apply Ret_noPanic].
    rewrite writeGraphQLNull_eq by lia. cbn [bind].
    destruct (isListType (TypeOf sel)); [|destruct (Nullable (TypeOf sel))];
      cbn [negb]; apply Ret_noPanic. }
  destruct (negb isL);
    rewrite writeGraphQLNull_eq by exact Hk; cbn [bind];
    (destruct (isListType (TypeOf sel)); [|destruct (Nullable (TypeOf sel))]);
    cbn [negb]; apply Ret_noPanic.
Qed.

(** The cursor only moves forward. *)
Lemma writeValue_cursor (enc : encoder) (rec : encodeFn F) (fj : fastJsonNode)
  (tid : N) (path : list PathElem) (types : list string) (sel : Field)
  (cur : fastJsonNode) (next : list fastJsonNode) (c : nat) (kep : Z) (isL : bool)
  (out1 : Buffer.t) (errList : list (GqlError F)) (v : valueStep F) :
  writeValue F enc rec fj tid path types sel cur next c kep isL out1 errList
  = Ret (inr v) ->
  suffix (v_child v) (cur :: next).
Proof.
  assert (Hnext : suffix next (cur :: next)) by (apply suffix_cons, suffix_refl).
  assert (Hskip : forall a, suffix (skipAttr a next) (cur :: next))
    by (intros a; apply suffix_cons, skipAttr_suffix).
  unfold writeValue. intros H.
  repeat match type of H with
         | Ret (inl _) = Ret (inr _) => discriminate H
         | Ret (inr _) = Ret (inr _) =>
             apply Ret_inj in H; inversion H; subst; cbn [v_child];
             first [apply suffix_refl | exact Hnext | apply Hskip]
         | Abort _ = Ret _ => discriminate H
         | bind ?m _ = Ret _ => bind_ret H
         | (let '(_, _) := skipAttrCur ?a ?c ?n in _) = Ret _ =>
             let Hs := fresh "Hs" in
             pose proof (skipAttrCur_snd a c n) as Hs;
             destruct (skipAttrCur a c n); cbn [snd] in Hs; subst
         | (let '(_, _) := ?p in _) = Ret _ => destruct p
         | (if ?b then _ else _) = Ret _ => destruct b
         | match ?o with Some _ => _ | None => _ end = Ret _ => destruct o
         end.
Qed.

Lemma loopBody_cursor (enc : encoder) (rec : encodeFn F) (fj : fastJsonNode)
  (tid : N) (sels : list Field) (path : list PathElem) (types : list string)
  (st st' : loopState F) :
  loopBody F enc rec fj tid sels path types st = Ret (Continue st') ->
  suffix (child st') (child st).
Proof.
  unfold loopBody. intros H.
  destruct (child st) as [|cur next] eqn:Hc; [discriminate|].
  destruct (nth_error sels (i st)) as [sel|]; [|discriminate].
  destruct (skipField sel types).
  { apply Ret_inj in H. inversion H; subst. cbn [child].
    destruct (getAttr cur =? idForAttr enc (DgraphAlias sel))%N.
    - apply suffix_cons, skipAttr_suffix.
    - apply suffix_refl. }
  destruct (startValue F sel (S (cnt st)) st) as [[out1 kep] isL].
  bind_ret H. destruct a as [r|v]; [discriminate|].
  apply Ret_inj in H. inversion H; subst.
  apply writeValue_cursor in E. exact E.
Qed.

Lemma loopBody_noPanic (enc : encoder) (rec : encodeFn F) (fj : fastJsonNode)
  (tid : N) (sels : list Field) (path : list PathElem) (types : list string)
  (base : string) (st : loopState F) (cur : fastJsonNode) (next : list fastJsonNode) :
  recNoPanic tid rec -> recExtends F rec ->
  loopInv F base sels st ->
  child st = cur :: next -> fullData tid cur ->
  i st < List.length sels ->
  noPanic (loopBody F enc rec fj tid sels path types st).
Proof.
  intros Hrec Hext Hinv Hc Hcur Hi. unfold loopBody. rewrite Hc.
  destruct (nth_error sels (i st)) as [sel|] eqn:Hn;
    [|apply nth_error_None in Hn; lia].
  destruct (skipField sel types); [apply Ret_noPanic|].
  destruct (startValue F sel (S (cnt st)) st) as [[out1 kep] isL] eqn:Hs.
  destruct (startValue_extends F _ _ _ _ _ _ _ Hinv Hn Hs) as [_ [Hk HL]].
  apply bind_noPanic.
  - apply writeValue_noPanic; auto. pose proof (Len_nonneg base). lia.
  - intros [r|v] _; apply Ret_noPanic.
Qed.

Lemma mainLoop_noPanic (enc : encoder) (rec : encodeFn F) (fj : fastJsonNode)
  (tid : N) (sels : list Field) (path : list PathElem) (types : list string)
  (base : string) (fuel : nat) :
  recNoPanic tid rec -> recExtends F rec ->
  lastByte base = Some "{"%char ->
  forall st : loopState F,
    loopInv F base sels st ->
    (forall c, In c (child st) -> fullData tid c) ->
    noPanic (mainLoop F enc rec fj tid sels path types fuel st).
Proof.
  intros Hrec Hext Hlast. induction fuel as [|fuel IH]; intros st Hinv Hfull;
    cbn [mainLoop].
  - destruct (child st); [apply Ret_noPanic|].
    destruct (i st <? List.length sels)%nat; [discriminate | apply Ret_noPanic].
  - destruct (child st) as [|cur next] eqn:Hc; [apply Ret_noPanic|].
    destruct (Nat.ltb_spec (i st) (List.length sels)) as [Hi|Hi]; [|apply Ret_noPanic].
    apply bind_noPanic.
    + apply loopBody_noPanic with (base := base) (cur := cur) (next := next); auto.
      apply Hfull. now left.
    + intros [st'|r] Hb; [|apply Ret_noPanic].
      apply IH.
      * exact (loopBody_inv F _ _ _ _ _ _ _ _ _ _ Hext Hlast Hinv Hb).
      * intros c Hin. apply Hfull.
        apply loopBody_cursor in Hb. rewrite Hc in Hb. eapply suffix_In; eassumption.
Qed.

Lemma tailLoop_noPanic (path : list PathElem) (types : list string)
  (rest : list Field) :
  forall (out : Buffer.t) (errList : list (GqlError F)),
    noPanic (tailLoop F path types rest out errList).
Proof.
  induction rest as [|sel rest IH]; intros out errList; cbn [tailLoop].
  - apply Ret_noPanic.
  - destruct (skipField sel types); [apply IH|].
    destruct (Name sel =? Typename)%string; [apply IH|].
    rewrite writeGraphQLNull_eq
      by (pose proof (Len_nonneg (writeKeyGraphQL sel out)); lia).
    cbn [bind].
    destruct (isListType (TypeOf sel)); [|destruct (Nullable (TypeOf sel))];
      cbn [negb]; first [apply IH | apply Ret_noPanic].
Qed.

Lemma harvestTypes_noPanic (tid : N) (path : list PathElem) (cs : list fastJsonNode) :
  (forall c val, In c cs -> getAttr c = tid -> getScalarVal c = ScalarVal val ->
                 2 <= String.length match val with Some b => b | None => EmptyString end) ->
  forall (types : list string) (errList : list (GqlError F)),
    noPanic (harvestTypes F tid path cs types errList).
Proof.
  induction cs as [|c rest IH]; intros Hlen types errList; cbn [harvestTypes].
  - apply Ret_noPanic.
  - destruct (N.eqb_spec (getAttr c) tid) as [Ha|Ha]; [|apply Ret_noPanic].
    assert (Hrest : forall c0 val, In c0 rest -> getAttr c0 = tid ->
              getScalarVal c0 = ScalarVal val ->
              2 <= String.length match val with Some b => b | None => EmptyString end)
      by (intros c0 val Hin; apply Hlen; now right).
    destruct (getScalarVal c) as [err|val] eqn:Hv; [now apply IH|].
    pose proof (Hlen c val (or_introl eq_refl) Ha Hv) as H2.
    destruct (Nat.ltb_spec (String.length match val with
                                          | Some b => b
                                          | None => EmptyString
                                          end) 2); [lia|].
    now apply IH.
Qed.

Lemma encodeGraphQL_noPanic (enc : encoder) (tid : N) (fuel : nat) :
  recNoPanic tid (encodeGraphQL F fuel enc).
Proof.
  induction fuel as [|fuel IH]; intros fj out errList sels pf path Hfull;
    cbn [encodeGraphQL]; [discriminate|].
  destruct Hfull as [fj Hgeo Htypes Hsub].
  destruct (children fj) as [|c0 cs] eqn:Hch.
  - unfold encodeScalar.
    destruct (getScalarVal fj) as [err|[val|]] eqn:Hv; try apply Ret_noPanic.
    destruct (IsGeo (TypeOf pf)); [|apply Ret_noPanic].
    destruct (json_Unmarshal F val) as [geoVal|] eqn:Hu; [|discriminate].
    destruct (completeGeoObject_returns path pf geoVal out (Hgeo _ _ eq_refl Hu))
      as [b [e Hb]].
    rewrite Hb. cbn [bind]. destruct e; apply Ret_noPanic.
  - destruct (List.length sels =? 0)%nat; [apply Ret_noPanic|].
    apply bind_noPanic; [now apply harvestTypes_noPanic|].
    intros [[child0 types] errs0] Hh.
    assert (Hlast : lastByte (Buffer.WriteRune out "{") = Some "{"%char)
      by apply lastByte_app_char.
    pose proof (harvestTypes_child F _ _ _ _ _ _ _ _ Hh) as Hc0.
    assert (Hcur : forall c, In c child0 -> fullData tid c).
    { intros c Hin. apply Hsub. subst child0.
      eapply suffix_In; [apply afterTypes_suffix | exact Hin]. }
    apply bind_noPanic.
    + apply mainLoop_noPanic with (base := Buffer.WriteRune out "{"); auto.
      * apply encodeGraphQL_extends.
      * apply initState_inv.
    + intros [st|r] Hm; [|apply Ret_noPanic].
      apply bind_noPanic; [apply tailLoop_noPanic|].
      intros r _. destruct (res_ok r); apply Ret_noPanic.
Qed.

(** X2.  encodeGraphQL does not panic on data that is long enough for its
    unchecked reads (each dgraph.type value has its two quotes, each geo
    point its two coordinates): whatever the selection set, the types and
    the shape of the tree, no truncation leaves the buffer, no index leaves
    a slice and the item type of a list is there when it is asked for its
    nullability. *)
Theorem encodeGraphQL_does_not_panic (fuel : nat) (enc : encoder)
  (fj : fastJsonNode) (out : Buffer.t) (errList : list (GqlError F))
  (dgraphTypeAttrId : N) (childSelectionSet : list Field) (parentField : Field)
  (parentPath : list PathElem) :
  fullData dgraphTypeAttrId fj ->
  encodeGraphQL F fuel enc fj out errList dgraphTypeAttrId childSelectionSet
    parentField parentPath <> Abort RuntimePanic.
Proof. intros H. now apply encodeGraphQL_noPanic. Qed.

(* ================================================================== *)
(** ** Further properties: the dgraph.type children *)
(* ================================================================== *)

Lemma substring_quoted (s : string) :
  substring 1 (String.length (quoted s) - 2) (quoted s) = s.
Proof.
  unfold quoted. cbn [String.length substring].
  rewrite length_append. cbn [String.length].
  replace (S (String.length s + 1) - 2) with (String.length s) by lia.
  induction s as [|c s IH]; cbn [append String.length substring]; [reflexivity|].
  now rewrite IH.
Qed.

Lemma length_quoted (s : string) : String.length (quoted s) = String.length s + 2.
Proof. unfold quoted. cbn [String.length]. rewrite length_append. cbn. lia. Qed.

(** X9.  The leading dgraph.type children whose values are quoted type names
    give the list of those names, with the quotes taken off and in the
    order of the children; the cursor is left on the first child of another
    attribute and no error is added. *)
Theorem harvestTypes_collects_names (tid : N) (path : list PathElem)
  (typeNodes : list fastJsonNode) (names : list string) (data : list fastJsonNode)
  (types : list string) (errList : list (GqlError F)) :
  Forall2 (fun c name => getAttr c = tid
                         /\ getScalarVal c = ScalarVal (Some (quoted name)))
    typeNodes names ->
  (forall c rest, data = c :: rest -> getAttr c <> tid) ->
  harvestTypes F tid path (typeNodes ++ data)%list types errList
  = Ret (data, (types ++ names)%list, errList).
Proof.
  intros Hall Hdata. revert types.
  induction Hall as [|c name cs ns [Ha Hv] _ IH]; intros types; cbn [app].
  - rewrite app_nil_r. destruct data as [|c rest]; cbn [harvestTypes]; [reflexivity|].
    destruct (N.eqb_spec (getAttr c) tid) as [E|_]; [|reflexivity].
    exfalso. exact (Hdata c rest eq_refl E).
  - cbn [harvestTypes]. rewrite Ha, N.eqb_refl, Hv.
    rewrite length_quoted.
    destruct (Nat.ltb_spec (String.length name + 2) 2); [lia|].
    rewrite <- length_quoted, substring_quoted, IH.
    now rewrite <- app_assoc.
Qed.

(** X8.  The value of a dgraph.type child is sliced from its second byte to
    its last but one without a look at its length.  When the leading
    dgraph.type children are readable up to one whose value has fewer than
    two bytes (a nil value among them), encodeGraphQL panics, whatever the
    selection set asks for, as long as it asks for something. *)
Theorem encodeGraphQL_short_type_panics (fuel : nat) (enc : encoder)
  (fj : fastJsonNode) (out : Buffer.t) (errList : list (GqlError F))
  (dgraphTypeAttrId : N) (childSelectionSet : list Field) (parentField : Field)
  (parentPath : list PathElem) (before : list fastJsonNode) (c : fastJsonNode)
  (rest : list fastJsonNode) (val : option string) :
  children fj = (before ++ c :: rest)%list ->
  Forall (fun b => getAttr b = dgraphTypeAttrId
                   /\ forall v, getScalarVal b = ScalarVal v ->
                        2 <= String.length match v with
                                           | Some s => s
                                           | None => EmptyString
                                           end) before ->
  getAttr c = dgraphTypeAttrId ->
  getScalarVal c = ScalarVal val ->
  String.length match val with Some s => s | None => EmptyString end < 2 ->
  childSelectionSet <> [] ->
  encodeGraphQL F (S fuel) enc fj out errList dgraphTypeAttrId childSelectionSet
    parentField parentPath = Abort RuntimePanic.
Proof.
  intros Hch Hbefore Ha Hv Hshort Hsels. cbn [encodeGraphQL]. rewrite Hch.
  assert (Hh : forall types errs,
             harvestTypes F dgraphTypeAttrId parentPath (before ++ c :: rest)%list
               types errs = Abort RuntimePanic).
  { clear Hch. induction Hbefore as [|b bs [Hb Hlen] _ IH]; intros types errs;
      cbn [app harvestTypes].
    - rewrite Ha, N.eqb_refl, Hv.
      destruct (Nat.ltb_spec (String.length match val with
                                            | Some s => s
                                            | None => EmptyString
                                            end) 2); [reflexivity | lia].
    - rewrite Hb, N.eqb_refl.
      destruct (getScalarVal b) as [err|v]; [apply IH|].
      specialize (Hlen v eq_refl).
      destruct (Nat.ltb_spec (String.length match v with
                                            | Some s => s
                                            | None => EmptyString
                                            end) 2); [lia | apply IH]. }
  destruct (before ++ c :: rest)%list as [|c0 cs] eqn:E.
  { destruct before; discriminate. }
  destruct childSelectionSet as [|s0 ss]; [congruence|].
  cbn [List.length Nat.eqb]. rewrite Hh. reflexivity.
Qed.

(* ================================================================== *)
(** ** Further properties: a selection that does not advance *)
(* ================================================================== *)

(** X6.  Step-3 goes to the next selection only when the next node carries
    another attribute than the current one.  A __typename selection, or a
    selection without data whose value can be written as null or the empty
    array, leaves the cursor where it is; when the node under the cursor is
    the first of several of one attribute the iteration therefore comes
    back to the same selection and the same node each time, and the loop
    does not end whatever the fuel. *)
Theorem mainLoop_repeats_before_a_run (enc : encoder) (rec : encodeFn F)
  (fj : fastJsonNode) (dgraphTypeAttrId : N) (childSelectionSet : list Field)
  (parentPath : list PathElem) (dgraphTypes : list string)
  (cur n : fastJsonNode) (rest : list fastJsonNode) (curSelection : Field)
  (fuel : nat) (st : loopState F) :
  stateOK F childSelectionSet st ->
  child st = cur :: n :: rest ->
  getAttr cur = getAttr n ->
  nth_error childSelectionSet (i st) = Some curSelection ->
  skipField curSelection dgraphTypes = false ->
  Name curSelection = Typename
  \/ (DgraphAlias curSelection <> attrForID enc (getAttr cur)
      /\ (ListType (TypeOf curSelection) <> None
          \/ Nullable (TypeOf curSelection) = true)) ->
  mainLoop F enc rec fj dgraphTypeAttrId childSelectionSet parentPath dgraphTypes
    fuel st = OutOfFuel.
Proof.
  intros Hok Hc Hattr Hn Hskip Hcase. revert st Hok Hc Hn.
  assert (Hd : selectionDrained cur (n :: rest) = false).
  { cbn [selectionDrained]. rewrite Hattr, N.eqb_refl. reflexivity. }
  induction fuel as [|fuel IH]; intros st Hok Hc Hn; cbn [mainLoop]; rewrite Hc;
    rewrite (nth_error_ltb _ _ _ Hn); [reflexivity|].
  destruct (startValue F curSelection (S (cnt st)) st) as [[out1 kep] isL] eqn:Hs.
  destruct (startValue_ok F _ _ _ _ _ _ Hok Hn Hs) as [HisL Hkep].
  assert (Hnext : forall v : valueStep F,
            v_child v = cur :: n :: rest -> v_cur v = cur -> v_next v = n :: rest ->
            (kep <= Buffer.Len (v_out v))%Z ->
            mainLoop F enc rec fj dgraphTypeAttrId childSelectionSet parentPath
              dgraphTypes fuel
              (closeValue F childSelectionSet (S (cnt st)) (i st) kep isL v)
            = OutOfFuel).
  { intros v Hvc Hcur Hnx Hlen. apply IH.
    - rewrite closeValue_eq, Hcur, Hnx, Hd. intros _. cbn [keyEndPos lout i
        curSelectionIsList andb].
      split; [|exists curSelection; split; assumption].
      rewrite !Len_app.
      match goal with
      | |- context [Buffer.Len (if ?b then _ else _)] =>
          pose proof (Len_nonneg (if b then "," else EmptyString))
      end.
      cbn [Buffer.Len String.length] in *. unfold Buffer.Len in *.
      cbn [String.length] in *. lia.
    - rewrite closeValue_eq. cbn [child]. exact Hvc.
    - rewrite closeValue_eq, Hcur, Hnx, Hd. cbn [i]. exact Hn. }
  unfold loopBody. rewrite Hc, Hn, Hskip, Hs. unfold writeValue.
  destruct Hcase as [Hname|[Halias Hnull]].
  - rewrite Hname, String.eqb_refl. cbn [bind]. apply Hnext; try reflexivity.
    cbn [v_out]. unfold Buffer.WriteString. rewrite Len_app.
    pose proof (Len_nonneg (typenameValue dgraphTypes curSelection)). lia.
  - destruct (String.eqb_spec (Name curSelection) Typename) as [Hname|_].
    { cbn [bind]. apply Hnext; try reflexivity.
      cbn [v_out]. unfold Buffer.WriteString. rewrite Len_app.
      pose proof (Len_nonneg (typenameValue dgraphTypes curSelection)). lia. }
    apply String.eqb_neq in Halias. rewrite Halias. cbn [negb].
    rewrite writeGraphQLNull_eq by exact Hkep. cbn [bind].
    pose proof (Len_take out1 kep Hkep) as Hlt.
    destruct Hnull as [Hl|Hnl].
    + rewrite (isListType_true _ Hl). cbn [negb bind].
      apply Hnext; try reflexivity. cbn [v_out]. rewrite Len_app, Hlt.
      pose proof (Len_nonneg "[]"). lia.
    + rewrite Hnl. destruct (isListType (TypeOf curSelection)); cbn [negb bind];
        apply Hnext; try reflexivity; cbn [v_out]; rewrite Len_app, Hlt;
        match goal with |- context [Buffer.Len ?s] => pose proof (Len_nonneg s) end; lia.
Qed.

(* ================================================================== *)
(** ** Further properties: the selections that are left without data *)
(* ================================================================== *)

(** A selection that must have a value: it is not skipped, it is not
    __typename, and its type is a non-nullable single type. *)
Definition mustHaveValue (types : list string) (sel : Field) : bool :=
  negb (skipField sel types)
  && negb (Name sel =? Typename)%string
  && negb (isListType (TypeOf sel))
  && negb (Nullable (TypeOf sel)).

(** What is written for a selection without data. *)
Definition absentMember (types : list string) (sel : Field) : string :=
  quoted (ResponseName sel) ++ ":"
  ++ (if (Name sel =? Typename)%string then typenameValue types sel
      else if isListType (TypeOf sel) then "[]" else "null").

(** The text of the selections without data: the members of those that
    are not skipped, with commas between them; when all are skipped, the
    buffer without the comma that may close it. *)
Definition absentText (types : list string) (rest : list Field) (out : Buffer.t)
  : Buffer.t :=
  match filter (fun sel => negb (skipField sel types)) rest with
  | [] => match rest with [] => out | _ :: _ => checkAndStripComma out end
  | kept => out ++ joinWith "," (map (absentMember types) kept)
  end.

Lemma absentText_skip (types : list string) (sel : Field) (rest : list Field)
  (out : Buffer.t) :
  skipField sel types = true ->
  absentText types (sel :: rest) out
  = absentText types rest match rest with [] => checkAndStripComma out | _ => out end.
Proof.
  intros Hs. unfold absentText. cbn [filter]. rewrite Hs. cbn [negb].
  destruct rest as [|s rest]; [reflexivity|].
  destruct (filter _ (s :: rest)); reflexivity.
Qed.

Lemma absentText_keep (types : list string) (sel : Field) (rest : list Field)
  (out : Buffer.t) :
  skipField sel types = false ->
  absentText types (sel :: rest) out
  = absentText types rest
      match rest with
      | [] => out ++ absentMember types sel
      | _ => (out ++ absentMember types sel) ++ ","
      end.
Proof.
  intros Hs. unfold absentText. cbn [filter]. rewrite Hs. cbn [negb map].
  destruct rest as [|s rest]; [reflexivity|].
  destruct (filter _ (s :: rest)) as [|k kept].
  - rewrite checkAndStripComma_comma. reflexivity.
  - cbn [map]. rewrite joinWith_cons2. now rewrite !append_assoc.
Qed.

(** What the loop over the selections without data returns. *)
Lemma tailLoop_outcome (path : list PathElem) (types : list string)
  (rest : list Field) (out : Buffer.t) (errList : list (GqlError F)) :
  exists r,
    tailLoop F path types rest out errList = Ret r
    /\ (res_ok r = true <-> forallb (fun sel => negb (mustHaveValue types sel)) rest = true)
    /\ (res_ok r = true ->
        res_errs r = errList /\ res_out r = absentText types rest out)
    /\ (forall before sel after,
          rest = (before ++ sel :: after)%list ->
          forallb (fun s => negb (mustHaveValue types s)) before = true ->
          mustHaveValue types sel = true ->
          res_ok r = false
          /\ res_errs r = (errList ++ [errExpectedNonNull F path sel])%list).
Proof.
  revert out. induction rest as [|sel rest IH]; intros out; cbn [tailLoop].
  - eexists. split; [reflexivity|]. cbn [res_ok res_errs res_out forallb].
    split; [tauto|]. split; [intros _; split; reflexivity|].
    intros before sel after H. destruct before; discriminate.
  - unfold mustHaveValue at 1 2. cbn [forallb].
    destruct (skipField sel types) eqn:Hskip.
    { destruct (IH match rest with [] => checkAndStripComma out | _ => out end)
        as [r [Hr [Hok [Hsucc Hfail]]]].
      exists r. split; [exact Hr|]. cbn [negb andb].
      split; [exact Hok|]. split.
      - intros H. destruct (Hsucc H) as [He Ho]. split; [exact He|].
        now rewrite absentText_skip.
      - intros before s after Heq Hb Hm.
        destruct before as [|b before]; cbn [app] in Heq; inversion Heq; subst.
        + unfold mustHaveValue in Hm. rewrite Hskip in Hm. discriminate.
        + cbn [forallb] in Hb. apply andb_true_iff in Hb. destruct Hb as [_ Hb].
          eapply Hfail; [reflexivity | exact Hb | exact Hm]. }
    cbn [negb andb].
    assert (Hmember : forall v,
              Buffer.WriteString (writeKeyGraphQL sel out) v
              = out ++ quoted (ResponseName sel) ++ ":" ++ v).
    { intros v. rewrite writeKey_text. unfold Buffer.WriteString.
      now rewrite !append_assoc. }
    destruct (String.eqb_spec (Name sel) Typename) as [Hname|Hname].
    { match goal with
      | |- context [tailLoop F path types rest ?o errList] =>
          destruct (IH o) as [r [Hr [Hok [Hsucc Hfail]]]]
      end.
      exists r. split; [exact Hr|]. cbn [negb andb].
      split; [exact Hok|]. split.
      - intros H. destruct (Hsucc H) as [He Ho]. split; [exact He|].
        rewrite Ho, absentText_keep by exact Hskip.
        unfold absentMember. rewrite Hname, String.eqb_refl.
        rewrite Hmember. unfold Buffer.WriteRune.
        destruct rest; now rewrite ?append_assoc.
      - intros before s after Heq Hb Hm.
        destruct before as [|b before]; cbn [app] in Heq; inversion Heq; subst.
        + unfold mustHaveValue in Hm. rewrite Hname, String.eqb_refl in Hm.
          rewrite andb_false_r in Hm. discriminate.
        + cbn [forallb] in Hb. apply andb_true_iff in Hb. destruct Hb as [_ Hb].
          eapply Hfail; [reflexivity | exact Hb | exact Hm]. }
    rewrite writeGraphQLNull_eq
      by (pose proof (Len_nonneg (writeKeyGraphQL sel out)); lia).
    unfold Buffer.Len. rewrite Nat2Z.id, take_length. cbn [bind negb andb].
    destruct (isListType (TypeOf sel)) eqn:HL;
      [|destruct (Nullable (TypeOf sel)) eqn:HN]; cbn [negb andb].
    + match goal with
      | |- context [tailLoop F path types rest ?o errList] =>
          destruct (IH o) as [r [Hr [Hok [Hsucc Hfail]]]]
      end.
      exists r. split; [exact Hr|]. split; [exact Hok|]. split.
      * intros H. destruct (Hsucc H) as [He Ho]. split; [exact He|].
        rewrite Ho, absentText_keep by exact Hskip.
        unfold absentMember. apply String.eqb_neq in Hname. rewrite Hname, HL.
        change (writeKeyGraphQL sel out ++ "[]")
          with (Buffer.WriteString (writeKeyGraphQL sel out) "[]").
        rewrite Hmember. unfold Buffer.WriteRune.
        destruct rest; now rewrite ?append_assoc.
      * intros before s after Heq Hb Hm.
        destruct before as [|b before]; cbn [app] in Heq; inversion Heq; subst.
        -- unfold mustHaveValue in Hm. rewrite HL in Hm.
           rewrite andb_false_r in Hm. discriminate.
        -- cbn [forallb] in Hb. apply andb_true_iff in Hb. destruct Hb as [_ Hb].
           eapply Hfail; [reflexivity | exact Hb | exact Hm].
    + match goal with
      | |- context [tailLoop F path types rest ?o errList] =>
          destruct (IH o) as [r [Hr [Hok [Hsucc Hfail]]]]
      end.
      exists r. split; [exact Hr|]. split; [exact Hok|]. split.
      * intros H. destruct (Hsucc H) as [He Ho]. split; [exact He|].
        rewrite Ho, absentText_keep by exact Hskip.
        unfold absentMember. apply String.eqb_neq in Hname. rewrite Hname, HL.
        change (writeKeyGraphQL sel out ++ "null")
          with (Buffer.WriteString (writeKeyGraphQL sel out) "null").
        rewrite Hmember. unfold Buffer.WriteRune.
        destruct rest; now rewrite ?append_assoc.
      * intros before s after Heq Hb Hm.
        destruct before as [|b before]; cbn [app] in Heq; inversion Heq; subst.
        -- unfold mustHaveValue in Hm. rewrite HN in Hm.
           rewrite andb_false_r in Hm. discriminate.
        -- cbn [forallb] in Hb. apply andb_true_iff in Hb. destruct Hb as [_ Hb].
           eapply Hfail; [reflexivity | exact Hb | exact Hm].
    + eexists. split; [reflexivity|]. cbn [res_ok res_errs].
      split; [split; discriminate|]. split; [discriminate|].
      intros before s after Heq Hb Hm.
      destruct before as [|b before]; cbn [app] in Heq; inversion Heq; subst.
      * split; reflexivity.
      * cbn [forallb] in Hb. apply andb_true_iff in Hb. destruct Hb as [Hb _].
        unfold mustHaveValue in Hb. rewrite Hskip, HL, HN in Hb.
        apply String.eqb_neq in Hname. rewrite Hname in Hb. discriminate.
Qed.

(** X5.  The loop over the selections that are left when the data has run out
    always returns.  It fails exactly when one of them must have a value,
    and then with the expected-non-null error of the first such selection
    as the one error it adds; otherwise it adds no error and the buffer
    holds the members of the selections that are not skipped: the type name
    for __typename, the empty array for a list and null for a nullable
    type. *)
Theorem tailLoop_spec (path : list PathElem) (types : list string)
  (rest : list Field) (out : Buffer.t) (errList : list (GqlError F)) :
  exists r,
    tailLoop F path types rest out errList = Ret r
    /\ (res_ok r = true <-> forallb (fun sel => negb (mustHaveValue types sel)) rest = true)
    /\ (res_ok r = true ->
        res_errs r = errList /\ res_out r = absentText types rest out)
    /\ (forall before sel after,
          rest = (before ++ sel :: after)%list ->
          forallb (fun s => negb (mustHaveValue types s)) before = true ->
          mustHaveValue types sel = true ->
          res_ok r = false
          /\ res_errs r = (errList ++ [errExpectedNonNull F path sel])%list).
Proof. apply tailLoop_outcome. Qed.

(* ================================================================== *)
(** ** Further properties: the progress of the main loop *)
(* ================================================================== *)

Lemma suffix_length (cs cs' : list fastJsonNode) :
  suffix cs' cs -> List.length cs' <= List.length cs.
Proof.
  induction 1 as [cs|c cs cs' _ IH]; cbn [List.length]; lia.
Qed.

(** What the value step leaves of the cursor: the nodes after the current
    one, or, for __typename and for a selection without data, the cursor
    as it was. *)
Lemma writeValue_moves (enc : encoder) (rec : encodeFn F) (fj : fastJsonNode)
  (tid : N) (path : list PathElem) (types : list string) (sel : Field)
  (cur : fastJsonNode) (next : list fastJsonNode) (c : nat) (kep : Z) (isL : bool)
  (out1 : Buffer.t) (errList : list (GqlError F)) (v : valueStep F) :
  writeValue F enc rec fj tid path types sel cur next c kep isL out1 errList
  = Ret (inr v) ->
  suffix (v_child v) next
  \/ (v_child v = cur :: next /\ v_cur v = cur /\ v_next v = next
      /\ (Name sel = Typename \/ DgraphAlias sel <> attrForID enc (getAttr cur))).
Proof.
  unfold writeValue. intros H.
  destruct (String.eqb_spec (Name sel) Typename) as [Hname|Hname].
  { apply Ret_inj in H. inversion H; subst. right. cbn. auto. }
  destruct (String.eqb_spec (DgraphAlias sel) (attrForID enc (getAttr cur)))
    as [Hal|Hal]; cbn [negb] in H.
  2:{ bind_ret H. destruct a as [w o']. destruct (negb w); [discriminate|].
      apply Ret_inj in H. inversion H; subst. right. cbn. auto. }
  left.
  repeat match type of H with
         | Ret (inl _) = Ret (inr _) => discriminate H
         | Ret (inr _) = Ret (inr _) =>
             apply Ret_inj in H; inversion H; subst; cbn [v_child];
             first [apply suffix_refl | apply skipAttr_suffix]
         | Abort _ = Ret _ => discriminate H
         | bind ?m _ = Ret _ => bind_ret H
         | (let '(_, _) := skipAttrCur ?a ?c ?n in _) = Ret _ =>
             let Hs := fresh "Hs" in
             pose proof (skipAttrCur_snd a c n) as Hs;
             destruct (skipAttrCur a c n); cbn [snd] in Hs; subst
         | (let '(_, _) := ?p in _) = Ret _ => destruct p
         | (if ?b then _ else _) = Ret _ => destruct b
         | match ?o with Some _ => _ | None => _ end = Ret _ => destruct o
         end.
Qed.

(** X7.  Every iteration that goes on makes progress, with one exception.  It
    moves to the next selection, or it stays on the selection and moves the
    cursor forward.  The exception is a __typename selection, or a
    selection the current node holds no data for, while the next node
    carries the attribute of the current one: then selection and cursor are
    after the iteration what they were before it. *)
Theorem loopBody_progress (enc : encoder) (rec : encodeFn F) (fj : fastJsonNode)
  (dgraphTypeAttrId : N) (childSelectionSet : list Field)
  (parentPath : list PathElem) (dgraphTypes : list string) (st st' : loopState F) :
  loopBody F enc rec fj dgraphTypeAttrId childSelectionSet parentPath dgraphTypes st
  = Ret (Continue st') ->
  (i st' = S (i st) /\ List.length (child st') <= List.length (child st))
  \/ (i st' = i st /\ List.length (child st') < List.length (child st))
  \/ (i st' = i st /\ child st' = child st
      /\ exists cur n rest curSelection,
           child st = cur :: n :: rest
           /\ getAttr cur = getAttr n
           /\ nth_error childSelectionSet (i st) = Some curSelection
           /\ (Name curSelection = Typename
               \/ DgraphAlias curSelection <> attrForID enc (getAttr cur))).
Proof.
  unfold loopBody. intros H.
  destruct (child st) as [|cur next] eqn:Hc; [discriminate|].
  destruct (nth_error childSelectionSet (i st)) as [sel|] eqn:Hn; [|discriminate].
  destruct (skipField sel dgraphTypes).
  { apply Ret_inj in H. inversion H; subst. cbn [i child]. left.
    split; [reflexivity|].
    destruct (getAttr cur =? idForAttr enc (DgraphAlias sel))%N.
    - pose proof (suffix_length _ _ (skipAttr_suffix
                                       (idForAttr enc (DgraphAlias sel)) next)).
      cbn [List.length]. lia.
    - lia. }
  destruct (startValue F sel (S (cnt st)) st) as [[out1 kep] isL].
  bind_ret H. destruct a as [r|v]; [discriminate|].
  apply Ret_inj in H. inversion H; subst. clear H.
  apply writeValue_moves in E. rewrite closeValue_eq. cbn [i child].
  destruct E as [Hsuf|[Hch [Hcur [Hnx Hsel]]]].
  - apply suffix_length in Hsuf. cbn [List.length].
    destruct (selectionDrained (v_cur v) (v_next v)); [left | right; left];
      (split; [reflexivity | lia]).
  - rewrite Hch, Hcur, Hnx.
    destruct next as [|n rest]; [left; split; [reflexivity | lia]|].
    cbn [selectionDrained].
    destruct (N.eqb_spec (getAttr cur) (getAttr n)) as [Ha|Ha]; cbn [negb];
      [|left; split; [reflexivity | lia]].
    right; right. split; [reflexivity|]. split; [reflexivity|].
    exists cur, n, rest, sel. auto.
Qed.

(* ================================================================== *)
(** ** Further properties: the object of a node whose data lines up *)
(* ================================================================== *)

(** A selection with the nodes that hold its data, each with the text its
    encoding appends. *)
Record entry : Type := {
  e_sel : Field;
  e_items : list (fastJsonNode * string)
}.

Definition entryNodes (e : entry) : list fastJsonNode := map fst (e_items e).

(** The member of the object for an entry: the key, and the text of the
    one item, or for a list the texts of the items in brackets. *)
Definition entryMember (e : entry) : string :=
  quoted (ResponseName (e_sel e)) ++ ":"
  ++ (if isListType (TypeOf (e_sel e))
      then "[" ++ joinWith "," (map snd (e_items e)) ++ "]"
      else joinWith "," (map snd (e_items e))).

Section Entries.

Variable enc : encoder.
Variable rec : encodeFn F.
Variable fj : fastJsonNode.
Variable tid : N.
Variable sels : list Field.
Variable path : list PathElem.
Variable types : list string.

(** The recursive call on item [k] of a selection succeeds and appends
    the text [t], leaving the errors as they are. *)
Definition encodesTo (sel : Field) (index : list PathElem) (c : fastJsonNode)
  (t : string) : Prop :=
  forall (o : Buffer.t) (errs : list (GqlError F)),
    rec c o errs tid (SelectionSet sel) sel
      ((path ++ [PathName (ResponseName sel)]) ++ index)%list
    = Ret {| res_ok := true; res_out := o ++ t; res_errs := errs |}.

(** An entry lines up: the selection is written (not skipped, not
    __typename), its nodes carry the attribute of its alias, and they are
    the list-tagged items of a list selection or the one node of a single
    selection (which may be list-tagged under the root only), each encoded
    with success. *)
Definition entryOK (e : entry) : Prop :=
  let sel := e_sel e in
  skipField sel types = false
  /\ Name sel <> Typename
  /\ e_items e <> []
  /\ (forall c c', In c (entryNodes e) -> In c' (entryNodes e) -> getAttr c = getAttr c')
  /\ (forall c, In c (entryNodes e) -> DgraphAlias sel = attrForID enc (getAttr c))
  /\ (if isListType (TypeOf sel)
      then forall k c t, nth_error (e_items e) k = Some (c, t) ->
             getList c = true /\ encodesTo sel [PathIndex (Z.of_nat k)] c t
      else List.length (e_items e) = 1
           /\ forall c t, In (c, t) (e_items e) ->
                (getList c = false \/ getAttr fj = idForAttr enc "_root_")
                /\ encodesTo sel [] c t).

(** After the nodes of each entry comes a node of another attribute, or
    none. *)
Fixpoint chainOK (entries : list entry) (extra : list fastJsonNode) : Prop :=
  match entries with
  | [] => True
  | e :: rest =>
      (forall c, In c (entryNodes e) ->
         selectionDrained c (flat_map entryNodes rest ++ extra)%list = true)
      /\ chainOK rest extra
  end.

Lemma mainLoop_step (fuel : nat) (st st' : loopState F) :
  child st <> [] -> i st < List.length sels ->
  loopBody F enc rec fj tid sels path types st = Ret (Continue st') ->
  mainLoop F enc rec fj tid sels path types (S fuel) st
  = mainLoop F enc rec fj tid sels path types fuel st'.
Proof.
  intros Hc Hi Hb. cbn [mainLoop].
  destruct (child st); [congruence|].
  destruct (Nat.ltb_spec (i st) (List.length sels)); [|lia].
  rewrite Hb. reflexivity.
Qed.

Lemma mainLoop_done (fuel : nat) (st : loopState F) :
  i st = List.length sels ->
  mainLoop F enc rec fj tid sels path types fuel st = Ret (Continue st).
Proof.
  intros Hi. destruct fuel; cbn [mainLoop]; destruct (child st); try reflexivity;
    destruct (Nat.ltb_spec (i st) (List.length sels)); try reflexivity; lia.
Qed.

(** One iteration on a node that holds data for the selection and is
    encoded with success. *)
Lemma loopBody_item (st : loopState F) (sel : Field) (c : fastJsonNode)
  (tl : list fastJsonNode) (out1 : Buffer.t) (kep : Z) (isL : bool) (t : string) :
  child st = c :: tl ->
  nth_error sels (i st) = Some sel ->
  skipField sel types = false ->
  Name sel <> Typename ->
  DgraphAlias sel = attrForID enc (getAttr c) ->
  startValue F sel (S (cnt st)) st = (out1, kep, isL) ->
  (isL = true /\ getList c = true
   /\ encodesTo sel [PathIndex (Z.of_nat (cnt st))] c t)
  \/ (isL = false /\ (getList c = false \/ getAttr fj = idForAttr enc "_root_")
      /\ encodesTo sel [] c t) ->
  loopBody F enc rec fj tid sels path types st
  = Ret (Continue
           (closeValue F sels (S (cnt st)) (i st) kep isL
              {| v_out := out1 ++ t; v_errs := lerrs st; v_nullWritten := false;
                 v_child := tl; v_cur := c; v_next := tl |})).
Proof.
  intros Hc Hn Hskip Hname Halias Hs Hcase.
  apply String.eqb_neq in Hname. apply String.eqb_eq in Halias.
  unfold loopBody. rewrite Hc, Hn, Hskip, Hs. unfold writeValue.
  rewrite Hname, Halias. cbn [negb].
  destruct Hcase as [[-> [Hl He]]|[-> [Hl He]]].
  - rewrite Hl. cbn [andb].
    replace (Z.of_nat (S (cnt st)) - 1)%Z with (Z.of_nat (cnt st)) by lia.
    rewrite He. reflexivity.
  - cbn [andb negb].
    assert (Hor : negb (getList c) || (getAttr fj =? idForAttr enc "_root_")%N = true).
    { destruct Hl as [Hl|Hl]; [now rewrite Hl|].
      rewrite Hl, N.eqb_refl. apply orb_true_r. }
    rewrite Hor. unfold encodesTo in He. rewrite app_nil_r in He.
    rewrite He. reflexivity.
Qed.

(** The items of a list selection from item [k] on: after as many
    iterations as there are items left the array is closed and the next
    selection is up. *)
Lemma mainLoop_list_run (sel : Field) (idx : nat) (tl : list fastJsonNode)
  (errs : list (GqlError F)) (kep : Z) :
  nth_error sels idx = Some sel ->
  skipField sel types = false ->
  Name sel <> Typename ->
  forall (todo : list (fastJsonNode * string)) (c : fastJsonNode) (t : string)
         (k : nat) (st : loopState F) (out1 : Buffer.t) (fuel : nat),
    child st = (c :: map fst todo ++ tl)%list ->
    cnt st = k -> i st = idx -> lerrs st = errs ->
    startValue F sel (S k) st = (out1, kep, true) ->
    (forall c', In c' (c :: map fst todo) ->
       getAttr c' = getAttr c /\ DgraphAlias sel = attrForID enc (getAttr c')) ->
    selectionDrained c tl = true ->
    (forall j c' t', nth_error ((c, t) :: todo) j = Some (c', t') ->
       getList c' = true /\ encodesTo sel [PathIndex (Z.of_nat (k + j))] c' t') ->
    mainLoop F enc rec fj tid sels path types (S (List.length todo) + fuel) st
    = mainLoop F enc rec fj tid sels path types fuel
        {| child := tl; cnt := 0; i := S idx; keyEndPos := kep;
           curSelectionIsList := true;
           lout := out1 ++ joinWith "," (t :: map snd todo) ++ "]"
                   ++ (if (S idx <? List.length sels)%nat then "," else EmptyString);
           lerrs := errs |}.
Proof.
  intros Hn Hskip Hname.
  induction todo as [|[c2 t2] todo IH];
    intros c t k st out1 fuel Hc Hk Hi He Hs Hattr Hdr Hitems.
  - cbn [map app] in Hc. cbn [List.length Nat.add].
    destruct (Hitems 0 c t eq_refl) as [Hl Henc]. rewrite Nat.add_0_r in Henc.
    assert (Hne : child st <> []) by (rewrite Hc; discriminate).
    assert (Hlt : i st < List.length sels)
      by (rewrite Hi; apply nth_error_Some; congruence).
    assert (Hb : loopBody F enc rec fj tid sels path types st
                 = Ret (Continue
                          (closeValue F sels (S (cnt st)) (i st) kep true
                             {| v_out := out1 ++ t; v_errs := lerrs st;
                                v_nullWritten := false; v_child := tl;
                                v_cur := c; v_next := tl |}))).
    { apply loopBody_item with (sel := sel); try assumption.
      - now rewrite Hi.
      - apply Hattr. now left.
      - now rewrite Hk.
      - left. rewrite Hk. auto. }
    rewrite (mainLoop_step fuel st _ Hne Hlt Hb).
    + f_equal. rewrite closeValue_eq.
      cbn [v_cur v_next v_child v_out v_errs v_nullWritten negb andb].
      rewrite Hdr, Hi, He. cbn [andb joinWith map].
      now rewrite !append_assoc.
  - cbn [map app] in Hc.
    change (S (List.length ((c2, t2) :: todo)) + fuel)
      with (S (S (List.length todo) + fuel)).
    destruct (Hitems 0 c t eq_refl) as [Hl Henc]. rewrite Nat.add_0_r in Henc.
    assert (Hnd : selectionDrained c (c2 :: map fst todo ++ tl)%list = false).
    { cbn [selectionDrained].
      destruct (Hattr c2 (or_intror (or_introl eq_refl))) as [Ha _].
      rewrite Ha, N.eqb_refl. reflexivity. }
    assert (Hne : child st <> []) by (rewrite Hc; discriminate).
    assert (Hlt : i st < List.length sels)
      by (rewrite Hi; apply nth_error_Some; congruence).
    assert (Hb : loopBody F enc rec fj tid sels path types st
                 = Ret (Continue
                          (closeValue F sels (S (cnt st)) (i st) kep true
                             {| v_out := out1 ++ t; v_errs := lerrs st;
                                v_nullWritten := false;
                                v_child := (c2 :: map fst todo ++ tl)%list;
                                v_cur := c;
                                v_next := (c2 :: map fst todo ++ tl)%list |}))).
    { apply loopBody_item with (sel := sel); try assumption.
      - now rewrite Hi.
      - apply Hattr. now left.
      - now rewrite Hk.
      - left. rewrite Hk. auto. }
    rewrite (mainLoop_step (S (List.length todo) + fuel) st _ Hne Hlt Hb).
    rewrite closeValue_eq.
    cbn [v_cur v_next v_child v_out v_errs v_nullWritten negb andb].
    rewrite Hnd, Hi, Hk, He. cbn [andb]. rewrite (nth_error_ltb _ _ _ Hn).
    change (EmptyString ++ ",") with ",".
    rewrite (IH c2 t2 (S k) _ ((out1 ++ t) ++ ",") fuel); try reflexivity.
    + do 2 f_equal. cbn [map snd]. rewrite joinWith_cons2.
      now rewrite !append_assoc.
    + intros c' Hin. destruct (Hattr c' (or_intror Hin)) as [Ha Hal].
      destruct (Hattr c2 (or_intror (or_introl eq_refl))) as [Ha2 _].
      split; [congruence | exact Hal].
    + destruct (Hattr c2 (or_intror (or_introl eq_refl))) as [Ha2 _].
      destruct tl as [|x rest]; [reflexivity|].
      cbn [selectionDrained] in *. now rewrite Ha2.
    + intros j c' t' Hj. specialize (Hitems (S j) c' t' Hj).
      now rewrite Nat.add_succ_r in Hitems.
Qed.


Lemma joinWith_cons_app (x : string) (l : list string) :
  joinWith "," (x :: l)
  = x ++ (match l with [] => EmptyString | _ => "," end) ++ joinWith "," l.
Proof.
  destruct l as [|y l]; cbn [joinWith]; [now rewrite append_nil_r | reflexivity].
Qed.

(** The entries one after the other: as many iterations as there are
    nodes write the members, with commas between them and a comma after
    the last when selections are left, and leave the cursor after the
    nodes. *)
Lemma mainLoop_entries (extra : list fastJsonNode) (rest : list Field)
  (errs : list (GqlError F)) :
  forall (entries : list entry) (pre : list Field) (st : loopState F) (fuel : nat),
    sels = (pre ++ map e_sel entries ++ rest)%list ->
    child st = (flat_map entryNodes entries ++ extra)%list ->
    cnt st = 0 -> i st = List.length pre -> lerrs st = errs ->
    Forall entryOK entries -> chainOK entries extra ->
    exists st',
      mainLoop F enc rec fj tid sels path types
        (List.length (flat_map entryNodes entries) + fuel) st
      = mainLoop F enc rec fj tid sels path types fuel st'
      /\ i st' = List.length pre + List.length entries
      /\ child st' = extra
      /\ lerrs st' = errs
      /\ lout st' = lout st ++ joinWith "," (map entryMember entries)
                    ++ match entries, rest with
                       | _ :: _, _ :: _ => ","
                       | _, _ => EmptyString
                       end.
Proof.
  induction entries as [|e es IH]; intros pre st fuel Hsels Hc Hcnt Hi He Hok Hchain.
  - exists st. cbn [flat_map List.length Nat.add map joinWith].
    split; [reflexivity|]. split; [lia|]. split; [exact Hc|].
    split; [exact He | now rewrite !append_nil_r].
  - apply Forall_cons_iff in Hok. destruct Hok as [He1 Hes].
    destruct Hchain as [Hdr Hchain].
    destruct He1 as [Hskip [Hname [Hne [Hsame [Halias Hshape]]]]].
    destruct e as [sel items]. cbn [e_sel e_items entryNodes] in *.
    destruct items as [|[c t] todo]; [congruence|]. clear Hne.
    cbn [flat_map entryNodes e_items map fst] in Hc.
    assert (Hn : nth_error sels (i st) = Some sel).
    { rewrite Hi, Hsels. cbn [map e_sel app]. rewrite nth_error_app2 by lia.
      now rewrite Nat.sub_diag. }
    assert (Hlen : List.length sels
                   = List.length pre + S (List.length es + List.length rest)).
    { rewrite Hsels, !length_app. cbn [map List.length]. now rewrite length_map. }
    assert (Hcomma : (if (S (List.length pre) <? List.length sels)%nat
                      then "," else EmptyString)
                     = match map entryMember es, rest with
                       | [], [] => EmptyString
                       | _, _ => ","
                       end).
    { rewrite Hlen. destruct es as [|e2 es]; [destruct rest as [|s0 rest]|];
        cbn [map List.length Nat.add];
        match goal with
        | |- context [(?a <? ?b)%nat] => destruct (Nat.ltb_spec a b)
        end; try reflexivity; lia. }
    assert (Hpre : sels = ((pre ++ [sel]) ++ map e_sel es ++ rest)%list).
    { rewrite Hsels. cbn [map e_sel app]. now rewrite <- app_assoc. }
    assert (Hlen1 : List.length (pre ++ [sel])%list = S (List.length pre)).
    { rewrite length_app. cbn. lia. }
    assert (Hfl : List.length
                    (flat_map entryNodes ({| e_sel := sel; e_items := (c, t) :: todo |} :: es))
                  + fuel
                  = S (List.length todo) + (List.length (flat_map entryNodes es) + fuel)).
    { cbn [flat_map entryNodes e_items map fst]. rewrite length_app.
      cbn [List.length]. rewrite length_map. lia. }
    rewrite Hfl.
    rewrite <- app_assoc in Hc. cbn [app] in Hc.
    assert (Hjoin : forall m : string,
              (m ++ match map entryMember es, rest with
                    | [], [] => EmptyString
                    | _, _ => ","
                    end)
              ++ joinWith "," (map entryMember es)
              ++ match es, rest with
                 | _ :: _, _ :: _ => ","
                 | _, _ => EmptyString
                 end
              = joinWith "," (m :: map entryMember es)
                ++ match rest with [] => EmptyString | _ => "," end).
    { intros m. rewrite joinWith_cons_app.
      destruct es as [|e2 es]; destruct rest as [|s0 rest]; cbn [map joinWith];
        rewrite ?append_assoc, ?append_nil_r; reflexivity. }
    destruct (isListType (TypeOf sel)) eqn:HL.
    + (* a list selection *)
      rewrite (mainLoop_list_run sel (List.length pre)
                 (flat_map entryNodes es ++ extra)%list errs
                 (Buffer.Len (writeKeyGraphQL sel (lout st))) ltac:(now rewrite <- Hi)
                 Hskip Hname todo c t 0 st
                 (Buffer.WriteRune (writeKeyGraphQL sel (lout st)) "[")
                 (List.length (flat_map entryNodes es) + fuel)); try assumption.
      * match goal with
        | |- context [mainLoop F enc rec fj tid sels path types _ ?s] =>
            destruct (IH (pre ++ [sel])%list s fuel)
              as [st' [Hm [Hi' [Hc' [He' Ho']]]]];
              try assumption; try reflexivity
        end.
        { cbn [i]. now rewrite Hlen1. }
        exists st'. split; [exact Hm|].
        split; [rewrite Hi', Hlen1; cbn [List.length]; lia|].
        split; [exact Hc'|]. split; [exact He'|].
        rewrite Ho'. cbn [lout map]. rewrite Hcomma.
        assert (Hmem : entryMember {| e_sel := sel; e_items := (c, t) :: todo |}
                       = quoted (ResponseName sel) ++ ":" ++ "["
                         ++ joinWith "," (t :: map snd todo) ++ "]").
        { unfold entryMember. cbn [e_sel e_items]. rewrite HL. reflexivity. }
        rewrite <- Hjoin, Hmem, writeKey_text. unfold Buffer.WriteRune.
        now rewrite !append_assoc.
      * unfold startValue. cbn [Nat.eqb]. rewrite HL. reflexivity.
      * intros c' Hin. split; [apply Hsame; [exact Hin | now left] | now apply Halias].
      * apply Hdr. now left.
    + (* a single selection *)
      destruct Hshape as [Hone Hitem].
      destruct todo as [|x todo]; [|cbn in Hone; lia].
      destruct (Hitem c t (or_introl eq_refl)) as [Hl Henc].
      cbn [map app List.length Nat.add] in *.
      assert (Hcne : child st <> []) by (rewrite Hc; discriminate).
      assert (Hlt : i st < List.length sels)
        by (apply nth_error_Some; congruence).
      assert (Hb : loopBody F enc rec fj tid sels path types st
                   = Ret (Continue
                            (closeValue F sels (S (cnt st)) (i st)
                               (Buffer.Len (writeKeyGraphQL sel (lout st))) false
                               {| v_out := writeKeyGraphQL sel (lout st) ++ t;
                                  v_errs := lerrs st; v_nullWritten := false;
                                  v_child := (flat_map entryNodes es ++ extra)%list;
                                  v_cur := c;
                                  v_next := (flat_map entryNodes es ++ extra)%list |}))).
      { apply loopBody_item with (sel := sel); try assumption.
        - apply Halias. now left.
        - unfold startValue. rewrite Hcnt. cbn [Nat.eqb]. rewrite HL. reflexivity.
        - right. auto. }
      rewrite (mainLoop_step _ st _ Hcne Hlt Hb).
      rewrite closeValue_eq.
      cbn [v_cur v_next v_child v_out v_errs v_nullWritten negb andb].
      rewrite (Hdr c (or_introl eq_refl)), Hi, He. cbn [andb].
      rewrite ?andb_false_r.
      match goal with
      | |- context [mainLoop F enc rec fj tid sels path types _ ?s] =>
          destruct (IH (pre ++ [sel])%list s fuel)
            as [st' [Hm [Hi' [Hc' [He' Ho']]]]];
            try assumption; try reflexivity
      end.
      { cbn [i]. now rewrite Hlen1. }
      exists st'. split; [exact Hm|].
      split; [rewrite Hi', Hlen1; cbn [List.length]; lia|].
      split; [exact Hc'|]. split; [exact He'|].
      rewrite Ho'. cbn [lout map]. rewrite Hcomma.
      assert (Hmem : entryMember {| e_sel := sel; e_items := [(c, t)] |}
                     = quoted (ResponseName sel) ++ ":" ++ t).
      { unfold entryMember. cbn [e_sel e_items]. rewrite HL. reflexivity. }
      rewrite <- Hjoin, Hmem, writeKey_text. cbn [append].
      now rewrite !append_assoc.
Qed.

Lemma mainLoop_exit (fuel : nat) (st : loopState F) :
  child st = [] \/ i st = List.length sels ->
  mainLoop F enc rec fj tid sels path types fuel st = Ret (Continue st).
Proof.
  intros [Hc|Hi]; [|now apply mainLoop_done].
  destruct fuel; cbn [mainLoop]; now rewrite Hc.
Qed.

End Entries.

(** The object of a node whose data lines up with the selection set. *)
Lemma encodeGraphQL_entries_text (fuel : nat) (enc : encoder)
  (fj : fastJsonNode) (out : Buffer.t) (errList errs : list (GqlError F))
  (dgraphTypeAttrId : N) (parentField : Field) (parentPath : list PathElem)
  (dgraphTypes : list string) (entries : list entry) (extra : list fastJsonNode)
  (rest : list Field) :
  children fj <> [] ->
  entries <> [] ->
  harvestTypes F dgraphTypeAttrId parentPath (children fj) [] errList
  = Ret ((flat_map entryNodes entries ++ extra)%list, dgraphTypes, errs) ->
  Forall (entryOK enc (encodeGraphQL F fuel enc) fj dgraphTypeAttrId parentPath
            dgraphTypes) entries ->
  chainOK entries extra ->
  extra = [] \/ rest = [] ->
  forallb (fun sel => negb (mustHaveValue dgraphTypes sel)) rest = true ->
  List.length (flat_map entryNodes entries) <= fuel ->
  encodeGraphQL F (S fuel) enc fj out errList dgraphTypeAttrId
    (map e_sel entries ++ rest)%list parentField parentPath
  = Ret {| res_ok := true;
           res_out :=
             absentText dgraphTypes rest
               (out ++ "{" ++ joinWith "," (map entryMember entries)
                ++ match rest with [] => EmptyString | _ => "," end)
             ++ "}";
           res_errs := errs |}.
Proof.
  intros Hch Hne Hh Hok Hchain Hend Hrest Hfuel. cbn [encodeGraphQL].
  destruct (children fj) as [|c0 cs] eqn:Hc; [congruence|].
  assert (Hlen : (List.length (map e_sel entries ++ rest)%list =? 0)%nat = false).
  { destruct entries; [congruence | reflexivity]. }
  rewrite Hlen, Hh. cbn [bind].
  destruct (mainLoop_entries enc (encodeGraphQL F fuel enc) fj dgraphTypeAttrId
              (map e_sel entries ++ rest)%list parentPath dgraphTypes extra rest errs
              entries []
              (initState F (flat_map entryNodes entries ++ extra)%list
                 (Buffer.WriteRune out "{") errs)
              (fuel - List.length (flat_map entryNodes entries)))
    as [st' [Hm [Hi [Hc' [He Ho]]]]]; try reflexivity; try assumption.
  replace (List.length (flat_map entryNodes entries)
           + (fuel - List.length (flat_map entryNodes entries))) with fuel in Hm by lia.
  cbn [List.length Nat.add] in Hi.
  rewrite Hm, mainLoop_exit; cycle 1.
  { destruct Hend as [->| ->]; [left; exact Hc'|].
    right. rewrite Hi, app_nil_r. now rewrite length_map. }
  cbn [bind].
  assert (Hskipn : skipn (i st') (map e_sel entries ++ rest)%list = rest).
  { rewrite Hi, <- (length_map e_sel entries), skipn_app, Nat.sub_diag, skipn_all.
    reflexivity. }
  rewrite Hskipn.
  destruct (tailLoop_outcome parentPath dgraphTypes rest (lout st') (lerrs st'))
    as [r [Hr [Hiff [Hsucc _]]]].
  rewrite Hr. cbn [bind].
  assert (Hokr : res_ok r = true) by (now apply Hiff).
  destruct (Hsucc Hokr) as [Her Hor].
  rewrite Hokr, Her, Hor, He, Ho. cbn [initState lout]. unfold Buffer.WriteRune.
  do 2 f_equal.
  destruct entries as [|e0 es]; [congruence|].
  now rewrite !append_assoc.
Qed.

(** X1.  The happy path of encodeGraphQL as a whole.  The children of the node,
    after the dgraph.type children, are the data of the first selections in
    their order: for a list selection a run of list-tagged nodes, for a
    single selection one node, each encoded with success by the recursive
    call.  Either the data ends there and the selections that are left can
    do without a value, or the selection set ends there and more children
    may follow (the uid that the query layer asks for) under another
    attribute.  Then the call succeeds, adds no error, and appends one
    object: the members in the order of the selection set, each the key of
    the response name, a colon and the encoded value, a list as the items
    between brackets, with commas between items and between members, and
    after them the members of the selections without data. *)
Theorem encodeGraphQL_object_of_entries (fuel : nat) (enc : encoder)
  (fj : fastJsonNode) (out : Buffer.t) (errList errs : list (GqlError F))
  (dgraphTypeAttrId : N) (parentField : Field) (parentPath : list PathElem)
  (dgraphTypes : list string) (entries : list entry) (extra : list fastJsonNode)
  (rest : list Field) :
  children fj <> [] ->
  entries <> [] ->
  harvestTypes F dgraphTypeAttrId parentPath (children fj) [] errList
  = Ret ((flat_map entryNodes entries ++ extra)%list, dgraphTypes, errs) ->
  Forall (entryOK enc (encodeGraphQL F fuel enc) fj dgraphTypeAttrId parentPath
            dgraphTypes) entries ->
  chainOK entries extra ->
  extra = [] \/ rest = [] ->
  forallb (fun sel => negb (mustHaveValue dgraphTypes sel)) rest = true ->
  List.length (flat_map entryNodes entries) <= fuel ->
  encodeGraphQL F (S fuel) enc fj out errList dgraphTypeAttrId
    (map e_sel entries ++ rest)%list parentField parentPath
  = Ret {| res_ok := true;
           res_out :=
             absentText dgraphTypes rest
               (out ++ "{" ++ joinWith "," (map entryMember entries)
                ++ match rest with [] => EmptyString | _ => "," end)
             ++ "}";
           res_errs := errs |}.
Proof.
  intros Hch Hne Hh Hok Hchain Hend Hrest Hfuel.
  exact (encodeGraphQL_entries_text fuel enc fj out errList errs dgraphTypeAttrId
           parentField parentPath dgraphTypes entries extra rest
           Hch Hne Hh Hok Hchain Hend Hrest Hfuel).
Qed.

(** An entry of scalars: its selection has no geo type and its nodes are
    leaves that hold the bytes of their values. *)
Definition scalarEntryOK (enc : encoder) (types : list string) (e : entry) : Prop :=
  let sel := e_sel e in
  skipField sel types = false
  /\ Name sel <> Typename
  /\ IsGeo (TypeOf sel) = false
  /\ e_items e <> []
  /\ (forall c c', In c (entryNodes e) -> In c' (entryNodes e) -> getAttr c = getAttr c')
  /\ (forall c t, In (c, t) (e_items e) ->
        DgraphAlias sel = attrForID enc (getAttr c)
        /\ children c = [] /\ getScalarVal c = ScalarVal (Some t)
        /\ getList c = isListType (TypeOf sel))
  /\ (isListType (TypeOf sel) = false -> List.length (e_items e) = 1).

Lemma scalarEntry_entryOK (enc : encoder) (fuel : nat) (fj : fastJsonNode) (tid : N)
  (path : list PathElem) (types : list string) (e : entry) :
  scalarEntryOK enc types e ->
  entryOK enc (encodeGraphQL F (S fuel) enc) fj tid path types e.
Proof.
  intros [Hskip [Hname [Hgeo [Hne [Hsame [Hitems Hone]]]]]].
  assert (Henc : forall c t index, In (c, t) (e_items e) ->
            encodesTo (encodeGraphQL F (S fuel) enc) tid path (e_sel e) index c t).
  { intros c t index Hin o errs.
    destruct (Hitems c t Hin) as [_ [Hch [Hv _]]].
    cbn [encodeGraphQL]. rewrite Hch. unfold encodeScalar. rewrite Hv, Hgeo.
    reflexivity. }
  split; [exact Hskip|]. split; [exact Hname|]. split; [exact Hne|].
  split; [exact Hsame|]. split.
  - intros c Hin. unfold entryNodes in Hin. apply in_map_iff in Hin.
    destruct Hin as [[c' t] [Hc Hin]]. cbn [fst] in Hc. subst c'.
    now destruct (Hitems c t Hin).
  - destruct (isListType (TypeOf (e_sel e))) eqn:HL.
    + intros k c t Hk. apply nth_error_In in Hk.
      destruct (Hitems c t Hk) as [_ [_ [_ Hl]]]. split; [exact Hl | now apply Henc].
    + split; [now apply Hone|]. intros c t Hin.
      destruct (Hitems c t Hin) as [_ [_ [_ Hl]]]. split; [now left | now apply Henc].
Qed.

(** X21.  An object of scalars.  The children of the node, after the
    dgraph.type children, are leaves that hold the bytes of their values
    and line up with the selections: for a list selection a run of
    list-tagged leaves of the attribute of its alias, for a single
    selection one leaf that is not list-tagged; no selection is skipped,
    is __typename or has a geo type, and neighbouring runs carry different
    attributes.  Then encodeGraphQL returns true, adds no error and appends
    the object that has, per selection and in order, the response name as
    the key and the bytes of the leaf as the value, those of a list
    between brackets with commas between them. *)
Theorem encodeGraphQL_object_of_scalars (fuel : nat) (enc : encoder)
  (fj : fastJsonNode) (out : Buffer.t) (errList errs : list (GqlError F))
  (dgraphTypeAttrId : N) (parentField : Field) (parentPath : list PathElem)
  (dgraphTypes : list string) (entries : list entry) :
  children fj <> [] ->
  entries <> [] ->
  harvestTypes F dgraphTypeAttrId parentPath (children fj) [] errList
  = Ret (flat_map entryNodes entries, dgraphTypes, errs) ->
  Forall (scalarEntryOK enc dgraphTypes) entries ->
  chainOK entries [] ->
  List.length (flat_map entryNodes entries) <= fuel ->
  encodeGraphQL F (S (S fuel)) enc fj out errList dgraphTypeAttrId (map e_sel entries)
    parentField parentPath
  = Ret {| res_ok := true;
           res_out := out ++ "{" ++ joinWith "," (map entryMember entries) ++ "}";
           res_errs := errs |}.
Proof.
  intros Hch Hne Hh Hok Hchain Hfuel.
  pose proof (encodeGraphQL_entries_text (S fuel) enc fj out errList errs
                dgraphTypeAttrId parentField parentPath dgraphTypes entries [] [] Hch Hne)
    as H.
  rewrite !app_nil_r in H. cbn [absentText filter] in H.
  rewrite ?append_nil_r, !append_assoc in H. apply H; try assumption.
  - eapply Forall_impl; [|exact Hok]. intros e. apply scalarEntry_entryOK.
  - now left.
  - reflexivity.
  - lia.
Qed.

(* ================================================================== *)
(** ** Further properties: a failure comes with an error *)
(* ================================================================== *)

(** Every leaf under the node has a value or a read error: no scalar is
    nil. *)
Inductive hasValue : fastJsonNode -> Prop :=
| valueNode (fj : fastJsonNode) :
    (children fj = [] -> getScalarVal fj <> ScalarVal None) ->
    (forall c, In c (children fj) -> hasValue c) ->
    hasValue fj.

Definition addsError {A : Type} (a b : list A) : Prop :=
  exists e es, b = (a ++ e :: es)%list.

Lemma addsError_one {A : Type} (a : list A) (e : A) : addsError a (a ++ [e])%list.
Proof. now exists e, []. Qed.

Lemma grows_addsError {A : Type} (a b c : list A) :
  grows a b -> addsError b c -> addsError a c.
Proof.
  intros [w ->] [e [es ->]]. destruct w as [|x w].
  - exists e, es. now rewrite app_nil_r.
  - exists x, (w ++ e :: es)%list. now rewrite <- app_assoc.
Qed.

Definition recFails (tid : N) (rec : encodeFn F) : Prop :=
  forall c out errList sels parentField path r,
    hasValue c ->
    rec c out errList tid sels parentField path = Ret r ->
    res_ok r = false ->
    addsError errList (res_errs r).

Lemma writeValue_fails (enc : encoder) (rec : encodeFn F) (fj : fastJsonNode)
  (tid : N) (path : list PathElem) (types : list string) (sel : Field)
  (cur : fastJsonNode) (next : list fastJsonNode) (c : nat) (kep : Z) (isL : bool)
  (out : Buffer.t) (errs : list (GqlError F)) (r : result F) :
  recFails tid rec -> hasValue cur ->
  writeValue F enc rec fj tid path types sel cur next c kep isL out errs = Ret (inl r) ->
  addsError errs (res_errs r).
Proof.
  intros Hrec Hcur H. unfold writeValue in H.
  destruct (Name sel =? Typename)%string; [discriminate|].
  destruct (negb (DgraphAlias sel =? attrForID enc (getAttr cur))%string).
  { bind_ret H. destruct a as [w o'].
    destruct (negb w); [|discriminate].
    apply Ret_inj in H. inversion H; subst. apply addsError_one. }
  destruct (isL && getList cur).
  { bind_ret H. destruct (negb (res_ok a)) eqn:Hok; [|discriminate].
    apply negb_true_iff in Hok.
    pose proof (Hrec _ _ _ _ _ _ _ Hcur E Hok) as Hadd.
    destruct (ListType (TypeOf sel)) as [item|]; [|discriminate].
    destruct (Nullable item); [bind_ret H; discriminate|].
    destruct (Nullable (TypeOf sel)).
    - bind_ret H. destruct (skipAttrCur (idForAttr enc (DgraphAlias sel)) cur next).
      discriminate.
    - apply Ret_inj in H. inversion H; subst. exact Hadd. }
  destruct (negb isL && (negb (getList cur) || (getAttr fj =? idForAttr enc "_root_")%N)).
  { bind_ret H. destruct (negb (res_ok a)) eqn:Hok; [|discriminate].
    apply negb_true_iff in Hok.
    pose proof (Hrec _ _ _ _ _ _ _ Hcur E Hok) as Hadd.
    bind_ret H. destruct a0 as [w o']. destruct (negb w); [|discriminate].
    apply Ret_inj in H. inversion H; subst. exact Hadd. }
  destruct (negb isL).
  { bind_ret H. destruct a as [w o']. destruct (negb w); [|discriminate].
    apply Ret_inj in H. inversion H; subst. apply addsError_one. }
  bind_ret H. destruct a as [w o']. destruct (negb w); [|discriminate].
  apply Ret_inj in H. inversion H; subst. apply addsError_one.
Qed.

Lemma mainLoop_fails (enc : encoder) (rec : encodeFn F) (fj : fastJsonNode)
  (tid : N) (sels : list Field) (path : list PathElem) (types : list string)
  (fuel : nat) :
  recFails tid rec -> recGrows rec ->
  forall (st : loopState F) (r : result F),
    (forall c, In c (child st) -> hasValue c) ->
    mainLoop F enc rec fj tid sels path types fuel st = Ret (Return r) ->
    addsError (lerrs st) (res_errs r).
Proof.
  intros Hrec Hgrow. induction fuel as [|fuel IH]; intros st r Hval H; cbn [mainLoop] in H.
  - destruct (child st); [discriminate|].
    destruct (i st <? List.length sels)%nat; discriminate.
  - destruct (child st) as [|cur next] eqn:Hc; [discriminate|].
    destruct (i st <? List.length sels)%nat; [|discriminate].
    bind_ret H. destruct a as [st'|r'].
    + pose proof (loopBody_grows _ _ _ _ _ _ _ _ _ Hgrow E) as Hg. cbn in Hg.
      apply grows_addsError with (b := lerrs st'); [exact Hg|].
      apply IH; [|exact H].
      intros c Hin. apply Hval.
      apply loopBody_cursor in E. rewrite Hc in E. eapply suffix_In; eassumption.
    + apply Ret_inj in H. inversion H; subst. clear H.
      unfold loopBody in E. rewrite Hc in E.
      destruct (nth_error sels (i st)) as [sel|]; [|discriminate].
      destruct (skipField sel types); [discriminate|].
      destruct (startValue F sel (S (cnt st)) st) as [[out1 kep] isL].
      bind_ret E. destruct a as [r0|v]; [|discriminate].
      apply Ret_inj in E. inversion E; subst.
      eapply writeValue_fails; [exact Hrec | | exact E0].
      apply Hval. now left.
Qed.

Lemma tailLoop_fails (path : list PathElem) (types : list string) (rest : list Field) :
  forall (out : Buffer.t) (errList : list (GqlError F)) (r : result F),
    tailLoop F path types rest out errList = Ret r ->
    res_ok r = false ->
    addsError errList (res_errs r).
Proof.
  induction rest as [|sel rest IH]; intros out errList r H Hok; cbn [tailLoop] in H.
  - apply Ret_inj in H; subst r. discriminate.
  - destruct (skipField sel types); [now apply IH in H|].
    destruct (Name sel =? Typename)%string; [now apply IH in H|].
    bind_ret H. destruct a as [w o'].
    destruct (negb w); [|now apply IH in H].
    apply Ret_inj in H; subst r. apply addsError_one.
Qed.

Lemma encodeGraphQL_fails (enc : encoder) (tid : N) (fuel : nat) :
  recFails tid (encodeGraphQL F fuel enc).
Proof.
  induction fuel as [|fuel IH]; intros fj out errList sels pf path r Hval H Hok;
    cbn [encodeGraphQL] in H; [discriminate|].
  destruct Hval as [fj Hleaf Hsub].
  destruct (children fj) as [|c0 cs] eqn:Hch.
  - unfold encodeScalar in H.
    destruct (getScalarVal fj) as [err|[val|]].
    + apply Ret_inj in H; subst r. apply addsError_one.
    + destruct (IsGeo (TypeOf pf)).
      * destruct (json_Unmarshal F val) as [geoVal|]; [|discriminate].
        bind_ret H. destruct a as [b [e|]]; apply Ret_inj in H; subst r;
          [apply addsError_one | discriminate].
      * apply Ret_inj in H; subst r. discriminate.
    + exfalso. now apply Hleaf.
  - destruct (List.length sels =? 0)%nat.
    { apply Ret_inj in H; subst r. apply addsError_one. }
    bind_ret H. destruct a as [[child0 types] errs0].
    pose proof (harvestTypes_child F _ _ _ _ _ _ _ _ E) as Hc0.
    apply harvestTypes_grows in E. bind_ret H.
    assert (Hcur : forall c, In c child0 -> hasValue c).
    { intros c Hin. apply Hsub. subst child0.
      eapply suffix_In; [apply afterTypes_suffix | exact Hin]. }
    destruct a as [st|r'].
    + bind_ret H.
      pose proof (mainLoop_grows _ _ _ _ _ _ _ _ (encodeGraphQL_grows enc fuel) _ _ E0)
        as Hg. cbn [initState lerrs] in Hg.
      destruct (res_ok a) eqn:Ha; apply Ret_inj in H; subst r; [discriminate|].
      apply grows_addsError with (b := errs0); [exact E|].
      apply grows_addsError with (b := lerrs st); [exact Hg|].
      eapply tailLoop_fails; eassumption.
    + apply Ret_inj in H; subst r.
      apply grows_addsError with (b := errs0); [exact E|].
      exact (mainLoop_fails _ _ _ _ _ _ _ _ IH (encodeGraphQL_grows enc fuel)
               (initState F child0 (Buffer.WriteRune out "{") errs0) _ Hcur E0).
Qed.

(** X19.  A failure is never silent on a tree without nil scalars: when
    encodeGraphQL returns false it has added at least one error to the
    list, the one that explains the null its caller writes.  (A nil scalar
    under a single-valued field is the one failure that adds none.) *)
Theorem encodeGraphQL_failure_adds_error (fuel : nat) (enc : encoder)
  (fj : fastJsonNode) (out : Buffer.t) (errList : list (GqlError F))
  (dgraphTypeAttrId : N) (childSelectionSet : list Field) (parentField : Field)
  (parentPath : list PathElem) (r : result F) :
  hasValue fj ->
  encodeGraphQL F fuel enc fj out errList dgraphTypeAttrId childSelectionSet
    parentField parentPath = Ret r ->
  res_ok r = false ->
  exists e errs, res_errs r = (errList ++ e :: errs)%list.
Proof.
  intros Hval H Hok.
  exact (encodeGraphQL_fails enc dgraphTypeAttrId fuel _ _ _ _ _ _ _ Hval H Hok).
Qed.


(* ================================================================== *)
(** ** Further properties: the buffer and the errors as a frame *)
(* ================================================================== *)

Definition mapOutcome {A B : Type} (f : A -> B) (o : outcome A) : outcome B :=
  match o with
  | Ret a => Ret (f a)
  | Abort why => Abort why
  | OutOfFuel => OutOfFuel
  end.

(** The result of a call that started on an empty buffer and an empty
    error list, as it is when the call starts behind [out] and [errs]. *)
Definition shiftResult (out : Buffer.t) (errs : list (GqlError F)) (r : result F)
  : result F :=
  {| res_ok := res_ok r; res_out := out ++ res_out r;
     res_errs := (errs ++ res_errs r)%list |}.

Lemma mapOutcome_bind {A B C : Type} (f : B -> C) (m : outcome A)
  (k : A -> outcome B) :
  mapOutcome f (bind m k) = bind m (fun a => mapOutcome f (k a)).
Proof. destruct m; reflexivity. Qed.

Lemma bind_mapOutcome {A B C : Type} (g : A -> B) (m : outcome A)
  (k : B -> outcome C) :
  bind (mapOutcome g m) k = bind m (fun a => k (g a)).
Proof. destruct m; reflexivity. Qed.

Lemma bind_ext {A B : Type} (m : outcome A) (k k' : A -> outcome B) :
  (forall a, m = Ret a -> k a = k' a) -> bind m k = bind m k'.
Proof. intros H. destruct m; cbn [bind]; auto. Qed.

Lemma writeKey_frame (f : Field) (out b : Buffer.t) :
  writeKeyGraphQL f (out ++ b) = out ++ writeKeyGraphQL f b.
Proof. rewrite !writeKey_text. now rewrite !append_assoc. Qed.

Lemma WriteString_frame (out b s : string) :
  Buffer.WriteString (out ++ b) s = out ++ Buffer.WriteString b s.
Proof. unfold Buffer.WriteString. apply append_assoc. Qed.

Lemma WriteRune_frame (out b : string) (c : ascii) :
  Buffer.WriteRune (out ++ b) c = out ++ Buffer.WriteRune b c.
Proof. unfold Buffer.WriteRune. apply append_assoc. Qed.

Lemma completePoint_fields_frame (out : Buffer.t) (fs : list Field)
  (coordinate : list (value F)) :
  forall (comma : string) (buf : Buffer.t),
    completePoint_fields fs coordinate comma (out ++ buf)
    = mapOutcome (append out) (completePoint_fields fs coordinate comma buf).
Proof.
  induction fs as [|f fs IH]; intros comma buf; cbn [completePoint_fields];
    [reflexivity|].
  rewrite WriteString_frame, writeKey_frame.
  destruct (Name f =? Longitude)%string.
  { destruct (index coordinate 0); cbn [bind mapOutcome]; try reflexivity.
    rewrite WriteString_frame. apply IH. }
  destruct (Name f =? Latitude)%string.
  { destruct (index coordinate 1); cbn [bind mapOutcome]; try reflexivity.
    rewrite WriteString_frame. apply IH. }
  destruct (Name f =? Typename)%string; cbn [bind];
    rewrite ?WriteString_frame; apply IH.
Qed.

Lemma completePoint_frame (out : Buffer.t) (field : Field)
  (coordinate : list (value F)) (buf : Buffer.t) :
  completePoint field coordinate (out ++ buf)
  = mapOutcome (append out) (completePoint field coordinate buf).
Proof.
  unfold completePoint. rewrite WriteRune_frame, completePoint_fields_frame.
  destruct (completePoint_fields _ _ _ _); cbn [bind mapOutcome]; try reflexivity.
  now rewrite WriteRune_frame.
Qed.

Lemma completePolygon_points_frame (out : Buffer.t) (f2 : Field) (r : list (value F)) :
  forall (comma4 : string) (buf : Buffer.t),
    completePolygon_points f2 r comma4 (out ++ buf)
    = mapOutcome (append out) (completePolygon_points f2 r comma4 buf).
Proof.
  induction r as [|point r IH]; intros comma4 buf; cbn [completePolygon_points];
    [reflexivity|].
  rewrite WriteString_frame, completePoint_frame.
  destruct (completePoint _ _ _); cbn [bind mapOutcome]; try reflexivity. apply IH.
Qed.

Lemma completePolygon_ringFields_frame (out : Buffer.t) (fs2 : list Field)
  (ring : value F) :
  forall (comma3 : string) (buf : Buffer.t),
    completePolygon_ringFields fs2 ring comma3 (out ++ buf)
    = mapOutcome (append out) (completePolygon_ringFields fs2 ring comma3 buf).
Proof.
  induction fs2 as [|f2 fs2 IH]; intros comma3 buf; cbn [completePolygon_ringFields];
    [reflexivity|].
  rewrite WriteString_frame, writeKey_frame.
  destruct (Name f2 =? Points)%string.
  { rewrite WriteRune_frame, completePolygon_points_frame.
    destruct (completePolygon_points _ _ _ _); cbn [bind mapOutcome]; try reflexivity.
    rewrite WriteRune_frame. apply IH. }
  destruct (Name f2 =? Typename)%string; cbn [bind];
    rewrite ?WriteString_frame; apply IH.
Qed.

Lemma completePolygon_rings_frame (out : Buffer.t) (f1 : Field)
  (polygon : list (value F)) :
  forall (comma2 : string) (buf : Buffer.t),
    completePolygon_rings f1 polygon comma2 (out ++ buf)
    = mapOutcome (append out) (completePolygon_rings f1 polygon comma2 buf).
Proof.
  induction polygon as [|ring polygon IH]; intros comma2 buf;
    cbn [completePolygon_rings]; [reflexivity|].
  rewrite WriteString_frame, WriteRune_frame, completePolygon_ringFields_frame.
  destruct (completePolygon_ringFields _ _ _ _); cbn [bind mapOutcome];
    try reflexivity.
  rewrite WriteRune_frame. apply IH.
Qed.

Lemma completePolygon_frame (out : Buffer.t) (field : Field)
  (polygon : list (value F)) (buf : Buffer.t) :
  completePolygon field polygon (out ++ buf)
  = mapOutcome (append out) (completePolygon field polygon buf).
Proof.
  assert (Hfs : forall fs1 comma1 b,
             completePolygon_fields fs1 polygon comma1 (out ++ b)
             = mapOutcome (append out) (completePolygon_fields fs1 polygon comma1 b)).
  { induction fs1 as [|f1 fs1 IH]; intros comma1 b; cbn [completePolygon_fields];
      [reflexivity|].
    rewrite WriteString_frame, writeKey_frame.
    destruct (Name f1 =? Coordinates)%string.
    { rewrite WriteRune_frame, completePolygon_rings_frame.
      destruct (completePolygon_rings _ _ _ _); cbn [bind mapOutcome]; try reflexivity.
      rewrite WriteRune_frame. apply IH. }
    destruct (Name f1 =? Typename)%string; cbn [bind];
      rewrite ?WriteString_frame; apply IH. }
  unfold completePolygon. rewrite WriteRune_frame, Hfs.
  destruct (completePolygon_fields _ _ _ _); cbn [bind mapOutcome]; try reflexivity.
  now rewrite WriteRune_frame.
Qed.

Lemma completeMultiPolygon_frame (out : Buffer.t) (field : Field)
  (multiPolygon : list (value F)) (buf : Buffer.t) :
  completeMultiPolygon field multiPolygon (out ++ buf)
  = mapOutcome (append out) (completeMultiPolygon field multiPolygon buf).
Proof.
  assert (Hps : forall f (mp : list (value F)) comma2 b,
             completeMultiPolygon_polygons f mp comma2 (out ++ b)
             = mapOutcome (append out) (completeMultiPolygon_polygons f mp comma2 b)).
  { intros f. induction mp as [|polygon mp IH]; intros comma2 b;
      cbn [completeMultiPolygon_polygons]; [reflexivity|].
    rewrite WriteString_frame, completePolygon_frame.
    destruct (completePolygon _ _ _); cbn [bind mapOutcome]; try reflexivity.
    apply IH. }
  assert (Hfs : forall fs comma1 b,
             completeMultiPolygon_fields fs multiPolygon comma1 (out ++ b)
             = mapOutcome (append out)
                 (completeMultiPolygon_fields fs multiPolygon comma1 b)).
  { induction fs as [|f fs IH]; intros comma1 b; cbn [completeMultiPolygon_fields];
      [reflexivity|].
    rewrite WriteString_frame, writeKey_frame.
    destruct (Name f =? Polygons)%string.
    { rewrite WriteRune_frame, Hps.
      destruct (completeMultiPolygon_polygons _ _ _ _); cbn [bind mapOutcome];
        try reflexivity.
      rewrite WriteRune_frame. apply IH. }
    destruct (Name f =? Typename)%string; cbn [bind];
      rewrite ?WriteString_frame; apply IH. }
  unfold completeMultiPolygon. rewrite WriteRune_frame, Hfs.
  destruct (completeMultiPolygon_fields _ _ _ _); cbn [bind mapOutcome];
    try reflexivity.
  now rewrite WriteRune_frame.
Qed.

Lemma completeGeoObject_frame (out : Buffer.t) (path : list PathElem) (field : Field)
  (val : option (gomap F)) (buf : Buffer.t) :
  completeGeoObject path field val (out ++ buf)
  = mapOutcome (fun be => (out ++ fst be, snd be))
      (completeGeoObject path field val buf).
Proof.
  unfold completeGeoObject.
  destruct (asSlice (mapIndexNil val Coordinates)) as [coordinate|]; [|reflexivity].
  destruct (_ =? Point)%string.
  { rewrite completePoint_frame. now destruct (completePoint _ _ _). }
  destruct (_ =? Polygon)%string.
  { rewrite completePolygon_frame. now destruct (completePolygon _ _ _). }
  destruct (_ =? MultiPolygon)%string.
  { rewrite completeMultiPolygon_frame. now destruct (completeMultiPolygon _ _ _). }
  reflexivity.
Qed.

Lemma encodeScalar_frame (out : Buffer.t) (errs : list (GqlError F))
  (fj : fastJsonNode) (o : Buffer.t) (e : list (GqlError F)) (pf : Field)
  (path : list PathElem) :
  encodeScalar F fj (out ++ o) (errs ++ e)%list pf path
  = mapOutcome (shiftResult out errs) (encodeScalar F fj o e pf path).
Proof.
  unfold encodeScalar, shiftResult.
  destruct (getScalarVal fj) as [err|[val|]]; cbn [mapOutcome res_ok res_out res_errs].
  - now rewrite app_assoc.
  - destruct (IsGeo (TypeOf pf)).
    + destruct (json_Unmarshal F val) as [geoVal|]; [|reflexivity].
      rewrite completeGeoObject_frame.
      destruct (completeGeoObject path pf geoVal o) as [[b [err|]]| |];
        cbn [bind mapOutcome fst snd res_ok res_out res_errs]; try reflexivity.
      now rewrite app_assoc.
    + cbn [mapOutcome res_ok res_out res_errs]. now rewrite WriteString_frame.
  - reflexivity.
Qed.

Lemma take_frame (out o : string) (k : Z) :
  (0 <= k)%Z ->
  take (Z.to_nat (Buffer.Len out + k)) (out ++ o) = out ++ take (Z.to_nat k) o.
Proof.
  intros Hk. unfold Buffer.Len.
  rewrite take_app_ge by lia. f_equal. f_equal. lia.
Qed.

Lemma writeGraphQLNull_frame (out : Buffer.t) (f : Field) (o : Buffer.t) (k : Z) :
  (0 <= k <= Buffer.Len o)%Z ->
  writeGraphQLNull f (out ++ o) (Buffer.Len out + k)
  = mapOutcome (fun wo => (fst wo, out ++ snd wo)) (writeGraphQLNull f o k).
Proof.
  intros Hk. pose proof (Len_nonneg out).
  rewrite !writeGraphQLNull_eq by (rewrite ?Len_app; lia).
  rewrite take_frame by lia. cbn [mapOutcome].
  destruct (isListType (TypeOf f)); [|destruct (Nullable (TypeOf f))];
    cbn [fst snd]; now rewrite ?append_assoc.
Qed.

Lemma checkAndStripComma_frame (out o : string) :
  o <> EmptyString -> checkAndStripComma (out ++ o) = out ++ checkAndStripComma o.
Proof.
  intros Ho. destruct (snoc_cases o) as [->|[w [c ->]]]; [congruence|].
  replace (out ++ w ++ String c EmptyString) with ((out ++ w) ++ String c EmptyString)
    by apply append_assoc.
  unfold checkAndStripComma. rewrite !lastByte_app_char.
  destruct (c =? ",")%char; [|apply append_assoc].
  now rewrite !take_drop_last.
Qed.

(** The recursive call does the same behind any buffer and error list. *)
Definition recFrame (rec : encodeFn F) : Prop :=
  forall c out errs tid sels pf path,
    rec c out errs tid sels pf path
    = mapOutcome (shiftResult out errs) (rec c EmptyString [] tid sels pf path).

Lemma recFrame_shift (rec : encodeFn F) (out o : Buffer.t)
  (errs e : list (GqlError F)) c tid sels pf path :
  recFrame rec ->
  rec c (out ++ o) (errs ++ e)%list tid sels pf path
  = mapOutcome (shiftResult out errs) (rec c o e tid sels pf path).
Proof.
  intros H. rewrite (H c (out ++ o)), (H c o).
  destruct (rec c EmptyString [] tid sels pf path); cbn [mapOutcome]; try reflexivity.
  unfold shiftResult. cbn [res_ok res_out res_errs].
  now rewrite append_assoc, app_assoc.
Qed.

Definition shiftValue (out : Buffer.t) (errs : list (GqlError F)) (v : valueStep F)
  : valueStep F :=
  {| v_out := out ++ v_out v; v_errs := (errs ++ v_errs v)%list;
     v_nullWritten := v_nullWritten v; v_child := v_child v;
     v_cur := v_cur v; v_next := v_next v |}.

Definition shiftSum (out : Buffer.t) (errs : list (GqlError F))
  (x : result F + valueStep F) : result F + valueStep F :=
  match x with
  | inl r => inl (shiftResult out errs r)
  | inr v => inr (shiftValue out errs v)
  end.

Lemma Truncate_frame (out o : Buffer.t) (k : Z) :
  (0 <= k <= Buffer.Len o)%Z ->
  Buffer.Truncate (out ++ o) (Buffer.Len out + k)
  = mapOutcome (append out) (Buffer.Truncate o k).
Proof.
  intros Hk. pose proof (Len_nonneg out).
  rewrite !Truncate_ok by (rewrite ?Len_app; lia).
  cbn [mapOutcome]. now rewrite take_frame by lia.
Qed.

Lemma writeValue_frame (out : Buffer.t) (errs : list (GqlError F)) (enc : encoder)
  (rec : encodeFn F) (fj : fastJsonNode) (tid : N) (path : list PathElem)
  (types : list string) (sel : Field) (cur : fastJsonNode)
  (next : list fastJsonNode) (c : nat) (k : Z) (isL : bool) (o : Buffer.t)
  (e : list (GqlError F)) :
  recFrame rec -> recExtends F rec ->
  (0 <= k <= Buffer.Len o)%Z ->
  writeValue F enc rec fj tid path types sel cur next c (Buffer.Len out + k) isL
    (out ++ o) (errs ++ e)%list
  = mapOutcome (shiftSum out errs)
      (writeValue F enc rec fj tid path types sel cur next c k isL o e).
Proof.
  intros Hrec Hext Hk. unfold writeValue.
  assert (Hnull : forall o' (kont : bool * Buffer.t -> outcome (result F + valueStep F))
                         kont0,
            (Buffer.Len o <= Buffer.Len o')%Z ->
            (forall w b, kont (w, out ++ b) = mapOutcome (shiftSum out errs) (kont0 (w, b))) ->
            bind (writeGraphQLNull sel (out ++ o') (Buffer.Len out + k)) kont
            = mapOutcome (shiftSum out errs) (bind (writeGraphQLNull sel o' k) kont0)).
  { intros o' kont kont0 Hlen Hkont.
    rewrite writeGraphQLNull_frame by lia.
    rewrite writeGraphQLNull_eq by lia.
    destruct (isListType (TypeOf sel)); [|destruct (Nullable (TypeOf sel))];
      cbn [mapOutcome bind fst snd]; apply Hkont. }
  destruct (Name sel =? Typename)%string.
  { cbn [mapOutcome shiftSum]. unfold shiftValue. cbn [v_out v_errs v_nullWritten
      v_child v_cur v_next]. now rewrite WriteString_frame. }
  destruct (negb (DgraphAlias sel =? attrForID enc (getAttr cur))%string).
  { apply (Hnull o); [lia|]. intros w b.
    destruct (negb w); cbn [mapOutcome shiftSum]; unfold shiftResult, shiftValue;
      cbn [res_ok res_out res_errs v_out v_errs v_nullWritten v_child v_cur v_next];
      now rewrite ?app_assoc. }
  destruct (isL && getList cur).
  { replace (Buffer.Len (out ++ o)) with (Buffer.Len out + Buffer.Len o)%Z
      by (now rewrite Len_app).
    rewrite recFrame_shift by exact Hrec.
    rewrite bind_mapOutcome, mapOutcome_bind. apply bind_ext. intros r Hr.
    pose proof (extends_Len _ _ (Hext _ _ _ _ _ _ _ _ Hr)) as HextL.
    cbn [shiftResult res_ok res_out res_errs].
    destruct (negb (res_ok r)); [|reflexivity].
    destruct (ListType (TypeOf sel)) as [item|]; [|reflexivity].
    destruct (Nullable item).
    - rewrite Truncate_frame by (pose proof (Len_nonneg o); lia).
      rewrite bind_mapOutcome, mapOutcome_bind. apply bind_ext. intros b _.
      cbn [mapOutcome shiftSum]. unfold shiftValue.
      cbn [v_out v_errs v_nullWritten v_child v_cur v_next].
      now rewrite WriteString_frame.
    - destruct (Nullable (TypeOf sel)); [|reflexivity].
      rewrite Truncate_frame by lia.
      rewrite bind_mapOutcome, mapOutcome_bind. apply bind_ext. intros b _.
      destruct (skipAttrCur (idForAttr enc (DgraphAlias sel)) cur next).
      cbn [mapOutcome shiftSum]. unfold shiftValue.
      cbn [v_out v_errs v_nullWritten v_child v_cur v_next].
      now rewrite WriteString_frame. }
  destruct (negb isL && (negb (getList cur) || (getAttr fj =? idForAttr enc "_root_")%N)).
  { rewrite recFrame_shift by exact Hrec.
    rewrite bind_mapOutcome, mapOutcome_bind. apply bind_ext. intros r Hr.
    pose proof (extends_Len _ _ (Hext _ _ _ _ _ _ _ _ Hr)) as HextL.
    cbn [shiftResult res_ok res_out res_errs].
    destruct (negb (res_ok r)); [|reflexivity].
    apply (Hnull (res_out r)); [lia|]. intros w b.
    destruct (negb w); reflexivity. }
  destruct (negb isL).
  { apply (Hnull o); [lia|]. intros w b.
    destruct (negb w); cbn [mapOutcome shiftSum]; unfold shiftResult, shiftValue;
      cbn [res_ok res_out res_errs v_out v_errs v_nullWritten v_child v_cur v_next];
      now rewrite ?app_assoc. }
  apply (Hnull o); [lia|]. intros w b.
  destruct (negb w); cbn [mapOutcome shiftSum]; unfold shiftResult, shiftValue;
    cbn [res_ok res_out res_errs v_out v_errs v_nullWritten v_child v_cur v_next];
    now rewrite ?app_assoc.
Qed.

(** The state of a run behind [out] and [errs] against the state of the
    run on the empty buffer and error list. *)
Definition framed (out : Buffer.t) (errs : list (GqlError F)) (st st0 : loopState F)
  : Prop :=
  child st = child st0 /\ cnt st = cnt st0 /\ i st = i st0
  /\ curSelectionIsList st = curSelectionIsList st0
  /\ lout st = out ++ lout st0
  /\ lerrs st = (errs ++ lerrs st0)%list
  /\ (cnt st0 <> 0 -> keyEndPos st = (Buffer.Len out + keyEndPos st0)%Z).

Definition framedStep (out : Buffer.t) (errs : list (GqlError F))
  (o o0 : outcome (loopStep F)) : Prop :=
  match o0 with
  | Ret (Continue st0) => exists st, o = Ret (Continue st) /\ framed out errs st st0
  | Ret (Return r0) => o = Ret (Return (shiftResult out errs r0))
  | Abort why => o = Abort why
  | OutOfFuel => o = OutOfFuel
  end.

Lemma extends_nonempty (base o : string) (c : ascii) :
  lastByte base = Some c -> extends base o -> o <> EmptyString.
Proof.
  intros Hb [w ->] E. destruct base; [discriminate | discriminate E].
Qed.

Lemma loopBody_frame (out : Buffer.t) (errs : list (GqlError F)) (enc : encoder)
  (rec : encodeFn F) (fj : fastJsonNode) (tid : N) (sels : list Field)
  (path : list PathElem) (types : list string) (base : string)
  (st st0 : loopState F) :
  recFrame rec -> recExtends F rec ->
  lastByte base = Some "{"%char ->
  loopInv F base sels st0 ->
  framed out errs st st0 ->
  framedStep out errs (loopBody F enc rec fj tid sels path types st)
    (loopBody F enc rec fj tid sels path types st0).
Proof.
  intros Hrec Hext Hlast Hinv [Hc [Hcnt [Hi [HL [Ho [He Hk]]]]]].
  unfold loopBody. rewrite Hc, Hi.
  destruct (child st0) as [|cur next]; [reflexivity|].
  destruct (nth_error sels (i st0)) as [sel|] eqn:Hn; [|reflexivity].
  destruct (skipField sel types).
  { cbn [framedStep]. eexists. split; [reflexivity|].
    unfold framed. cbn [child cnt i curSelectionIsList lout lerrs keyEndPos].
    rewrite ?Hc. repeat split; try assumption; try reflexivity.
    - rewrite Ho. destruct (S (i st0) =? List.length sels)%nat; [|reflexivity].
      apply checkAndStripComma_frame.
      destruct Hinv as [Hex _]. exact (extends_nonempty _ _ _ Hlast Hex).
    - intros H. congruence. }
  destruct (startValue F sel (S (cnt st0)) st0) as [[o1 k0] isL] eqn:Hs.
  destruct (startValue_extends F _ _ _ _ _ _ _ Hinv Hn Hs) as [He1 [Hk0 HisL]].
  assert (Hs' : startValue F sel (S (cnt st)) st
                = (out ++ o1, (Buffer.Len out + k0)%Z, isL)).
  { unfold startValue in *. rewrite Hcnt.
    destruct (cnt st0) as [|c0] eqn:Hc0; cbn [Nat.eqb] in *.
    - inversion Hs; subst. rewrite Ho, writeKey_frame, Len_app.
      destruct (isListType (TypeOf sel)); now rewrite ?WriteRune_frame.
    - inversion Hs; subst. rewrite Ho, HL, Hk by congruence. reflexivity. }
  rewrite Hs', Hcnt, He.
  pose proof (Len_nonneg base) as Hb0.
  rewrite writeValue_frame by (auto; lia).
  destruct (writeValue F enc rec fj tid path types sel cur next (S (cnt st0)) k0 isL
              o1 (lerrs st0)) as [[r|v]| |]; cbn [mapOutcome bind shiftSum framedStep];
    try reflexivity.
  eexists. split; [reflexivity|].
  rewrite !closeValue_eq. unfold framed, shiftValue.
  cbn [child cnt i curSelectionIsList lout lerrs keyEndPos v_out v_errs
       v_nullWritten v_child v_cur v_next].
  repeat split; try reflexivity. now rewrite !append_assoc.
Qed.

Lemma mainLoop_frame (out : Buffer.t) (errs : list (GqlError F)) (enc : encoder)
  (rec : encodeFn F) (fj : fastJsonNode) (tid : N) (sels : list Field)
  (path : list PathElem) (types : list string) (base : string) (fuel : nat) :
  recFrame rec -> recExtends F rec ->
  lastByte base = Some "{"%char ->
  forall st st0 : loopState F,
    loopInv F base sels st0 ->
    framed out errs st st0 ->
    framedStep out errs (mainLoop F enc rec fj tid sels path types fuel st)
      (mainLoop F enc rec fj tid sels path types fuel st0).
Proof.
  intros Hrec Hext Hlast. induction fuel as [|fuel IH]; intros st st0 Hinv Hfr;
    cbn [mainLoop]; pose proof Hfr as [Hc [_ [Hi _]]]; rewrite Hc, Hi.
  - destruct (child st0); [now exists st|].
    destruct (i st0 <? List.length sels)%nat; [reflexivity | now exists st].
  - destruct (child st0) eqn:Hc0; [now exists st|].
    destruct (i st0 <? List.length sels)%nat; [|now exists st].
    pose proof (loopBody_frame out errs enc rec fj tid sels path types base st st0
                  Hrec Hext Hlast Hinv Hfr) as Hb.
    destruct (loopBody F enc rec fj tid sels path types st0) as [[st0'|r0]| |] eqn:E0;
      cbn [framedStep] in Hb.
    + destruct Hb as [st' [-> Hfr']]. cbn [bind].
      apply IH; [|exact Hfr'].
      exact (loopBody_inv F _ _ _ _ _ _ _ _ _ _ Hext Hlast Hinv E0).
    + rewrite Hb. reflexivity.
    + rewrite Hb. reflexivity.
    + rewrite Hb. reflexivity.
Qed.

Lemma tailLoop_frame (out : Buffer.t) (errs : list (GqlError F))
  (path : list PathElem) (types : list string) (base : string) (rest : list Field) :
  lastByte base = Some "{"%char ->
  forall (o : Buffer.t) (e : list (GqlError F)),
    extends base o ->
    tailLoop F path types rest (out ++ o) (errs ++ e)%list
    = mapOutcome (shiftResult out errs) (tailLoop F path types rest o e).
Proof.
  intros Hlast. induction rest as [|sel rest IH]; intros o e Hex; cbn [tailLoop].
  - reflexivity.
  - destruct (skipField sel types).
    { destruct rest as [|s2 rest]; [|now apply IH].
      rewrite checkAndStripComma_frame by exact (extends_nonempty _ _ _ Hlast Hex).
      reflexivity. }
    rewrite writeKey_frame.
    assert (Hw : extends base (writeKeyGraphQL sel o))
      by (rewrite writeKey_text; now apply extends_app_r).
    destruct (Name sel =? Typename)%string.
    { rewrite WriteString_frame.
      destruct rest as [|s2 rest]; rewrite ?WriteRune_frame; apply IH;
        unfold Buffer.WriteString, Buffer.WriteRune; first [exact Hw | apply extends_app_r; first [exact Hw | apply extends_app_r; exact Hw]]. }
    rewrite Len_app.
    rewrite writeGraphQLNull_frame
      by (pose proof (Len_nonneg (writeKeyGraphQL sel o)); lia).
    rewrite writeGraphQLNull_eq
      by (pose proof (Len_nonneg (writeKeyGraphQL sel o)); lia).
    assert (Htake : take (Z.to_nat (Buffer.Len (writeKeyGraphQL sel o)))
                      (writeKeyGraphQL sel o) = writeKeyGraphQL sel o)
      by (unfold Buffer.Len; rewrite Nat2Z.id; apply take_length).
    rewrite !Htake.
    destruct (isListType (TypeOf sel)); [|destruct (Nullable (TypeOf sel))];
      cbn [mapOutcome bind fst snd negb].
    + destruct rest as [|s2 rest]; rewrite ?WriteRune_frame; apply IH;
        unfold Buffer.WriteRune; first [exact Hw | apply extends_app_r; first [exact Hw | apply extends_app_r; exact Hw]].
    + destruct rest as [|s2 rest]; rewrite ?WriteRune_frame; apply IH;
        unfold Buffer.WriteRune; first [exact Hw | apply extends_app_r; first [exact Hw | apply extends_app_r; exact Hw]].
    + unfold shiftResult. cbn [res_ok res_out res_errs]. now rewrite app_assoc.
Qed.

Lemma harvestTypes_frame (errs : list (GqlError F)) (tid : N) (path : list PathElem)
  (cs : list fastJsonNode) :
  forall (types : list string) (e : list (GqlError F)),
    harvestTypes F tid path cs types (errs ++ e)%list
    = mapOutcome (fun h => (fst (fst h), snd (fst h), (errs ++ snd h)%list))
        (harvestTypes F tid path cs types e).
Proof.
  induction cs as [|c cs IH]; intros types e; cbn [harvestTypes]; [reflexivity|].
  destruct (getAttr c =? tid)%N; [|reflexivity].
  destruct (getScalarVal c) as [err|val].
  - rewrite <- app_assoc. apply IH.
  - destruct (String.length _ <? 2)%nat; [reflexivity | apply IH].
Qed.

Lemma encodeGraphQL_recFrame (enc : encoder) (fuel : nat) :
  recFrame (encodeGraphQL F fuel enc).
Proof.
  induction fuel as [|fuel IH]; intros fj out errs tid sels pf path;
    cbn [encodeGraphQL]; [reflexivity|].
  destruct (children fj) as [|c0 cs] eqn:Hch.
  - rewrite <- (append_nil_r out) at 1. rewrite <- (app_nil_r errs) at 1.
    apply encodeScalar_frame.
  - destruct (List.length sels =? 0)%nat.
    { cbn [mapOutcome]. unfold shiftResult. cbn [res_ok res_out res_errs app].
      now rewrite append_nil_r. }
    rewrite <- (app_nil_r errs) at 1. rewrite harvestTypes_frame.
    rewrite bind_mapOutcome, mapOutcome_bind. apply bind_ext.
    intros [[child0 types] e0] Hh. cbn [fst snd].
    assert (Hlast : lastByte (Buffer.WriteRune EmptyString "{") = Some "{"%char)
      by reflexivity.
    pose proof (mainLoop_frame out errs enc (encodeGraphQL F fuel enc) fj tid sels
                  path types (Buffer.WriteRune EmptyString "{") fuel IH
                  (encodeGraphQL_extends F enc fuel) Hlast
                  (initState F child0 (Buffer.WriteRune out "{") (errs ++ e0)%list)
                  (initState F child0 (Buffer.WriteRune EmptyString "{") e0)
                  (initState_inv F _ sels child0 e0)) as Hm.
    assert (Hfr : framed out errs
                    (initState F child0 (Buffer.WriteRune out "{") (errs ++ e0)%list)
                    (initState F child0 (Buffer.WriteRune EmptyString "{") e0)).
    { unfold framed, initState.
      cbn [child cnt i curSelectionIsList lout lerrs keyEndPos].
      repeat split; try reflexivity. intros H. congruence. }
    specialize (Hm Hfr).
    destruct (mainLoop F enc (encodeGraphQL F fuel enc) fj tid sels path types fuel
                (initState F child0 (Buffer.WriteRune EmptyString "{") e0))
      as [[st0|r0]| |] eqn:E0; cbn [framedStep] in Hm.
    + destruct Hm as [st [-> [Hc [Hcnt [Hi [HL [Ho [He Hk]]]]]]]]. cbn [bind].
      pose proof (mainLoop_inv F _ _ _ _ _ _ _ _ _ (encodeGraphQL_extends F enc fuel)
                    Hlast _ _ (initState_inv F _ sels child0 e0) E0) as [Hex _].
      rewrite Hi, Ho, He.
      rewrite (tailLoop_frame out errs path types _ _ Hlast _ _ Hex).
      destruct (tailLoop F path types (skipn (i st0) sels) (lout st0) (lerrs st0))
        as [r| |]; cbn [mapOutcome bind]; try reflexivity.
      unfold shiftResult. cbn [res_ok res_out res_errs].
      destruct (res_ok r) eqn:Hr; cbn [mapOutcome res_ok res_out res_errs];
        rewrite ?WriteRune_frame, ?Hr; reflexivity.
    + rewrite Hm. reflexivity.
    + rewrite Hm. reflexivity.
    + rewrite Hm. reflexivity.
Qed.

(** X20.  The buffer and the error list are a frame for encodeGraphQL: a
    call behind any buffer and any error list does what the call on the
    empty buffer and the empty error list does, returns what it returns,
    and leaves the buffer followed by the bytes and the error list followed
    by the errors of that call.  What is appended, the return value and a
    panic depend on the node and the selection set alone. *)
Theorem encodeGraphQL_frame (fuel : nat) (enc : encoder) (fj : fastJsonNode)
  (out : Buffer.t) (errList : list (GqlError F)) (dgraphTypeAttrId : N)
  (childSelectionSet : list Field) (parentField : Field)
  (parentPath : list PathElem) :
  encodeGraphQL F fuel enc fj out errList dgraphTypeAttrId childSelectionSet
    parentField parentPath
  = match encodeGraphQL F fuel enc fj EmptyString [] dgraphTypeAttrId
            childSelectionSet parentField parentPath with
    | Ret r => Ret {| res_ok := res_ok r; res_out := out ++ res_out r;
                      res_errs := (errList ++ res_errs r)%list |}
    | Abort why => Abort why
    | OutOfFuel => OutOfFuel
    end.
Proof. apply (encodeGraphQL_recFrame enc fuel). Qed.

(* ================================================================== *)
(** ** Further properties: where the errors are located *)
(* ================================================================== *)

(** An error located at [path] or below it. *)
Definition below (path : list PathElem) (e : GqlError F) : Prop :=
  exists rest, ErrPath F e = (path ++ rest)%list.

Lemma below_here (path : list PathElem) (e : GqlError F) :
  ErrPath F e = path -> below path e.
Proof. intros H. exists []. now rewrite app_nil_r. Qed.

Lemma below_deeper (path more : list PathElem) (e : GqlError F) :
  below (path ++ more)%list e -> below path e.
Proof. intros [rest H]. exists (more ++ rest)%list. now rewrite app_assoc. Qed.

Lemma Forall_snoc {A : Type} (P : A -> Prop) (l : list A) (a : A) :
  Forall P l -> P a -> Forall P (l ++ [a])%list.
Proof. intros Hl Ha. apply Forall_app. split; [exact Hl | now constructor]. Qed.

Definition recBelow (rec : encodeFn F) : Prop :=
  forall c out errs tid sels pf path r,
    rec c out errs tid sels pf path = Ret r ->
    forall path0 more, path = (path0 ++ more)%list ->
    Forall (below path0) errs -> Forall (below path0) (res_errs r).

Lemma writeValue_below (enc : encoder) (rec : encodeFn F) (fj : fastJsonNode)
  (tid : N) (path : list PathElem) (types : list string) (sel : Field)
  (cur : fastJsonNode) (next : list fastJsonNode) (c : nat) (kep : Z) (isL : bool)
  (out : Buffer.t) (errs : list (GqlError F)) (x : result F + valueStep F) :
  recBelow rec ->
  Forall (below path) errs ->
  writeValue F enc rec fj tid path types sel cur next c kep isL out errs = Ret x ->
  Forall (below path) match x with inl r => res_errs r | inr v => v_errs v end.
Proof.
  intros Hrec He H. unfold writeValue in H.
  assert (Hsel : forall fmt args,
            below path (GqlErrorf sel (path ++ [PathName (ResponseName sel)])%list
                          fmt args))
    by (intros fmt args; now exists [PathName (ResponseName sel)]).
  destruct (Name sel =? Typename)%string.
  { apply Ret_inj in H; subst x. exact He. }
  destruct (negb (DgraphAlias sel =? attrForID enc (getAttr cur))%string).
  { bind_ret H. destruct a as [w o'].
    destruct (negb w); apply Ret_inj in H; subst x; cbn [res_errs v_errs];
      [apply Forall_snoc; [exact He | apply Hsel] | exact He]. }
  destruct (isL && getList cur).
  { bind_ret H.
    pose proof (Hrec _ _ _ _ _ _ _ _ E path
                  ([PathName (ResponseName sel)] ++ [PathIndex (Z.of_nat c - 1)])%list
                  ltac:(now rewrite app_assoc) He) as Hr.
    destruct (negb (res_ok a)).
    - destruct (ListType (TypeOf sel)) as [item|]; [|discriminate].
      destruct (Nullable item).
      + bind_ret H. apply Ret_inj in H; subst x. exact Hr.
      + destruct (Nullable (TypeOf sel)).
        * bind_ret H.
          destruct (skipAttrCur (idForAttr enc (DgraphAlias sel)) cur next).
          apply Ret_inj in H; subst x. exact Hr.
        * apply Ret_inj in H; subst x. exact Hr.
    - apply Ret_inj in H; subst x. exact Hr. }
  destruct (negb isL && (negb (getList cur) || (getAttr fj =? idForAttr enc "_root_")%N)).
  { bind_ret H.
    pose proof (Hrec _ _ _ _ _ _ _ _ E path [PathName (ResponseName sel)] eq_refl He)
      as Hr.
    destruct (negb (res_ok a)).
    - bind_ret H. destruct a0 as [w o'].
      destruct (negb w); apply Ret_inj in H; subst x; exact Hr.
    - apply Ret_inj in H; subst x. exact Hr. }
  destruct (negb isL).
  { bind_ret H. destruct a as [w o'].
    destruct (negb w); apply Ret_inj in H; subst x; cbn [res_errs v_errs];
      (apply Forall_snoc; [exact He | apply Hsel]). }
  bind_ret H. destruct a as [w o'].
  destruct (negb w); apply Ret_inj in H; subst x; cbn [res_errs v_errs];
    (apply Forall_snoc; [exact He | apply Hsel]).
Qed.

Lemma mainLoop_below (enc : encoder) (rec : encodeFn F) (fj : fastJsonNode)
  (tid : N) (sels : list Field) (path : list PathElem) (types : list string)
  (fuel : nat) :
  recBelow rec ->
  forall (st : loopState F) (s : loopStep F),
    Forall (below path) (lerrs st) ->
    mainLoop F enc rec fj tid sels path types fuel st = Ret s ->
    Forall (below path) match s with Continue st' => lerrs st' | Return r => res_errs r end.
Proof.
  intros Hrec. induction fuel as [|fuel IH]; intros st s He H; cbn [mainLoop] in H.
  - destruct (child st); [|destruct (i st <? List.length sels)%nat; [discriminate|]];
      apply Ret_inj in H; subst s; exact He.
  - destruct (child st) as [|cur next]; [apply Ret_inj in H; subst s; exact He|].
    destruct (i st <? List.length sels)%nat;
      [|apply Ret_inj in H; subst s; exact He].
    bind_ret H.
    assert (Hb : Forall (below path)
                   match a with Continue st' => lerrs st' | Return r => res_errs r end).
    { unfold loopBody in E.
      destruct (child st) as [|cur' next']; [discriminate|].
      destruct (nth_error sels (i st)) as [sel|]; [|discriminate].
      destruct (skipField sel types).
      { apply Ret_inj in E; subst a. exact He. }
      destruct (startValue F sel (S (cnt st)) st) as [[out1 kep] isL].
      bind_ret E.
      apply (writeValue_below _ _ _ _ _ _ _ _ _ _ _ _ _ _ _ Hrec He) in E0.
      destruct a0 as [r|v]; apply Ret_inj in E; subst a; exact E0. }
    destruct a as [st'|r].
    + exact (IH _ _ Hb H).
    + apply Ret_inj in H; subst s. exact Hb.
Qed.

Lemma tailLoop_below (path : list PathElem) (types : list string) (rest : list Field) :
  forall (out : Buffer.t) (errList : list (GqlError F)) (r : result F),
    Forall (below path) errList ->
    tailLoop F path types rest out errList = Ret r ->
    Forall (below path) (res_errs r).
Proof.
  induction rest as [|sel rest IH]; intros out errList r He H; cbn [tailLoop] in H.
  - apply Ret_inj in H; subst r. exact He.
  - destruct (skipField sel types); [exact (IH _ _ _ He H)|].
    destruct (Name sel =? Typename)%string; [exact (IH _ _ _ He H)|].
    bind_ret H. destruct a as [w o'].
    destruct (negb w); [|exact (IH _ _ _ He H)].
    apply Ret_inj in H; subst r. cbn [res_errs].
    apply Forall_snoc; [exact He|]. now exists [PathName (ResponseName sel)].
Qed.

Lemma harvestTypes_below (tid : N) (path : list PathElem) (cs : list fastJsonNode) :
  forall (types : list string) (errList : list (GqlError F))
         (child0 : list fastJsonNode) (types' : list string) (errs' : list (GqlError F)),
    Forall (below path) errList ->
    harvestTypes F tid path cs types errList = Ret (child0, types', errs') ->
    Forall (below path) errs'.
Proof.
  induction cs as [|c rest IH]; intros types errList child0 types' errs' He H;
    cbn [harvestTypes] in H.
  - apply Ret_inj in H. inversion H; subst. exact He.
  - destruct (getAttr c =? tid)%N.
    + destruct (getScalarVal c) as [err|val].
      * eapply IH; [|exact H]. apply Forall_snoc; [exact He | now apply below_here].
      * destruct (String.length _ <? 2)%nat; [discriminate|]. exact (IH _ _ _ _ _ He H).
    + apply Ret_inj in H. inversion H; subst. exact He.
Qed.

Lemma Forall_below_deeper (path more : list PathElem) (l : list (GqlError F)) :
  Forall (below (path ++ more)%list) l -> Forall (below path) l.
Proof. apply Forall_impl. intros e. apply below_deeper. Qed.

Lemma encodeGraphQL_below_empty (enc : encoder) (fuel : nat) :
  forall fj tid sels pf path r,
    encodeGraphQL F fuel enc fj EmptyString [] tid sels pf path = Ret r ->
    Forall (below path) (res_errs r).
Proof.
  induction fuel as [|fuel IH]; intros fj tid sels pf path r H;
    cbn [encodeGraphQL] in H; [discriminate|].
  assert (Hrec : recBelow (encodeGraphQL F fuel enc)).
  { intros c out errs tid' sels' pf' path' r' Hr path0 more Hp He.
    rewrite (encodeGraphQL_recFrame enc fuel) in Hr.
    destruct (encodeGraphQL F fuel enc c EmptyString [] tid' sels' pf' path')
      as [r0| |] eqn:E0; cbn [mapOutcome] in Hr; try discriminate.
    apply Ret_inj in Hr; subst r'. cbn [shiftResult res_errs].
    apply Forall_app. split; [exact He|].
    apply IH in E0. subst path'. now apply Forall_below_deeper in E0. }
  destruct (children fj) as [|c0 cs].
  - unfold encodeScalar in H.
    destruct (getScalarVal fj) as [err|[val|]].
    + apply Ret_inj in H; subst r. cbn. constructor; [now apply below_here | constructor].
    + destruct (IsGeo (TypeOf pf)).
      * destruct (json_Unmarshal F val) as [geoVal|]; [|discriminate].
        bind_ret H. destruct a as [b [e|]]; apply Ret_inj in H; subst r;
          cbn [res_errs app]; [|constructor].
        constructor; [|constructor]. apply below_here.
        unfold completeGeoObject in E.
        destruct (asSlice (mapIndexNil geoVal Coordinates));
          [|apply Ret_inj in E; inversion E; reflexivity].
        destruct (_ =? Point)%string; [bind_ret E; discriminate|].
        destruct (_ =? Polygon)%string; [bind_ret E; discriminate|].
        destruct (_ =? MultiPolygon)%string; [bind_ret E; discriminate|].
        apply Ret_inj in E; inversion E; reflexivity.
      * apply Ret_inj in H; subst r. constructor.
    + apply Ret_inj in H; subst r. constructor.
  - destruct (List.length sels =? 0)%nat.
    { apply Ret_inj in H; subst r. cbn. constructor; [now apply below_here | constructor]. }
    bind_ret H. destruct a as [[child0 types] errs0].
    apply (harvestTypes_below _ _ _ _ _ _ _ _ (Forall_nil _)) in E.
    bind_ret H.
    pose proof (mainLoop_below _ _ _ _ _ _ _ _ Hrec
                  (initState F child0 (Buffer.WriteRune EmptyString "{") errs0) _ E E0)
      as Hm.
    clear E0. rename Hm into E0.
    destruct a as [st|r'].
    + bind_ret H. apply (tailLoop_below _ _ _ _ _ _ E0) in E1.
      destruct (res_ok a); apply Ret_inj in H; subst r; exact E1.
    + apply Ret_inj in H; subst r. exact E0.
Qed.

(** X4.  encodeGraphQL only appends to the error list, and what it
    appends is located where it works: the errors that were on the list
    before the call are still there afterwards, in front and in their
    order, whether the call returns true or false, and every error behind
    them has a path that starts with the path of the call. *)
Theorem encodeGraphQL_errors_below_path (fuel : nat) (enc : encoder)
  (fj : fastJsonNode) (out : Buffer.t) (errList : list (GqlError F))
  (dgraphTypeAttrId : N) (childSelectionSet : list Field) (parentField : Field)
  (parentPath : list PathElem) (r : result F) :
  encodeGraphQL F fuel enc fj out errList dgraphTypeAttrId childSelectionSet
    parentField parentPath = Ret r ->
  exists errs,
    res_errs r = (errList ++ errs)%list
    /\ Forall (fun e => exists rest, ErrPath F e = (parentPath ++ rest)%list) errs.
Proof.
  intros H. rewrite (encodeGraphQL_recFrame enc fuel) in H.
  destruct (encodeGraphQL F fuel enc fj EmptyString [] dgraphTypeAttrId
              childSelectionSet parentField parentPath) as [r0| |] eqn:E0;
    cbn [mapOutcome] in H; try discriminate.
  apply Ret_inj in H; subst r. exists (res_errs r0).
  split; [reflexivity|]. exact (encodeGraphQL_below_empty enc fuel _ _ _ _ _ _ E0).
Qed.

End Further.

(* ================================================================== *)
(** ** The further properties at sample inputs *)
(* ================================================================== *)

(** A field that carries a skip directive that holds. *)
Definition skippedField (name : string) (t : Type_) : Field :=
  mkField name name name t [] true true (fun _ => true) (fun _ => "Person").

Definition lonLat : list Field :=
  [plainField "longitude" tInt []; plainField "latitude" tInt []].

Definition pointText : string :=
  "{" ++ quoted "type" ++ ":" ++ quoted "Point" ++ ","
  ++ quoted "coordinates" ++ ":[12.5,55.1]}".

Lemma pointValue_shape : geoShapeOK literalFloat (plainField "loc" tPoint lonLat) pointValue.
Proof.
  split; [|split; intros H; discriminate H].
  intros _. split.
  - repeat (apply Forall_cons; [split; [reflexivity | cbn; tauto]|]). apply Forall_nil.
  - split; [cbn; lia|]. repeat (apply Forall_cons; [reflexivity|]). apply Forall_nil.
Qed.

Lemma completeGeoObject_emits_valid_json_witness :
  let text := "{" ++ quoted "longitude" ++ ":12.5," ++ quoted "latitude" ++ ":55.1}" in
  completeGeoObject [] (plainField "loc" tPoint lonLat) pointValue "" = Ret (text, None)
  /\ json_Valid text = true.
Proof.
  intros text.
  assert (H : completeGeoObject [] (plainField "loc" tPoint lonLat) pointValue ""
              = Ret (text, None)) by reflexivity.
  split; [exact H|].
  destruct (completeGeoObject_emits_valid_json literalFloat [] _ _ _ _
              pointValue_shape H) as [_ Hv].
  exact Hv.
Defined.

Lemma pointValue_arity : geoArity literalFloat pointValue.
Proof.
  split; [intros _; cbn; lia|]. split; intros H; discriminate H.
Qed.

Lemma completeGeoObject_returns_on_full_points_witness :
  exists b e,
    completeGeoObject [] (plainField "loc" tPoint lonLat) pointValue "[" = Ret (b, e)
    /\ (e = None
        -> b = "[" ++ render (geoTree (plainField "loc" tPoint lonLat) pointValue))
    /\ (e <> None -> b = "[").
Proof.
  exact (completeGeoObject_returns_on_full_points literalFloat []
           (plainField "loc" tPoint lonLat) pointValue "[" pointValue_arity).
Defined.

Lemma loopBody_skipped_selection_witness :
  let sels := [skippedField "name" tString; plainField "age" tInt []] in
  let data := [leaf 2 false (quoted "Ann"); leaf 2 false (quoted "Bob");
               leaf 3 false "30"] in
  exists st',
    loopBody literalFloat sampleEnc (encodeGraphQL literalFloat 1 sampleEnc)
      (object 5 true []) 0 sels [] [] (initState literalFloat data "{" [])
    = Ret (Continue st')
    /\ i st' = 1 /\ lout st' = "{" /\ child st' = [leaf 3 false "30"].
Proof.
  intros sels data.
  destruct (loopBody_skipped_selection literalFloat sampleEnc
              (encodeGraphQL literalFloat 1 sampleEnc) (object 5 true []) 0%N sels [] []
              (initState literalFloat data "{" []) (leaf 2 false (quoted "Ann"))
              [leaf 2 false (quoted "Bob"); leaf 3 false "30"]
              (skippedField "name" tString) eq_refl eq_refl eq_refl)
    as [st' [Hb [Hi [_ [_ [Hout [_ [_ Hchild]]]]]]]].
  exists st'. split; [exact Hb|]. split; [exact Hi|].
  split; [apply Hout; cbn; lia|].
  destruct (Hchild eq_refl) as [Hc _]. exact Hc.
Defined.

Lemma loopBody_misaligned_witness :
  let sels := [plainField "name" tString []; plainField "age" tInt []] in
  let st := initState literalFloat [leaf 3 false "30"] "{" [] in
  exists st' sep,
    loopBody literalFloat sampleEnc (encodeGraphQL literalFloat 1 sampleEnc)
      (object 5 true []) 0 sels [] [] st = Ret (Continue st')
    /\ child st' = [leaf 3 false "30"]
    /\ lerrs st' = []
    /\ lout st' = ("{" ++ quoted "name" ++ ":") ++ "null" ++ sep
    /\ (sep = EmptyString \/ sep = ",").
Proof.
  intros sels st.
  destruct (loopBody_misaligned literalFloat sampleEnc
              (encodeGraphQL literalFloat 1 sampleEnc) (object 5 true []) 0%N sels [] []
              st (leaf 3 false "30") [] (plainField "name" tString [])
              ("{" ++ quoted "name" ++ ":") 8%Z false) as [_ Hnull];
    try reflexivity.
  - intros Hc. exfalso. apply Hc. reflexivity.
  - discriminate.
  - discriminate.
  - apply Hnull. right. reflexivity.
Defined.

Lemma loopBody_list_item_success_witness :
  let sel := plainField "scores" tListOfInt [] in
  let sels := [sel; plainField "age" tInt []] in
  let st := initState literalFloat [leaf 6 true "1"; leaf 6 true "2"; leaf 3 false "30"]
              "{" [] in
  exists st',
    loopBody literalFloat sampleEnc (encodeGraphQL literalFloat 1 sampleEnc)
      (object 5 true []) 0 sels [] [] st = Ret (Continue st')
    /\ child st' = [leaf 6 true "2"; leaf 3 false "30"]
    /\ lout st' = (("{" ++ quoted "scores" ++ ":[") ++ "1") ++ ","
    /\ i st' = 0 /\ cnt st' = 1.
Proof.
  intros sel sels st.
  destruct (loopBody_list_item_success literalFloat sampleEnc
              (encodeGraphQL literalFloat 1 sampleEnc) (object 5 true []) 0%N sels [] []
              st (leaf 6 true "1") [leaf 6 true "2"; leaf 3 false "30"] sel
              ("{" ++ quoted "scores" ++ ":[") 10%Z true
              {| res_ok := true; res_out := ("{" ++ quoted "scores" ++ ":[") ++ "1";
                 res_errs := [] |})
    as [st' [Hb [Hc [_ [Hmore _]]]]]; try reflexivity.
  - intros Hc. exfalso. apply Hc. reflexivity.
  - discriminate.
  - discriminate.
  - exists st'. split; [exact Hb|]. split; [exact Hc|].
    destruct (Hmore eq_refl) as [Ho [Hi Hn]]. auto.
Defined.

Lemma loopBody_single_value_witness :
  let sel := plainField "age" tInt [] in
  let st := initState literalFloat [leaf 3 false "30"] "{" [] in
  exists st' sep,
    loopBody literalFloat sampleEnc (encodeGraphQL literalFloat 1 sampleEnc)
      (object 5 true []) 0 [sel] [] [] st = Ret (Continue st')
    /\ child st' = [] /\ lerrs st' = []
    /\ lout st' = (("{" ++ quoted "age" ++ ":") ++ "30") ++ sep
    /\ (sep = EmptyString \/ sep = ",").
Proof.
  intros sel st.
  destruct (loopBody_single_value literalFloat 1 sampleEnc (object 5 true []) 0%N
              [sel] [] [] st (leaf 3 false "30") [] sel ("{" ++ quoted "age" ++ ":")
              7%Z false
              {| res_ok := true; res_out := ("{" ++ quoted "age" ++ ":") ++ "30";
                 res_errs := [] |}) as [Hsucc _]; try reflexivity.
  - intros Hc. exfalso. apply Hc. reflexivity.
  - discriminate.
  - left. reflexivity.
  - apply Hsucc. reflexivity.
Defined.

Lemma encodeGraphQL_appends_to_buffer_witness :
  let text := "{" ++ quoted "friends" ++ ":[{" ++ quoted "name" ++ ":" ++ quoted "Bob"
              ++ "},{" ++ quoted "name" ++ ":" ++ quoted "Eve" ++ "}],"
              ++ quoted "age" ++ ":30}" in
  encodeGraphQL literalFloat 6 sampleEnc friendsTree "[{}," [] 0 friendsSelection
    queryField []
  = Ret {| res_ok := true; res_out := "[{}," ++ text; res_errs := [] |}
  /\ exists t, "[{}," ++ text = "[{}," ++ "{" ++ t ++ "}".
Proof.
  intros text.
  assert (H : encodeGraphQL literalFloat 6 sampleEnc friendsTree "[{}," [] 0
                friendsSelection queryField []
              = Ret {| res_ok := true; res_out := "[{}," ++ text; res_errs := [] |})
    by reflexivity.
  split; [exact H|].
  destruct (encodeGraphQL_appends_to_buffer literalFloat 6 sampleEnc friendsTree _ _ _
              _ _ _ _ H) as [_ Hbraces].
  exact (Hbraces ltac:(discriminate) eq_refl).
Defined.

Definition typedTree : fastJsonNode :=
  object 1 false [leaf 8 false (quoted "Person"); leaf 7 false pointText].

Lemma typedTree_full : fullData literalFloat 8 typedTree.
Proof.
  assert (Hleaf : forall a v,
            (forall geoVal, json_Unmarshal literalFloat v = Some geoVal ->
                            geoArity literalFloat geoVal) ->
            fullData literalFloat 8 (leaf a false v)).
  { intros a v Hgeo. constructor.
    - intros val geoVal E. inversion E; subst. apply Hgeo.
    - intros c val [].
    - intros c []. }
  constructor.
  - intros val geoVal E. discriminate E.
  - intros c val [<-|[<-|[]]] Ha Hv.
    + inversion Hv; subst. vm_compute. lia.
    + discriminate Ha.
  - intros c [<-|[<-|[]]]; apply Hleaf.
    + intros geoVal Hu. vm_compute in Hu. discriminate Hu.
    + intros geoVal Hu. vm_compute in Hu. inversion Hu; subst.
      split; [intros _; cbn; lia|]. split; intros H; discriminate H.
Qed.

Lemma encodeGraphQL_does_not_panic_witness :
  encodeGraphQL literalFloat 4 sampleEnc typedTree "" [] 8
    [plainField "loc" tPoint lonLat] queryField []
  <> Abort RuntimePanic.
Proof.
  exact (encodeGraphQL_does_not_panic literalFloat 4 sampleEnc typedTree "" [] 8%N
           [plainField "loc" tPoint lonLat] queryField [] typedTree_full).
Defined.

Lemma harvestTypes_collects_names_witness :
  harvestTypes literalFloat 8 []
    ([leaf 8 false (quoted "Person"); leaf 8 false (quoted "Human")]
       ++ [leaf 2 false (quoted "Ann")])%list [] []
  = Ret ([leaf 2 false (quoted "Ann")], ([] ++ ["Person"; "Human"])%list, []).
Proof.
  apply (harvestTypes_collects_names literalFloat 8%N []
           [leaf 8 false (quoted "Person"); leaf 8 false (quoted "Human")]
           ["Person"; "Human"] [leaf 2 false (quoted "Ann")] [] []).
  - repeat (apply Forall2_cons; [split; reflexivity|]). apply Forall2_nil.
  - intros c rest E. inversion E; subst. discriminate.
Defined.

Lemma encodeGraphQL_short_type_panics_witness :
  encodeGraphQL literalFloat 3 sampleEnc
    (object 1 false [leaf 8 false (quoted "Person"); object 8 false [];
                     leaf 2 false (quoted "Ann")])
    "" [] 8 [plainField "name" tString []] queryField []
  = Abort RuntimePanic.
Proof.
  apply (encodeGraphQL_short_type_panics literalFloat 2 sampleEnc _ "" [] 8%N
           [plainField "name" tString []] queryField []
           [leaf 8 false (quoted "Person")] (object 8 false [])
           [leaf 2 false (quoted "Ann")] None).
  - reflexivity.
  - apply Forall_cons; [|apply Forall_nil]. split; [reflexivity|].
    intros v E. inversion E; subst. vm_compute. lia.
  - reflexivity.
  - reflexivity.
  - cbn. lia.
  - discriminate.
Defined.

Lemma mainLoop_repeats_before_a_run_witness :
  mainLoop literalFloat sampleEnc (encodeGraphQL literalFloat 5 sampleEnc) friendsTree 0
    typenameSelection [] [] 1000
    (initState literalFloat (children friendsTree) "{" [])
  = OutOfFuel.
Proof.
  apply (mainLoop_repeats_before_a_run literalFloat sampleEnc
           (encodeGraphQL literalFloat 5 sampleEnc) friendsTree 0%N typenameSelection
           [] [] (object 5 true [leaf 2 false (quoted "Bob")])
           (object 5 true [leaf 2 false (quoted "Eve")]) [leaf 3 false "30"]
           (plainField "__typename" tString []) 1000
           (initState literalFloat (children friendsTree) "{" [])).
  - intros Hc. exfalso. apply Hc. reflexivity.
  - reflexivity.
  - reflexivity.
  - reflexivity.
  - reflexivity.
  - left. reflexivity.
Defined.

Definition scoresEntries : list entry :=
  [{| e_sel := plainField "scores" tListOfInt [];
      e_items := [(leaf 6 true "1", "1"); (leaf 6 true "2", "2")] |};
   {| e_sel := plainField "age" tInt []; e_items := [(leaf 3 false "30", "30")] |}].

Lemma scoresEntries_ok :
  Forall (entryOK literalFloat sampleEnc (encodeGraphQL literalFloat 3 sampleEnc)
            (object 5 false []) 0 [] []) scoresEntries.
Proof.
  apply Forall_cons; [|apply Forall_cons; [|apply Forall_nil]].
  - split; [reflexivity|]. split; [discriminate|]. split; [discriminate|].
    split; [intros c c' [<-|[<-|[]]] [<-|[<-|[]]]; reflexivity|].
    split; [intros c [<-|[<-|[]]]; reflexivity|].
    intros k c t Hk.
    destruct k as [|[|k]]; cbn in Hk; inversion Hk; subst.
    + split; [reflexivity|]. intros o errs. reflexivity.
    + split; [reflexivity|]. intros o errs. reflexivity.
    + destruct k; discriminate.
  - split; [reflexivity|]. split; [discriminate|]. split; [discriminate|].
    split; [intros c c' [<-|[]] [<-|[]]; reflexivity|].
    split; [intros c [<-|[]]; reflexivity|].
    split; [reflexivity|].
    intros c t [E|[]]. inversion E; subst.
    split; [left; reflexivity|]. intros o errs. reflexivity.
Qed.

Lemma encodeGraphQL_object_of_entries_witness :
  encodeGraphQL literalFloat 4 sampleEnc
    (object 5 false [leaf 6 true "1"; leaf 6 true "2"; leaf 3 false "30"]) "" [] 0
    [plainField "scores" tListOfInt []; plainField "age" tInt [];
     plainField "name" tString []] queryField []
  = Ret {| res_ok := true;
           res_out := "{" ++ quoted "scores" ++ ":[1,2]," ++ quoted "age" ++ ":30,"
                      ++ quoted "name" ++ ":null}";
           res_errs := [] |}.
Proof.
  refine (encodeGraphQL_object_of_entries literalFloat 3 sampleEnc
            (object 5 false [leaf 6 true "1"; leaf 6 true "2"; leaf 3 false "30"])
            "" [] [] 0%N queryField [] [] scoresEntries []
            [plainField "name" tString []] _ _ _ _ _ _ _ _).
  - discriminate.
  - discriminate.
  - reflexivity.
  - exact scoresEntries_ok.
  - cbn. intuition (subst; reflexivity).
  - left. reflexivity.
  - reflexivity.
  - cbn. lia.
Defined.

Lemma loopBody_progress_witness :
  let st := initState literalFloat [leaf 3 false "30"] "{" [] in
  let st' : loopState literalFloat :=
    {| child := []; cnt := 0; i := 1; keyEndPos := 7; curSelectionIsList := false;
       lout := "{" ++ quoted "age" ++ ":30"; lerrs := [] |} in
  loopBody literalFloat sampleEnc (encodeGraphQL literalFloat 1 sampleEnc)
    (object 5 true []) 0 [plainField "age" tInt []] [] [] st = Ret (Continue st')
  /\ ((i st' = S (i st) /\ List.length (child st') <= List.length (child st))
      \/ (i st' = i st /\ List.length (child st') < List.length (child st))
      \/ (i st' = i st /\ child st' = child st
          /\ exists cur n rest curSelection,
               child st = cur :: n :: rest
               /\ getAttr cur = getAttr n
               /\ nth_error [plainField "age" tInt []] (i st) = Some curSelection
               /\ (Name curSelection = Typename
                   \/ DgraphAlias curSelection <> attrForID sampleEnc (getAttr cur)))).
Proof.
  intros st st'.
  assert (H : loopBody literalFloat sampleEnc (encodeGraphQL literalFloat 1 sampleEnc)
                (object 5 true []) 0 [plainField "age" tInt []] [] [] st
              = Ret (Continue st')) by reflexivity.
  split; [exact H|].
  exact (loopBody_progress literalFloat sampleEnc (encodeGraphQL literalFloat 1 sampleEnc)
           (object 5 true []) 0%N [plainField "age" tInt []] [] [] st st' H).
Defined.

Lemma encodeGraphQL_failure_adds_error_witness :
  let tree := object 1 false [leaf 2 false (quoted "Ann")] in
  let sels := [plainField "name" tString []; plainField "age" tIntNonNull []] in
  let missing : GqlError literalFloat :=
    errExpectedNonNull literalFloat [] (plainField "age" tIntNonNull []) in
  encodeGraphQL literalFloat 3 sampleEnc tree "" [] 0 sels queryField []
  = Ret {| res_ok := false;
           res_out := "{" ++ quoted "name" ++ ":" ++ quoted "Ann" ++ ","
                      ++ quoted "age" ++ ":";
           res_errs := [missing] |}
  /\ exists e errs, [missing] = ([] ++ e :: errs)%list.
Proof.
  intros tree sels missing.
  assert (H : encodeGraphQL literalFloat 3 sampleEnc tree "" [] 0 sels queryField []
              = Ret {| res_ok := false;
                       res_out := "{" ++ quoted "name" ++ ":" ++ quoted "Ann" ++ ","
                                  ++ quoted "age" ++ ":";
                       res_errs := [missing] |}) by reflexivity.
  split; [exact H|].
  refine (encodeGraphQL_failure_adds_error literalFloat 3 sampleEnc tree "" [] 0%N sels
            queryField [] _ _ H eq_refl).
  constructor.
  - discriminate.
  - intros c [<-|[]]. constructor.
    + intros _. discriminate.
    + intros c [].
Defined.

Lemma encodeGraphQL_errors_below_path_witness :
  let earlier : GqlError literalFloat :=
    GqlErrorf (plainField "q" tInt []) [PathName "other"] "earlier" [] in
  let unreadable : GqlError literalFloat :=
    GqlErrorf (plainField "age" tInt []) [PathName "q"; PathName "age"]
      "unreadable" [] in
  encodeGraphQL literalFloat 3 sampleEnc (object 1 false [failingLeaf 3 false])
    "" [earlier] 0 [plainField "age" tInt []] queryField [PathName "q"]
  = Ret {| res_ok := true; res_out := "{" ++ quoted "age" ++ ":null}";
           res_errs := [earlier; unreadable] |}
  /\ exists errs,
       [earlier; unreadable] = ([earlier] ++ errs)%list
       /\ Forall (fun e => exists rest,
                            ErrPath literalFloat e = ([PathName "q"] ++ rest)%list) errs.
Proof.
  intros earlier unreadable.
  assert (H : encodeGraphQL literalFloat 3 sampleEnc
                (object 1 false [failingLeaf 3 false]) "" [earlier] 0
                [plainField "age" tInt []] queryField [PathName "q"]
              = Ret {| res_ok := true; res_out := "{" ++ quoted "age" ++ ":null}";
                       res_errs := [earlier; unreadable] |})
    by reflexivity.
  split; [exact H|].
  exact (encodeGraphQL_errors_below_path literalFloat 3 sampleEnc _ _ _ _ _ _ _ _ H).
Defined.

Lemma encodeGraphQL_object_of_scalars_witness :
  encodeGraphQL literalFloat 5 sampleEnc
    (object 5 false [leaf 6 true "1"; leaf 6 true "2"; leaf 3 false "30"]) "" [] 0
    [plainField "scores" tListOfInt []; plainField "age" tInt []] queryField []
  = Ret {| res_ok := true;
           res_out := "{" ++ quoted "scores" ++ ":[1,2]," ++ quoted "age" ++ ":30}";
           res_errs := [] |}.
Proof.
  refine (encodeGraphQL_object_of_scalars literalFloat 3 sampleEnc
            (object 5 false [leaf 6 true "1"; leaf 6 true "2"; leaf 3 false "30"])
            "" [] [] 0%N queryField [] [] scoresEntries _ _ _ _ _ _).
  - discriminate.
  - discriminate.
  - reflexivity.
  - apply Forall_cons; [|apply Forall_cons; [|apply Forall_nil]].
    + split; [reflexivity|]. split; [discriminate|]. split; [reflexivity|].
      split; [discriminate|].
      split; [intros c c' [<-|[<-|[]]] [<-|[<-|[]]]; reflexivity|].
      split; [|discriminate].
      intros c t [E|[E|[]]]; inversion E; subst; repeat split; reflexivity.
    + split; [reflexivity|]. split; [discriminate|]. split; [reflexivity|].
      split; [discriminate|].
      split; [intros c c' [<-|[]] [<-|[]]; reflexivity|].
      split; [|reflexivity].
      intros c t [E|[]]; inversion E; subst; repeat split; reflexivity.
  - cbn. intuition (subst; reflexivity).
  - cbn. lia.
Defined.
